(** * ReactUpdateQueue: the prioritised update queue of the reconciler

    A shallow embedding of [packages/react-reconciler/src/ReactUpdateQueue.js].

    The JavaScript heap is split into three stores, one per kind of object
    the module touches: update records, queue headers and fibers.  A
    reference is an address into the matching store; [null] is [None].  A
    JavaScript reference always denotes a live object, so reads are total:
    an address that was never allocated reads as a blank record.  State
    values ([memoizedState], [baseState], payloads, props) are immutable
    trees here; [Module ObjectStore] refines [getStateFromUpdate] with object
    identity for the aliasing question.

    The module is modelled as a production build: the [__DEV__] blocks
    (warnings, the double invocation of updater functions, the
    [currentlyProcessingQueue] pointer) are not part of the model. *)

From stdpp Require Import gmap strings list fin_maps pretty.

Local Open Scope Z_scope.

(** ** State values *)

#[warnings="-register-all"]
Inductive Value :=
  | VUndefined
  | VNull
  | VBool (b : bool)
  | VNum (z : Z)
  | VStr (s : string)
  | VObj (fields : gmap string Value).

(** [update.payload] has type [any]; what the code asks of it is
    [typeof payload === 'function'].  An updater function is called as
    [payload.call(instance, prevState, nextProps)]. *)
Inductive Payload :=
  | PFun (f : Value -> Value -> Value -> Value)
  | PVal (v : Value).

(** [update.callback], when it is not [null].  [callCallback] asks for
    [typeof callback === 'function']; a function is known by its name and by
    whether its body throws.  The body is the caller's code and no part of
    this module: it is taken to return or throw without writing update
    records, queues or fibers; an update that a callback schedules is a
    later [enqueueUpdate] call. *)
Inductive CallbackFn :=
  | CbFunction (name : nat) (throws : bool)
  | CbInvalid (v : Value).

(** ** Records *)

Record Update := mkUpdate {
  expirationTime : Z;
  tag : Z;
  payload : Payload;
  callback : option CallbackFn;
  next : option nat;
  nextEffect : option nat;
}.

Record UpdateQueue := mkUpdateQueue {
  baseState : Value;
  firstUpdate : option nat;
  lastUpdate : option nat;
  firstCapturedUpdate : option nat;
  lastCapturedUpdate : option nat;
  firstEffect : option nat;
  lastEffect : option nat;
  firstCapturedEffect : option nat;
  lastCapturedEffect : option nat;
}.

(** The fields of a [Fiber] (from [./ReactFiber]) that the module reads or
    writes outside [__DEV__]. *)
Record Fiber := mkFiber {
  alternate : option nat;
  updateQueue : option nat;
  memoizedState : Value;
  fiberExpirationTime : Z;
  effectTag : Z;
}.

(** What a callback finds when it is invoked: its receiver and the update
    records as they are at that moment. *)
Record CallEvent := mkCallEvent {
  callee : nat;
  receiver : Value;
  seen : gmap nat Update;
}.

Record Heap := mkHeap {
  updates : gmap nat Update;
  queues : gmap nat UpdateQueue;
  fibers : gmap nat Fiber;
  hasForceUpdate : bool;
  calls : list CallEvent;
}.

Definition blankUpdate : Update :=
  mkUpdate 0 0 (PVal VNull) None None None.
Definition blankQueue : UpdateQueue :=
  mkUpdateQueue VUndefined None None None None None None None None.
Definition blankFiber : Fiber :=
  mkFiber None None VNull 0 0.

#[global] Instance Update_inhabited : Inhabited Update := populate blankUpdate.
#[global] Instance UpdateQueue_inhabited : Inhabited UpdateQueue := populate blankQueue.
#[global] Instance Fiber_inhabited : Inhabited Fiber := populate blankFiber.

Definition emptyHeap : Heap := mkHeap ∅ ∅ ∅ false [].

(** ** Reading and writing fields *)

Definition upd (h : Heap) (u : nat) : Update := updates h !!! u.
Definition que (h : Heap) (q : nat) : UpdateQueue := queues h !!! q.
Definition fib (h : Heap) (f : nat) : Fiber := fibers h !!! f.

Definition putUpdate (u : nat) (r : Update) (h : Heap) : Heap :=
  mkHeap (<[u := r]> (updates h)) (queues h) (fibers h) (hasForceUpdate h) (calls h).
Definition putQueue (q : nat) (r : UpdateQueue) (h : Heap) : Heap :=
  mkHeap (updates h) (<[q := r]> (queues h)) (fibers h) (hasForceUpdate h) (calls h).
Definition putFiber (f : nat) (r : Fiber) (h : Heap) : Heap :=
  mkHeap (updates h) (queues h) (<[f := r]> (fibers h)) (hasForceUpdate h) (calls h).
Definition set_hasForceUpdate (b : bool) (h : Heap) : Heap :=
  mkHeap (updates h) (queues h) (fibers h) b (calls h).
Definition logCall (e : CallEvent) (h : Heap) : Heap :=
  mkHeap (updates h) (queues h) (fibers h) (hasForceUpdate h) (calls h ++ [e]).

(** An assignment [object.field = v] rewrites the record at the object's
    address. *)
Definition alterUpdate (u : nat) (f : Update -> Update) (h : Heap) : Heap :=
  putUpdate u (f (upd h u)) h.
Definition alterQueue (q : nat) (f : UpdateQueue -> UpdateQueue) (h : Heap) : Heap :=
  putQueue q (f (que h q)) h.
Definition alterFiber (x : nat) (f : Fiber -> Fiber) (h : Heap) : Heap :=
  putFiber x (f (fib h x)) h.

Definition withTag (v : Z) (r : Update) : Update :=
  mkUpdate (expirationTime r) v (payload r) (callback r) (next r) (nextEffect r).
Definition withPayload (v : Payload) (r : Update) : Update :=
  mkUpdate (expirationTime r) (tag r) v (callback r) (next r) (nextEffect r).
Definition withCallback (v : option CallbackFn) (r : Update) : Update :=
  mkUpdate (expirationTime r) (tag r) (payload r) v (next r) (nextEffect r).
Definition withNext (v : option nat) (r : Update) : Update :=
  mkUpdate (expirationTime r) (tag r) (payload r) (callback r) v (nextEffect r).
Definition withNextEffect (v : option nat) (r : Update) : Update :=
  mkUpdate (expirationTime r) (tag r) (payload r) (callback r) (next r) v.

Definition withBaseState (v : Value) (r : UpdateQueue) : UpdateQueue :=
  mkUpdateQueue v (firstUpdate r) (lastUpdate r) (firstCapturedUpdate r) (lastCapturedUpdate r) (firstEffect r) (lastEffect r) (firstCapturedEffect r) (lastCapturedEffect r).
Definition withFirstUpdate (v : option nat) (r : UpdateQueue) : UpdateQueue :=
  mkUpdateQueue (baseState r) v (lastUpdate r) (firstCapturedUpdate r) (lastCapturedUpdate r) (firstEffect r) (lastEffect r) (firstCapturedEffect r) (lastCapturedEffect r).
Definition withLastUpdate (v : option nat) (r : UpdateQueue) : UpdateQueue :=
  mkUpdateQueue (baseState r) (firstUpdate r) v (firstCapturedUpdate r) (lastCapturedUpdate r) (firstEffect r) (lastEffect r) (firstCapturedEffect r) (lastCapturedEffect r).
Definition withFirstCapturedUpdate (v : option nat) (r : UpdateQueue) : UpdateQueue :=
  mkUpdateQueue (baseState r) (firstUpdate r) (lastUpdate r) v (lastCapturedUpdate r) (firstEffect r) (lastEffect r) (firstCapturedEffect r) (lastCapturedEffect r).
Definition withLastCapturedUpdate (v : option nat) (r : UpdateQueue) : UpdateQueue :=
  mkUpdateQueue (baseState r) (firstUpdate r) (lastUpdate r) (firstCapturedUpdate r) v (firstEffect r) (lastEffect r) (firstCapturedEffect r) (lastCapturedEffect r).
Definition withFirstEffect (v : option nat) (r : UpdateQueue) : UpdateQueue :=
  mkUpdateQueue (baseState r) (firstUpdate r) (lastUpdate r) (firstCapturedUpdate r) (lastCapturedUpdate r) v (lastEffect r) (firstCapturedEffect r) (lastCapturedEffect r).
Definition withLastEffect (v : option nat) (r : UpdateQueue) : UpdateQueue :=
  mkUpdateQueue (baseState r) (firstUpdate r) (lastUpdate r) (firstCapturedUpdate r) (lastCapturedUpdate r) (firstEffect r) v (firstCapturedEffect r) (lastCapturedEffect r).
Definition withFirstCapturedEffect (v : option nat) (r : UpdateQueue) : UpdateQueue :=
  mkUpdateQueue (baseState r) (firstUpdate r) (lastUpdate r) (firstCapturedUpdate r) (lastCapturedUpdate r) (firstEffect r) (lastEffect r) v (lastCapturedEffect r).
Definition withLastCapturedEffect (v : option nat) (r : UpdateQueue) : UpdateQueue :=
  mkUpdateQueue (baseState r) (firstUpdate r) (lastUpdate r) (firstCapturedUpdate r) (lastCapturedUpdate r) (firstEffect r) (lastEffect r) (firstCapturedEffect r) v.

Definition withUpdateQueue (v : option nat) (r : Fiber) : Fiber :=
  mkFiber (alternate r) v (memoizedState r) (fiberExpirationTime r) (effectTag r).
Definition withMemoizedState (v : Value) (r : Fiber) : Fiber :=
  mkFiber (alternate r) (updateQueue r) v (fiberExpirationTime r) (effectTag r).
Definition withFiberExpirationTime (v : Z) (r : Fiber) : Fiber :=
  mkFiber (alternate r) (updateQueue r) (memoizedState r) v (effectTag r).
Definition withEffectTag (v : Z) (r : Fiber) : Fiber :=
  mkFiber (alternate r) (updateQueue r) (memoizedState r) (fiberExpirationTime r) v.

Definition set_callback (u : nat) (v : option CallbackFn) (h : Heap) : Heap :=
  alterUpdate u (withCallback v) h.
Definition set_next (u : nat) (v : option nat) (h : Heap) : Heap :=
  alterUpdate u (withNext v) h.
Definition set_nextEffect (u : nat) (v : option nat) (h : Heap) : Heap :=
  alterUpdate u (withNextEffect v) h.
Definition set_baseState (q : nat) (v : Value) (h : Heap) : Heap :=
  alterQueue q (withBaseState v) h.
Definition set_firstUpdate (q : nat) (v : option nat) (h : Heap) : Heap :=
  alterQueue q (withFirstUpdate v) h.
Definition set_lastUpdate (q : nat) (v : option nat) (h : Heap) : Heap :=
  alterQueue q (withLastUpdate v) h.
Definition set_firstCapturedUpdate (q : nat) (v : option nat) (h : Heap) : Heap :=
  alterQueue q (withFirstCapturedUpdate v) h.
Definition set_lastCapturedUpdate (q : nat) (v : option nat) (h : Heap) : Heap :=
  alterQueue q (withLastCapturedUpdate v) h.
Definition set_firstEffect (q : nat) (v : option nat) (h : Heap) : Heap :=
  alterQueue q (withFirstEffect v) h.
Definition set_lastEffect (q : nat) (v : option nat) (h : Heap) : Heap :=
  alterQueue q (withLastEffect v) h.
Definition set_firstCapturedEffect (q : nat) (v : option nat) (h : Heap) : Heap :=
  alterQueue q (withFirstCapturedEffect v) h.
Definition set_lastCapturedEffect (q : nat) (v : option nat) (h : Heap) : Heap :=
  alterQueue q (withLastCapturedEffect v) h.
Definition set_updateQueue (x : nat) (v : option nat) (h : Heap) : Heap :=
  alterFiber x (withUpdateQueue v) h.
Definition set_memoizedState (x : nat) (v : Value) (h : Heap) : Heap :=
  alterFiber x (withMemoizedState v) h.
Definition set_fiberExpirationTime (x : nat) (v : Z) (h : Heap) : Heap :=
  alterFiber x (withFiberExpirationTime v) h.
Definition set_effectTag (x : nat) (v : Z) (h : Heap) : Heap :=
  alterFiber x (withEffectTag v) h.

(** ** JavaScript operators the module uses *)

(** The bitwise operators work on 32-bit signed integers. *)
Definition toInt32 (z : Z) : Z := (z + 2 ^ 31) mod 2 ^ 32 - 2 ^ 31.
Definition bitAnd (a b : Z) : Z := toInt32 (Z.land (toInt32 a) (toInt32 b)).
Definition bitOr (a b : Z) : Z := toInt32 (Z.lor (toInt32 a) (toInt32 b)).
Definition bitNot (a : Z) : Z := toInt32 (Z.lnot (toInt32 a)).

(** Own enumerable properties of a source of [Object.assign]: those of an
    object, the indexed characters of a string, none for the other
    primitives ([null] and [undefined] are skipped). *)
Fixpoint stringProps (i : nat) (s : string) : gmap string Value :=
  match s with
  | EmptyString => ∅
  | String c s' => <[pretty i := VStr (String c EmptyString)]> (stringProps (S i) s')
  end.

Definition ownProps (v : Value) : gmap string Value :=
  match v with
  | VObj fields => fields
  | VStr s => stringProps 0 s
  | _ => ∅
  end.

(** [Object.assign({}, s1, ..., sn)]: later sources win. *)
Definition Object_assign (sources : list Value) : Value :=
  VObj (foldl (fun target src => ownProps src ∪ target) ∅ sources).

(** ** Constants of the module *)

Definition UpdateState : Z := 0.
Definition ReplaceState : Z := 1.
Definition ForceUpdate : Z := 2.
Definition CaptureUpdate : Z := 3.

(** Constants the module imports from files that are not part of the
    sources at hand: [NoWork] from [./ReactFiberExpirationTime], the effect
    bits from [shared/ReactSideEffectTags]. *)
Class Imports := {
  NoWork : Z;
  Callback : Z;
  ShouldCapture : Z;
  DidCapture : Z;
}.

(** Local variables of [processUpdateQueue] that its two loops carry. *)
Record Locals := mkLocals {
  newBaseState : Value;
  newFirstUpdate : option nat;
  newFirstCapturedUpdate : option nat;
  newExpirationTime : Z;
  resultState : Value;
}.

(** How a call that may throw ends. *)
Inductive Completion := Normal | Thrown.

Section UpdateQueue.
Context `{Imports}.

Definition createUpdateQueue (baseState : Value) (h : Heap) : nat * Heap :=
  let queue := fresh (dom (queues h)) in
  (queue, putQueue queue (mkUpdateQueue baseState None None None None None None None None) h).

Definition cloneUpdateQueue (currentQueue : nat) (h : Heap) : nat * Heap :=
  let queue := fresh (dom (queues h)) in
  (queue, putQueue queue
     (mkUpdateQueue (baseState (que h currentQueue))
        (firstUpdate (que h currentQueue)) (lastUpdate (que h currentQueue))
        None None None None None None) h).

Definition createUpdate (expirationTime : Z) (h : Heap) : nat * Heap :=
  let update := fresh (dom (updates h)) in
  (update, putUpdate update (mkUpdate expirationTime UpdateState (PVal VNull) None None None) h).

Definition appendUpdateToQueue (queue update : nat) (h : Heap) : Heap :=
  match lastUpdate (que h queue) with
  | None =>
      let h := set_lastUpdate queue (Some update) h in
      set_firstUpdate queue (Some update) h
  | Some last =>
      let h := set_next last (Some update) h in
      set_lastUpdate queue (Some update) h
  end.

Definition enqueueUpdate (fiber update : nat) (h : Heap) : Heap :=
  let alternate := alternate (fib h fiber) in
  let '(queue1, queue2, h) :=
    match alternate with
    | None =>
        let queue1 := updateQueue (fib h fiber) in
        match queue1 with
        | None =>
            let '(q, h) := createUpdateQueue (memoizedState (fib h fiber)) h in
            (q, None, set_updateQueue fiber (Some q) h)
        | Some q1 => (q1, None, h)
        end
    | Some alternate =>
        let queue1 := updateQueue (fib h fiber) in
        let queue2 := updateQueue (fib h alternate) in
        match queue1, queue2 with
        | None, None =>
            let '(q1, h) := createUpdateQueue (memoizedState (fib h fiber)) h in
            let h := set_updateQueue fiber (Some q1) h in
            let '(q2, h) := createUpdateQueue (memoizedState (fib h alternate)) h in
            let h := set_updateQueue alternate (Some q2) h in
            (q1, Some q2, h)
        | None, Some q2 =>
            let '(q1, h) := cloneUpdateQueue q2 h in
            (q1, Some q2, set_updateQueue fiber (Some q1) h)
        | Some q1, None =>
            let '(q2, h) := cloneUpdateQueue q1 h in
            (q1, Some q2, set_updateQueue alternate (Some q2) h)
        | Some q1, Some q2 => (q1, Some q2, h)
        end
    end in
  match queue2 with
  | None => appendUpdateToQueue queue1 update h
  | Some queue2 =>
      if decide (queue1 = queue2) then appendUpdateToQueue queue1 update h
      else
        match lastUpdate (que h queue1), lastUpdate (que h queue2) with
        | Some _, Some _ =>
            let h := appendUpdateToQueue queue1 update h in
            set_lastUpdate queue2 (Some update) h
        | _, _ =>
            let h := appendUpdateToQueue queue1 update h in
            appendUpdateToQueue queue2 update h
        end
  end.

Definition ensureWorkInProgressQueueIsAClone (workInProgress queue : nat) (h : Heap)
  : nat * Heap :=
  match alternate (fib h workInProgress) with
  | Some current =>
      if decide (Some queue = updateQueue (fib h current)) then
        let '(q, h) := cloneUpdateQueue queue h in
        (q, set_updateQueue workInProgress (Some q) h)
      else (queue, h)
  | None => (queue, h)
  end.

Definition enqueueCapturedUpdate (workInProgress update : nat) (h : Heap) : Heap :=
  let '(workInProgressQueue, h) :=
    match updateQueue (fib h workInProgress) with
    | None =>
        let '(q, h) := createUpdateQueue (memoizedState (fib h workInProgress)) h in
        (q, set_updateQueue workInProgress (Some q) h)
    | Some q => ensureWorkInProgressQueueIsAClone workInProgress q h
    end in
  match lastCapturedUpdate (que h workInProgressQueue) with
  | None =>
      let h := set_lastCapturedUpdate workInProgressQueue (Some update) h in
      set_firstCapturedUpdate workInProgressQueue (Some update) h
  | Some last =>
      let h := set_next last (Some update) h in
      set_lastCapturedUpdate workInProgressQueue (Some update) h
  end.

Definition callPayload (p : Payload) (instance prevState nextProps : Value) : Value :=
  match p with
  | PFun f => f instance prevState nextProps
  | PVal v => v
  end.

Definition getStateFromUpdate (workInProgress queue update : nat)
    (prevState nextProps instance : Value) (h : Heap) : Value * Heap :=
  let u := upd h update in
  if tag u =? ReplaceState then
    (callPayload (payload u) instance prevState nextProps, h)
  else if (tag u =? CaptureUpdate) || (tag u =? UpdateState) then
    let h :=
      if tag u =? CaptureUpdate then
        set_effectTag workInProgress
          (bitOr (bitAnd (effectTag (fib h workInProgress)) (bitNot ShouldCapture)) DidCapture) h
      else h in
    let partialState := callPayload (payload u) instance prevState nextProps in
    match partialState with
    | VNull | VUndefined => (prevState, h)
    | _ => (Object_assign [prevState; partialState], h)
    end
  else if tag u =? ForceUpdate then
    (prevState, set_hasForceUpdate true h)
  else (prevState, h).

(** The two places where a loop of [processUpdateQueue] appends [update] to
    an effect list of [queue]: [firstEffect]/[lastEffect] in the first loop,
    [firstCapturedEffect]/[lastCapturedEffect] in the second. *)
Definition pushEffect (queue update : nat) (h : Heap) : Heap :=
  let h := set_nextEffect update None h in
  match lastEffect (que h queue) with
  | None =>
      let h := set_lastEffect queue (Some update) h in
      set_firstEffect queue (Some update) h
  | Some last =>
      let h := set_nextEffect last (Some update) h in
      set_lastEffect queue (Some update) h
  end.

Definition pushCapturedEffect (queue update : nat) (h : Heap) : Heap :=
  let h := set_nextEffect update None h in
  match lastCapturedEffect (que h queue) with
  | None =>
      let h := set_lastCapturedEffect queue (Some update) h in
      set_firstCapturedEffect queue (Some update) h
  | Some last =>
      let h := set_nextEffect last (Some update) h in
      set_lastCapturedEffect queue (Some update) h
  end.

(** The first [while] loop of [processUpdateQueue], over the normal list.
    [fuel] bounds the number of iterations; [None] is a loop that has not
    ended within it. *)
Fixpoint processUpdates (fuel : nat) (workInProgress queue : nat)
    (props instance : Value) (renderExpirationTime : Z)
    (update : option nat) (l : Locals) (h : Heap) : option (Locals * Heap) :=
  match update with
  | None => Some (l, h)
  | Some update =>
      match fuel with
      | O => None
      | S fuel =>
          let updateExpirationTime := expirationTime (upd h update) in
          let '(l, h) :=
            if updateExpirationTime <? renderExpirationTime then
              let l :=
                match newFirstUpdate l with
                | None =>
                    mkLocals (resultState l) (Some update) (newFirstCapturedUpdate l)
                      (newExpirationTime l) (resultState l)
                | Some _ => l
                end in
              let l :=
                if newExpirationTime l <? updateExpirationTime then
                  mkLocals (newBaseState l) (newFirstUpdate l) (newFirstCapturedUpdate l)
                    updateExpirationTime (resultState l)
                else l in
              (l, h)
            else
              let '(s, h) :=
                getStateFromUpdate workInProgress queue update (resultState l)
                  props instance h in
              let l :=
                mkLocals (newBaseState l) (newFirstUpdate l) (newFirstCapturedUpdate l)
                  (newExpirationTime l) s in
              match callback (upd h update) with
              | Some _ =>
                  let h :=
                    set_effectTag workInProgress
                      (bitOr (effectTag (fib h workInProgress)) Callback) h in
                  (l, pushEffect queue update h)
              | None => (l, h)
              end in
          processUpdates fuel workInProgress queue props instance renderExpirationTime
            (next (upd h update)) l h
      end
  end.

(** The second [while] loop, over the captured list. *)
Fixpoint processCapturedUpdates (fuel : nat) (workInProgress queue : nat)
    (props instance : Value) (renderExpirationTime : Z)
    (update : option nat) (l : Locals) (h : Heap) : option (Locals * Heap) :=
  match update with
  | None => Some (l, h)
  | Some update =>
      match fuel with
      | O => None
      | S fuel =>
          let updateExpirationTime := expirationTime (upd h update) in
          let '(l, h) :=
            if updateExpirationTime <? renderExpirationTime then
              let l :=
                match newFirstCapturedUpdate l with
                | None =>
                    mkLocals
                      (match newFirstUpdate l with
                       | None => resultState l
                       | Some _ => newBaseState l
                       end)
                      (newFirstUpdate l) (Some update)
                      (newExpirationTime l) (resultState l)
                | Some _ => l
                end in
              let l :=
                if newExpirationTime l <? updateExpirationTime then
                  mkLocals (newBaseState l) (newFirstUpdate l) (newFirstCapturedUpdate l)
                    updateExpirationTime (resultState l)
                else l in
              (l, h)
            else
              let '(s, h) :=
                getStateFromUpdate workInProgress queue update (resultState l)
                  props instance h in
              let l :=
                mkLocals (newBaseState l) (newFirstUpdate l) (newFirstCapturedUpdate l)
                  (newExpirationTime l) s in
              match callback (upd h update) with
              | Some _ =>
                  let h :=
                    set_effectTag workInProgress
                      (bitOr (effectTag (fib h workInProgress)) Callback) h in
                  (l, pushCapturedEffect queue update h)
              | None => (l, h)
              end in
          processCapturedUpdates fuel workInProgress queue props instance
            renderExpirationTime (next (upd h update)) l h
      end
  end.

Definition processUpdateQueue (fuel : nat) (workInProgress queue : nat)
    (props instance : Value) (renderExpirationTime : Z) (h : Heap) : option Heap :=
  let h := set_hasForceUpdate false h in
  let '(queue, h) := ensureWorkInProgressQueueIsAClone workInProgress queue h in
  let l := mkLocals (baseState (que h queue)) None None NoWork (baseState (que h queue)) in
  match processUpdates fuel workInProgress queue props instance renderExpirationTime
          (firstUpdate (que h queue)) l h with
  | None => None
  | Some (l, h) =>
      match processCapturedUpdates fuel workInProgress queue props instance
              renderExpirationTime (firstCapturedUpdate (que h queue)) l h with
      | None => None
      | Some (l, h) =>
          let h :=
            match newFirstUpdate l with
            | None => set_lastUpdate queue None h
            | Some _ => h
            end in
          let h :=
            match newFirstCapturedUpdate l with
            | None => set_lastCapturedUpdate queue None h
            | Some _ =>
                set_effectTag workInProgress
                  (bitOr (effectTag (fib h workInProgress)) Callback) h
            end in
          let newBaseState :=
            match newFirstUpdate l, newFirstCapturedUpdate l with
            | None, None => resultState l
            | _, _ => newBaseState l
            end in
          let h := set_baseState queue newBaseState h in
          let h := set_firstUpdate queue (newFirstUpdate l) h in
          let h := set_firstCapturedUpdate queue (newFirstCapturedUpdate l) h in
          let h := set_fiberExpirationTime workInProgress (newExpirationTime l) h in
          let h := set_memoizedState workInProgress (resultState l) h in
          Some h
      end
  end.

(** [invariant(typeof callback === 'function', ...)] throws for anything
    else; a function is called with [context] as its receiver.  The call
    is recorded in the log with what the callback finds; its body writes
    nothing here. *)
Definition callCallback (callback : CallbackFn) (context : Value) (h : Heap)
  : Completion * Heap :=
  match callback with
  | CbInvalid _ => (Thrown, h)
  | CbFunction name throws =>
      let h := logCall (mkCallEvent name context (updates h)) h in
      (if throws then Thrown else Normal, h)
  end.

Definition resetHasForceUpdateBeforeProcessing (h : Heap) : Heap :=
  set_hasForceUpdate false h.

Definition checkHasForceUpdateAfterProcessing (h : Heap) : bool :=
  hasForceUpdate h.

Fixpoint commitUpdateEffects (fuel : nat) (effect : option nat) (instance : Value)
    (h : Heap) : option (Completion * Heap) :=
  match effect with
  | None => Some (Normal, h)
  | Some effect =>
      match fuel with
      | O => None
      | S fuel =>
          match callback (upd h effect) with
          | Some callback =>
              let h := set_callback effect None h in
              match callCallback callback instance h with
              | (Thrown, h) => Some (Thrown, h)
              | (Normal, h) =>
                  commitUpdateEffects fuel (nextEffect (upd h effect)) instance h
              end
          | None => commitUpdateEffects fuel (nextEffect (upd h effect)) instance h
          end
      end
  end.

Definition commitUpdateQueue (fuel : nat) (finishedWork finishedQueue : nat)
    (instance : Value) (renderExpirationTime : Z) (h : Heap)
  : option (Completion * Heap) :=
  let h :=
    match firstCapturedUpdate (que h finishedQueue) with
    | Some firstCaptured =>
        let h :=
          match lastUpdate (que h finishedQueue) with
          | Some last =>
              let h := set_next last (Some firstCaptured) h in
              set_lastUpdate finishedQueue (lastCapturedUpdate (que h finishedQueue)) h
          | None => h
          end in
        let h := set_lastCapturedUpdate finishedQueue None h in
        set_firstCapturedUpdate finishedQueue None h
    | None => h
    end in
  match commitUpdateEffects fuel (firstEffect (que h finishedQueue)) instance h with
  | None => None
  | Some (Thrown, h) => Some (Thrown, h)
  | Some (Normal, h) =>
      let h := set_lastEffect finishedQueue None h in
      let h := set_firstEffect finishedQueue None h in
      match commitUpdateEffects fuel (firstCapturedEffect (que h finishedQueue)) instance h with
      | None => None
      | Some (Thrown, h) => Some (Thrown, h)
      | Some (Normal, h) =>
          let h := set_lastCapturedEffect finishedQueue None h in
          let h := set_firstCapturedEffect finishedQueue None h in
          Some (Normal, h)
      end
  end.

End UpdateQueue.

(** ** How callers schedule an update

    [scheduleRootUpdate] creates the record with [createUpdate], assigns the
    fields it needs and hands the record to [enqueueUpdate]. *)

Definition set_tag (u : nat) (v : Z) (h : Heap) : Heap :=
  alterUpdate u (withTag v) h.
Definition set_payload (u : nat) (v : Payload) (h : Heap) : Heap :=
  alterUpdate u (withPayload v) h.

Definition enqueueNewUpdate (fiber : nat) (expirationTime tag : Z) (payload : Payload)
    (callback : option CallbackFn) (h : Heap) : nat * Heap :=
  let '(update, h) := createUpdate expirationTime h in
  let h := set_tag update tag h in
  let h := set_payload update payload h in
  let h := set_callback update callback h in
  (update, enqueueUpdate fiber update h).

(** ** Vocabulary of the statements *)

(** The state that [getStateFromUpdate] returns, as a function of the record. *)
Definition applyUpdate (r : Update) (prevState nextProps instance : Value) : Value :=
  if tag r =? ReplaceState then callPayload (payload r) instance prevState nextProps
  else if (tag r =? CaptureUpdate) || (tag r =? UpdateState) then
    match callPayload (payload r) instance prevState nextProps with
    | VNull | VUndefined => prevState
    | partialState => Object_assign [prevState; partialState]
    end
  else prevState.

(** The records met when following a link field from [start] up to [null]. *)
Fixpoint chain (link : nat -> option nat) (start : option nat) (us : list nat) : Prop :=
  match us with
  | [] => start = None
  | u :: us => start = Some u /\ chain link (link u) us
  end.

Definition nextOf (h : Heap) (u : nat) : option nat := next (upd h u).
Definition nextEffectOf (h : Heap) (u : nat) : option nat := nextEffect (upd h u).

(** An update has sufficient priority for a render when the loops do not
    skip it. *)
Definition sufficient (h : Heap) (renderExpirationTime : Z) (u : nat) : bool :=
  negb (expirationTime (upd h u) <? renderExpirationTime).

(** Applying the records of a list in order. *)
Definition applyAll (h : Heap) (props instance : Value) (us : list nat) (s : Value) : Value :=
  foldl (fun s u => applyUpdate (upd h u) s props instance) s us.

(** The updates of a list that a render applies. *)
Fixpoint processed (h : Heap) (render : Z) (us : list nat) : list nat :=
  match us with
  | [] => []
  | u :: us' =>
      if sufficient h render u then u :: processed h render us' else processed h render us'
  end.

(** The updates before the first skipped one, and those from it on. *)
Fixpoint processedPrefix (h : Heap) (render : Z) (us : list nat) : list nat :=
  match us with
  | [] => []
  | u :: us' => if sufficient h render u then u :: processedPrefix h render us' else []
  end.

Fixpoint remaining (h : Heap) (render : Z) (us : list nat) : list nat :=
  match us with
  | [] => []
  | u :: us' => if sufficient h render u then remaining h render us' else us
  end.

(** The expiration time left over: the largest among the skipped updates,
    starting from [e]. *)
Definition residual (h : Heap) (render : Z) (us : list nat) (e : Z) : Z :=
  foldl (fun e u =>
           if sufficient h render u then e
           else if e <? expirationTime (upd h u) then expirationTime (upd h u) else e)
        e us.

(** A record without its [nextEffect] link, the one field of a record that
    processing writes. *)
Definition eraseNextEffect (r : Update) : Update :=
  mkUpdate (expirationTime r) (tag r) (payload r) (callback r) (next r) None.

(** A queue header without its four effect pointers. *)
Definition eraseEffects (r : UpdateQueue) : UpdateQueue :=
  mkUpdateQueue (baseState r) (firstUpdate r) (lastUpdate r)
    (firstCapturedUpdate r) (lastCapturedUpdate r) None None None None.

(** A fiber without its [effectTag]. *)
Definition eraseEffectTag (r : Fiber) : Fiber :=
  mkFiber (alternate r) (updateQueue r) (memoizedState r) (fiberExpirationTime r) 0.

(** What a loop of [processUpdateQueue] over [queue] for [workInProgress]
    leaves alone. *)
Record loopFrame (workInProgress queue : nat) (h h' : Heap) : Prop := mkLoopFrame {
  lf_updates : forall u, eraseNextEffect (upd h' u) = eraseNextEffect (upd h u);
  lf_queues : forall q, q <> queue -> que h' q = que h q;
  lf_queue : eraseEffects (que h' queue) = eraseEffects (que h queue);
  lf_fibers : forall f, f <> workInProgress -> fib h' f = fib h f;
  lf_fiber : eraseEffectTag (fib h' workInProgress) = eraseEffectTag (fib h workInProgress);
  lf_calls : calls h' = calls h;
  lf_dom : dom (updates h) ⊆ dom (updates h');
}.

(** What a whole pass of [processUpdateQueue] for [workInProgress] leaves
    alone, [queue] being the header it writes. *)
Record passFrame (workInProgress queue : nat) (h h' : Heap) : Prop := mkPassFrame {
  pf_updates : forall u, eraseNextEffect (upd h' u) = eraseNextEffect (upd h u);
  pf_queues : forall q, q <> queue -> que h' q = que h q;
  pf_fibers : forall f, f <> workInProgress -> fib h' f = fib h f;
  pf_alternate : alternate (fib h' workInProgress) = alternate (fib h workInProgress);
  pf_calls : calls h' = calls h;
  pf_dom : dom (updates h) ⊆ dom (updates h');
}.

(** [ensureWorkInProgressQueueIsAClone] clones when the queue it is given is
    the one the other fiber of the pair holds. *)
Definition sharedWithCurrent (h : Heap) (workInProgress queue : nat) : bool :=
  match alternate (fib h workInProgress) with
  | Some current => bool_decide (Some queue = updateQueue (fib h current))
  | None => false
  end.

(** The header a pass writes: the clone when one is made. *)
Definition processedQueue (h : Heap) (workInProgress queue : nat) : nat :=
  if sharedWithCurrent h workInProgress queue then fresh (dom (queues h)) else queue.

(** Two heaps whose update records agree on every field but [nextEffect]. *)
Definition sameStatic (h h' : Heap) : Prop :=
  forall u, eraseNextEffect (upd h' u) = eraseNextEffect (upd h u).

(** The outcome of a pass over a queue whose normal list is [us] and whose
    captured list is [cs]; [queue'] is the header the pass writes. *)
Record passSpec `{Imports} (h h' : Heap) (workInProgress queue queue' : nat)
    (props instance : Value) (render : Z) (us cs : list nat) : Prop := mkPassSpec {
  ps_baseState :
    baseState (que h' queue') =
    applyAll h props instance (processedPrefix h render (us ++ cs)) (baseState (que h queue));
  ps_firstUpdate : firstUpdate (que h' queue') = head (remaining h render us);
  ps_lastUpdate :
    lastUpdate (que h' queue') =
    match remaining h render us with
    | [] => None
    | _ :: _ => lastUpdate (que h queue)
    end;
  ps_firstCapturedUpdate :
    firstCapturedUpdate (que h' queue') = head (remaining h render cs);
  ps_lastCapturedUpdate :
    lastCapturedUpdate (que h' queue') =
    match remaining h render cs with
    | [] => None
    | _ :: _ => lastCapturedUpdate (que h queue)
    end;
  ps_memoizedState :
    memoizedState (fib h' workInProgress) =
    applyAll h props instance (processed h render (us ++ cs)) (baseState (que h queue));
  ps_expirationTime :
    fiberExpirationTime (fib h' workInProgress) = residual h render (us ++ cs) NoWork;
  ps_updateQueue :
    updateQueue (fib h' workInProgress) =
    if sharedWithCurrent h workInProgress queue then Some queue'
    else updateQueue (fib h workInProgress);
  ps_frame : passFrame workInProgress queue' h h';
}.

(** The body of the first loop on the local variables, for the record [r]
    at address [u]. *)
Definition stepNormal (render : Z) (props instance : Value) (r : Update) (u : nat)
    (l : Locals) : Locals :=
  if expirationTime r <? render then
    let l :=
      match newFirstUpdate l with
      | None =>
          mkLocals (resultState l) (Some u) (newFirstCapturedUpdate l)
            (newExpirationTime l) (resultState l)
      | Some _ => l
      end in
    if newExpirationTime l <? expirationTime r then
      mkLocals (newBaseState l) (newFirstUpdate l) (newFirstCapturedUpdate l)
        (expirationTime r) (resultState l)
    else l
  else
    mkLocals (newBaseState l) (newFirstUpdate l) (newFirstCapturedUpdate l)
      (newExpirationTime l) (applyUpdate r (resultState l) props instance).

(** The body of the second loop on the local variables. *)
Definition stepCaptured (render : Z) (props instance : Value) (r : Update) (u : nat)
    (l : Locals) : Locals :=
  if expirationTime r <? render then
    let l :=
      match newFirstCapturedUpdate l with
      | None =>
          mkLocals
            (match newFirstUpdate l with
             | None => resultState l
             | Some _ => newBaseState l
             end)
            (newFirstUpdate l) (Some u) (newExpirationTime l) (resultState l)
      | Some _ => l
      end in
    if newExpirationTime l <? expirationTime r then
      mkLocals (newBaseState l) (newFirstUpdate l) (newFirstCapturedUpdate l)
        (expirationTime r) (resultState l)
    else l
  else
    mkLocals (newBaseState l) (newFirstUpdate l) (newFirstCapturedUpdate l)
      (newExpirationTime l) (applyUpdate r (resultState l) props instance).

(** The first half of [enqueueUpdate] for a fiber with an alternate: both
    fibers get a queue, created or cloned as needed. *)
Definition bothQueues (fiber alt : nat) (h : Heap) : nat * nat * Heap :=
  match updateQueue (fib h fiber), updateQueue (fib h alt) with
  | None, None =>
      let '(q1, h) := createUpdateQueue (memoizedState (fib h fiber)) h in
      let h := set_updateQueue fiber (Some q1) h in
      let '(q2, h) := createUpdateQueue (memoizedState (fib h alt)) h in
      let h := set_updateQueue alt (Some q2) h in
      (q1, q2, h)
  | None, Some q2 =>
      let '(q1, h) := cloneUpdateQueue q2 h in
      (q1, q2, set_updateQueue fiber (Some q1) h)
  | Some q1, None =>
      let '(q2, h) := cloneUpdateQueue q1 h in
      (q1, q2, set_updateQueue alt (Some q2) h)
  | Some q1, Some q2 => (q1, q2, h)
  end.

(** The second half of [enqueueUpdate], once both fibers have a queue. *)
Definition appendToBoth (queue1 queue2 update : nat) (h : Heap) : Heap :=
  if decide (queue1 = queue2) then appendUpdateToQueue queue1 update h
  else
    match lastUpdate (que h queue1), lastUpdate (que h queue2) with
    | Some _, Some _ =>
        set_lastUpdate queue2 (Some update) (appendUpdateToQueue queue1 update h)
    | _, _ => appendUpdateToQueue queue2 update (appendUpdateToQueue queue1 update h)
    end.

(** Successive renders of a fiber: each hands the fiber's own queue to
    [processUpdateQueue], when the fiber has one. *)
Fixpoint renderPasses `{Imports} (fuel : nat) (workInProgress : nat)
    (props instance : Value) (renders : list Z) (h : Heap) : option Heap :=
  match renders with
  | [] => Some h
  | render :: renders =>
      match updateQueue (fib h workInProgress) with
      | None => renderPasses fuel workInProgress props instance renders h
      | Some queue =>
          match processUpdateQueue fuel workInProgress queue props instance render h with
          | None => None
          | Some h => renderPasses fuel workInProgress props instance renders h
          end
      end
  end.

(** The render priorities [renders] let every priority level of the
    list [us] run: there is at least one render and each expiration time of
    the list is rendered. *)
Definition everyLevelRuns (h : Heap) (us : list nat) (renders : list Z) : Prop :=
  renders <> [] /\ forall u, u ∈ us -> expirationTime (upd h u) ∈ renders.

(** A record without its [next] link, the one field of a record that
    enqueueing writes. *)
Definition eraseNext (r : Update) : Update :=
  mkUpdate (expirationTime r) (tag r) (payload r) (callback r) None (nextEffect r).

(** A queue header without the two ends of its normal list. *)
Definition eraseList (r : UpdateQueue) : UpdateQueue :=
  mkUpdateQueue (baseState r) None None
    (firstCapturedUpdate r) (lastCapturedUpdate r) (firstEffect r) (lastEffect r)
    (firstCapturedEffect r) (lastCapturedEffect r).

(** The calls made on a pair of fibers between two commits: scheduling an
    update on either fiber, and rendering the work-in-progress fiber. *)
Inductive NodeCall :=
  | CallEnqueue (onWorkInProgress : bool) (expirationTime tag : Z) (payload : Payload)
      (callback : option CallbackFn)
  | CallProcess (props instance : Value) (renderExpirationTime : Z).

(** Running the calls in order; the result lists the updates enqueued. *)
Fixpoint runNode `{Imports} (fuel : nat) (current workInProgress : nat)
    (calls : list NodeCall) (h : Heap) : option (list nat * Heap) :=
  match calls with
  | [] => Some ([], h)
  | CallEnqueue onWorkInProgress e t p c :: calls =>
      let '(update, h) :=
        enqueueNewUpdate (if onWorkInProgress then workInProgress else current) e t p c h in
      match runNode fuel current workInProgress calls h with
      | Some (us, h) => Some (update :: us, h)
      | None => None
      end
  | CallProcess props instance render :: calls =>
      match updateQueue (fib h workInProgress) with
      | None => runNode fuel current workInProgress calls h
      | Some queue =>
          match processUpdateQueue fuel workInProgress queue props instance render h with
          | None => None
          | Some h => runNode fuel current workInProgress calls h
          end
      end
  end.

(** Applying updates in order, each with the props and instance of the
    render that applied it. *)
Definition applyEach (h : Heap) (applied : list (nat * Value * Value)) (s : Value) : Value :=
  foldl (fun s '(u, props, instance) => applyUpdate (upd h u) s props instance) s applied.

(** What the calls schedule: expiration time, tag, payload and callback of
    each update, in order. *)
Fixpoint scheduledBy (calls : list NodeCall) : list (Z * Z * Payload * option CallbackFn) :=
  match calls with
  | [] => []
  | CallEnqueue _ e t p c :: calls => (e, t, p, c) :: scheduledBy calls
  | CallProcess _ _ _ :: calls => scheduledBy calls
  end.

(** The record [u] carries the fields a call gave it; its two link fields
    are left aside. *)
Definition scheduledAs (h : Heap) (u : nat) (d : Z * Z * Payload * option CallbackFn) : Prop :=
  eraseNext (eraseNextEffect (upd h u)) = mkUpdate d.1.1.1 d.1.1.2 d.1.2 d.2 None None.

(** The header [q] is allocated and holds the list [l]: [firstUpdate] leads
    through [l] by [next], and [lastUpdate] is the last record of [l]. *)
Definition holds (h : Heap) (q : nat) (l : list nat) : Prop :=
  q ∈ dom (queues h) /\
  chain (nextOf h) (firstUpdate (que h q)) l /\
  lastUpdate (que h q) = last l.

(** The fibers of a node: [w] is the fiber that is rendered and [c] its
    alternate; a fiber without alternate is a node with [c = w]. *)
Definition paired (c w : nat) (h : Heap) : Prop :=
  (c = w /\ alternate (fib h w) = None) \/
  (c <> w /\ alternate (fib h c) = Some w /\ alternate (fib h w) = Some c).

(** A node before a sequence of calls.  Each fiber has no queue or an
    allocated one, its own or the one of its alternate; the queue of [c]
    holds the list [pc] and that of [w] the list [pw], with no captured
    update pending; two lists that are not empty end in the same record,
    as [enqueueUpdate] leaves them. *)
Record nodeAtRest (c w : nat) (h : Heap) (pc pw : list nat) : Prop := mkNodeAtRest {
  nr_fibers : paired c w h;
  nr_current :
    match updateQueue (fib h c) with
    | Some q => holds h q pc
    | None => pc = []
    end;
  nr_wip :
    match updateQueue (fib h w) with
    | Some q => holds h q pw /\ firstCapturedUpdate (que h q) = None
    | None => pw = []
    end;
  nr_tail : pc = [] \/ pw = [] \/ last pc = last pw;
  nr_allocated : forall u, u ∈ pc ++ pw -> u ∈ dom (updates h);
}.

(** The updates that the first render of [w] will find: the list of its
    own queue, or of the queue it will be given a clone of. *)
Definition startList (w : nat) (h : Heap) (pc pw : list nat) : list nat :=
  match updateQueue (fib h w) with
  | Some _ => pw
  | None => pc
  end.

(** The state that the first render of [w] starts from: the base state of
    that queue, or, when the node has no queue yet, the state of [w], which
    its queue will be created with. *)
Definition startState (c w : nat) (h : Heap) : Value :=
  match updateQueue (fib h w), updateQueue (fib h c) with
  | Some q, _ => baseState (que h q)
  | None, Some q => baseState (que h q)
  | None, None => memoizedState (fib h w)
  end.

(** No update of [enqueued] is lost: the list of [queue] is well formed;
    [memoizedState] comes from [base] by applying, in the order of
    insertion, some of the updates, or no update has been applied yet and
    [memoizedState] is still [untouched]; and every update is among those
    applied or still in the list. *)
Definition noneLost (base untouched : Value) (workInProgress queue : nat)
    (enqueued : list nat) (h : Heap) : Prop :=
  exists (pending : list nat) (applied : list (nat * Value * Value)),
    chain (nextOf h) (firstUpdate (que h queue)) pending /\
    (memoizedState (fib h workInProgress) = applyEach h applied base \/
     applied = [] /\ memoizedState (fib h workInProgress) = untouched) /\
    applied.*1.*1 `sublist_of` enqueued /\
    forall u, u ∈ enqueued -> u ∈ applied.*1.*1 \/ u ∈ pending.

(** The queues of a node in the course of a sequence, once [w] has the
    queue [qw]: of the updates [E] so far, [qw] holds a suffix [C], the
    updates before [C] are in its base state, and the queue of the
    alternate, when it is another header, holds a list with the same last
    record. *)
Record nodeQueues (c w : nat) (s0 m0 : Value) (D : gset nat) (h : Heap) (E : list nat)
    (qw : nat) (P C : list nat) (Lb Lm : list (nat * Value * Value)) : Prop := mkNodeQueues {
  nq_split : E = P ++ C;
  nq_holds : holds h qw C;
  nq_captured : firstCapturedUpdate (que h qw) = None;
  nq_base : baseState (que h qw) = applyEach h Lb s0;
  nq_base_list : Lb.*1.*1 = P;
  nq_memo :
    memoizedState (fib h w) = applyEach h Lm s0 \/
    Lm = [] /\ memoizedState (fib h w) = m0;
  nq_memo_list : Lm.*1.*1 `sublist_of` E;
  nq_memo_all : forall u, u ∈ E -> u ∈ Lm.*1.*1 \/ u ∈ C;
  nq_current :
    match updateQueue (fib h c) with
    | None => True
    | Some qc =>
        qc = qw \/
        exists Pc,
          holds h qc Pc /\ (Pc = [] \/ C = [] \/ last Pc = last C) /\
          forall u, u ∈ Pc -> u ∈ D
    end;
}.

(** What a sequence of calls keeps true of the node; [D] are update
    records that are allocated, those of the lists among them. *)
Definition nodeInv (c w : nat) (s0 m0 : Value) (D : gset nat) (h : Heap) (E : list nat)
  : Prop :=
  paired c w h /\
  D ⊆ dom (updates h) /\
  (forall u, u ∈ E -> u ∈ D) /\
  NoDup E /\
  match updateQueue (fib h w) with
  | Some qw => exists P C Lb Lm, nodeQueues c w s0 m0 D h E qw P C Lb Lm
  | None =>
      memoizedState (fib h w) = m0 /\
      match updateQueue (fib h c) with
      | None => E = [] /\ s0 = m0
      | Some qc => holds h qc E /\ baseState (que h qc) = s0
      end
  end.

(** The header that [cloneUpdateQueue] makes from the header [r], and the
    one that [createUpdateQueue] makes for the state [s]. *)
Definition cloneOf (r : UpdateQueue) : UpdateQueue :=
  mkUpdateQueue (baseState r) (firstUpdate r) (lastUpdate r) None None None None None None.
Definition emptyQueue (s : Value) : UpdateQueue :=
  mkUpdateQueue s None None None None None None None None.

(** The state between two passes: the fiber's queue holds a suffix [C] of
    the original list and a base state from which [C] leads to [final]. *)
Definition betweenPasses (w : nat) (props instance : Value) (h0 : Heap) (us0 : list nat)
    (final : Value) (h : Heap) (C : list nat) : Prop :=
  exists q,
    updateQueue (fib h w) = Some q /\
    sameStatic h0 h /\
    chain (nextOf h) (firstUpdate (que h q)) C /\
    (if sharedWithCurrent h w q then None else firstCapturedUpdate (que h q)) = None /\
    applyAll h0 props instance C (baseState (que h q)) = final /\
    (length C <= length us0)%nat.

(** An invocation [ev] of the callback of the effect record [e], against
    the heap [h] in which the commit starts: the receiver is [instance], the
    function called is the one the record held, and the record no longer
    holds it when the call is made. *)
Definition invoked (h : Heap) (instance : Value) (e : nat) (ev : CallEvent) : Prop :=
  receiver ev = instance /\
  (exists throws, callback (upd h e) = Some (CbFunction (callee ev) throws)) /\
  callback (seen ev !!! e) = None.

(** What a walk of [commitUpdateEffects] over the list [es] does: it invokes
    the callbacks of the records [rs], logging [evs]. *)
Record effectsRun (instance : Value) (es : list nat) (h : Heap) (c : Completion)
    (h' : Heap) (rs : list nat) (evs : list CallEvent) : Prop := mkEffectsRun {
  er_calls : calls h' = calls h ++ evs;
  er_invoked : Forall2 (invoked h instance) rs evs;
  er_nodup : NoDup rs;
  er_from : forall e, e ∈ rs -> e ∈ es;
  er_cleared : forall e, e ∈ rs -> callback (upd h' e) = None;
  er_updates : forall u, upd h' u = upd h u \/ upd h' u = withCallback None (upd h u);
  er_queues : queues h' = queues h;
  er_fibers : fibers h' = fibers h;
  er_all : c = Normal -> forall e, e ∈ es -> callback (upd h e) <> None -> e ∈ rs;
  er_kept : c = Normal -> forall u, u ∉ rs -> upd h' u = upd h u;
}.

(** What [commitUpdateQueue] does when its two effect lists are [es1] and
    [es2]. *)
Record commitRun (instance : Value) (q : nat) (es1 es2 : list nat) (h : Heap)
    (c : Completion) (h' : Heap) (rs : list nat) (evs : list CallEvent) : Prop :=
  mkCommitRun {
  cr_calls : calls h' = calls h ++ evs;
  cr_invoked : Forall2 (invoked h instance) rs evs;
  cr_nodup : NoDup rs;
  cr_from : forall e, e ∈ rs -> e ∈ es1 ++ es2;
  cr_cleared : forall e, e ∈ rs -> callback (upd h' e) = None;
  cr_all : c = Normal -> forall e, e ∈ es1 ++ es2 -> callback (upd h e) <> None -> e ∈ rs;
  cr_effects :
    c = Normal ->
    firstEffect (que h' q) = None /\ lastEffect (que h' q) = None /\
    firstCapturedEffect (que h' q) = None /\ lastCapturedEffect (que h' q) = None;
  cr_firstUpdate : firstUpdate (que h' q) = firstUpdate (que h q);
  cr_baseState : baseState (que h' q) = baseState (que h q);
  cr_splice :
    match firstCapturedUpdate (que h q), lastUpdate (que h q) with
    | Some captured, Some last =>
        next (upd h' last) = Some captured /\
        (forall u, u <> last -> next (upd h' u) = next (upd h u)) /\
        lastUpdate (que h' q) = lastCapturedUpdate (que h q)
    | _, _ =>
        (forall u, next (upd h' u) = next (upd h u)) /\
        lastUpdate (que h' q) = lastUpdate (que h q)
    end;
  cr_captured :
    match firstCapturedUpdate (que h q) with
    | Some _ =>
        firstCapturedUpdate (que h' q) = None /\ lastCapturedUpdate (que h' q) = None
    | None =>
        firstCapturedUpdate (que h' q) = None /\
        lastCapturedUpdate (que h' q) = lastCapturedUpdate (que h q)
    end;
  cr_fibers : fibers h' = fibers h;
}.

(** ** Scenarios *)

(** One choice of values for the imported constants: those React gives
    them ([NoWork = 0], [Callback = 32], [DidCapture = 64],
    [ShouldCapture = 1024]). *)
Definition reactImports : Imports :=
  {| NoWork := 0; Callback := 32; ShouldCapture := 1024; DidCapture := 64 |}.

(** A fiber with no alternate and no queue, at address [0], and the updates
    of [specs] scheduled on it in order; a spec is the expiration time, tag,
    payload and callback of the update. *)
Definition loneFiber (state : Value) : Heap :=
  putFiber 0%nat (mkFiber None None state 0 0) emptyHeap.

Definition scheduled (state : Value)
    (specs : list (Z * Z * Payload * option CallbackFn)) : Heap :=
  foldl (fun h '(e, t, p, c) => (enqueueNewUpdate 0%nat e t p c h).2)
    (loneFiber state) specs.

(** An updater function that appends a letter to a string state. *)
Definition appendLetter (c : string) : Payload :=
  PFun (fun _ prevState _ =>
          match prevState with
          | VStr s => VStr (s ++ c)
          | _ => VStr c
          end).

(** The queue of the header comment: base state [""] and A1 - B2 - C1 - D2.
    The updates replace the state, which is a string. *)
Definition rebaseEnqueued : Heap :=
  scheduled (VStr "")
    [(1, ReplaceState, appendLetter "A", None);
     (2, ReplaceState, appendLetter "B", None);
     (1, ReplaceState, appendLetter "C", None);
     (2, ReplaceState, appendLetter "D", None)].

(** [{a: 1}] scheduled with a callback, then processed: scenario S5 before
    its commit. *)
Definition callbackProcessed : Heap :=
  let h :=
    scheduled (VObj ∅)
      [(1, UpdateState, PVal (VObj {["a"%string := VNum 1]}), Some (CbFunction 7 false))] in
  default h (processUpdateQueue (H := reactImports) 1 0%nat 0%nat VNull VNull 1 h).

(** A fiber whose queue holds the captured update [u] of expiration time 1
    and, before it, the normal updates of [specs]; the render at expiration
    time 2 that follows skips them all. *)
Definition capturedSkipped (specs : list (Z * Z * Payload * option CallbackFn)) : Heap :=
  let h := scheduled VNull specs in
  let '(u, h) := createUpdate 1 h in
  let h := set_tag u CaptureUpdate h in
  let h := set_payload u (PVal (VObj {["err"%string := VBool true]})) h in
  let h := enqueueCapturedUpdate 0%nat u h in
  default h (processUpdateQueue (H := reactImports) 2 0%nat 0%nat VNull VNull 2 h).

(** Two fibers that are each other's alternate, at addresses [0]
    (current) and [1] (work in progress), without queues. *)
Definition pairedFibers (current workInProgress : Value) : Heap :=
  putFiber 1%nat (mkFiber (Some 0%nat) None workInProgress 0 0)
    (putFiber 0%nat (mkFiber (Some 1%nat) None current 0 0) emptyHeap).

(** A pair of fibers after a commit and the start of a new render: the
    update [{a: 1}] of expiration time 2 and the update [{b: 2}] of
    expiration time 1 were enqueued on the current fiber, and the
    work-in-progress fiber was handed the current fiber's queue, as
    [createWorkInProgress] does. *)
Definition sharedQueue : Heap :=
  let h := pairedFibers (VObj ∅) (VObj ∅) in
  let h := (enqueueNewUpdate 0%nat 2 UpdateState (PVal (VObj {["a"%string := VNum 1]})) None h).2 in
  let h := (enqueueNewUpdate 0%nat 1 UpdateState (PVal (VObj {["b"%string := VNum 2]}))
              (Some (CbFunction 3 false)) h).2 in
  set_updateQueue 1%nat (updateQueue (fib h 0%nat)) h.

(** A run on a pair of fibers: two updates on the current fiber, a render
    at level 2, a third update on the work-in-progress fiber, and a second
    render at level 2. *)
Definition interleaved : list NodeCall :=
  [CallEnqueue false 2 UpdateState (PVal (VObj {["a"%string := VNum 1]})) None;
   CallEnqueue false 1 UpdateState (PVal (VObj {["b"%string := VNum 2]}))
     (Some (CbFunction 3 false));
   CallProcess VNull VNull 2;
   CallEnqueue true 2 UpdateState (PVal (VObj {["c"%string := VNum 3]}))
     (Some (CbFunction 4 false));
   CallProcess VNull VNull 2].

(** [apply(state, U)] for an update with tag [t] and payload [p]. *)
Definition applyOf (t : Z) (p : Payload) (props instance state : Value) : Value :=
  applyUpdate (mkUpdate 0 t p None None None) state props instance.

(** ** Vocabulary of the further properties *)

(** ** The heap a pass leaves *)

(** The heap that [getStateFromUpdate] leaves: the tag alone decides it. *)
Definition tagEffect `{Imports} (workInProgress update : nat) (h : Heap) : Heap :=
  let u := upd h update in
  if tag u =? ReplaceState then h
  else if (tag u =? CaptureUpdate) || (tag u =? UpdateState) then
    if tag u =? CaptureUpdate then
      set_effectTag workInProgress
        (bitOr (bitAnd (effectTag (fib h workInProgress)) (bitNot ShouldCapture)) DidCapture) h
    else h
  else if tag u =? ForceUpdate then set_hasForceUpdate true h
  else h.

(** The heap after one iteration of the first loop, and of the second. *)
Definition iterNormal `{Imports} (workInProgress queue : nat) (render : Z)
    (h : Heap) (update : nat) : Heap :=
  if expirationTime (upd h update) <? render then h
  else
    let h := tagEffect workInProgress update h in
    match callback (upd h update) with
    | Some _ =>
        pushEffect queue update
          (set_effectTag workInProgress (bitOr (effectTag (fib h workInProgress)) Callback) h)
    | None => h
    end.

Definition iterCaptured `{Imports} (workInProgress queue : nat) (render : Z)
    (h : Heap) (update : nat) : Heap :=
  if expirationTime (upd h update) <? render then h
  else
    let h := tagEffect workInProgress update h in
    match callback (upd h update) with
    | Some _ =>
        pushCapturedEffect queue update
          (set_effectTag workInProgress (bitOr (effectTag (fib h workInProgress)) Callback) h)
    | None => h
    end.

(** The writes of [processUpdateQueue] after its two loops. *)
Definition finishPass `{Imports} (workInProgress queue : nat) (l : Locals) (h : Heap) : Heap :=
  let h :=
    match newFirstUpdate l with
    | None => set_lastUpdate queue None h
    | Some _ => h
    end in
  let h :=
    match newFirstCapturedUpdate l with
    | None => set_lastCapturedUpdate queue None h
    | Some _ =>
        set_effectTag workInProgress (bitOr (effectTag (fib h workInProgress)) Callback) h
    end in
  let newBaseState :=
    match newFirstUpdate l, newFirstCapturedUpdate l with
    | None, None => resultState l
    | _, _ => newBaseState l
    end in
  let h := set_baseState queue newBaseState h in
  let h := set_firstUpdate queue (newFirstUpdate l) h in
  let h := set_firstCapturedUpdate queue (newFirstCapturedUpdate l) h in
  let h := set_fiberExpirationTime workInProgress (newExpirationTime l) h in
  set_memoizedState workInProgress (resultState l) h.

(** The heap at the end of the two loops of a pass over the lists [us] and
    [cs]. *)
Definition loopsHeap `{Imports} (workInProgress queue : nat) (render : Z)
    (us cs : list nat) (h : Heap) : Heap :=
  let h1 := (ensureWorkInProgressQueueIsAClone workInProgress queue
               (set_hasForceUpdate false h)).2 in
  let queue' := processedQueue h workInProgress queue in
  foldl (iterCaptured workInProgress queue' render)
    (foldl (iterNormal workInProgress queue' render) h1 us) cs.

(** Whether a processed update of the list has the tag [ForceUpdate]. *)
Definition forced (h : Heap) (render : Z) (us : list nat) : bool :=
  existsb (fun u => tag (upd h u) =? ForceUpdate) (processed h render us).

(** The updates of a list that a render applies and that carry a callback:
    those the render puts on an effect list. *)
Fixpoint effectsOf (h : Heap) (render : Z) (us : list nat) : list nat :=
  match us with
  | [] => []
  | u :: us' =>
      if sufficient h render u then
        match callback (upd h u) with
        | Some _ => u :: effectsOf h render us'
        | None => effectsOf h render us'
        end
      else effectsOf h render us'
  end.

(** The four effect pointers of a queue are [null]. *)
Definition noEffects (r : UpdateQueue) : Prop :=
  firstEffect r = None /\ lastEffect r = None /\
  firstCapturedEffect r = None /\ lastCapturedEffect r = None.

(** The first step of [commitUpdateQueue]: the captured list is joined to
    the normal list, or dropped when that list is empty. *)
Definition joinCaptured (finishedQueue : nat) (h : Heap) : Heap :=
  match firstCapturedUpdate (que h finishedQueue) with
  | Some firstCaptured =>
      let h :=
        match lastUpdate (que h finishedQueue) with
        | Some last =>
            let h := set_next last (Some firstCaptured) h in
            set_lastUpdate finishedQueue (lastCapturedUpdate (que h finishedQueue)) h
        | None => h
        end in
      let h := set_lastCapturedUpdate finishedQueue None h in
      set_firstCapturedUpdate finishedQueue None h
  | None => h
  end.

(** The callback of the record is a function that returns normally. *)
Definition returns (h : Heap) (e : nat) : Prop :=
  exists name, callback (upd h e) = Some (CbFunction name false).

(** A lone fiber with state [{}] and four updates: [{a: 1}] at level 2 with
    callback 7, a [ForceUpdate] at level 1 with callback 8, a [ForceUpdate]
    at level 2 without callback, and [{c: 3}] at level 3 with callback 9. *)
Definition mixedQueue : Heap :=
  scheduled (VObj ∅)
    [(2, UpdateState, PVal (VObj {["a"%string := VNum 1]}), Some (CbFunction 7 false));
     (1, ForceUpdate, PVal VNull, Some (CbFunction 8 false));
     (2, ForceUpdate, PVal VNull, None);
     (3, UpdateState, PVal (VObj {["c"%string := VNum 3]}), Some (CbFunction 9 false))].

(** Three updates at level 1, the second with a callback that is not a
    function, processed at level 1. *)
Definition invalidCallbackProcessed : Heap :=
  let h :=
    scheduled (VObj ∅)
      [(1, UpdateState, PVal (VObj {["a"%string := VNum 1]}), Some (CbFunction 7 false));
       (1, UpdateState, PVal (VObj {["b"%string := VNum 2]}), Some (CbInvalid (VNum 5)));
       (1, UpdateState, PVal (VObj {["c"%string := VNum 3]}), Some (CbFunction 9 false))] in
  default h (processUpdateQueue (H := reactImports) 3 0%nat 0%nat VNull VNull 1 h).

(** A callback that makes [callCallback] throw: a value that is not a
    function, or a function that throws. *)
Definition throwing (cb : CallbackFn) : bool :=
  match cb with
  | CbInvalid _ => true
  | CbFunction _ throws => throws
  end.

(** The record holds a callback that makes [callCallback] throw. *)
Definition fails (h : Heap) (e : nat) : bool :=
  match callback (upd h e) with
  | Some cb => throwing cb
  | None => false
  end.

(** Whether a processed update of the list has the tag [CaptureUpdate]. *)
Definition capturing (h : Heap) (render : Z) (us : list nat) : bool :=
  existsb (fun u => tag (upd h u) =? CaptureUpdate) (processed h render us).

Definition nonEmpty {A} (l : list A) : bool :=
  match l with
  | [] => false
  | _ :: _ => true
  end.

(** What one iteration of either loop does to [workInProgress.effectTag]. *)
Definition tagStep `{Imports} (h : Heap) (render : Z) (t : Z) (u : nat) : Z :=
  if sufficient h render u then
    let t :=
      if tag (upd h u) =? CaptureUpdate then bitOr (bitAnd t (bitNot ShouldCapture)) DidCapture
      else t in
    match callback (upd h u) with
    | Some _ => bitOr t Callback
    | None => t
    end
  else t.

(** The second half of [enqueueCapturedUpdate]: the update is appended to
    the captured list of the queue. *)
Definition appendCaptured (queue update : nat) (h : Heap) : Heap :=
  match lastCapturedUpdate (que h queue) with
  | None =>
      let h := set_lastCapturedUpdate queue (Some update) h in
      set_firstCapturedUpdate queue (Some update) h
  | Some last =>
      let h := set_next last (Some update) h in
      set_lastCapturedUpdate queue (Some update) h
  end.

(** A fiber at address [0] with one normal update and a captured update
    [{err: true}], record 1, on its queue. *)
Definition capturedPending : Heap :=
  let h := scheduled VNull [(1, UpdateState, PVal (VObj {["a"%string := VNum 1]}), None)] in
  let '(u, h) := createUpdate 1 h in
  let h := set_tag u CaptureUpdate h in
  let h := set_payload u (PVal (VObj {["err"%string := VBool true]})) h in
  enqueueCapturedUpdate 0%nat u h.

(** The fiber of [mixedQueue] paired with an alternate, at address [1],
    that has no queue. *)
Definition oneQueue : Heap :=
  putFiber 1%nat (mkFiber (Some 0%nat) None (VObj ∅) 0 0)
    (putFiber 0%nat (mkFiber (Some 1%nat) (Some 0%nat) (VObj ∅) 0 0) mixedQueue).

(** The value that the last of the records [us] with a value payload
    defining the property [k] gives it. *)
Definition lastWritten (h : Heap) (k : string) (us : list nat) : option Value :=
  foldl (fun acc u =>
           match payload (upd h u) with
           | PVal v =>
               match ownProps v !! k with
               | Some x => Some x
               | None => acc
               end
           | PFun _ => acc
           end) None us.

(** The record merges a value into the state: its tag is [UpdateState] or
    [CaptureUpdate] and its payload is not a function. *)
Definition mergesValue (h : Heap) (u : nat) : Prop :=
  (tag (upd h u) = UpdateState \/ tag (upd h u) = CaptureUpdate) /\
  exists v, payload (upd h u) = PVal v.

(** Four updates on a state with the properties [z] and [a]: two at level 2
    writing [a] and [b], one at level 1 writing [z], skipped at level 2, and
    one at level 2 writing [a] again. *)
Definition mergeQueue : Heap :=
  scheduled (VObj {["z"%string := VNum 0; "a"%string := VNum 1]})
    [(2, UpdateState, PVal (VObj {["a"%string := VNum 2]}), None);
     (2, UpdateState, PVal (VObj {["b"%string := VNum 2]}), None);
     (1, UpdateState, PVal (VObj {["z"%string := VNum 9]}), None);
     (2, UpdateState, PVal (VObj {["a"%string := VNum 3]}), None)].

(** The normal list of a queue after a commit, from its normal list [us]
    and its captured list [cs] before: the captured list is linked after
    the last normal record, and an empty normal list stays empty. *)
Definition joined (us cs : list nat) : list nat :=
  match us with
  | [] => []
  | _ :: _ => us ++ cs
  end.

(** A lone fiber with state [{}] whose queue holds the normal update
    [{a: 1}] of expiration time 1 and two captured updates, [{x: 1}] of
    expiration time 2 and [{y: 1}] of expiration time 1 (records 0, 1, 2). *)
Definition capturedMixed : Heap :=
  let h := scheduled (VObj ∅) [(1, UpdateState, PVal (VObj {["a"%string := VNum 1]}), None)] in
  let '(u, h) := createUpdate 2 h in
  let h := set_tag u CaptureUpdate h in
  let h := set_payload u (PVal (VObj {["x"%string := VNum 1]})) h in
  let h := enqueueCapturedUpdate 0%nat u h in
  let '(u, h) := createUpdate 1 h in
  let h := set_tag u CaptureUpdate h in
  let h := set_payload u (PVal (VObj {["y"%string := VNum 1]})) h in
  enqueueCapturedUpdate 0%nat u h.

(** A pair of fibers after a commit that threw and the start of a new
    render.  Four updates were enqueued: [{a: 1}] of expiration time 0,
    [{b: 1}] and [{c: 1}] of expiration time 2 and [{d: 1}] of expiration
    time 1 (records 0 to 3), the last three with callbacks, the first of
    which throws.  Fiber 1 was rendered at expiration time 1 and its queue
    committed: the callback of record 1 threw, so the effect pointers of
    that header still hold the list 1, 2, 3.  Fiber 0 was then handed the
    committed header, as [createWorkInProgress] does. *)
Definition abortedCommit : Heap :=
  let h := pairedFibers (VObj ∅) (VObj ∅) in
  let h := (enqueueNewUpdate 0%nat 0 UpdateState (PVal (VObj {["a"%string := VNum 1]})) None h).2 in
  let h := (enqueueNewUpdate 0%nat 2 UpdateState (PVal (VObj {["b"%string := VNum 1]}))
              (Some (CbFunction 7 true)) h).2 in
  let h := (enqueueNewUpdate 0%nat 2 UpdateState (PVal (VObj {["c"%string := VNum 1]}))
              (Some (CbFunction 8 false)) h).2 in
  let h := (enqueueNewUpdate 0%nat 1 UpdateState (PVal (VObj {["d"%string := VNum 1]}))
              (Some (CbFunction 9 false)) h).2 in
  let h := default h (processUpdateQueue (H := reactImports) 4 1%nat 1%nat VNull VNull 1 h) in
  let h := default h (snd <$> commitUpdateQueue 4 1%nat 1%nat VNull 1 h) in
  set_updateQueue 0%nat (updateQueue (fib h 1%nat)) h.

(** * State values with identity

    For the question of what [getStateFromUpdate] writes, state values are
    refined: an object is an address into a store of objects, each a map
    from its own enumerable property names to values, and an updater
    function is a transformer of that store, since user code may allocate
    and write.  Properties are plain data properties. *)

Module ObjectStore.

Inductive JsVal :=
  | JUndefined
  | JNull
  | JBool (b : bool)
  | JNum (z : Z)
  | JStr (s : string)
  | JRef (address : nat).

Abbreviation Store := (gmap nat (gmap string JsVal)).

(** [payload.call(instance, prevState, nextProps)] for a function, any other
    value otherwise. *)
Inductive Payload :=
  | PFunction (f : JsVal -> JsVal -> JsVal -> Store -> JsVal * Store)
  | PValue (v : JsVal).

(** The two fields of an update record that [getStateFromUpdate] reads. *)
Record Update := mkUpdate {
  tag : Z;
  payload : Payload;
}.

(** What [getStateFromUpdate] can write: the objects, the [effectTag] of
    [workInProgress], and the module variable [hasForceUpdate]. *)
Record State := mkState {
  objects : Store;
  effectTag : Z;
  hasForceUpdate : bool;
}.

Definition set_objects (v : Store) (m : State) : State :=
  mkState v (effectTag m) (hasForceUpdate m).
Definition set_effectTag (v : Z) (m : State) : State :=
  mkState (objects m) v (hasForceUpdate m).
Definition set_hasForceUpdate (v : bool) (m : State) : State :=
  mkState (objects m) (effectTag m) v.

(** The own enumerable properties of a string are its characters. *)
Fixpoint stringProps (i : nat) (s : string) : gmap string JsVal :=
  match s with
  | EmptyString => ∅
  | String c s' => <[pretty i := JStr (String c EmptyString)]> (stringProps (S i) s')
  end.

(** The own enumerable properties [Object.assign] copies from a source;
    [null], [undefined], numbers and booleans have none. *)
Definition ownProps (σ : Store) (v : JsVal) : gmap string JsVal :=
  match v with
  | JRef a => σ !!! a
  | JStr s => stringProps 0 s
  | _ => ∅
  end.

(** The object literal [{}]. *)
Definition newObject (σ : Store) : nat * Store :=
  let a := fresh (dom σ) in (a, <[a := ∅]> σ).

(** [Object.assign(target, s1, ..., sn)] writes the properties of each
    source onto [target], in order, and returns [target]. *)
Definition Object_assign (target : nat) (sources : list JsVal) (σ : Store) : JsVal * Store :=
  (JRef target,
   foldl (fun σ source => <[target := ownProps σ source ∪ (σ !!! target)]> σ) σ sources).

Definition callPayload (p : Payload) (instance prevState nextProps : JsVal) (σ : Store)
  : JsVal * Store :=
  match p with
  | PFunction f => f instance prevState nextProps σ
  | PValue v => (v, σ)
  end.

(** [workInProgress] is present through its [effectTag] in the state;
    [queue] is not used by the function. *)
Definition getStateFromUpdate `{Imports} (update : Update)
    (prevState nextProps instance : JsVal) (m : State) : JsVal * State :=
  if tag update =? ReplaceState then
    let '(nextState, σ) :=
      callPayload (payload update) instance prevState nextProps (objects m) in
    (nextState, set_objects σ m)
  else if (tag update =? CaptureUpdate) || (tag update =? UpdateState) then
    let m :=
      if tag update =? CaptureUpdate then
        set_effectTag (bitOr (bitAnd (effectTag m) (bitNot ShouldCapture)) DidCapture) m
      else m in
    let '(partialState, σ) :=
      callPayload (payload update) instance prevState nextProps (objects m) in
    match partialState with
    | JNull | JUndefined => (prevState, set_objects σ m)
    | _ =>
        let '(target, σ) := newObject σ in
        let '(nextState, σ) := Object_assign target [prevState; partialState] σ in
        (nextState, set_objects σ m)
    end
  else if tag update =? ForceUpdate then
    (prevState, set_hasForceUpdate true m)
  else (prevState, m).

(** The tags for which [getStateFromUpdate] reads the payload. *)
Definition readsPayload (update : Update) : bool :=
  (tag update =? ReplaceState) || (tag update =? CaptureUpdate) || (tag update =? UpdateState).

(** An updater applied to the state [{a: 1}] at address 0 that returns a
    new partial state [{b: 2}]. *)
Definition committed : State :=
  mkState {[0%nat := {["a"%string := JNum 1]}]} 0 false.

Definition addB : Payload :=
  PFunction (fun _ _ _ σ =>
    let '(a, σ) := newObject σ in
    (JRef a, <[a := {["b"%string := JNum 2]}]> σ)).

End ObjectStore.

(** * Facts about the stores *)

Lemma upd_putUpdate u r h u' :
  upd (putUpdate u r h) u' = if decide (u = u') then r else upd h u'.
Proof. unfold upd, putUpdate; simpl. apply lookup_total_insert. Qed.

Lemma que_putQueue q r h q' :
  que (putQueue q r h) q' = if decide (q = q') then r else que h q'.
Proof. unfold que, putQueue; simpl. apply lookup_total_insert. Qed.

Lemma fib_putFiber f r h f' :
  fib (putFiber f r h) f' = if decide (f = f') then r else fib h f'.
Proof. unfold fib, putFiber; simpl. apply lookup_total_insert. Qed.

Lemma dom_updates_putUpdate u r h :
  dom (updates (putUpdate u r h)) = {[u]} ∪ dom (updates h).
Proof. unfold putUpdate; simpl. apply dom_insert_L. Qed.

Lemma dom_queues_putQueue q r h :
  dom (queues (putQueue q r h)) = {[q]} ∪ dom (queues h).
Proof. unfold putQueue; simpl. apply dom_insert_L. Qed.

Lemma upd_alterUpdate_eq u f h : upd (alterUpdate u f h) u = f (upd h u).
Proof. unfold alterUpdate. rewrite upd_putUpdate. by case_decide. Qed.
Lemma upd_alterUpdate_ne u u' f h : u <> u' -> upd (alterUpdate u f h) u' = upd h u'.
Proof. intros. unfold alterUpdate. rewrite upd_putUpdate. by case_decide. Qed.
Lemma que_alterQueue_eq q f h : que (alterQueue q f h) q = f (que h q).
Proof. unfold alterQueue. rewrite que_putQueue. by case_decide. Qed.
Lemma que_alterQueue_ne q q' f h : q <> q' -> que (alterQueue q f h) q' = que h q'.
Proof. intros. unfold alterQueue. rewrite que_putQueue. by case_decide. Qed.
Lemma fib_alterFiber_eq x f h : fib (alterFiber x f h) x = f (fib h x).
Proof. unfold alterFiber. rewrite fib_putFiber. by case_decide. Qed.
Lemma fib_alterFiber_ne x x' f h : x <> x' -> fib (alterFiber x f h) x' = fib h x'.
Proof. intros. unfold alterFiber. rewrite fib_putFiber. by case_decide. Qed.

Lemma upd_alterQueue q f h u : upd (alterQueue q f h) u = upd h u.
Proof. done. Qed.
Lemma upd_alterFiber x f h u : upd (alterFiber x f h) u = upd h u.
Proof. done. Qed.
Lemma que_alterUpdate u f h q : que (alterUpdate u f h) q = que h q.
Proof. done. Qed.
Lemma que_alterFiber x f h q : que (alterFiber x f h) q = que h q.
Proof. done. Qed.
Lemma fib_alterUpdate u f h x : fib (alterUpdate u f h) x = fib h x.
Proof. done. Qed.
Lemma fib_alterQueue q f h x : fib (alterQueue q f h) x = fib h x.
Proof. done. Qed.
Lemma upd_set_hasForceUpdate b h u : upd (set_hasForceUpdate b h) u = upd h u.
Proof. done. Qed.
Lemma que_set_hasForceUpdate b h q : que (set_hasForceUpdate b h) q = que h q.
Proof. done. Qed.
Lemma fib_set_hasForceUpdate b h x : fib (set_hasForceUpdate b h) x = fib h x.
Proof. done. Qed.
Lemma upd_logCall e h u : upd (logCall e h) u = upd h u.
Proof. done. Qed.
Lemma que_logCall e h q : que (logCall e h) q = que h q.
Proof. done. Qed.
Lemma fib_logCall e h x : fib (logCall e h) x = fib h x.
Proof. done. Qed.

(** Reads a field back through a stack of field writes, outermost first. *)
Ltac unfold_writers :=
  unfold set_next, set_nextEffect, set_callback, set_tag, set_payload,
    set_baseState, set_firstUpdate, set_lastUpdate,
    set_firstCapturedUpdate, set_lastCapturedUpdate,
    set_firstEffect, set_lastEffect, set_firstCapturedEffect, set_lastCapturedEffect,
    set_updateQueue, set_memoizedState, set_fiberExpirationTime, set_effectTag.

Ltac stores_step :=
  first
    [ rewrite upd_alterUpdate_eq
    | rewrite que_alterQueue_eq
    | rewrite fib_alterFiber_eq
    | rewrite upd_alterUpdate_ne by (assumption || congruence)
    | rewrite que_alterQueue_ne by (assumption || congruence)
    | rewrite fib_alterFiber_ne by (assumption || congruence)
    | rewrite upd_alterQueue | rewrite upd_alterFiber
    | rewrite que_alterUpdate | rewrite que_alterFiber
    | rewrite fib_alterUpdate | rewrite fib_alterQueue
    | rewrite upd_set_hasForceUpdate | rewrite que_set_hasForceUpdate
    | rewrite fib_set_hasForceUpdate
    | rewrite upd_logCall | rewrite que_logCall | rewrite fib_logCall
    | progress cbn [expirationTime tag payload callback next nextEffect
        baseState firstUpdate lastUpdate firstCapturedUpdate lastCapturedUpdate
        firstEffect lastEffect firstCapturedEffect lastCapturedEffect
        alternate updateQueue memoizedState fiberExpirationTime effectTag
        withTag withPayload withCallback withNext withNextEffect
        withBaseState withFirstUpdate withLastUpdate
        withFirstCapturedUpdate withLastCapturedUpdate
        withFirstEffect withLastEffect withFirstCapturedEffect withLastCapturedEffect
        withUpdateQueue withMemoizedState withFiberExpirationTime withEffectTag
        eraseNextEffect eraseEffects eraseEffectTag fst snd] ].

Ltac stores := unfold_writers; repeat stores_step; try done.

(** The same, deciding the address comparisons it meets. *)
Ltac stores_cases :=
  unfold_writers;
  repeat first
    [ stores_step
    | rewrite upd_putUpdate | rewrite que_putQueue | rewrite fib_putFiber
    | progress unfold alterUpdate, alterQueue, alterFiber
    | progress change (upd (putQueue ?q ?r ?h) ?u) with (upd h u)
    | progress change (upd (putFiber ?f ?r ?h) ?u) with (upd h u)
    | progress change (que (putUpdate ?u ?r ?h) ?q) with (que h q)
    | progress change (que (putFiber ?f ?r ?h) ?q) with (que h q)
    | progress change (fib (putUpdate ?u ?r ?h) ?f) with (fib h f)
    | progress change (fib (putQueue ?q ?r ?h) ?f) with (fib h f)
    | case_decide; subst; try congruence ];
  try done.

Section Frames.
Context (w q : nat).

Lemma loopFrame_refl h : loopFrame w q h h.
Proof. by constructor. Qed.

Lemma loopFrame_trans h1 h2 h3 :
  loopFrame w q h1 h2 -> loopFrame w q h2 h3 -> loopFrame w q h1 h3.
Proof.
  intros [A1 A2 A3 A4 A5 A6 A7] [B1 B2 B3 B4 B5 B6 B7]. constructor.
  - intros u. by rewrite B1.
  - intros q' Hq. by rewrite B2, A2.
  - by rewrite B3.
  - intros f Hf. by rewrite B4, A4.
  - by rewrite B5.
  - by rewrite B6.
  - set_solver.
Qed.

Lemma loopFrame_set_nextEffect u v h : loopFrame w q h (set_nextEffect u v h).
Proof.
  constructor; intros; try done.
  - destruct (decide (u = u0)) as [->|]; stores.
  - unfold set_nextEffect, alterUpdate. rewrite dom_updates_putUpdate. set_solver.
Qed.

Lemma loopFrame_set_effectTag v h : loopFrame w q h (set_effectTag w v h).
Proof. constructor; intros; try done; stores. Qed.

Lemma loopFrame_set_hasForceUpdate b h : loopFrame w q h (set_hasForceUpdate b h).
Proof. by constructor. Qed.

Lemma loopFrame_set_firstEffect v h : loopFrame w q h (set_firstEffect q v h).
Proof. constructor; intros; try done; stores. Qed.

Lemma loopFrame_set_lastEffect v h : loopFrame w q h (set_lastEffect q v h).
Proof. constructor; intros; try done; stores. Qed.

Lemma loopFrame_set_firstCapturedEffect v h :
  loopFrame w q h (set_firstCapturedEffect q v h).
Proof. constructor; intros; try done; stores. Qed.

Lemma loopFrame_set_lastCapturedEffect v h :
  loopFrame w q h (set_lastCapturedEffect q v h).
Proof. constructor; intros; try done; stores. Qed.

End Frames.

Lemma foldl_pointwise {A B} (f g : A -> B -> A) (l : list B) (a : A) :
  (forall a b, f a b = g a b) -> foldl f a l = foldl g a l.
Proof.
  intros E. revert a. induction l as [|b l IH]; intros a; simpl; [done|].
  by rewrite E, IH.
Qed.

Section Loops.
Context `{Imports}.
Context (w q : nat) (props instance : Value) (render : Z).

Create HintDb frames.
#[local] Hint Resolve loopFrame_refl loopFrame_set_nextEffect loopFrame_set_effectTag
  loopFrame_set_hasForceUpdate loopFrame_set_firstEffect loopFrame_set_lastEffect
  loopFrame_set_firstCapturedEffect loopFrame_set_lastCapturedEffect : frames.

Lemma loopFrame_pushEffect u h : loopFrame w q h (pushEffect q u h).
Proof.
  unfold pushEffect. destruct (lastEffect _);
    repeat (eapply loopFrame_trans; [|eauto with frames]); eauto with frames.
Qed.

Lemma loopFrame_pushCapturedEffect u h : loopFrame w q h (pushCapturedEffect q u h).
Proof.
  unfold pushCapturedEffect. destruct (lastCapturedEffect _);
    repeat (eapply loopFrame_trans; [|eauto with frames]); eauto with frames.
Qed.

Lemma getStateFromUpdate_state u s h :
  (getStateFromUpdate w q u s props instance h).1 = applyUpdate (upd h u) s props instance.
Proof.
  unfold getStateFromUpdate, applyUpdate.
  destruct (tag (upd h u) =? ReplaceState); [done|].
  destruct ((tag (upd h u) =? CaptureUpdate) || (tag (upd h u) =? UpdateState)).
  - by destruct (callPayload _ _ _ _).
  - by destruct (tag (upd h u) =? ForceUpdate).
Qed.

Lemma getStateFromUpdate_frame u s h :
  loopFrame w q h (getStateFromUpdate w q u s props instance h).2.
Proof.
  unfold getStateFromUpdate.
  destruct (tag (upd h u) =? ReplaceState); [simpl; eauto with frames|].
  destruct ((tag (upd h u) =? CaptureUpdate) || (tag (upd h u) =? UpdateState)).
  - destruct (callPayload _ _ _ _); simpl;
      destruct (tag (upd h u) =? CaptureUpdate); eauto with frames.
  - destruct (tag (upd h u) =? ForceUpdate); simpl; eauto with frames.
Qed.

Lemma chain_ext link link' start us :
  (forall u, link' u = link u) -> chain link start us -> chain link' start us.
Proof.
  intros E. revert start. induction us as [|u us IH]; simpl; [done|].
  intros start [-> Hc]. split; [done|]. rewrite E. by apply IH.
Qed.

Lemma loopFrame_next h h' u : loopFrame w q h h' -> next (upd h' u) = next (upd h u).
Proof.
  intros F. pose proof (lf_updates _ _ _ _ F u) as E.
  by apply (f_equal next) in E.
Qed.

Lemma loopFrame_expirationTime h h' u :
  loopFrame w q h h' -> expirationTime (upd h' u) = expirationTime (upd h u).
Proof.
  intros F. pose proof (lf_updates _ _ _ _ F u) as E.
  by apply (f_equal expirationTime) in E.
Qed.

Lemma loopFrame_applyUpdate h h' u s :
  loopFrame w q h h' ->
  applyUpdate (upd h' u) s props instance = applyUpdate (upd h u) s props instance.
Proof.
  intros F. pose proof (lf_updates _ _ _ _ F u) as E.
  change (applyUpdate (eraseNextEffect (upd h' u)) s props instance =
          applyUpdate (eraseNextEffect (upd h u)) s props instance).
  by rewrite E.
Qed.

Lemma loopFrame_stepNormal h h' u l :
  loopFrame w q h h' ->
  stepNormal render props instance (upd h' u) u l =
  stepNormal render props instance (upd h u) u l.
Proof.
  intros F. pose proof (lf_updates _ _ _ _ F u) as E.
  change (stepNormal render props instance (eraseNextEffect (upd h' u)) u l =
          stepNormal render props instance (eraseNextEffect (upd h u)) u l).
  by rewrite E.
Qed.

Lemma loopFrame_stepCaptured h h' u l :
  loopFrame w q h h' ->
  stepCaptured render props instance (upd h' u) u l =
  stepCaptured render props instance (upd h u) u l.
Proof.
  intros F. pose proof (lf_updates _ _ _ _ F u) as E.
  change (stepCaptured render props instance (eraseNextEffect (upd h' u)) u l =
          stepCaptured render props instance (eraseNextEffect (upd h u)) u l).
  by rewrite E.
Qed.

Lemma loopFrame_chain h h' start us :
  loopFrame w q h h' -> chain (nextOf h) start us -> chain (nextOf h') start us.
Proof. intros F. apply chain_ext. intros u. by apply loopFrame_next. Qed.

(** One iteration of the first loop. *)
Lemma processUpdates_step fuel u l h :
  exists h1,
    loopFrame w q h h1 /\
    processUpdates (S fuel) w q props instance render (Some u) l h =
    processUpdates fuel w q props instance render (next (upd h u))
      (stepNormal render props instance (upd h u) u l) h1.
Proof.
  simpl. unfold stepNormal.
  destruct (expirationTime (upd h u) <? render).
  - exists h. split; [apply loopFrame_refl|done].
  - pose proof (getStateFromUpdate_state u (resultState l) h) as Hs.
    pose proof (getStateFromUpdate_frame u (resultState l) h) as Hf.
    destruct (getStateFromUpdate w q u (resultState l) props instance h) as [s h1].
    simpl in Hs, Hf. subst s.
    destruct (callback (upd h1 u)).
    + eexists. split; [|rewrite (loopFrame_next h); [reflexivity|]].
      * eapply loopFrame_trans; [exact Hf|].
        eapply loopFrame_trans; [|apply loopFrame_pushEffect]. eauto with frames.
      * eapply loopFrame_trans; [exact Hf|].
        eapply loopFrame_trans; [|apply loopFrame_pushEffect]. eauto with frames.
    + exists h1. split; [done|]. by rewrite (loopFrame_next h).
Qed.

Lemma processCapturedUpdates_step fuel u l h :
  exists h1,
    loopFrame w q h h1 /\
    processCapturedUpdates (S fuel) w q props instance render (Some u) l h =
    processCapturedUpdates fuel w q props instance render (next (upd h u))
      (stepCaptured render props instance (upd h u) u l) h1.
Proof.
  simpl. unfold stepCaptured.
  destruct (expirationTime (upd h u) <? render).
  - exists h. split; [apply loopFrame_refl|done].
  - pose proof (getStateFromUpdate_state u (resultState l) h) as Hs.
    pose proof (getStateFromUpdate_frame u (resultState l) h) as Hf.
    destruct (getStateFromUpdate w q u (resultState l) props instance h) as [s h1].
    simpl in Hs, Hf. subst s.
    destruct (callback (upd h1 u)).
    + eexists. split; [|rewrite (loopFrame_next h); [reflexivity|]].
      * eapply loopFrame_trans; [exact Hf|].
        eapply loopFrame_trans; [|apply loopFrame_pushCapturedEffect]. eauto with frames.
      * eapply loopFrame_trans; [exact Hf|].
        eapply loopFrame_trans; [|apply loopFrame_pushCapturedEffect]. eauto with frames.
    + exists h1. split; [done|]. by rewrite (loopFrame_next h).
Qed.

(** The first loop over a well-formed list: it ends within [length us]
    iterations and computes the fold of [stepNormal]. *)
Lemma processUpdates_fold us : forall fuel start l h,
  chain (nextOf h) start us -> (length us <= fuel)%nat ->
  exists h',
    processUpdates fuel w q props instance render start l h =
      Some (foldl (fun l u => stepNormal render props instance (upd h u) u l) l us, h') /\
    loopFrame w q h h'.
Proof.
  induction us as [|u us IH]; intros fuel start l h Hc Hf; simpl in Hc.
  - subst start. exists h. split; [by destruct fuel|apply loopFrame_refl].
  - destruct Hc as [-> Hc]. destruct fuel as [|fuel]; [simpl in Hf; lia|].
    destruct (processUpdates_step fuel u l h) as (h1 & F1 & ->).
    destruct (IH fuel (next (upd h u)) (stepNormal render props instance (upd h u) u l) h1)
      as (h' & E & F').
    { eapply loopFrame_chain; eauto. }
    { simpl in Hf. lia. }
    exists h'. split; [|eapply loopFrame_trans; eauto].
    rewrite E. simpl. f_equal. f_equal.
    apply foldl_pointwise. intros; by apply loopFrame_stepNormal.
Qed.

Lemma processCapturedUpdates_fold us : forall fuel start l h,
  chain (nextOf h) start us -> (length us <= fuel)%nat ->
  exists h',
    processCapturedUpdates fuel w q props instance render start l h =
      Some (foldl (fun l u => stepCaptured render props instance (upd h u) u l) l us, h') /\
    loopFrame w q h h'.
Proof.
  induction us as [|u us IH]; intros fuel start l h Hc Hf; simpl in Hc.
  - subst start. exists h. split; [by destruct fuel|apply loopFrame_refl].
  - destruct Hc as [-> Hc]. destruct fuel as [|fuel]; [simpl in Hf; lia|].
    destruct (processCapturedUpdates_step fuel u l h) as (h1 & F1 & ->).
    destruct (IH fuel (next (upd h u)) (stepCaptured render props instance (upd h u) u l) h1)
      as (h' & E & F').
    { eapply loopFrame_chain; eauto. }
    { simpl in Hf. lia. }
    exists h'. split; [|eapply loopFrame_trans; eauto].
    rewrite E. simpl. f_equal. f_equal.
    apply foldl_pointwise. intros; by apply loopFrame_stepCaptured.
Qed.

End Loops.

(** * The two loops as list functions *)

Section Folds.
Context (h : Heap) (props instance : Value) (render : Z).

Abbreviation stepN := (fun l u => stepNormal render props instance (upd h u) u l).
Abbreviation stepC := (fun l u => stepCaptured render props instance (upd h u) u l).

Lemma foldNormal_after_skip us : forall l f,
  newFirstUpdate l = Some f ->
  foldl stepN l us =
  mkLocals (newBaseState l) (Some f) (newFirstCapturedUpdate l)
    (residual h render us (newExpirationTime l))
    (applyAll h props instance (processed h render us) (resultState l)).
Proof.
  induction us as [|u us IH]; intros [nb nf nc ne rs] f Hf; simpl in Hf; subst nf.
  - done.
  - simpl. unfold stepNormal at 2, sufficient. simpl.
    destruct (expirationTime (upd h u) <? render); simpl.
    + destruct (ne <? expirationTime (upd h u)); by rewrite (IH _ f).
    + by rewrite (IH _ f).
Qed.

Lemma foldNormal_fresh us : forall l,
  newFirstUpdate l = None ->
  foldl stepN l us =
  mkLocals
    (match remaining h render us with
     | [] => newBaseState l
     | _ :: _ => applyAll h props instance (processedPrefix h render us) (resultState l)
     end)
    (head (remaining h render us)) (newFirstCapturedUpdate l)
    (residual h render us (newExpirationTime l))
    (applyAll h props instance (processed h render us) (resultState l)).
Proof.
  induction us as [|u us IH]; intros [nb nf nc ne rs] Hf; simpl in Hf; subst nf.
  - done.
  - simpl. unfold stepNormal at 2, sufficient. simpl.
    destruct (expirationTime (upd h u) <? render); simpl.
    + destruct (ne <? expirationTime (upd h u)); by rewrite (foldNormal_after_skip _ _ u).
    + by rewrite IH.
Qed.

Lemma foldCaptured_after_skip us : forall l f,
  newFirstCapturedUpdate l = Some f ->
  foldl stepC l us =
  mkLocals (newBaseState l) (newFirstUpdate l) (Some f)
    (residual h render us (newExpirationTime l))
    (applyAll h props instance (processed h render us) (resultState l)).
Proof.
  induction us as [|u us IH]; intros [nb nf nc ne rs] f Hf; simpl in Hf; subst nc.
  - done.
  - simpl. unfold stepCaptured at 2, sufficient. simpl.
    destruct (expirationTime (upd h u) <? render); simpl.
    + destruct (ne <? expirationTime (upd h u)); by rewrite (IH _ f).
    + by rewrite (IH _ f).
Qed.

Lemma foldCaptured_fresh us : forall l,
  newFirstCapturedUpdate l = None ->
  foldl stepC l us =
  mkLocals
    (match remaining h render us, newFirstUpdate l with
     | _ :: _, None => applyAll h props instance (processedPrefix h render us) (resultState l)
     | _, _ => newBaseState l
     end)
    (newFirstUpdate l) (head (remaining h render us))
    (residual h render us (newExpirationTime l))
    (applyAll h props instance (processed h render us) (resultState l)).
Proof.
  induction us as [|u us IH]; intros [nb nf nc ne rs] Hf; simpl in Hf; subst nc.
  - simpl. by destruct nf.
  - simpl. unfold stepCaptured at 2, sufficient. simpl.
    destruct (expirationTime (upd h u) <? render); simpl.
    + destruct (ne <? expirationTime (upd h u)); rewrite (foldCaptured_after_skip _ _ u);
        simpl; try done; by destruct nf.
    + by rewrite IH.
Qed.

Lemma remaining_nil_processed us :
  remaining h render us = [] ->
  processed h render us = us /\ processedPrefix h render us = us.
Proof.
  induction us as [|u us IH]; simpl; [done|].
  destruct (sufficient h render u); [|done].
  intros E. destruct (IH E) as [-> ->]. done.
Qed.

Lemma processedPrefix_app us cs :
  processedPrefix h render (us ++ cs) =
  match remaining h render us with
  | [] => us ++ processedPrefix h render cs
  | _ :: _ => processedPrefix h render us
  end.
Proof.
  induction us as [|u us IH]; simpl; [done|].
  destruct (sufficient h render u); [|done].
  rewrite IH. by destruct (remaining h render us).
Qed.

Lemma processed_app us cs :
  processed h render (us ++ cs) = processed h render us ++ processed h render cs.
Proof.
  induction us as [|u us IH]; simpl; [done|].
  destruct (sufficient h render u); simpl; by rewrite IH.
Qed.

Lemma residual_app us cs e :
  residual h render (us ++ cs) e = residual h render cs (residual h render us e).
Proof. unfold residual. by rewrite foldl_app. Qed.

Lemma applyAll_app us cs s :
  applyAll h props instance (us ++ cs) s =
  applyAll h props instance cs (applyAll h props instance us s).
Proof. unfold applyAll. by rewrite foldl_app. Qed.

Lemma remaining_suffix us : exists ps, us = ps ++ remaining h render us /\
  ps = processedPrefix h render us.
Proof.
  induction us as [|u us (ps & E & ->)]; simpl; [by exists []|].
  destruct (sufficient h render u).
  - eexists. split; [|done]. simpl. by rewrite <- E.
  - by exists [].
Qed.

End Folds.

(** * Heaps with the same records *)

Section Static.
Context (h h' : Heap) (S : sameStatic h h').

Lemma sameStatic_expirationTime u : expirationTime (upd h' u) = expirationTime (upd h u).
Proof. by apply (f_equal expirationTime (S u)). Qed.

Lemma sameStatic_next u : nextOf h' u = nextOf h u.
Proof. by apply (f_equal next (S u)). Qed.

Lemma sameStatic_callback u : callback (upd h' u) = callback (upd h u).
Proof. by apply (f_equal callback (S u)). Qed.

Lemma sameStatic_applyUpdate u s props instance :
  applyUpdate (upd h' u) s props instance = applyUpdate (upd h u) s props instance.
Proof.
  change (applyUpdate (eraseNextEffect (upd h' u)) s props instance =
          applyUpdate (eraseNextEffect (upd h u)) s props instance).
  by rewrite S.
Qed.

Lemma sameStatic_sufficient render u : sufficient h' render u = sufficient h render u.
Proof. unfold sufficient. by rewrite sameStatic_expirationTime. Qed.

Lemma sameStatic_applyAll props instance us s :
  applyAll h' props instance us s = applyAll h props instance us s.
Proof. apply foldl_pointwise. intros. apply sameStatic_applyUpdate. Qed.

Lemma sameStatic_processed render us : processed h' render us = processed h render us.
Proof.
  induction us as [|u us IH]; simpl; [done|].
  by rewrite sameStatic_sufficient, IH.
Qed.

Lemma sameStatic_processedPrefix render us :
  processedPrefix h' render us = processedPrefix h render us.
Proof.
  induction us as [|u us IH]; simpl; [done|].
  by rewrite sameStatic_sufficient, IH.
Qed.

Lemma sameStatic_remaining render us : remaining h' render us = remaining h render us.
Proof.
  induction us as [|u us IH]; simpl; [done|].
  by rewrite sameStatic_sufficient, IH.
Qed.

Lemma sameStatic_residual render us e : residual h' render us e = residual h render us e.
Proof.
  apply foldl_pointwise. intros.
  by rewrite sameStatic_sufficient, sameStatic_expirationTime.
Qed.

Lemma sameStatic_chain start us : chain (nextOf h) start us -> chain (nextOf h') start us.
Proof. apply chain_ext. apply sameStatic_next. Qed.

End Static.

Lemma sameStatic_refl h : sameStatic h h.
Proof. by intros u. Qed.

Lemma sameStatic_sym h h' : sameStatic h h' -> sameStatic h' h.
Proof. intros S u. by rewrite S. Qed.

Lemma sameStatic_trans h1 h2 h3 : sameStatic h1 h2 -> sameStatic h2 h3 -> sameStatic h1 h3.
Proof. intros A B u. by rewrite B, A. Qed.

Lemma passFrame_refl w q h : passFrame w q h h.
Proof. by constructor. Qed.

Lemma passFrame_trans w q h1 h2 h3 :
  passFrame w q h1 h2 -> passFrame w q h2 h3 -> passFrame w q h1 h3.
Proof.
  intros [A1 A2 A3 A4 A5 A6] [B1 B2 B3 B4 B5 B6]. constructor.
  - intros u. by rewrite B1.
  - intros q' Hq. by rewrite B2, A2.
  - intros f Hf. by rewrite B3, A3.
  - by rewrite B4.
  - by rewrite B5.
  - set_solver.
Qed.

Lemma loopFrame_passFrame w q h h' : loopFrame w q h h' -> passFrame w q h h'.
Proof.
  intros [A1 A2 A3 A4 A5 A6 A7]. constructor; try done.
  by apply (f_equal alternate) in A5.
Qed.

Lemma passFrame_alterQueue w q f h : passFrame w q h (alterQueue q f h).
Proof. constructor; intros; try done. by rewrite que_alterQueue_ne. Qed.

Lemma passFrame_alterFiber w q f h :
  (forall r, alternate (f r) = alternate r) -> passFrame w q h (alterFiber w f h).
Proof.
  intros Hf. constructor; intros; try done.
  - by rewrite fib_alterFiber_ne.
  - by rewrite fib_alterFiber_eq.
Qed.

(** * A pass of [processUpdateQueue] *)

Section Pass.
Context `{Imports}.
Context (w q : nat) (props instance : Value) (render : Z).

Lemma ensure_spec h :
  ensureWorkInProgressQueueIsAClone w q h =
  if sharedWithCurrent h w q then
    (fresh (dom (queues h)),
     set_updateQueue w (Some (fresh (dom (queues h)))) (cloneUpdateQueue q h).2)
  else (q, h).
Proof.
  unfold ensureWorkInProgressQueueIsAClone, sharedWithCurrent.
  destruct (alternate (fib h w)) as [c|]; [|done].
  unfold bool_decide. destruct (decide_rel _ _ _); simpl; done.
Qed.

(** What [ensureWorkInProgressQueueIsAClone] hands to the loops. *)
Lemma ensure_facts h q' h1 :
  ensureWorkInProgressQueueIsAClone w q h = (q', h1) ->
  q' = processedQueue h w q /\
  updates h1 = updates h /\
  baseState (que h1 q') = baseState (que h q) /\
  firstUpdate (que h1 q') = firstUpdate (que h q) /\
  lastUpdate (que h1 q') = lastUpdate (que h q) /\
  firstCapturedUpdate (que h1 q') =
    (if sharedWithCurrent h w q then None else firstCapturedUpdate (que h q)) /\
  lastCapturedUpdate (que h1 q') =
    (if sharedWithCurrent h w q then None else lastCapturedUpdate (que h q)) /\
  updateQueue (fib h1 w) =
    (if sharedWithCurrent h w q then Some q' else updateQueue (fib h w)) /\
  passFrame w q' h h1.
Proof.
  rewrite ensure_spec. unfold processedQueue.
  destruct (sharedWithCurrent h w q); intros [= <- <-].
  - unfold cloneUpdateQueue. simpl.
    repeat split; try done; intros; stores_cases.
  - repeat split; try done.
Qed.

Lemma processUpdateQueue_spec h fuel us cs :
  chain (nextOf h) (firstUpdate (que h q)) us ->
  chain (nextOf h)
    (if sharedWithCurrent h w q then None else firstCapturedUpdate (que h q)) cs ->
  (length us <= fuel)%nat -> (length cs <= fuel)%nat ->
  exists h',
    processUpdateQueue fuel w q props instance render h = Some h' /\
    passSpec h h' w q (processedQueue h w q) props instance render us cs.
Proof.
  intros Hus Hcs Lus Lcs.
  unfold processUpdateQueue.
  destruct (ensureWorkInProgressQueueIsAClone w q (set_hasForceUpdate false h))
    as [q' h1] eqn:E.
  apply ensure_facts in E.
  change (sharedWithCurrent (set_hasForceUpdate false h) w q)
    with (sharedWithCurrent h w q) in E.
  change (processedQueue (set_hasForceUpdate false h) w q)
    with (processedQueue h w q) in E.
  change (que (set_hasForceUpdate false h) q) with (que h q) in E.
  change (fib (set_hasForceUpdate false h) w) with (fib h w) in E.
  change (updates (set_hasForceUpdate false h)) with (updates h) in E.
  destruct E as (Eq & Eu & E1 & E2 & E3 & E4 & E5 & E6 & F0).
  assert (sameStatic h h1) as S1.
  { intros u. unfold upd. by rewrite Eu. }
  assert (passFrame w q' h h1) as F0'.
  { destruct F0 as [A1 A2 A3 A4 A5 A6]. by constructor. }
  clear F0.
  rewrite <- Eq. clear Eq.
  destruct (processUpdates_fold w q' props instance render us fuel
              (firstUpdate (que h1 q'))
              (mkLocals (baseState (que h1 q')) None None NoWork (baseState (que h1 q'))) h1)
    as (h2 & -> & F1); [rewrite E2; by apply (sameStatic_chain h)|done|].
  rewrite foldNormal_fresh by done. simpl.
  assert (sameStatic h1 h2) as S2 by (intros u; apply F1).
  destruct (processCapturedUpdates_fold w q' props instance render cs fuel
              (firstCapturedUpdate (que h2 q'))
              (mkLocals
                 match remaining h1 render us with
                 | [] => baseState (que h1 q')
                 | _ :: _ =>
                     applyAll h1 props instance (processedPrefix h1 render us)
                       (baseState (que h1 q'))
                 end (head (remaining h1 render us)) None (residual h1 render us NoWork)
                 (applyAll h1 props instance (processed h1 render us) (baseState (que h1 q'))))
              h2)
    as (h3 & -> & F2).
  { apply (sameStatic_chain h1); [done|]. apply (sameStatic_chain h); [done|].
    pose proof (lf_queue _ _ _ _ F1) as Eq. apply (f_equal firstCapturedUpdate) in Eq.
    simpl in Eq. by rewrite Eq, E4. }
  { done. }
  rewrite foldCaptured_fresh by done. simpl.
  assert (sameStatic h h2) as S02 by (eapply sameStatic_trans; eauto).
  rewrite !(sameStatic_applyAll h h2 S02), !(sameStatic_processed h h2 S02),
    !(sameStatic_processedPrefix h h2 S02), !(sameStatic_remaining h h2 S02),
    !(sameStatic_residual h h2 S02).
  rewrite !(sameStatic_applyAll h h1 S1), !(sameStatic_processed h h1 S1),
    !(sameStatic_processedPrefix h h1 S1), !(sameStatic_remaining h h1 S1),
    !(sameStatic_residual h h1 S1).
  rewrite E1.
  eexists; split; [reflexivity|].
  pose proof (lf_queue _ _ _ _ F1) as Q1. pose proof (lf_queue _ _ _ _ F2) as Q2.
  assert (eraseEffects (que h3 q') = eraseEffects (que h1 q')) as Q3 by congruence.
  pose proof (lf_fiber _ _ _ _ F1) as B1. pose proof (lf_fiber _ _ _ _ F2) as B2.
  assert (eraseEffectTag (fib h3 w) = eraseEffectTag (fib h1 w)) as B3 by congruence.
  assert (passFrame w q' h h3) as F3.
  { eapply passFrame_trans; [exact F0'|].
    eapply passFrame_trans; apply loopFrame_passFrame; eauto. }
  assert (Hproc : remaining h render us = [] -> processed h render us = us).
  { intros E. by destruct (remaining_nil_processed _ _ _ E). }
  assert (Hproc' : remaining h render cs = [] -> processed h render cs = cs /\
     processedPrefix h render cs = cs).
  { intros E. by apply remaining_nil_processed. }
  apply (f_equal firstCapturedUpdate) in Q3 as Q3a; simpl in Q3a.
  apply (f_equal lastCapturedUpdate) in Q3 as Q3b; simpl in Q3b.
  apply (f_equal lastUpdate) in Q3 as Q3c; simpl in Q3c.
  apply (f_equal updateQueue) in B3 as B3a; simpl in B3a.
  assert (Hcs' : sharedWithCurrent h w q = true -> cs = []).
  { intros E. rewrite E in Hcs. destruct cs; [done|by destruct Hcs]. }
  constructor.
  all: rewrite ?processedPrefix_app, ?processed_app, ?residual_app, ?applyAll_app.
  all: destruct (remaining h render us) eqn:Ru; destruct (remaining h render cs) eqn:Rc.
  all: simpl.
  all: rewrite ?Hproc by done; try (destruct Hproc' as [-> ->]; [done|]).
  all: stores.
  all: try (rewrite ?Q3a, ?Q3b, ?Q3c, ?B3a, ?E3, ?E5, ?E6, ?applyAll_app; done).
  all: try (rewrite Q3b, E5; destruct (sharedWithCurrent h w q); [|done];
            rewrite Hcs' in Rc by done; done).
  all: unfold_writers;
    repeat (eapply passFrame_trans;
            [|first [apply passFrame_alterQueue | by apply passFrame_alterFiber]]);
    done.
Qed.
End Pass.

Lemma chain_suffix link ps : forall start rs,
  chain link start (ps ++ rs) -> chain link (head rs) rs.
Proof.
  induction ps as [|p ps IH]; intros start rs; simpl.
  - destruct rs as [|r rs]; simpl; [done|]. by intros [-> ?].
  - intros [_ Hc]. by apply (IH _ _ Hc).
Qed.

Lemma residual_cons h render u us e :
  residual h render (u :: us) e =
  residual h render us
    (if sufficient h render u then e else Z.max e (expirationTime (upd h u))).
Proof.
  unfold residual. simpl. f_equal.
  destruct (sufficient h render u); [done|].
  destruct (Z.ltb_spec e (expirationTime (upd h u))); lia.
Qed.

Ltac closed_values :=
  repeat match goal with
    | |- context [sufficient ?h ?r ?u] =>
        let v := eval vm_compute in (sufficient h r u) in
        change (sufficient h r u) with v
    | |- context [expirationTime (upd ?h ?u)] =>
        let v := eval vm_compute in (expirationTime (upd h u)) in
        change (expirationTime (upd h u)) with v
    end.

(** * The rebase scenarios *)

Section Scenarios.
Context `{Imports}.

(** C3. With base state [""] and the updates A@1, B@2, C@1, D@2, each
    appending its letter, a pass at render priority 2 gives
    [memoizedState = "BD"], [baseState = ""], residual priority 1 and
    leaves the list A, B, C, D in place; a pass at render priority 1 after
    it gives [memoizedState = "ABCD"], [baseState = "ABCD"] and an empty
    list. *)
Theorem rebase_scenario (props instance : Value) :
  NoWork < 1 ->
  updateQueue (fib rebaseEnqueued 0%nat) = Some 0%nat /\
  baseState (que rebaseEnqueued 0%nat) = VStr "" /\
  chain (nextOf rebaseEnqueued) (firstUpdate (que rebaseEnqueued 0%nat)) [0; 1; 2; 3]%nat /\
  map (fun u => expirationTime (upd rebaseEnqueued u)) [0; 1; 2; 3]%nat = [1; 2; 1; 2] /\
  exists h2,
    processUpdateQueue 4 0%nat 0%nat props instance 2 rebaseEnqueued = Some h2 /\
    memoizedState (fib h2 0%nat) = VStr "BD" /\
    baseState (que h2 0%nat) = VStr "" /\
    fiberExpirationTime (fib h2 0%nat) = 1 /\
    chain (nextOf h2) (firstUpdate (que h2 0%nat)) [0; 1; 2; 3]%nat /\
    exists h1,
      processUpdateQueue 4 0%nat 0%nat props instance 1 h2 = Some h1 /\
      memoizedState (fib h1 0%nat) = VStr "ABCD" /\
      baseState (que h1 0%nat) = VStr "ABCD" /\
      firstUpdate (que h1 0%nat) = None /\
      lastUpdate (que h1 0%nat) = None.
Proof.
  intros Hnw.
  assert (chain (nextOf rebaseEnqueued) (firstUpdate (que rebaseEnqueued 0%nat))
            [0; 1; 2; 3]%nat) as Hc by (vm_compute; done).
  split; [vm_compute; reflexivity|].
  split; [vm_compute; reflexivity|].
  split; [exact Hc|].
  split; [vm_compute; reflexivity|].
  destruct (processUpdateQueue_spec 0%nat 0%nat props instance 2 rebaseEnqueued 4
              [0; 1; 2; 3]%nat []) as (h2 & E2 & P2);
    [exact Hc|vm_compute; reflexivity|simpl; lia|simpl; lia|].
  exists h2. split; [done|].
  change (processedQueue rebaseEnqueued 0%nat 0%nat) with 0%nat in P2.
  destruct P2 as [B Fu Lu Fc Lc M X Q F].
  assert (sameStatic rebaseEnqueued h2) as S2 by (intros u; apply F).
  assert (firstUpdate (que h2 0%nat) = Some 0%nat) as Fu' by (rewrite Fu; vm_compute; done).
  assert (chain (nextOf h2) (firstUpdate (que h2 0%nat)) [0; 1; 2; 3]%nat) as Hc2.
  { rewrite Fu'. apply (sameStatic_chain rebaseEnqueued); [done|]. vm_compute; done. }
  split; [rewrite M; vm_compute; reflexivity|].
  split; [rewrite B; vm_compute; reflexivity|].
  split.
  { rewrite X. simpl app. rewrite !residual_cons. closed_values.
    cbn [negb]. unfold residual. simpl. lia. }
  split; [exact Hc2|].
  assert (sharedWithCurrent h2 0%nat 0%nat = false) as Sh.
  { unfold sharedWithCurrent. rewrite (pf_alternate _ _ _ _ F). vm_compute. done. }
  destruct (processUpdateQueue_spec 0%nat 0%nat props instance 1 h2 4
              [0; 1; 2; 3]%nat []) as (h1 & E1 & P1);
    [exact Hc2|rewrite Sh, Fc; vm_compute; reflexivity|simpl; lia|simpl; lia|].
  exists h1. split; [done|].
  unfold processedQueue in P1. rewrite Sh in P1.
  destruct P1 as [B1 Fu1 Lu1 Fc1 Lc1 M1 X1 Q1 F1].
  rewrite (sameStatic_applyAll _ _ S2), (sameStatic_processedPrefix _ _ S2), B in B1.
  rewrite (sameStatic_applyAll _ _ S2), (sameStatic_processed _ _ S2), B in M1.
  rewrite (sameStatic_remaining _ _ S2) in Fu1, Lu1.
  split; [rewrite M1; vm_compute; reflexivity|].
  split; [rewrite B1; vm_compute; reflexivity|].
  split; [rewrite Fu1; vm_compute; reflexivity|].
  rewrite Lu1; vm_compute; reflexivity.
Qed.
(** C4, as the code has it.  With U1 (1), U2 (2), U3 (1), U4 (2) enqueued,
    a pass at render priority 1 skips nothing: every expiration time is at
    least 1.  After it [memoizedState] is already
    [apply(apply(apply(apply(baseState, U1), U2), U3), U4)] and the list is
    empty; the pass at render priority 2 that follows leaves
    [memoizedState] at that value. *)
Theorem priority_rebase_passes (state props instance : Value)
    (t1 t2 t3 t4 : Z) (p1 p2 p3 p4 : Payload) (c1 c2 c3 c4 : option CallbackFn) :
  let h := scheduled state [(1, t1, p1, c1); (2, t2, p2, c2); (1, t3, p3, c3); (2, t4, p4, c4)] in
  let all :=
    applyOf t4 p4 props instance
      (applyOf t3 p3 props instance
         (applyOf t2 p2 props instance (applyOf t1 p1 props instance state))) in
  exists h1,
    processUpdateQueue 4 0%nat 0%nat props instance 1 h = Some h1 /\
    memoizedState (fib h1 0%nat) = all /\
    firstUpdate (que h1 0%nat) = None /\
    exists h2,
      processUpdateQueue 4 0%nat 0%nat props instance 2 h1 = Some h2 /\
      memoizedState (fib h2 0%nat) = all.
Proof.
  intros h all.
  assert (chain (nextOf h) (firstUpdate (que h 0%nat)) [0; 1; 2; 3]%nat) as Hc
    by (vm_compute; done).
  destruct (processUpdateQueue_spec 0%nat 0%nat props instance 1 h 4
              [0; 1; 2; 3]%nat []) as (h1 & E1 & P1);
    [exact Hc|vm_compute; reflexivity|simpl; lia|simpl; lia|].
  exists h1. split; [done|].
  change (processedQueue h 0%nat 0%nat) with 0%nat in P1.
  destruct P1 as [B Fu Lu Fc Lc M X Q F].
  assert (processed h 1 [0; 1; 2; 3]%nat = [0; 1; 2; 3]%nat) as Ep
    by (vm_compute; reflexivity).
  assert (remaining h 1 [0; 1; 2; 3]%nat = []) as Er by (vm_compute; reflexivity).
  assert (processedPrefix h 1 [0; 1; 2; 3]%nat = [0; 1; 2; 3]%nat) as Epp
    by (vm_compute; reflexivity).
  assert (baseState (que h 0%nat) = state) as Eb by (vm_compute; reflexivity).
  assert (applyAll h props instance [0; 1; 2; 3]%nat state = all) as Ea.
  { unfold applyAll, all, applyOf, applyUpdate. cbn [foldl].
    repeat match goal with
      | |- context [tag (upd h ?u)] =>
          let v := eval vm_compute in (tag (upd h u)) in
          change (tag (upd h u)) with v
      | |- context [payload (upd h ?u)] =>
          let v := eval vm_compute in (payload (upd h u)) in
          change (payload (upd h u)) with v
      end.
    reflexivity. }
  simpl app in *. rewrite Ep, Eb, Ea in M. rewrite Epp, Eb, Ea in B. rewrite Er in Fu, Lu.
  split; [done|]. split; [done|].
  assert (sharedWithCurrent h1 0%nat 0%nat = false) as Sh.
  { unfold sharedWithCurrent. rewrite (pf_alternate _ _ _ _ F). vm_compute. done. }
  destruct (processUpdateQueue_spec 0%nat 0%nat props instance 2 h1 4 [] [])
    as (h2 & E2 & P2);
    [by rewrite Fu|by rewrite Sh, Fc|simpl; lia|simpl; lia|].
  exists h2. split; [done|].
  unfold processedQueue in P2. rewrite Sh in P2.
  destruct P2 as [B2 Fu2 Lu2 Fc2 Lc2 M2 X2 Q2 F2].
  rewrite M2. simpl. done.
Qed.

End Scenarios.

(** C4, as stated, fails on the queue of the header comment: the pass at
    render priority 1 applies all four updates, not only the two of
    priority 1. *)
Lemma priority_rebase_counterexample :
  let h := rebaseEnqueued in
  exists h1,
    processUpdateQueue (H := reactImports) 4 0%nat 0%nat VNull VNull 1 h = Some h1 /\
    memoizedState (fib h1 0%nat) = VStr "ABCD" /\
    applyAll h VNull VNull [0; 2]%nat (baseState (que h 0%nat)) = VStr "AC" /\
    memoizedState (fib h1 0%nat) <>
      applyAll h VNull VNull [0; 2]%nat (baseState (que h 0%nat)).
Proof.
  eexists. split; [vm_compute; reflexivity|].
  split; [vm_compute; reflexivity|].
  split; [vm_compute; reflexivity|].
  vm_compute. discriminate.
Qed.

Lemma rebase_scenario_witness :
  @NoWork reactImports < 1 /\
  exists h2,
    processUpdateQueue (H := reactImports) 4 0%nat 0%nat VNull VNull 2 rebaseEnqueued = Some h2 /\
    memoizedState (fib h2 0%nat) = VStr "BD".
Proof.
  assert (@NoWork reactImports < 1) as Hn by (vm_compute; reflexivity).
  split; [exact Hn|].
  destruct (rebase_scenario (H := reactImports) VNull VNull Hn)
    as (_ & _ & _ & _ & h2 & E & M & _).
  exists h2. split; [exact E|exact M].
Defined.

(** * The commit phase *)

Lemma chain_functional link : forall l1 l2 start,
  chain link start l1 -> chain link start l2 -> l1 = l2.
Proof.
  induction l1 as [|a l1 IH]; intros [|b l2] start; simpl; try done.
  - by intros -> [? _].
  - by intros [-> _] ?.
  - intros [-> H1] [[= <-] H2]. f_equal. by apply (IH _ _ H1).
Qed.

Lemma chain_NoDup link us : forall start, chain link start us -> NoDup us.
Proof.
  induction us as [|u us IH]; intros start; simpl; [intros; by apply NoDup_nil_2|].
  intros [-> Hc]. apply NoDup_cons_2; [|by apply (IH _ Hc)].
  intros (a & c & ->)%list_elem_of_split.
  pose proof (chain_suffix _ _ _ _ Hc) as Hs. simpl in Hs. destruct Hs as [_ Hs].
  pose proof (chain_functional _ _ _ _ Hc Hs) as E.
  apply (f_equal length) in E. rewrite length_app in E. simpl in E. lia.
Qed.

Lemma invoked_earlier h h1 instance e ev :
  (forall u, callback (upd h1 u) = callback (upd h u) \/ callback (upd h1 u) = None) ->
  invoked h1 instance e ev -> invoked h instance e ev.
Proof.
  intros Hu (R & (th & C) & S). split; [done|]. split; [|done].
  exists th. destruct (Hu e) as [E|E]; rewrite E in C; done.
Qed.

(** A walk of [commitUpdateEffects] over the list [es]: besides what
    [effectsRun] says, the records invoked come in the order of the list,
    the walk returns normally exactly when no record of the list holds a
    callback that fails, and a walk that throws has stopped at the first
    record that does. *)
Lemma commitUpdateEffects_walk instance es : forall fuel start h,
  chain (nextEffectOf h) start es -> (length es <= fuel)%nat ->
  exists c h' rs evs,
    commitUpdateEffects fuel start instance h = Some (c, h') /\
    effectsRun instance es h c h' rs evs /\
    rs `sublist_of` es /\
    (c = Normal <-> forall e, e ∈ es -> fails h e = false) /\
    (c = Thrown ->
     exists pre e post,
       es = pre ++ e :: post /\ fails h e = true /\
       (forall x, x ∈ pre -> fails h x = false) /\
       (forall x, x ∈ pre -> callback (upd h x) <> None -> x ∈ rs) /\
       (forall x, x ∈ rs -> x ∈ pre \/ x = e) /\
       callback (upd h' e) = None /\
       (forall u, u ∉ pre -> u <> e -> upd h' u = upd h u) /\
       (e ∈ rs <-> exists name throws, callback (upd h e) = Some (CbFunction name throws))).
Proof.
  induction es as [|e es IH]; intros fuel start h Hc Hf.
  - simpl in Hc. subst start. exists Normal, h, [], []. split; [by destruct fuel|].
    split.
    { constructor;
        [by rewrite app_nil_r|by apply Forall2_nil|by apply NoDup_nil_2|done|
         by intros ? ?%elem_of_nil|by left|done|done|done|done]. }
    split; [done|]. split; [|done].
    split; [by intros _ ? ?%elem_of_nil|done].
  - pose proof (chain_NoDup _ _ _ Hc) as Hnd. apply NoDup_cons in Hnd as [Hne _].
    simpl in Hc. destruct Hc as [-> Hc]. destruct fuel as [|fuel]; [simpl in Hf; lia|].
    simpl. destruct (callback (upd h e)) as [cb|] eqn:Ecb.
    + destruct cb as [name throws|v].
      * simpl.
        set (ev := mkCallEvent name instance (updates (set_callback e None h))).
        set (h1 := logCall ev (set_callback e None h)).
        assert (Hu1 : forall u, upd h1 u = upd h u \/ upd h1 u = withCallback None (upd h u)).
        { intros u. unfold h1. destruct (decide (e = u)) as [->|]; stores; auto. }
        assert (Hne1 : forall u, e <> u -> upd h1 u = upd h u).
        { intros u Hu. unfold h1. by stores. }
        assert (Hne' : nextEffect (upd h1 e) = nextEffect (upd h e)).
        { by destruct (Hu1 e) as [->| ->]. }
        assert (Hi : invoked h instance e ev).
        { split; [done|]. split; [by exists throws|].
          change (callback (upd (set_callback e None h) e) = None). by stores. }
        assert (callback (upd h1 e) = None) as Ee by (unfold h1; by stores).
        destruct throws.
        -- exists Thrown, h1, [e], [ev].
           split; [done|]. split.
           { constructor.
             ++ done.
             ++ apply Forall2_cons; split; [exact Hi|by apply Forall2_nil].
             ++ apply NoDup_singleton.
             ++ intros e' ->%list_elem_of_singleton. apply list_elem_of_here.
             ++ by intros e' ->%list_elem_of_singleton.
             ++ done.
             ++ done.
             ++ done.
             ++ done.
             ++ done. }
           split; [apply sublist_skip, sublist_nil_l|].
           split.
           { split; [done|]. intros Hall.
             specialize (Hall e (list_elem_of_here _ _)). unfold fails in Hall.
             rewrite Ecb in Hall. done. }
           intros _. exists [], e, es. split; [done|].
           split; [unfold fails; by rewrite Ecb|].
           split; [by intros ? ?%elem_of_nil|]. split; [by intros ? ?%elem_of_nil|].
           split; [intros x ->%list_elem_of_singleton; by right|].
           split; [done|]. split; [intros u _ Hu; apply Hne1; congruence|].
           split; [intros _; by exists name, true|intros _; apply list_elem_of_here].
        -- destruct (IH fuel (nextEffect (upd h1 e)) h1)
             as (c & h' & rs & evs & E & R & Sb & Nm & Th).
           { rewrite Hne' . eapply chain_ext; [|exact Hc].
             intros u. unfold nextEffectOf. by destruct (Hu1 u) as [->| ->]. }
           { simpl in Hf. lia. }
           assert (Hfl : forall x, x ∈ es -> fails h1 x = fails h x).
           { intros x Hx. unfold fails. rewrite Hne1; [done|]. intros ->. done. }
           destruct R as [R1 R2 R3 R4 R5 R6 R7 R8 R9 R10].
           exists c, h', (e :: rs), (ev :: evs).
           split; [done|]. split.
           { constructor.
             ++ rewrite R1. unfold h1. simpl. by rewrite <- app_assoc.
             ++ apply Forall2_cons; split; [done|].
                eapply Forall2_impl; [exact R2|]. intros ? ?. apply invoked_earlier.
                intros u. destruct (Hu1 u) as [->| ->]; auto.
             ++ constructor; [|done]. intros Hin.
                apply list_elem_of_lookup in Hin as [i Hi'].
                destruct (Forall2_lookup_l _ _ _ _ _ R2 Hi') as (ev' & _ & (_ & (th & C) & _)).
                congruence.
             ++ intros e' [->|Hin]%elem_of_cons; [apply list_elem_of_here|].
                apply list_elem_of_further. by apply R4.
             ++ intros e' [->|Hin]%elem_of_cons; [|by apply R5].
                destruct (R6 e) as [->| ->]; done.
             ++ intros u. destruct (R6 u) as [->| ->]; destruct (Hu1 u) as [->| ->]; auto.
             ++ by rewrite R7.
             ++ by rewrite R8.
             ++ intros Hn e' [->|Hin]%elem_of_cons Hcb; [apply list_elem_of_here|].
                destruct (decide (e = e')) as [->|Hd]; [apply list_elem_of_here|].
                apply list_elem_of_further. apply R9; [done..|]. by rewrite Hne1.
             ++ intros Hn u [Hu1' Hu2]%not_elem_of_cons. rewrite R10 by done. by apply Hne1. }
           split; [by apply sublist_skip|].
           split.
           { rewrite Nm. split.
             - intros Hall x [->|Hx]%elem_of_cons.
               + unfold fails. by rewrite Ecb.
               + rewrite <- Hfl by done. by apply Hall.
             - intros Hall x Hx. rewrite Hfl by done. apply Hall. by apply list_elem_of_further. }
           intros Ht.
           destruct (Th Ht) as (pre & t & post & T1 & T2 & T3 & T4 & T5 & T6 & T7 & T8).
           assert (Hpre : forall x, x ∈ pre -> x ∈ es).
           { intros x Hx. rewrite T1. apply elem_of_app. by left. }
           assert (Ht' : t ∈ es).
           { rewrite T1. apply elem_of_app. right. apply list_elem_of_here. }
           exists (e :: pre), t, post. split; [by rewrite T1|].
           split; [by rewrite <- Hfl|].
           split.
           { intros x [->|Hx]%elem_of_cons; [unfold fails; by rewrite Ecb|].
             rewrite <- Hfl by auto. by apply T3. }
           split.
           { intros x [->|Hx]%elem_of_cons Hcb; [apply list_elem_of_here|].
             apply list_elem_of_further. apply T4; [done|].
             rewrite Hne1; [done|]. intros ->. apply Hne. auto. }
           split.
           { intros x [->|Hx]%elem_of_cons; [left; apply list_elem_of_here|].
             destruct (T5 x Hx) as [Hp| ->]; [left; by apply list_elem_of_further|by right]. }
           split; [done|].
           split; [intros u [Hu1' Hu2]%not_elem_of_cons Hu3; rewrite T7 by done; by apply Hne1|].
           assert (Hte : e <> t) by (intros ->; done).
           rewrite <- (Hne1 t Hte), <- T8. split.
           { intros [->|Hin]%elem_of_cons; done. }
           { intros Hin. by apply list_elem_of_further. }
      * exists Thrown, (set_callback e None h), [], []. split; [done|].
        split.
        { constructor;
            [by rewrite app_nil_r|by apply Forall2_nil|by apply NoDup_nil_2|
             by intros ? ?%elem_of_nil|by intros ? ?%elem_of_nil| |done|done|done|done].
          intros u. destruct (decide (e = u)) as [->|]; stores; auto. }
        split; [apply sublist_nil_l|].
        split.
        { split; [done|]. intros Hall.
          specialize (Hall e (list_elem_of_here _ _)). unfold fails in Hall.
          rewrite Ecb in Hall. done. }
        intros _. exists [], e, es. split; [done|].
        split; [unfold fails; by rewrite Ecb|].
        split; [by intros ? ?%elem_of_nil|]. split; [by intros ? ?%elem_of_nil|].
        split; [by intros ? ?%elem_of_nil|].
        split; [by stores|]. split; [intros u _ Hu; by stores|].
        split; [by intros ?%elem_of_nil|]. intros (name & throws & Ef). congruence.
    + destruct (IH fuel (nextEffect (upd h e)) h) as (c & h' & rs & evs & E & R & Sb & Nm & Th);
        [done|simpl in Hf; lia|].
      destruct R as [R1 R2 R3 R4 R5 R6 R7 R8 R9 R10].
      exists c, h', rs, evs. split; [done|].
      split.
      { constructor; try done.
        - intros e' Hin. apply list_elem_of_further. by apply R4.
        - intros Hn e' [->|Hin]%elem_of_cons Hcb; [done|]. by apply R9. }
      split; [by apply sublist_cons|].
      split.
      { rewrite Nm. split.
        - intros Hall x [->|Hx]%elem_of_cons; [unfold fails; by rewrite Ecb|by apply Hall].
        - intros Hall x Hx. apply Hall. by apply list_elem_of_further. }
      intros Ht. destruct (Th Ht) as (pre & t & post & T1 & T2 & T3 & T4 & T5 & T6 & T7 & T8).
      exists (e :: pre), t, post. split; [by rewrite T1|]. split; [done|].
      split.
      { intros x [->|Hx]%elem_of_cons; [unfold fails; by rewrite Ecb|by apply T3]. }
      split.
      { intros x [->|Hx]%elem_of_cons Hcb; [done|by apply T4]. }
      split.
      { intros x Hx. destruct (T5 x Hx) as [Hp| ->]; [left; by apply list_elem_of_further|by right]. }
      split; [done|].
      split; [intros u [Hu1' Hu2]%not_elem_of_cons Hu3; by apply T7|done].
Qed.

Lemma commitUpdateEffects_run instance es : forall fuel start h,
  chain (nextEffectOf h) start es -> (length es <= fuel)%nat ->
  exists c h' rs evs,
    commitUpdateEffects fuel start instance h = Some (c, h') /\
    effectsRun instance es h c h' rs evs.
Proof.
  intros fuel start h Hc Hf.
  destruct (commitUpdateEffects_walk instance es fuel start h Hc Hf)
    as (c & h' & rs & evs & E & R & _).
  by exists c, h', rs, evs.
Qed.

Lemma chain_last_link link : forall us start t,
  chain link start us -> last us = Some t -> link t = None.
Proof.
  induction us as [|u us IH]; intros start t; simpl; [done|].
  intros [-> Hc]. destruct us as [|u' us].
  - simpl in *. by intros [= <-].
  - intros Hl. by apply (IH _ _ Hc).
Qed.

(** Redirecting the link of the last record of a list to a second list
    joins the two. *)
Lemma chain_join link link' us cs t : forall start,
  chain link start us -> last us = Some t ->
  chain link (link' t) cs ->
  (forall u, u <> t -> link' u = link u) ->
  t ∉ cs ->
  chain link' start (us ++ cs).
Proof.
  intros start Hus Hl Hcs Hne Ht.
  pose proof (chain_NoDup _ _ _ Hus) as Hnd.
  assert (chain link' (link' t) cs) as Hcs'.
  { clear Hus Hl Hnd. revert Hcs Ht. generalize (link' t). induction cs as [|c cs IH]; simpl; [done|].
    intros o [-> Hc] Hn. split; [done|].
    apply not_elem_of_cons in Hn as [Hn1 Hn2].
    rewrite Hne by done. by apply IH. }
  clear Hcs. revert start Hus Hl Hnd.
  induction us as [|u us IH]; intros start; simpl; [done|].
  intros [-> Hc] Hl Hnd. split; [done|].
  apply NoDup_cons in Hnd as [Hu Hnd].
  destruct us as [|u' us].
  - simpl in Hl. injection Hl as ->. simpl. done.
  - rewrite Hne.
    + apply IH; done.
    + intros ->. apply Hu. rewrite last_cons_cons in Hl.
      apply last_Some_elem_of. done.
Qed.

Lemma effectsRun_next instance es h c h' rs evs u :
  effectsRun instance es h c h' rs evs ->
  next (upd h' u) = next (upd h u) /\ nextEffect (upd h' u) = nextEffect (upd h u) /\
  (callback (upd h' u) = callback (upd h u) \/ callback (upd h' u) = None).
Proof.
  intros R. destruct (er_updates _ _ _ _ _ _ _ R u) as [->| ->]; simpl; auto.
Qed.

Lemma effectsRun_que instance es h c h' rs evs q :
  effectsRun instance es h c h' rs evs -> que h' q = que h q.
Proof. intros R. unfold que. by rewrite (er_queues _ _ _ _ _ _ _ R). Qed.

Lemma commitUpdateQueue_walk fuel w q instance render h es1 es2 :
  chain (nextEffectOf h) (firstEffect (que h q)) es1 ->
  chain (nextEffectOf h) (firstCapturedEffect (que h q)) es2 ->
  (length es1 <= fuel)%nat -> (length es2 <= fuel)%nat ->
  exists c h' rs evs,
    commitUpdateQueue fuel w q instance render h = Some (c, h') /\
    commitRun instance q es1 es2 h c h' rs evs /\
    rs `sublist_of` es1 ++ es2 /\
    (c = Normal <-> forall e, e ∈ es1 ++ es2 -> fails h e = false) /\
    (c = Thrown ->
     exists pre e post,
       es1 ++ es2 = pre ++ e :: post /\ fails h e = true /\
       (forall x, x ∈ pre -> fails h x = false) /\
       (forall x, x ∈ pre -> callback (upd h x) <> None -> x ∈ rs) /\
       (forall x, x ∈ rs -> x ∈ pre \/ x = e) /\
       callback (upd h' e) = None /\
       (forall u, u ∉ pre -> u <> e -> callback (upd h' u) = callback (upd h u)) /\
       (e ∈ rs <-> exists name throws, callback (upd h e) = Some (CbFunction name throws))).
Proof.
  intros H1 H2 L1 L2. unfold commitUpdateQueue.
  set (hs := match firstCapturedUpdate (que h q) with Some _ => _ | None => h end).
  assert (Hs : (forall u, nextEffect (upd hs u) = nextEffect (upd h u)) /\
               (forall u, callback (upd hs u) = callback (upd h u)) /\
               firstEffect (que hs q) = firstEffect (que h q) /\
               firstCapturedEffect (que hs q) = firstCapturedEffect (que h q) /\
               firstUpdate (que hs q) = firstUpdate (que h q) /\
               baseState (que hs q) = baseState (que h q) /\
               fibers hs = fibers h /\ calls hs = calls h /\
               match firstCapturedUpdate (que h q), lastUpdate (que h q) with
               | Some captured, Some last =>
                   next (upd hs last) = Some captured /\
                   (forall u, u <> last -> next (upd hs u) = next (upd h u)) /\
                   lastUpdate (que hs q) = lastCapturedUpdate (que h q)
               | _, _ =>
                   (forall u, next (upd hs u) = next (upd h u)) /\
                   lastUpdate (que hs q) = lastUpdate (que h q)
               end /\
               match firstCapturedUpdate (que h q) with
               | Some _ =>
                   firstCapturedUpdate (que hs q) = None /\
                   lastCapturedUpdate (que hs q) = None
               | None =>
                   firstCapturedUpdate (que hs q) = None /\
                   lastCapturedUpdate (que hs q) = lastCapturedUpdate (que h q)
               end).
  { unfold hs. destruct (firstCapturedUpdate (que h q)) as [fc|] eqn:Efc.
    - destruct (lastUpdate (que h q)) as [t|] eqn:Et.
      + repeat split; try (intros u; destruct (decide (t = u)) as [->|]); stores.
      + repeat split; stores.
    - repeat split; try done; by destruct (lastUpdate (que h q)). }
  clearbody hs.
  destruct Hs as (Sne & Scb & Sfe & Sfce & Sfu & Sbs & Sfib & Scalls & Ssplice & Scap).
  destruct (commitUpdateEffects_walk instance es1 fuel (firstEffect (que hs q)) hs)
    as (c1 & h1 & rs1 & evs1 & -> & R1 & B1 & N1 & T1); [|done|].
  { rewrite Sfe. eapply chain_ext; [|exact H1]. intros u. apply Sne. }
  assert (Hfs : forall e, fails hs e = fails h e).
  { intros e. unfold fails. by rewrite Scb. }
  assert (Hinv : forall e ev, invoked hs instance e ev -> invoked h instance e ev).
  { intros e ev. apply invoked_earlier. intros u. left. apply Scb. }
  assert (Hsplice1 : forall h2, (forall u, next (upd h2 u) = next (upd hs u)) ->
            lastUpdate (que h2 q) = lastUpdate (que hs q) ->
            match firstCapturedUpdate (que h q), lastUpdate (que h q) with
            | Some captured, Some last =>
                next (upd h2 last) = Some captured /\
                (forall u, u <> last -> next (upd h2 u) = next (upd h u)) /\
                lastUpdate (que h2 q) = lastCapturedUpdate (que h q)
            | _, _ =>
                (forall u, next (upd h2 u) = next (upd h u)) /\
                lastUpdate (que h2 q) = lastUpdate (que h q)
            end).
  { intros h2 Hn Hl.
    destruct (firstCapturedUpdate (que h q)); [destruct (lastUpdate (que h q))|].
    - destruct Ssplice as (A & B & C). rewrite Hn, Hl. repeat split; try done.
      intros u Hu. rewrite Hn. by apply B.
    - destruct Ssplice as (A & B). rewrite Hl. split; [|done]. intros u. by rewrite Hn.
    - destruct Ssplice as (A & B). rewrite Hl. split; [|done]. intros u. by rewrite Hn. }
  assert (Hcap1 : forall h2, firstCapturedUpdate (que h2 q) = firstCapturedUpdate (que hs q) ->
            lastCapturedUpdate (que h2 q) = lastCapturedUpdate (que hs q) ->
            match firstCapturedUpdate (que h q) with
            | Some _ =>
                firstCapturedUpdate (que h2 q) = None /\ lastCapturedUpdate (que h2 q) = None
            | None =>
                firstCapturedUpdate (que h2 q) = None /\
                lastCapturedUpdate (que h2 q) = lastCapturedUpdate (que h q)
            end).
  { intros h2 -> ->. done. }
  pose proof (effectsRun_que _ _ _ _ _ _ _ q R1) as Q1.
  destruct c1.
  - (* the first walk ends normally *)
    set (h1' := set_firstEffect q None (set_lastEffect q None h1)).
    assert (U1 : forall u, upd h1' u = upd h1 u) by done.
    destruct (commitUpdateEffects_walk instance es2 fuel (firstCapturedEffect (que h1' q)) h1')
      as (c2 & h2 & rs2 & evs2 & -> & R2 & B2 & N2 & T2); [|done|].
    { replace (firstCapturedEffect (que h1' q)) with (firstCapturedEffect (que h q))
        by (unfold h1'; stores; by rewrite Q1).
      eapply chain_ext; [|exact H2]. intros u. unfold nextEffectOf. rewrite U1.
      destruct (effectsRun_next _ _ _ _ _ _ _ u R1) as (_ & -> & _). apply Sne. }
    pose proof (effectsRun_que _ _ _ _ _ _ _ q R2) as Q2.
    assert (Hdisj : forall e, e ∈ rs1 -> e ∈ rs2 -> False).
    { intros e I1 I2. apply list_elem_of_lookup in I2 as [i Hi].
      destruct (Forall2_lookup_l _ _ _ _ _ (er_invoked _ _ _ _ _ _ _ R2) Hi)
        as (ev & _ & (_ & (th & C) & _)).
      rewrite U1, (er_cleared _ _ _ _ _ _ _ R1) in C; done. }
    assert (Hrs : NoDup (rs1 ++ rs2)).
    { apply NoDup_app. split; [apply R1|]. split; [|apply R2]. intros e I1 I2. eauto. }
    assert (Hinv2 : forall e ev, invoked h1' instance e ev -> invoked h instance e ev).
    { intros e ev Hi. apply Hinv. revert Hi. apply invoked_earlier.
      intros u. rewrite U1. by destruct (effectsRun_next _ _ _ _ _ _ _ u R1) as (_ & _ & ?). }
    assert (Hfw : Forall2 (invoked h instance) (rs1 ++ rs2) (evs1 ++ evs2)).
    { apply Forall2_app.
      - eapply Forall2_impl; [apply R1|]. done.
      - eapply Forall2_impl; [apply R2|]. done. }
    assert (Hcalls : calls h2 = calls h ++ (evs1 ++ evs2)).
    { rewrite (er_calls _ _ _ _ _ _ _ R2). change (calls h1') with (calls h1).
      rewrite (er_calls _ _ _ _ _ _ _ R1), Scalls. by rewrite app_assoc. }
    assert (Hfrom : forall e, e ∈ rs1 ++ rs2 -> e ∈ es1 ++ es2).
    { intros e [I|I]%elem_of_app; apply elem_of_app; [left; by apply R1|right; by apply R2]. }
    assert (Hcl : forall e, e ∈ rs1 ++ rs2 -> callback (upd h2 e) = None).
    { intros e [I|I]%elem_of_app; [|by apply R2].
      destruct (effectsRun_next _ _ _ _ _ _ _ e R2) as (_ & _ & [->|]); [|done].
      rewrite U1. by apply R1. }
    assert (Hn2 : forall u, next (upd h2 u) = next (upd hs u)).
    { intros u. destruct (effectsRun_next _ _ _ _ _ _ _ u R2) as (-> & _). rewrite U1.
      by destruct (effectsRun_next _ _ _ _ _ _ _ u R1) as (-> & _). }
    assert (Hq2 : eraseEffects (que h2 q) = eraseEffects (que hs q)).
    { rewrite Q2. unfold h1'. stores. by rewrite Q1. }
    assert (Hf2 : forall e, e ∈ es1 ++ es2 -> fails h e = false -> fails h1' e = false).
    { intros e _ He. unfold fails. rewrite U1.
      destruct (effectsRun_next _ _ _ _ _ _ _ e R1) as (_ & _ & [->| ->]); [|done].
      fold (fails hs e). by rewrite Hfs. }
    assert (Hok1 : forall e, e ∈ es1 -> fails h e = false).
    { intros e He. rewrite <- Hfs. by apply N1. }
    assert (Hsame : forall e, e ∉ rs1 -> callback (upd h1' e) = callback (upd h e)).
    { intros e He. rewrite U1, (er_kept _ _ _ _ _ _ _ R1) by done. apply Scb. }
    assert (Hback : forall e, e ∈ es2 -> fails h1' e = false -> fails h e = false).
    { intros e He Hf. destruct (decide (e ∈ rs1)) as [Hin|Hin].
      - apply Hok1. by apply R1.
      - unfold fails in *. by rewrite <- Hsame. }
    assert (Hok : c2 = Normal -> forall e, e ∈ es1 ++ es2 -> fails h e = false).
    { intros Hc e [He|He]%elem_of_app; [by apply Hok1|].
      apply Hback; [done|]. by apply N2. }
    assert (Hbad : (forall e, e ∈ es1 ++ es2 -> fails h e = false) -> c2 = Normal).
    { intros Hall. apply N2. intros e He. apply Hf2; [apply elem_of_app; by right|].
      apply Hall. apply elem_of_app. by right. }
    assert (Hthrown : c2 = Thrown ->
      exists pre e post,
        es1 ++ es2 = pre ++ e :: post /\ fails h e = true /\
        (forall x, x ∈ pre -> fails h x = false) /\
        (forall x, x ∈ pre -> callback (upd h x) <> None -> x ∈ rs1 ++ rs2) /\
        (forall x, x ∈ rs1 ++ rs2 -> x ∈ pre \/ x = e) /\
        callback (upd h2 e) = None /\
        (forall u, u ∉ pre -> u <> e -> callback (upd h2 u) = callback (upd h u)) /\
        (e ∈ rs1 ++ rs2 <->
         exists name throws, callback (upd h e) = Some (CbFunction name throws))).
    { intros Hc.
      destruct (T2 Hc) as (pre & t & post & P1 & P2 & P3 & P4 & P5 & P6 & P7 & P8).
      assert (Ht : t ∉ rs1).
      { intros Hin. unfold fails in P2. rewrite U1, (er_cleared _ _ _ _ _ _ _ R1) in P2; done. }
      exists (es1 ++ pre), t, post. split; [by rewrite P1, <- app_assoc|].
      split; [unfold fails in *; by rewrite <- Hsame|].
      split.
      { intros x [Hx|Hx]%elem_of_app; [by apply Hok1|].
        apply Hback; [rewrite P1; apply elem_of_app; by left|by apply P3]. }
      split.
      { intros x [Hx|Hx]%elem_of_app Hcb; apply elem_of_app.
        - left. apply R1; [done..|]. by rewrite Scb.
        - destruct (decide (x ∈ rs1)) as [|Hn]; [by left|right].
          apply P4; [done|]. by rewrite Hsame. }
      split.
      { intros x [Hx|Hx]%elem_of_app.
        - left. apply elem_of_app. left. by apply R1.
        - destruct (P5 x Hx) as [Hp| ->]; [left; apply elem_of_app; by right|by right]. }
      split; [done|].
      split.
      { intros u [Hu1 Hu2]%not_elem_of_app Hu3. rewrite P7 by done.
        apply Hsame. intros Hin. apply Hu1. by apply R1. }
      rewrite <- (Hsame t Ht), <- P8. split.
      { intros [Hin|Hin]%elem_of_app; done. }
      { intros Hin. apply elem_of_app. by right. } }
    destruct c2.
    + eexists Normal, _, (rs1 ++ rs2), (evs1 ++ evs2). split; [reflexivity|].
      split; [|split; [by apply sublist_app|split; [split; [exact Hok|done]|done]]].
      constructor; try done.
      * intros _ e [I|I]%elem_of_app Hcb; apply elem_of_app.
        -- left. apply R1; [done..|]. by rewrite Scb.
        -- destruct (decide (e ∈ rs1)) as [|Hn]; [by left|right].
           apply R2; [done..|]. rewrite U1.
           rewrite (er_kept _ _ _ _ _ _ _ R1) by done. by rewrite Scb.
      * intros _. stores. rewrite Q2. unfold h1'. by stores.
      * stores. apply (f_equal firstUpdate) in Hq2. simpl in Hq2. by rewrite Hq2.
      * stores. apply (f_equal baseState) in Hq2. simpl in Hq2. by rewrite Hq2.
      * apply Hsplice1; [done|]. stores.
        apply (f_equal lastUpdate) in Hq2. by simpl in Hq2.
      * apply Hcap1; stores.
        -- apply (f_equal firstCapturedUpdate) in Hq2. by simpl in Hq2.
        -- apply (f_equal lastCapturedUpdate) in Hq2. by simpl in Hq2.
      * simpl. rewrite (er_fibers _ _ _ _ _ _ _ R2). simpl.
        by rewrite (er_fibers _ _ _ _ _ _ _ R1).
    + eexists Thrown, _, (rs1 ++ rs2), (evs1 ++ evs2). split; [reflexivity|].
      split; [|split; [by apply sublist_app|split; [split; [done|exact Hbad]|exact Hthrown]]].
      constructor; try done.
      * apply (f_equal firstUpdate) in Hq2. simpl in Hq2. by rewrite Hq2.
      * apply (f_equal baseState) in Hq2. simpl in Hq2. by rewrite Hq2.
      * apply Hsplice1; [done|].
        apply (f_equal lastUpdate) in Hq2. by simpl in Hq2.
      * apply Hcap1.
        -- apply (f_equal firstCapturedUpdate) in Hq2. by simpl in Hq2.
        -- apply (f_equal lastCapturedUpdate) in Hq2. by simpl in Hq2.
      * rewrite (er_fibers _ _ _ _ _ _ _ R2). simpl.
        by rewrite (er_fibers _ _ _ _ _ _ _ R1).
  - (* a callback of the first list throws *)
    eexists Thrown, _, rs1, evs1. split; [reflexivity|].
    split; [|split; [by apply sublist_inserts_r|split]].
    2:{ split; [done|]. intros Hall.
        assert (Thrown = Normal) as Hx; [|done].
        apply N1. intros e He. rewrite Hfs. apply Hall. apply elem_of_app. by left. }
    2:{ intros _.
        destruct (T1 eq_refl) as (pre & t & post & P1 & P2 & P3 & P4 & P5 & P6 & P7 & P8).
        exists pre, t, (post ++ es2). split; [by rewrite P1, <- app_assoc|].
        split; [by rewrite <- Hfs|].
        split; [intros x Hx; rewrite <- Hfs; by apply P3|].
        split; [intros x Hx Hcb; apply P4; [done|by rewrite Scb]|].
        split; [done|]. split; [done|].
        split; [intros u Hu1 Hu2; by rewrite P7, Scb|].
        by rewrite <- Scb. }
    constructor; try done.
    + rewrite (er_calls _ _ _ _ _ _ _ R1). by rewrite Scalls.
    + eapply Forall2_impl; [apply R1|]. done.
    + apply R1.
    + intros e I. apply elem_of_app. left. by apply R1.
    + apply R1.
    + by rewrite Q1.
    + by rewrite Q1.
    + apply Hsplice1; [|by rewrite Q1].
      intros u. by destruct (effectsRun_next _ _ _ _ _ _ _ u R1) as (-> & _).
    + apply Hcap1; by rewrite Q1.
    + by rewrite (er_fibers _ _ _ _ _ _ _ R1).
Qed.

Lemma commitUpdateQueue_run fuel w q instance render h es1 es2 :
  chain (nextEffectOf h) (firstEffect (que h q)) es1 ->
  chain (nextEffectOf h) (firstCapturedEffect (que h q)) es2 ->
  (length es1 <= fuel)%nat -> (length es2 <= fuel)%nat ->
  exists c h' rs evs,
    commitUpdateQueue fuel w q instance render h = Some (c, h') /\
    commitRun instance q es1 es2 h c h' rs evs.
Proof.
  intros H1 H2 L1 L2.
  destruct (commitUpdateQueue_walk fuel w q instance render h es1 es2 H1 H2 L1 L2)
    as (c & h' & rs & evs & E & R & _).
  by exists c, h', rs, evs.
Qed.


(** C6, as the code has it.  With [firstCapturedUpdate] not [null]: when
    [lastUpdate] is not [null] the captured list is joined to the end of
    the normal list ([lastUpdate.next] becomes [firstCapturedUpdate] and
    [lastUpdate] becomes [lastCapturedUpdate]); when [lastUpdate] is
    [null] no link is written and [firstUpdate] and [lastUpdate] stay as
    they are; either way [firstCapturedUpdate] and [lastCapturedUpdate]
    are [null] afterwards. *)
Theorem commit_splice fuel w q instance render h es1 es2 captured :
  firstCapturedUpdate (que h q) = Some captured ->
  chain (nextEffectOf h) (firstEffect (que h q)) es1 ->
  chain (nextEffectOf h) (firstCapturedEffect (que h q)) es2 ->
  (length es1 <= fuel)%nat -> (length es2 <= fuel)%nat ->
  exists c h',
    commitUpdateQueue fuel w q instance render h = Some (c, h') /\
    firstCapturedUpdate (que h' q) = None /\
    lastCapturedUpdate (que h' q) = None /\
    firstUpdate (que h' q) = firstUpdate (que h q) /\
    match lastUpdate (que h q) with
    | Some tail =>
        next (upd h' tail) = Some captured /\
        lastUpdate (que h' q) = lastCapturedUpdate (que h q) /\
        forall us cs,
          chain (nextOf h) (firstUpdate (que h q)) us -> last us = Some tail ->
          chain (nextOf h) (Some captured) cs -> tail ∉ cs ->
          chain (nextOf h') (firstUpdate (que h' q)) (us ++ cs)
    | None =>
        lastUpdate (que h' q) = None /\
        forall u, next (upd h' u) = next (upd h u)
    end.
Proof.
  intros Hfc H1 H2 L1 L2.
  destruct (commitUpdateQueue_run fuel w q instance render h es1 es2 H1 H2 L1 L2)
    as (c & h' & rs & evs & E & R).
  exists c, h'. split; [done|].
  pose proof (cr_captured _ _ _ _ _ _ _ _ _ R) as Hc. rewrite Hfc in Hc.
  pose proof (cr_splice _ _ _ _ _ _ _ _ _ R) as Hs. rewrite Hfc in Hs.
  pose proof (cr_firstUpdate _ _ _ _ _ _ _ _ _ R) as Hf.
  destruct Hc as [Hc1 Hc2].
  split; [done|]. split; [done|]. split; [done|].
  destruct (lastUpdate (que h q)) as [t|] eqn:Et.
  - destruct Hs as (S1 & S2 & S3). split; [done|]. split; [done|].
    intros us cs Hus Hl Hcs Ht. rewrite Hf.
    apply (chain_join (nextOf h) (nextOf h') us cs t); try done.
    unfold nextOf at 2. by rewrite S1.
  - destruct Hs as (S1 & S2). done.
Qed.

Lemma commit_splice_counterexample :
  let h := capturedSkipped [] in
  firstCapturedUpdate (que h 0%nat) = Some 0%nat /\
  lastCapturedUpdate (que h 0%nat) = Some 0%nat /\
  firstUpdate (que h 0%nat) = None /\
  exists h',
    commitUpdateQueue 1 0%nat 0%nat VNull 2 h = Some (Normal, h') /\
    lastUpdate (que h' 0%nat) <> lastCapturedUpdate (que h 0%nat) /\
    firstUpdate (que h' 0%nat) = None /\
    firstCapturedUpdate (que h' 0%nat) = None.
Proof.
  split; [vm_compute; reflexivity|].
  split; [vm_compute; reflexivity|].
  split; [vm_compute; reflexivity|].
  eexists. split; [vm_compute; reflexivity|].
  split; [vm_compute; discriminate|].
  split; vm_compute; reflexivity.
Qed.

Lemma commit_splice_witness :
  let h := capturedSkipped [(1, UpdateState, PVal (VObj {["a"%string := VNum 1]}), None)] in
  exists c h',
    commitUpdateQueue 1 0%nat 0%nat VNull 2 h = Some (c, h') /\
    firstCapturedUpdate (que h' 0%nat) = None /\
    next (upd h' 0%nat) = Some 1%nat /\
    chain (nextOf h') (firstUpdate (que h' 0%nat)) [0; 1]%nat.
Proof.
  intros h.
  assert (H1 : firstCapturedUpdate (que h 0%nat) = Some 1%nat) by (vm_compute; reflexivity).
  assert (H2 : chain (nextEffectOf h) (firstEffect (que h 0%nat)) []) by (vm_compute; reflexivity).
  assert (H3 : chain (nextEffectOf h) (firstCapturedEffect (que h 0%nat)) [])
    by (vm_compute; reflexivity).
  assert (H4 : (length (@nil nat) <= 1)%nat) by (simpl; lia).
  destruct (commit_splice 1 0%nat 0%nat VNull 2 h [] [] 1%nat H1 H2 H3 H4 H4)
    as (c & h' & E & F1 & F2 & F3 & F4).
  exists c, h'. split; [exact E|]. split; [exact F1|].
  change (lastUpdate (que h 0%nat)) with (Some 0%nat) in F4.
  destruct F4 as (G1 & G2 & G3). split; [exact G1|].
  apply (G3 [0%nat] [1%nat]).
  - vm_compute. split; reflexivity.
  - reflexivity.
  - vm_compute. split; reflexivity.
  - intros Hin. apply list_elem_of_singleton in Hin. discriminate.
Defined.


Example callback_scenario :
  exists h',
    commitUpdateQueue 1 0%nat 0%nat (VStr "I") 1 callbackProcessed = Some (Normal, h') /\
    map (fun ev => (callee ev, receiver ev)) (calls h') = [(7%nat, VStr "I")] /\
    callback (upd h' 0%nat) = None /\
    firstEffect (que h' 0%nat) = None.
Proof.
  eexists. split; [vm_compute; reflexivity|].
  split; [vm_compute; reflexivity|]. split; vm_compute; reflexivity.
Qed.

(** * Enqueueing on a pair of fibers *)

Lemma fresh_queue_ne (h : Heap) q r :
  fresh (dom (queues (putQueue q r h))) <> q.
Proof.
  intros E. apply (is_fresh (dom (queues (putQueue q r h)))).
  rewrite E at 1. rewrite dom_queues_putQueue. set_solver.
Qed.

(** The links that [appendUpdateToQueue] writes. *)
Lemma appendUpdateToQueue_links q update h u :
  next (upd (appendUpdateToQueue q update h) u) =
  if decide (lastUpdate (que h q) = Some u) then Some update else next (upd h u).
Proof.
  unfold appendUpdateToQueue. destruct (lastUpdate (que h q)) as [t|].
  - destruct (decide (t = u)) as [->|]; case_decide; try congruence; stores.
  - case_decide; [done|]. stores.
Qed.

Lemma appendUpdateToQueue_lastUpdate q update h :
  lastUpdate (que (appendUpdateToQueue q update h) q) = Some update.
Proof. unfold appendUpdateToQueue. destruct (lastUpdate (que h q)); stores. Qed.

Lemma appendUpdateToQueue_other q update h q' :
  q <> q' -> que (appendUpdateToQueue q update h) q' = que h q'.
Proof. intros. unfold appendUpdateToQueue. destruct (lastUpdate (que h q)); stores. Qed.

Lemma appendUpdateToQueue_fib q update h x :
  fib (appendUpdateToQueue q update h) x = fib h x.
Proof. unfold appendUpdateToQueue. destruct (lastUpdate (que h q)); stores. Qed.

Lemma appendToBoth_spec queue1 queue2 update h :
  let h' := appendToBoth queue1 queue2 update h in
  lastUpdate (que h' queue1) = Some update /\
  lastUpdate (que h' queue2) = Some update /\
  (forall x, fib h' x = fib h x) /\
  (forall u, next (upd h' u) = next (upd h u) \/ next (upd h' u) = Some update) /\
  (forall u1 u2,
     next (upd h' u1) <> next (upd h u1) -> next (upd h' u2) <> next (upd h u2) -> u1 = u2) /\
  (lastUpdate (que h queue1) <> Some update -> lastUpdate (que h queue2) <> Some update ->
   next (upd h' update) = next (upd h update)).
Proof.
  intros h'. unfold h', appendToBoth.
  destruct (decide (queue1 = queue2)) as [<-|Hne].
  - split; [apply appendUpdateToQueue_lastUpdate|].
    split; [apply appendUpdateToQueue_lastUpdate|].
    split; [apply appendUpdateToQueue_fib|].
    split; [|split].
    + intros u. rewrite appendUpdateToQueue_links. case_decide; auto.
    + intros u1 u2. rewrite !appendUpdateToQueue_links. repeat case_decide; congruence.
    + intros N1 _. rewrite appendUpdateToQueue_links. by case_decide.
  - destruct (lastUpdate (que h queue1)) as [t1|] eqn:L1;
      [destruct (lastUpdate (que h queue2)) as [t2|] eqn:L2|].
    + (* both lists non-empty: one append, one pointer *)
      split; [stores; apply appendUpdateToQueue_lastUpdate|].
      split; [by stores|].
      split; [intros x; stores; apply appendUpdateToQueue_fib|].
      split; [|split].
      * intros u. stores. rewrite appendUpdateToQueue_links. case_decide; auto.
      * intros u1 u2. stores. rewrite !appendUpdateToQueue_links.
        repeat case_decide; congruence.
      * intros N1 _. stores. rewrite appendUpdateToQueue_links. case_decide; congruence.
    + (* the second list is empty *)
      split; [rewrite appendUpdateToQueue_other by done; apply appendUpdateToQueue_lastUpdate|].
      split; [apply appendUpdateToQueue_lastUpdate|].
      split; [intros x; by rewrite !appendUpdateToQueue_fib|].
      assert (lastUpdate (que (appendUpdateToQueue queue1 update h) queue2) = None) as L2'
        by (by rewrite appendUpdateToQueue_other).
      split; [|split].
      * intros u. rewrite !appendUpdateToQueue_links, L2'. repeat case_decide; auto; congruence.
      * intros u1 u2. rewrite !appendUpdateToQueue_links, L2'.
        repeat case_decide; congruence.
      * intros N1 _. rewrite !appendUpdateToQueue_links, L2'. repeat case_decide; congruence.
    + (* the first list is empty *)
      assert (lastUpdate (que (appendUpdateToQueue queue1 update h) queue2) =
              lastUpdate (que h queue2)) as L2'
        by (by rewrite appendUpdateToQueue_other).
      split; [rewrite appendUpdateToQueue_other by done; apply appendUpdateToQueue_lastUpdate|].
      split; [apply appendUpdateToQueue_lastUpdate|].
      split; [intros x; by rewrite !appendUpdateToQueue_fib|].
      split; [|split].
      * intros u. rewrite !appendUpdateToQueue_links, L2', L1. repeat case_decide; auto; congruence.
      * intros u1 u2. rewrite !appendUpdateToQueue_links, L2', L1.
        repeat case_decide; congruence.
      * intros _ N2. rewrite !appendUpdateToQueue_links, L2', L1. repeat case_decide; congruence.
Qed.

Lemma enqueueUpdate_halves fiber alt update h :
  alternate (fib h fiber) = Some alt ->
  enqueueUpdate fiber update h =
  let '(q1, q2, h1) := bothQueues fiber alt h in appendToBoth q1 q2 update h1.
Proof.
  intros Ha. unfold enqueueUpdate, bothQueues, appendToBoth. rewrite Ha.
  destruct (updateQueue (fib h fiber)), (updateQueue (fib h alt)); reflexivity.
Qed.

Lemma bothQueues_spec fiber alt h q1 q2 h1 :
  fiber <> alt ->
  bothQueues fiber alt h = (q1, q2, h1) ->
  updateQueue (fib h1 fiber) = Some q1 /\
  updateQueue (fib h1 alt) = Some q2 /\
  updates h1 = updates h /\
  (forall update,
     (forall q, updateQueue (fib h fiber) = Some q \/ updateQueue (fib h alt) = Some q ->
                lastUpdate (que h q) <> Some update) ->
     lastUpdate (que h1 q1) <> Some update /\ lastUpdate (que h1 q2) <> Some update).
Proof.
  intros Hne. unfold bothQueues, createUpdateQueue, cloneUpdateQueue.
  destruct (updateQueue (fib h fiber)) as [a|] eqn:E1;
    destruct (updateQueue (fib h alt)) as [b|] eqn:E2; intros [= <- <- <-].
  - split; [done|]. split; [done|]. split; [done|].
    intros update Hu. split; apply Hu; auto.
  - split; [by stores_cases|]. split; [by stores_cases|]. split; [done|].
    intros update Hu. stores_cases. all: split; try apply Hu; auto.
  - split; [by stores_cases|]. split; [by stores_cases|]. split; [done|].
    intros update Hu. stores_cases. all: split; try apply Hu; auto.
  - split; [by stores_cases|]. split; [by stores_cases|]. split; [done|].
    intros update _. stores_cases.
Qed.

(** C7. After [enqueueUpdate] on a fiber that has an alternate, both fibers
    have a queue and the [lastUpdate] of both queues is the update
    enqueued; at most one [next] link was written, and it points to the
    update; an update that was not already the tail of either queue keeps
    its own [next] link, so a new record ([next] is [null]) does not become
    its own [next]. *)
Theorem enqueue_structural_sharing fiber alt update h :
  alternate (fib h fiber) = Some alt -> fiber <> alt ->
  let h' := enqueueUpdate fiber update h in
  exists queue1 queue2,
    updateQueue (fib h' fiber) = Some queue1 /\
    updateQueue (fib h' alt) = Some queue2 /\
    lastUpdate (que h' queue1) = Some update /\
    lastUpdate (que h' queue2) = Some update /\
    (forall u, next (upd h' u) = next (upd h u) \/ next (upd h' u) = Some update) /\
    (forall u1 u2,
       next (upd h' u1) <> next (upd h u1) -> next (upd h' u2) <> next (upd h u2) ->
       u1 = u2) /\
    ((forall q, updateQueue (fib h fiber) = Some q \/ updateQueue (fib h alt) = Some q ->
                lastUpdate (que h q) <> Some update) ->
     next (upd h' update) = next (upd h update) /\
     (next (upd h update) = None -> next (upd h' update) <> Some update)).
Proof.
  intros Ha Hne h'. unfold h'. rewrite (enqueueUpdate_halves _ alt) by done.
  destruct (bothQueues fiber alt h) as [[q1 q2] h1] eqn:E.
  destruct (bothQueues_spec _ _ _ _ _ _ Hne E) as (B1 & B2 & B3 & B4).
  destruct (appendToBoth_spec q1 q2 update h1) as (A1 & A2 & A3 & A4 & A5 & A6).
  assert (Hu : forall u, upd h1 u = upd h u) by (intros u; unfold upd; by rewrite B3).
  exists q1, q2. rewrite !A3.
  split; [done|]. split; [done|]. split; [done|]. split; [done|].
  split; [intros u; rewrite <- Hu; apply A4|].
  split; [intros u1 u2; rewrite <- !Hu; apply A5|].
  intros Hfresh. destruct (B4 update Hfresh) as [N1 N2].
  assert (next (upd (appendToBoth q1 q2 update h1) update) = next (upd h update)) as En
    by (rewrite <- Hu; by apply A6).
  split; [done|]. intros Hnull. by rewrite En, Hnull.
Qed.

Lemma enqueue_structural_sharing_witness :
  let h := (createUpdate 1 (pairedFibers VNull VNull)).2 in
  let h' := enqueueUpdate 0%nat 0%nat h in
  exists queue1 queue2,
    updateQueue (fib h' 0%nat) = Some queue1 /\
    updateQueue (fib h' 1%nat) = Some queue2 /\
    lastUpdate (que h' queue1) = Some 0%nat /\
    lastUpdate (que h' queue2) = Some 0%nat.
Proof.
  intros h h'.
  assert (H1 : alternate (fib h 0%nat) = Some 1%nat) by (vm_compute; reflexivity).
  assert (H2 : 0%nat <> 1%nat) by lia.
  destruct (enqueue_structural_sharing 0%nat 1%nat 0%nat h H1 H2)
    as (q1 & q2 & F1 & F2 & F3 & F4 & _).
  exists q1, q2. split; [exact F1|]. split; [exact F2|]. split; [exact F3|exact F4].
Defined.

(** * What a pass leaves behind *)

Section PassClaims.
Context `{Imports}.
Context (w q : nat) (props instance : Value) (render : Z).

Lemma processedPrefix_sufficient h us :
  Forall (fun u => sufficient h render u = true) (processedPrefix h render us).
Proof.
  induction us as [|u us IH]; simpl; [by apply Forall_nil|].
  destruct (sufficient h render u) eqn:E; [|by apply Forall_nil].
  apply Forall_cons. done.
Qed.

Lemma remaining_head h us u rest :
  remaining h render us = u :: rest -> sufficient h render u = false.
Proof.
  induction us as [|v us IH]; simpl; [done|].
  destruct (sufficient h render v) eqn:E; [done|]. by intros [= <- _].
Qed.

(** C5. After a pass, [baseState] is the state reached by applying the
    updates that come before the first skipped one, the normal list taken
    first and the captured list after it: the value [resultState] has when
    the first skipped update is met.  [memoizedState] is the final
    [resultState].  When no update of either list is skipped, and only
    then, the two lists are processed whole and [baseState] is the final
    [resultState]. *)
Theorem base_state_freeze h fuel us cs :
  chain (nextOf h) (firstUpdate (que h q)) us ->
  chain (nextOf h)
    (if sharedWithCurrent h w q then None else firstCapturedUpdate (que h q)) cs ->
  (length us <= fuel)%nat -> (length cs <= fuel)%nat ->
  exists h',
    processUpdateQueue fuel w q props instance render h = Some h' /\
    let queue := processedQueue h w q in
    let before := processedPrefix h render (us ++ cs) in
    let skipped := remaining h render (us ++ cs) in
    us ++ cs = before ++ skipped /\
    Forall (fun u => sufficient h render u = true) before /\
    match skipped with
    | [] =>
        memoizedState (fib h' w) = applyAll h props instance (us ++ cs) (baseState (que h q)) /\
        baseState (que h' queue) = memoizedState (fib h' w)
    | first :: _ =>
        sufficient h render first = false /\
        baseState (que h' queue) = applyAll h props instance before (baseState (que h q)) /\
        memoizedState (fib h' w) =
          applyAll h props instance (processed h render (us ++ cs)) (baseState (que h q))
    end.
Proof.
  intros Hus Hcs Lus Lcs.
  destruct (processUpdateQueue_spec w q props instance render h fuel us cs Hus Hcs Lus Lcs)
    as (h' & E & P).
  exists h'. split; [done|]. intros queue before skipped.
  destruct (remaining_suffix h render (us ++ cs)) as (ps & E1 & E2).
  split; [unfold before, skipped; by rewrite <- E2|].
  split; [apply processedPrefix_sufficient|].
  pose proof (ps_baseState _ _ _ _ _ _ _ _ _ _ P) as B.
  pose proof (ps_memoizedState _ _ _ _ _ _ _ _ _ _ P) as M.
  destruct skipped as [|first rest] eqn:Es.
  - destruct (remaining_nil_processed h render (us ++ cs) Es) as [E3 E4].
    rewrite E3 in M. rewrite E4 in B. split; [done|]. unfold queue. by rewrite B, M.
  - split; [by apply (remaining_head h (us ++ cs) first rest)|]. done.
Qed.

(** C8, as the code has it.  A pass never writes the header that the other
    fiber of the pair holds: when it is given that very header it first
    makes a clone and installs it on the work-in-progress fiber.  The
    committed header and the committed fiber come out as they went in, and
    the only field of an update record that the pass writes is
    [nextEffect], so the lists of updates reached from the committed
    header are unchanged; an effect list reached from it need not be. *)
Theorem clone_isolation current committed h fuel us cs :
  alternate (fib h w) = Some current ->
  current <> w ->
  updateQueue (fib h current) = Some committed ->
  committed ∈ dom (queues h) ->
  chain (nextOf h) (firstUpdate (que h q)) us ->
  chain (nextOf h)
    (if sharedWithCurrent h w q then None else firstCapturedUpdate (que h q)) cs ->
  (length us <= fuel)%nat -> (length cs <= fuel)%nat ->
  exists h',
    processUpdateQueue fuel w q props instance render h = Some h' /\
    let written := processedQueue h w q in
    (q = committed ->
     (written ∉ dom (queues h)) /\ updateQueue (fib h' w) = Some written) /\
    written <> committed /\
    que h' committed = que h committed /\
    fib h' current = fib h current /\
    (forall u, eraseNextEffect (upd h' u) = eraseNextEffect (upd h u)) /\
    (forall start l, chain (nextOf h) start l -> chain (nextOf h') start l).
Proof.
  intros Ha Hcw Hq Hdom Hus Hcs Lus Lcs.
  destruct (processUpdateQueue_spec w q props instance render h fuel us cs Hus Hcs Lus Lcs)
    as (h' & E & P).
  exists h'. split; [done|]. intros written.
  pose proof (ps_frame _ _ _ _ _ _ _ _ _ _ P) as F.
  assert (Hsh : sharedWithCurrent h w q = bool_decide (q = committed)).
  { unfold sharedWithCurrent. rewrite Ha, Hq.
    apply bool_decide_ext. split; congruence. }
  assert (Hw : written <> committed).
  { unfold written, processedQueue. rewrite Hsh. case_bool_decide; [|done].
    intros Ef. apply (is_fresh (dom (queues h))). by rewrite Ef. }
  split.
  - intros ->. unfold written, processedQueue. rewrite Hsh, bool_decide_eq_true_2 by done.
    split; [apply is_fresh|].
    rewrite (ps_updateQueue _ _ _ _ _ _ _ _ _ _ P), Hsh, bool_decide_eq_true_2 by done.
    unfold processedQueue. by rewrite Hsh, bool_decide_eq_true_2.
  - split; [done|].
    split; [apply (pf_queues _ _ _ _ F); by apply not_eq_sym|].
    split; [by apply (pf_fibers _ _ _ _ F)|].
    split; [apply (pf_updates _ _ _ _ F)|].
    intros start l. apply sameStatic_chain. intros u. apply (pf_updates _ _ _ _ F).
Qed.

End PassClaims.

Lemma base_state_freeze_witness :
  let h := rebaseEnqueued in
  exists h',
    processUpdateQueue (H := reactImports) 4 0%nat 0%nat VNull VNull 2 h = Some h' /\
    baseState (que h' 0%nat) = VStr "" /\
    memoizedState (fib h' 0%nat) = VStr "BD".
Proof.
  intros h.
  assert (H1 : chain (nextOf h) (firstUpdate (que h 0%nat)) [0; 1; 2; 3]%nat)
    by (vm_compute; repeat split; reflexivity).
  assert (H2 : chain (nextOf h)
                 (if sharedWithCurrent h 0%nat 0%nat then None
                  else firstCapturedUpdate (que h 0%nat)) [])
    by (vm_compute; reflexivity).
  assert (H3 : (length [0; 1; 2; 3]%nat <= 4)%nat) by (simpl; lia).
  assert (H4 : (length (@nil nat) <= 4)%nat) by (simpl; lia).
  destruct (base_state_freeze (H := reactImports) 0%nat 0%nat VNull VNull 2 h 4
              [0; 1; 2; 3]%nat [] H1 H2 H3 H4) as (h' & E & _ & _ & F).
  exists h'. split; [exact E|].
  change (remaining h 2 ([0; 1; 2; 3]%nat ++ [])) with [0; 1; 2; 3]%nat in F.
  change (processedQueue h 0%nat 0%nat) with 0%nat in F.
  destruct F as (_ & F1 & F2).
  split; [rewrite F1; vm_compute; reflexivity|rewrite F2; vm_compute; reflexivity].
Defined.

Lemma clone_isolation_witness :
  let h := sharedQueue in
  exists h',
    processUpdateQueue (H := reactImports) 2 1%nat 0%nat VNull VNull 2 h = Some h' /\
    updateQueue (fib h' 1%nat) = Some 2%nat /\
    que h' 0%nat = que h 0%nat /\
    fib h' 0%nat = fib h 0%nat.
Proof.
  intros h.
  assert (H1 : alternate (fib h 1%nat) = Some 0%nat) by (vm_compute; reflexivity).
  assert (H2 : 0%nat <> 1%nat) by lia.
  assert (H3 : updateQueue (fib h 0%nat) = Some 0%nat) by (vm_compute; reflexivity).
  assert (H4 : 0%nat ∈ dom (queues h)).
  { apply elem_of_dom. eexists. vm_compute. reflexivity. }
  assert (H5 : chain (nextOf h) (firstUpdate (que h 0%nat)) [0; 1]%nat)
    by (vm_compute; repeat split; reflexivity).
  assert (H6 : chain (nextOf h)
                 (if sharedWithCurrent h 1%nat 0%nat then None
                  else firstCapturedUpdate (que h 0%nat)) [])
    by (vm_compute; reflexivity).
  assert (H7 : (length [0; 1]%nat <= 2)%nat) by (simpl; lia).
  assert (H8 : (length (@nil nat) <= 2)%nat) by (simpl; lia).
  destruct (clone_isolation (H := reactImports) 1%nat 0%nat VNull VNull 2 0%nat 0%nat h 2
              [0; 1]%nat [] H1 H2 H3 H4 H5 H6 H7 H8) as (h' & E & F1 & F2 & F3 & F4 & _).
  exists h'. split; [exact E|].
  split; [|split; [exact F3|exact F4]].
  destruct (F1 eq_refl) as [_ F5]. rewrite F5. vm_compute. reflexivity.
Defined.

(** C8, as stated, fails where it says that the effects of a pass cannot be
    seen from the committed side: on [abortedCommit] the pass at expiration
    time 2 leaves the committed header as it is and resets [nextEffect] of
    record 2, which that header's effect list goes through, so the list
    1, 2, 3 it held becomes 1, 2. *)
Lemma clone_isolation_counterexample :
  let h := abortedCommit in
  alternate (fib h 0%nat) = Some 1%nat /\
  updateQueue (fib h 1%nat) = Some 1%nat /\
  updateQueue (fib h 0%nat) = Some 1%nat /\
  chain (nextOf h) (firstUpdate (que h 1%nat)) [0; 1; 2; 3]%nat /\
  chain (nextEffectOf h) (firstEffect (que h 1%nat)) [1; 2; 3]%nat /\
  exists h',
    processUpdateQueue (H := reactImports) 4 0%nat 1%nat VNull VNull 2 h = Some h' /\
    updateQueue (fib h' 0%nat) = Some 2%nat /\
    updateQueue (fib h' 1%nat) = Some 1%nat /\
    que h' 1%nat = que h 1%nat /\
    nextEffect (upd h 2%nat) = Some 3%nat /\
    nextEffect (upd h' 2%nat) = None /\
    chain (nextEffectOf h') (firstEffect (que h' 1%nat)) [1; 2]%nat.
Proof.
  intros h.
  assert (Hh : alternate (fib h 0%nat) = Some 1%nat /\
               updateQueue (fib h 1%nat) = Some 1%nat /\
               updateQueue (fib h 0%nat) = Some 1%nat /\
               chain (nextOf h) (firstUpdate (que h 1%nat)) [0; 1; 2; 3]%nat /\
               chain (nextEffectOf h) (firstEffect (que h 1%nat)) [1; 2; 3]%nat)
    by (vm_compute; repeat split; reflexivity).
  destruct Hh as (A1 & A2 & A3 & A4 & A5).
  split; [exact A1|]. split; [exact A2|]. split; [exact A3|]. split; [exact A4|].
  split; [exact A5|].
  eexists. split; [vm_compute; reflexivity|].
  vm_compute. repeat split; reflexivity.
Qed.

(** * Processing a queue to completion *)

Section Determinism.
Context `{Imports}.
Context (w : nat) (props instance : Value).
Context (h0 : Heap) (us0 : list nat) (final : Value).

Lemma remaining_length h render us : (length (remaining h render us) <= length us)%nat.
Proof.
  induction us as [|u us IH]; simpl; [done|].
  destruct (sufficient h render u); simpl; lia.
Qed.

Lemma remaining_elem_of h render us u : u ∈ remaining h render us -> u ∈ us.
Proof.
  induction us as [|v us IH]; simpl; [done|].
  destruct (sufficient h render v); [|done]. intros Hin. apply elem_of_cons. auto.
Qed.

Lemma remaining_all_sufficient h render us :
  (forall u, u ∈ us -> sufficient h render u = true) -> remaining h render us = [].
Proof.
  induction us as [|u us IH]; simpl; [done|]. intros Hs.
  rewrite Hs by apply list_elem_of_here. apply IH. intros v Hv. apply Hs.
  by apply list_elem_of_further.
Qed.

Lemma pass_between fuel render h C :
  betweenPasses w props instance h0 us0 final h C -> (length us0 <= fuel)%nat ->
  exists q h',
    updateQueue (fib h w) = Some q /\
    processUpdateQueue fuel w q props instance render h = Some h' /\
    betweenPasses w props instance h0 us0 final h' (remaining h0 render C) /\
    (remaining h0 render C = [] -> memoizedState (fib h' w) = final).
Proof.
  intros (q & Hq & S & Hc & Hcap & Hf & Hl) Hfuel.
  destruct (processUpdateQueue_spec w q props instance render h fuel C [])
    as (h' & E & P); [done|by rewrite Hcap|lia|simpl; lia|].
  exists q, h'. split; [done|]. split; [done|].
  destruct P as [B Fu Lu Fc Lc M X Q F].
  assert (sameStatic h h') as S' by (intros u; apply F).
  rewrite app_nil_r in B, M.
  rewrite (sameStatic_applyAll _ _ S), (sameStatic_processedPrefix _ _ S) in B.
  rewrite (sameStatic_applyAll _ _ S), (sameStatic_processed _ _ S) in M.
  rewrite (sameStatic_remaining _ _ S) in Fu.
  split.
  - exists (processedQueue h w q).
    split.
    { rewrite Q. unfold processedQueue. by destruct (sharedWithCurrent h w q). }
    split; [by eapply sameStatic_trans|].
    split.
    { rewrite Fu. apply (sameStatic_chain h); [done|].
      destruct (remaining_suffix h0 render C) as (ps & E1 & _).
      rewrite E1 in Hc. by apply chain_suffix in Hc. }
    split; [rewrite Fc; simpl; by destruct (sharedWithCurrent h' w _)|].
    split.
    { rewrite B. rewrite <- Hf.
      destruct (remaining_suffix h0 render C) as (ps & E1 & ->).
      rewrite E1 at 3. by rewrite applyAll_app. }
    pose proof (remaining_length h0 render C). lia.
  - intros Er. rewrite M. destruct (remaining_nil_processed _ _ _ Er) as [-> _]. done.
Qed.

Lemma renderPasses_final fuel renders : forall h C,
  betweenPasses w props instance h0 us0 final h C -> (length us0 <= fuel)%nat ->
  exists h',
    renderPasses fuel w props instance renders h = Some h' /\
    (renders <> [] ->
     (C = [] \/ exists r, r ∈ renders /\ forall u, u ∈ C -> sufficient h0 r u = true) ->
     memoizedState (fib h' w) = final /\ betweenPasses w props instance h0 us0 final h' []).
Proof.
  induction renders as [|r renders IH]; intros h C Hb Hfuel.
  - exists h. split; [done|]. done.
  - destruct (pass_between fuel r h C Hb Hfuel) as (q & h1 & Hq & E & Hb1 & Hm).
    simpl. rewrite Hq, E.
    destruct (IH h1 _ Hb1 Hfuel) as (h' & E' & Hfin).
    exists h'. split; [done|]. intros _ Hd.
    assert (renders = [] \/ renders <> []) as [->|Hne] by (destruct renders; auto).
    + simpl in E'. injection E' as <-.
      assert (remaining h0 r C = []) as Er.
      { destruct Hd as [->|(r' & Hr & Hs)]; [done|].
        apply list_elem_of_singleton in Hr as ->. by apply remaining_all_sufficient. }
      split; [by apply Hm|]. by rewrite Er in Hb1.
    + apply Hfin; [done|].
      destruct Hd as [->|(r' & [->|Hr]%elem_of_cons & Hs)]; [by left| |].
      * left. by apply remaining_all_sufficient.
      * right. exists r'. split; [done|]. intros u Hu. apply Hs.
        by apply remaining_elem_of in Hu.
Qed.

End Determinism.

Lemma least_expirationTime h us :
  us <> [] ->
  exists m, m ∈ us /\ forall u, u ∈ us -> expirationTime (upd h m) <= expirationTime (upd h u).
Proof.
  induction us as [|a us IH]; [done|]. intros _.
  destruct us as [|b us].
  - exists a. split; [apply list_elem_of_here|].
    intros u ->%list_elem_of_singleton. lia.
  - destruct IH as (m & Hm & Hle); [done|].
    destruct (Z.le_gt_cases (expirationTime (upd h a)) (expirationTime (upd h m))).
    + exists a. split; [apply list_elem_of_here|].
      intros u [->|Hu]%elem_of_cons; [lia|]. specialize (Hle u Hu). lia.
    + exists m. split; [by apply list_elem_of_further|].
      intros u [->|Hu]%elem_of_cons; [lia|]. by apply Hle.
Qed.

Section DeterminismClaim.
Context `{Imports}.

(** C2, as the code has it.  For a queue with no captured update pending,
    processing it to completion gives the same final [memoizedState]
    whatever the order of the render priorities, as long as every priority
    level of the list is rendered: it is the state reached by applying all
    the updates in insertion order to the base state, and the list is
    empty at the end. *)
Theorem final_state_deterministic w q props instance h us fuel renders1 renders2 :
  updateQueue (fib h w) = Some q ->
  chain (nextOf h) (firstUpdate (que h q)) us ->
  firstCapturedUpdate (que h q) = None ->
  (length us <= fuel)%nat ->
  everyLevelRuns h us renders1 ->
  everyLevelRuns h us renders2 ->
  exists h1 h2 q1 q2,
    renderPasses fuel w props instance renders1 h = Some h1 /\
    renderPasses fuel w props instance renders2 h = Some h2 /\
    memoizedState (fib h1 w) = memoizedState (fib h2 w) /\
    memoizedState (fib h1 w) = applyAll h props instance us (baseState (que h q)) /\
    updateQueue (fib h1 w) = Some q1 /\ firstUpdate (que h1 q1) = None /\
    updateQueue (fib h2 w) = Some q2 /\ firstUpdate (que h2 q2) = None.
Proof.
  intros Hq Hc Hcap Hfuel R1 R2.
  set (final := applyAll h props instance us (baseState (que h q))).
  assert (Hb : betweenPasses w props instance h us final h us).
  { exists q. split; [done|]. split; [apply sameStatic_refl|]. split; [done|].
    split; [rewrite Hcap; by destruct (sharedWithCurrent h w q)|]. done. }
  assert (Hdrain : forall renders, everyLevelRuns h us renders ->
            us = [] \/ exists r, r ∈ renders /\ forall u, u ∈ us -> sufficient h r u = true).
  { intros renders [_ Hr]. destruct us as [|a us']; [by left|right].
    destruct (least_expirationTime h (a :: us')) as (m & Hm & Hle); [done|].
    exists (expirationTime (upd h m)). split; [by apply Hr|].
    intros u Hu. unfold sufficient. specialize (Hle u Hu).
    destruct (Z.ltb_spec (expirationTime (upd h u)) (expirationTime (upd h m))); [lia|done]. }
  destruct (renderPasses_final w props instance h us final fuel renders1 h us Hb Hfuel)
    as (h1 & E1 & F1).
  destruct (renderPasses_final w props instance h us final fuel renders2 h us Hb Hfuel)
    as (h2 & E2 & F2).
  destruct (F1 (proj1 R1) (Hdrain _ R1)) as (M1 & q1 & Q1 & _ & C1 & _).
  destruct (F2 (proj1 R2) (Hdrain _ R2)) as (M2 & q2 & Q2 & _ & C2 & _).
  exists h1, h2, q1, q2. rewrite M1, M2. simpl in C1, C2. done.
Qed.

End DeterminismClaim.

Lemma final_state_deterministic_witness :
  let h := rebaseEnqueued in
  exists h1 h2,
    renderPasses (H := reactImports) 4 0%nat VNull VNull [1; 2] h = Some h1 /\
    renderPasses (H := reactImports) 4 0%nat VNull VNull [2; 1] h = Some h2 /\
    memoizedState (fib h1 0%nat) = memoizedState (fib h2 0%nat) /\
    memoizedState (fib h1 0%nat) = VStr "ABCD".
Proof.
  intros h.
  assert (H1 : updateQueue (fib h 0%nat) = Some 0%nat) by (vm_compute; reflexivity).
  assert (H2 : chain (nextOf h) (firstUpdate (que h 0%nat)) [0; 1; 2; 3]%nat)
    by (vm_compute; repeat split; reflexivity).
  assert (H3 : firstCapturedUpdate (que h 0%nat) = None) by (vm_compute; reflexivity).
  assert (H4 : (length [0; 1; 2; 3]%nat <= 4)%nat) by (simpl; lia).
  assert (H5 : forall renders, 1 ∈ renders -> 2 ∈ renders ->
                 everyLevelRuns h [0; 1; 2; 3]%nat renders).
  { intros renders I1 I2. split; [intros ->; by apply elem_of_nil in I1|].
    intros u Hu. repeat (apply elem_of_cons in Hu as [->|Hu]; [assumption|]).
    by apply elem_of_nil in Hu. }
  assert (H6 : everyLevelRuns h [0; 1; 2; 3]%nat [1; 2]).
  { apply H5; [apply list_elem_of_here|apply list_elem_of_further, list_elem_of_here]. }
  assert (H7 : everyLevelRuns h [0; 1; 2; 3]%nat [2; 1]).
  { apply H5; [apply list_elem_of_further, list_elem_of_here|apply list_elem_of_here]. }
  destruct (final_state_deterministic (H := reactImports) 0%nat 0%nat VNull VNull h
              [0; 1; 2; 3]%nat 4 [1; 2] [2; 1] H1 H2 H3 H4 H6 H7)
    as (h1 & h2 & q1 & q2 & E1 & E2 & M & A & _).
  exists h1, h2. split; [exact E1|]. split; [exact E2|]. split; [exact M|].
  rewrite A. vm_compute. reflexivity.
Defined.

(** C2, as stated for every queue, fails when captured updates are
    pending: on [capturedMixed] the renders 1, 2 and the renders 2, 1 both
    run every level of the two lists and both drain them, and end in
    different states, the second without [x]. *)
Lemma final_state_deterministic_counterexample :
  let h := capturedMixed in
  updateQueue (fib h 0%nat) = Some 0%nat /\
  chain (nextOf h) (firstUpdate (que h 0%nat)) [0%nat] /\
  chain (nextOf h) (firstCapturedUpdate (que h 0%nat)) [1; 2]%nat /\
  everyLevelRuns h [0; 1; 2]%nat [1; 2] /\
  everyLevelRuns h [0; 1; 2]%nat [2; 1] /\
  exists h1 h2,
    renderPasses (H := reactImports) 3 0%nat VNull VNull [1; 2] h = Some h1 /\
    renderPasses (H := reactImports) 3 0%nat VNull VNull [2; 1] h = Some h2 /\
    firstUpdate (que h1 0%nat) = None /\ firstCapturedUpdate (que h1 0%nat) = None /\
    firstUpdate (que h2 0%nat) = None /\ firstCapturedUpdate (que h2 0%nat) = None /\
    memoizedState (fib h1 0%nat) =
      VObj {["a"%string := VNum 1; "x"%string := VNum 1; "y"%string := VNum 1]} /\
    memoizedState (fib h2 0%nat) = VObj {["a"%string := VNum 1; "y"%string := VNum 1]} /\
    memoizedState (fib h1 0%nat) <> memoizedState (fib h2 0%nat).
Proof.
  intros h.
  assert (Hl : forall renders, 1 ∈ renders -> 2 ∈ renders ->
                 everyLevelRuns h [0; 1; 2]%nat renders).
  { intros renders I1 I2. split; [intros ->; by apply elem_of_nil in I1|].
    intros u Hu. repeat (apply elem_of_cons in Hu as [->|Hu]; [assumption|]).
    by apply elem_of_nil in Hu. }
  assert (Hh : updateQueue (fib h 0%nat) = Some 0%nat /\
               chain (nextOf h) (firstUpdate (que h 0%nat)) [0%nat] /\
               chain (nextOf h) (firstCapturedUpdate (que h 0%nat)) [1; 2]%nat)
    by (vm_compute; repeat split; reflexivity).
  destruct Hh as (Hq & Hus & Hcs).
  split; [exact Hq|]. split; [exact Hus|]. split; [exact Hcs|].
  split; [apply Hl; [apply list_elem_of_here|apply list_elem_of_further, list_elem_of_here]|].
  split; [apply Hl; [apply list_elem_of_further, list_elem_of_here|apply list_elem_of_here]|].
  eexists _, _. split; [vm_compute; reflexivity|]. split; [vm_compute; reflexivity|].
  vm_compute. repeat split; try reflexivity. discriminate.
Qed.

(** * No update is lost *)

Lemma appendUpdateToQueue_eraseNext q update h u :
  eraseNext (upd (appendUpdateToQueue q update h) u) = eraseNext (upd h u).
Proof.
  unfold appendUpdateToQueue. destruct (lastUpdate (que h q)) as [t|]; [|by stores].
  destruct (decide (t = u)) as [->|]; by stores.
Qed.

Lemma appendUpdateToQueue_eraseList q update h q' :
  eraseList (que (appendUpdateToQueue q update h) q') = eraseList (que h q').
Proof.
  unfold appendUpdateToQueue.
  destruct (lastUpdate (que h q)) as [t|]; destruct (decide (q = q')) as [->|]; by stores.
Qed.

Lemma appendUpdateToQueue_firstUpdate q update h :
  firstUpdate (que (appendUpdateToQueue q update h) q) =
  match lastUpdate (que h q) with
  | Some _ => firstUpdate (que h q)
  | None => Some update
  end.
Proof. unfold appendUpdateToQueue. destruct (lastUpdate (que h q)); by stores. Qed.

Lemma appendUpdateToQueue_dom q update h :
  dom (updates h) ⊆ dom (updates (appendUpdateToQueue q update h)).
Proof.
  unfold appendUpdateToQueue. destruct (lastUpdate (que h q)) as [t|]; [|done].
  unfold set_lastUpdate, set_next, alterQueue, alterUpdate.
  change (dom (updates h) ⊆ dom (updates (putUpdate t (withNext (Some update) (upd h t)) h))).
  rewrite dom_updates_putUpdate. set_solver.
Qed.

Lemma appendUpdateToQueue_calls q update h :
  calls (appendUpdateToQueue q update h) = calls h.
Proof. unfold appendUpdateToQueue. by destruct (lastUpdate (que h q)). Qed.

(** Appending to a well-formed list. *)
Lemma chain_append_new link link' us u : forall start,
  chain link start us ->
  u ∉ us ->
  link' u = None ->
  (forall v, link' v = if decide (last us = Some v) then Some u else link v) ->
  chain link' (match us with [] => Some u | _ :: _ => start end) (us ++ [u]).
Proof.
  intros start Hc Hu Hnone Hl.
  destruct us as [|a us].
  - simpl. done.
  - destruct (last (a :: us)) as [t|] eqn:Et; [|by apply last_None in Et].
    apply (chain_join link link' (a :: us) [u] t); try done.
    + simpl. rewrite Hl. rewrite decide_True by done. split; [done|].
      rewrite <- Hnone, Hl. case_decide as Ed; [|done].
      injection Ed as ->.
      exfalso. apply Hu. by apply last_Some_elem_of.
    + intros v Hv. rewrite Hl. rewrite decide_False; [done|congruence].
    + intros ->%list_elem_of_singleton. apply Hu. by apply last_Some_elem_of.
Qed.

Lemma chain_unchanged link link' us : forall start,
  chain link start us -> (forall v, v ∈ us -> link' v = link v) -> chain link' start us.
Proof.
  induction us as [|a us IH]; intros start; simpl; [done|].
  intros [-> Hc] Hl. split; [done|]. rewrite Hl by apply list_elem_of_here.
  apply IH; [done|]. intros v Hv. apply Hl. by apply list_elem_of_further.
Qed.

Lemma appendUpdateToQueue_chain q update h us :
  chain (nextOf h) (firstUpdate (que h q)) us ->
  lastUpdate (que h q) = last us ->
  update ∉ us ->
  next (upd h update) = None ->
  chain (nextOf (appendUpdateToQueue q update h))
    (firstUpdate (que (appendUpdateToQueue q update h) q)) (us ++ [update]).
Proof.
  intros Hc Hl Hu Hn.
  rewrite appendUpdateToQueue_firstUpdate.
  pose proof (chain_append_new (nextOf h) (nextOf (appendUpdateToQueue q update h))
                us update _ Hc Hu) as Hj.
  assert (match lastUpdate (que h q) with
          | Some _ => firstUpdate (que h q)
          | None => Some update
          end = match us with [] => Some update | _ :: _ => firstUpdate (que h q) end) as ->.
  { rewrite Hl. destruct us as [|a us]; [done|].
    destruct (last (a :: us)) eqn:E; [done|]. by apply last_None in E. }
  apply Hj.
  - unfold nextOf. rewrite appendUpdateToQueue_links, Hl.
    case_decide as Ed; [|done]. exfalso. apply Hu. by apply last_Some_elem_of.
  - intros v. unfold nextOf. rewrite appendUpdateToQueue_links, Hl. done.
Qed.

Lemma appendToBoth_eraseNext q1 q2 update h u :
  eraseNext (upd (appendToBoth q1 q2 update h) u) = eraseNext (upd h u).
Proof.
  unfold appendToBoth. case_decide; [apply appendUpdateToQueue_eraseNext|].
  destruct (lastUpdate (que h q1)); [destruct (lastUpdate (que h q2))|];
    stores; by rewrite ?appendUpdateToQueue_eraseNext.
Qed.

Lemma appendToBoth_eraseList q1 q2 update h q :
  eraseList (que (appendToBoth q1 q2 update h) q) = eraseList (que h q).
Proof.
  unfold appendToBoth. case_decide; [apply appendUpdateToQueue_eraseList|].
  destruct (lastUpdate (que h q1)); [destruct (lastUpdate (que h q2))|];
    rewrite ?appendUpdateToQueue_eraseList; try done.
  destruct (decide (q2 = q)) as [->|]; stores; apply appendUpdateToQueue_eraseList.
Qed.

Lemma appendToBoth_other q1 q2 update h q :
  q <> q1 -> q <> q2 -> que (appendToBoth q1 q2 update h) q = que h q.
Proof.
  intros N1 N2. unfold appendToBoth. case_decide; [by apply appendUpdateToQueue_other|].
  destruct (lastUpdate (que h q1)); [destruct (lastUpdate (que h q2))|];
    stores; rewrite ?appendUpdateToQueue_other by done; done.
Qed.

Lemma appendToBoth_dom q1 q2 update h :
  dom (updates h) ⊆ dom (updates (appendToBoth q1 q2 update h)).
Proof.
  unfold appendToBoth. case_decide; [apply appendUpdateToQueue_dom|].
  pose proof (appendUpdateToQueue_dom q1 update h).
  pose proof (appendUpdateToQueue_dom q2 update (appendUpdateToQueue q1 update h)).
  destruct (lastUpdate (que h q1)); [destruct (lastUpdate (que h q2))|]; set_solver.
Qed.

Lemma appendToBoth_chains q1 q2 update h A B :
  q1 <> q2 ->
  chain (nextOf h) (firstUpdate (que h q1)) A -> lastUpdate (que h q1) = last A ->
  chain (nextOf h) (firstUpdate (que h q2)) B -> lastUpdate (que h q2) = last B ->
  (A = [] \/ B = [] \/ last A = last B) ->
  update ∉ A -> update ∉ B -> next (upd h update) = None ->
  let h' := appendToBoth q1 q2 update h in
  chain (nextOf h') (firstUpdate (que h' q1)) (A ++ [update]) /\
  chain (nextOf h') (firstUpdate (que h' q2)) (B ++ [update]).
Proof.
  intros Hne HA LA HB LB Hshare UA UB Hn h'.
  pose proof (appendUpdateToQueue_chain q1 update h A HA LA UA Hn) as C1.
  set (h1 := appendUpdateToQueue q1 update h) in *.
  assert (Hq2 : que h1 q2 = que h q2) by (by apply appendUpdateToQueue_other).
  assert (Hl1 : forall v, nextOf h1 v =
                  if decide (last A = Some v) then Some update else nextOf h v).
  { intros v. unfold nextOf, h1. by rewrite appendUpdateToQueue_links, LA. }
  unfold h', appendToBoth. rewrite decide_False by done. fold h1.
  destruct (lastUpdate (que h q1)) as [t1|] eqn:E1;
    [destruct (lastUpdate (que h q2)) as [t2|] eqn:E2|].
  - (* both lists non-empty: they end with the same record *)
    assert (last A = last B) as Hsame.
    { destruct Hshare as [->|[->|?]]; [done..|done]. }
    split.
    + eapply chain_ext; [|stores; exact C1]. intros v. by unfold nextOf; stores.
    + stores. rewrite Hq2.
      eapply chain_ext; [intros v; unfold nextOf; by stores|].
      pose proof (chain_append_new (nextOf h) (nextOf h1) B update _ HB UB) as Hj.
      destruct B as [|b B]; [by simpl in LB|]. apply Hj.
      * rewrite Hl1. case_decide as Ed; [|done].
        exfalso. apply UA. by apply last_Some_elem_of.
      * intros v. by rewrite Hl1, Hsame.
  - (* the second list is empty *)
    assert (B = []) as ->.
    { destruct B as [|b B]; [done|]. symmetry in LB. by apply last_None in LB. }
    set (h2 := appendUpdateToQueue q2 update h1).
    assert (Hl2 : forall v, nextOf h2 v = nextOf h1 v).
    { intros v. unfold nextOf, h2. rewrite appendUpdateToQueue_links, Hq2, E2.
      by rewrite decide_False. }
    split.
    + unfold h2. rewrite appendUpdateToQueue_other by done.
      eapply chain_ext; [exact Hl2|exact C1].
    + apply (appendUpdateToQueue_chain q2 update h1 []); try done.
      * by rewrite Hq2.
      * by rewrite Hq2.
      * change (nextOf h1 update = None). rewrite Hl1. case_decide as Ed; [|done].
        exfalso. apply UA. by apply last_Some_elem_of.
  - (* the first list is empty *)
    assert (A = []) as ->.
    { destruct A as [|a A]; [done|]. symmetry in LA. by apply last_None in LA. }
    set (h2 := appendUpdateToQueue q2 update h1).
    assert (Hl1' : forall v, nextOf h1 v = nextOf h v).
    { intros v. rewrite Hl1. simpl. try case_decide; done. }
    split.
    + unfold h2. rewrite appendUpdateToQueue_other by done.
      simpl in *. destruct C1 as [C1 C1']. split; [done|].
      change (nextOf h2 update = None). unfold nextOf, h2.
      rewrite appendUpdateToQueue_links, Hq2, LB.
      case_decide as Ed; [|exact C1'].
      exfalso. apply UB. by apply last_Some_elem_of.
    + apply (appendUpdateToQueue_chain q2 update h1 B); try done.
      * rewrite Hq2. eapply chain_ext; [exact Hl1'|exact HB].
      * by rewrite Hq2.
      * change (nextOf h1 update = None). by rewrite Hl1'.
Qed.

Lemma applyEach_app h L1 L2 s :
  applyEach h (L1 ++ L2) s = applyEach h L2 (applyEach h L1 s).
Proof. unfold applyEach. by rewrite foldl_app. Qed.

Lemma applyEach_render h props instance us s :
  applyEach h (map (fun u => (u, props, instance)) us) s = applyAll h props instance us s.
Proof.
  revert s. induction us as [|u us IH]; intros s; simpl; [done|]. apply IH.
Qed.

Lemma applyEach_ext h h' L s :
  (forall u, u ∈ L.*1.*1 ->
     tag (upd h' u) = tag (upd h u) /\ payload (upd h' u) = payload (upd h u)) ->
  applyEach h' L s = applyEach h L s.
Proof.
  revert s. induction L as [|[[u p] i] L IH]; intros s Hs; simpl; [done|].
  destruct (Hs u) as [Et Ep]; [simpl; apply list_elem_of_here|].
  assert (applyUpdate (upd h' u) s p i = applyUpdate (upd h u) s p i) as ->.
  { unfold applyUpdate. by rewrite Et, Ep. }
  apply IH. intros v Hv. apply Hs. simpl. by apply list_elem_of_further.
Qed.

Lemma render_fst_fst (props instance : Value) (us : list nat) :
  (map (fun u => (u, props, instance)) us).*1.*1 = us.
Proof. induction us as [|u us IH]; simpl; [done|]. by f_equal. Qed.

Lemma processed_sublist h render us : processed h render us `sublist_of` us.
Proof.
  induction us as [|u us IH]; simpl; [done|].
  destruct (sufficient h render u); [by apply sublist_skip|by apply sublist_cons].
Qed.

Lemma processed_or_remaining h render us u :
  u ∈ us -> u ∈ processed h render us \/ u ∈ remaining h render us.
Proof.
  induction us as [|v us IH]; simpl; [by intros ?%elem_of_nil|].
  destruct (sufficient h render v) eqn:E.
  - intros [->|Hu]%elem_of_cons; [left; apply list_elem_of_here|].
    destruct (IH Hu); [left; by apply list_elem_of_further|by right].
  - by right.
Qed.

Lemma processedPrefix_processed h render us :
  exists rest, processed h render us = processedPrefix h render us ++ rest.
Proof.
  induction us as [|u us (rest & IH)]; simpl; [by exists []|].
  destruct (sufficient h render u).
  - exists rest. simpl. by rewrite IH.
  - by exists (processed h render us).
Qed.

(** What scheduling writes before it calls [enqueueUpdate]. *)
Lemma newUpdate_spec e t p cb h :
  let u := fresh (dom (updates h)) in
  let h4 := set_callback u cb (set_payload u p (set_tag u t (createUpdate e h).2)) in
  (u ∉ dom (updates h)) /\
  upd h4 u = mkUpdate e t p cb None None /\
  (forall v, v <> u -> upd h4 v = upd h v) /\
  queues h4 = queues h /\ fibers h4 = fibers h /\
  dom (updates h4) = {[u]} ∪ dom (updates h).
Proof.
  intros u h4. split; [apply is_fresh|].
  unfold h4, createUpdate. fold u. cbn [snd]. generalize u. clear u h4. intros u.
  split; [unfold set_tag, set_payload; stores; by rewrite upd_putUpdate, decide_True|].
  split; [intros v Hv; unfold set_tag, set_payload; stores;
          unfold upd, putUpdate; simpl; by rewrite lookup_total_insert_ne|].
  split; [done|]. split; [done|].
  unfold set_callback, set_payload, set_tag, alterUpdate.
  rewrite !dom_updates_putUpdate. set_solver.
Qed.

Lemma enqueueNewUpdate_eq fiber e t p cb h :
  enqueueNewUpdate fiber e t p cb h =
  (fresh (dom (updates h)),
   enqueueUpdate fiber (fresh (dom (updates h)))
     (set_callback (fresh (dom (updates h))) cb
        (set_payload (fresh (dom (updates h))) p
           (set_tag (fresh (dom (updates h))) t (createUpdate e h).2)))).
Proof. done. Qed.

Lemma bothQueues_create fiber alt h :
  fiber <> alt ->
  updateQueue (fib h fiber) = None -> updateQueue (fib h alt) = None ->
  exists q1 q2 h1,
    bothQueues fiber alt h = (q1, q2, h1) /\
    q1 <> q2 /\
    que h1 q1 =
      mkUpdateQueue (memoizedState (fib h fiber)) None None None None None None None None /\
    que h1 q2 =
      mkUpdateQueue (memoizedState (fib h alt)) None None None None None None None None /\
    updates h1 = updates h /\
    fib h1 fiber = withUpdateQueue (Some q1) (fib h fiber) /\
    fib h1 alt = withUpdateQueue (Some q2) (fib h alt) /\
    (forall x, alternate (fib h1 x) = alternate (fib h x) /\
               memoizedState (fib h1 x) = memoizedState (fib h x)).
Proof.
  intros Hne E1 E2. unfold bothQueues. rewrite E1, E2. unfold createUpdateQueue.
  set (q1 := fresh (dom (queues h))).
  set (r1 := mkUpdateQueue (memoizedState (fib h fiber)) None None None None None None None None).
  set (h1 := set_updateQueue fiber (Some q1) (putQueue q1 r1 h)).
  set (q2 := fresh (dom (queues h1))).
  assert (q2 <> q1) as Hq.
  { unfold q2, h1. apply fresh_queue_ne. }
  eexists q1, q2, _. split; [reflexivity|].
  split; [done|].
  split; [unfold h1; by stores_cases|].
  split; [unfold h1; by stores_cases|].
  split; [done|].
  split; [unfold h1; by stores_cases|].
  split; [unfold h1; by stores_cases|].
  intros x. unfold h1. split; stores_cases.
Qed.

(** [enqueueUpdate] on a pair of fibers that both have a queue already. *)
Lemma enqueueUpdate_existing f o qf qo u h A B :
  alternate (fib h f) = Some o ->
  updateQueue (fib h f) = Some qf -> updateQueue (fib h o) = Some qo -> qf <> qo ->
  chain (nextOf h) (firstUpdate (que h qf)) A -> lastUpdate (que h qf) = last A ->
  chain (nextOf h) (firstUpdate (que h qo)) B -> lastUpdate (que h qo) = last B ->
  (A = [] \/ B = [] \/ last A = last B) ->
  u ∉ A -> u ∉ B -> next (upd h u) = None ->
  let h' := enqueueUpdate f u h in
  chain (nextOf h') (firstUpdate (que h' qf)) (A ++ [u]) /\
  chain (nextOf h') (firstUpdate (que h' qo)) (B ++ [u]) /\
  lastUpdate (que h' qf) = Some u /\ lastUpdate (que h' qo) = Some u /\
  (forall x, fib h' x = fib h x) /\
  (forall v, eraseNext (upd h' v) = eraseNext (upd h v)) /\
  (forall q, eraseList (que h' q) = eraseList (que h q)) /\
  dom (updates h) ⊆ dom (updates h').
Proof.
  intros Ha Qf Qo Hne HA LA HB LB Hsh UA UB Hn h'.
  unfold h'. rewrite (enqueueUpdate_halves f o) by done.
  unfold bothQueues. rewrite Qf, Qo.
  destruct (appendToBoth_chains qf qo u h A B) as [C1 C2]; try done.
  destruct (appendToBoth_spec qf qo u h) as (S1 & S2 & S3 & _).
  split; [done|]. split; [done|]. split; [done|]. split; [done|].
  split; [done|].
  split; [intros v; apply appendToBoth_eraseNext|].
  split; [intros q; apply appendToBoth_eraseList|apply appendToBoth_dom].
Qed.

(** [enqueueUpdate] on a pair of fibers that have no queue yet. *)
Lemma enqueueUpdate_create f o u h :
  f <> o -> alternate (fib h f) = Some o ->
  updateQueue (fib h f) = None -> updateQueue (fib h o) = None ->
  next (upd h u) = None ->
  let h' := enqueueUpdate f u h in
  exists qf qo,
    qf <> qo /\
    updateQueue (fib h' f) = Some qf /\ updateQueue (fib h' o) = Some qo /\
    chain (nextOf h') (firstUpdate (que h' qf)) [u] /\
    chain (nextOf h') (firstUpdate (que h' qo)) [u] /\
    lastUpdate (que h' qf) = Some u /\ lastUpdate (que h' qo) = Some u /\
    baseState (que h' qf) = memoizedState (fib h f) /\
    baseState (que h' qo) = memoizedState (fib h o) /\
    firstCapturedUpdate (que h' qf) = None /\ firstCapturedUpdate (que h' qo) = None /\
    (forall x, alternate (fib h' x) = alternate (fib h x) /\
               memoizedState (fib h' x) = memoizedState (fib h x)) /\
    (forall v, eraseNext (upd h' v) = eraseNext (upd h v)) /\
    dom (updates h) ⊆ dom (updates h').
Proof.
  intros Hne Ha Nf No Hn h'.
  unfold h'. rewrite (enqueueUpdate_halves f o) by done.
  destruct (bothQueues_create f o h Hne Nf No)
    as (q1 & q2 & h1 & -> & Hq & R1 & R2 & Hu & F1 & F2 & F3).
  assert (Hupd : forall v, upd h1 v = upd h v) by (intros v; unfold upd; by rewrite Hu).
  destruct (appendToBoth_chains q1 q2 u h1 [] []) as [C1 C2]; try done.
  { by rewrite R1. } { by rewrite R1. } { by rewrite R2. } { by rewrite R2. }
  { by left. } { by intros ?%elem_of_nil. } { by intros ?%elem_of_nil. }
  { by rewrite Hupd. }
  destruct (appendToBoth_spec q1 q2 u h1) as (S1 & S2 & S3 & _).
  pose proof (appendToBoth_eraseList q1 q2 u h1 q1) as L1. rewrite R1 in L1.
  pose proof (appendToBoth_eraseList q1 q2 u h1 q2) as L2. rewrite R2 in L2.
  exists q1, q2. split; [done|].
  split; [by rewrite S3, F1|]. split; [by rewrite S3, F2|].
  split; [done|]. split; [done|]. split; [done|]. split; [done|].
  split; [by apply (f_equal baseState) in L1|].
  split; [by apply (f_equal baseState) in L2|].
  split; [by apply (f_equal firstCapturedUpdate) in L1|].
  split; [by apply (f_equal firstCapturedUpdate) in L2|].
  split.
  { intros x. rewrite S3. apply F3. }
  split; [intros v; by rewrite appendToBoth_eraseNext, Hupd|].
  pose proof (appendToBoth_dom q1 q2 u h1) as Hd. by rewrite Hu in Hd.
Qed.

(** A walk of [commitUpdateEffects] writes the [callback] field of update
    records and the call log, nothing else. *)
Lemma commitUpdateEffects_frame instance fuel : forall effect h c h',
  commitUpdateEffects fuel effect instance h = Some (c, h') ->
  queues h' = queues h /\ fibers h' = fibers h /\
  forall u, withCallback None (upd h' u) = withCallback None (upd h u).
Proof.
  induction fuel as [|fuel IH]; intros [e|] h c h' E; simpl in E; try congruence.
  - by injection E as <- <-.
  - assert (Hs : forall ev,
      let h1 := logCall ev (set_callback e None h) in
      queues h1 = queues h /\ fibers h1 = fibers h /\
      forall u, withCallback None (upd h1 u) = withCallback None (upd h u)).
    { intros ev h1. split; [done|]. split; [done|]. intros u. unfold h1.
      destruct (decide (e = u)) as [->|]; by stores. }
    destruct (callback (upd h e)) as [[name throws|v]|] eqn:Ecb.
    + simpl in E. specialize (Hs (mkCallEvent name instance (updates (set_callback e None h)))).
      simpl in Hs. destruct Hs as (S1 & S2 & S3). destruct throws.
      * by injection E as <- <-.
      * apply IH in E as (E1 & E2 & E3). split; [by rewrite E1|]. split; [by rewrite E2|].
        intros u. by rewrite E3, S3.
    + simpl in E. injection E as <- <-. split; [done|]. split; [done|].
      intros u. destruct (decide (e = u)) as [->|]; by stores.
    + by apply IH in E.
  - by injection E as <- <-.
Qed.

(** [commitUpdateQueue] keeps the fibers and the head of every insertion
    list; when no captured update is pending it writes no [next] link:
    update records change in their [callback] field only. *)
Lemma commitUpdateQueue_frame fuel w q instance render h c h' :
  commitUpdateQueue fuel w q instance render h = Some (c, h') ->
  firstCapturedUpdate (que h q) = None ->
  fibers h' = fibers h /\
  (forall q', firstUpdate (que h' q') = firstUpdate (que h q')) /\
  forall u, withCallback None (upd h' u) = withCallback None (upd h u).
Proof.
  unfold commitUpdateQueue. intros E Hc. rewrite Hc in E.
  destruct (commitUpdateEffects fuel (firstEffect (que h q)) instance h)
    as [[[] h1]|] eqn:E1; [| |done].
  - apply commitUpdateEffects_frame in E1 as (A1 & A2 & A3).
    set (h2 := set_firstEffect q None (set_lastEffect q None h1)) in E.
    assert (B : fibers h2 = fibers h1 /\
                (forall q', firstUpdate (que h2 q') = firstUpdate (que h1 q')) /\
                forall u, upd h2 u = upd h1 u).
    { unfold h2. split; [done|]. split; [|done].
      intros q'. destruct (decide (q = q')) as [->|]; by stores. }
    destruct B as (B1 & B2 & B3).
    assert (Hq : forall q', firstUpdate (que h1 q') = firstUpdate (que h q')).
    { intros q'. unfold que. by rewrite A1. }
    destruct (commitUpdateEffects fuel (firstCapturedEffect (que h2 q)) instance h2)
      as [[[] h3]|] eqn:E3; [| |done].
    + apply commitUpdateEffects_frame in E3 as (C1 & C2 & C3).
      assert (Hq3 : forall q', firstUpdate (que h3 q') = firstUpdate (que h2 q')).
      { intros q'. unfold que. by rewrite C1. }
      injection E as <- <-.
      split; [simpl; congruence|]. split.
      * intros q'. transitivity (firstUpdate (que h3 q')); [|by rewrite Hq3, B2, Hq].
        destruct (decide (q = q')) as [->|]; by stores.
      * intros u. transitivity (withCallback None (upd h3 u)); [|by rewrite C3, B3, A3].
        by stores.
    + apply commitUpdateEffects_frame in E3 as (C1 & C2 & C3).
      injection E as <- <-. split; [congruence|]. split.
      * intros q'. unfold que at 1. rewrite C1. fold (que h2 q'). by rewrite B2, Hq.
      * intros u. by rewrite C3, B3, A3.
  - apply commitUpdateEffects_frame in E1 as (A1 & A2 & A3).
    injection E as <- <-. split; [done|]. split; [|done].
    intros q'. unfold que. by rewrite A1.
Qed.

(** * What [getStateFromUpdate] writes *)

Section ObjectStoreFacts.
Import ObjectStore.

Lemma ownProps_newObject (σ : Store) a v :
  a ∉ dom σ -> ownProps (<[a := ∅]> σ) v = ownProps σ v.
Proof.
  intros Ha. destruct v as [| | | | |b]; try done. cbn [ownProps].
  destruct (decide (a = b)) as [->|Hne].
  - rewrite lookup_total_insert_eq. rewrite lookup_total_alt.
    apply not_elem_of_dom in Ha. by rewrite Ha.
  - by rewrite lookup_total_insert_ne.
Qed.

Lemma Object_assign_fresh (σ : Store) prevState partialState :
  let target := fresh (dom σ) in
  Object_assign target [prevState; partialState] (newObject σ).2 =
    (JRef target, <[target := ownProps σ partialState ∪ ownProps σ prevState]> σ).
Proof.
  intros target. pose proof (is_fresh (dom σ)) as Hf. fold target in Hf.
  unfold Object_assign, newObject. fold target. cbn [snd foldl]. f_equal.
  rewrite lookup_total_insert_eq, (right_id_L ∅ (∪)), ownProps_newObject by done.
  rewrite insert_insert_eq, lookup_total_insert_eq, insert_insert_eq. f_equal.
  destruct partialState as [| | | | |b]; try done. cbn [ownProps].
  destruct (decide (target = b)) as [<-|Hne].
  - rewrite lookup_total_insert_eq.
    assert (σ !!! target = (∅ : gmap string JsVal)) as ->.
    { rewrite lookup_total_alt. apply not_elem_of_dom in Hf. by rewrite Hf. }
    by rewrite map_empty_union, map_union_idemp.
  - by rewrite !lookup_total_insert_ne by done.
Qed.

End ObjectStoreFacts.

(** C10. [getStateFromUpdate] never writes into the previous state.  With
    [called] the outcome of reading the payload (the value and the store
    left by the updater function, or the payload and the store as it was),
    the function returns the payload or its return value for
    [ReplaceState]; [prevState] itself for a [null] or [undefined] partial
    state, for [ForceUpdate] and for any other tag; and otherwise the
    address of an object that did not exist before, holding the properties
    of [prevState] overwritten by those of the partial state.  In every
    case each object that existed when the payload had been read has the
    same properties afterwards: the only object written is the new one. *)
Theorem getStateFromUpdate_keeps_prevState `{Imports} (update : ObjectStore.Update)
    (prevState nextProps instance : ObjectStore.JsVal) (m : ObjectStore.State) :
  let called :=
    ObjectStore.callPayload (ObjectStore.payload update) instance prevState nextProps
      (ObjectStore.objects m) in
  let before :=
    if ObjectStore.readsPayload update then called.2 else ObjectStore.objects m in
  let result := ObjectStore.getStateFromUpdate update prevState nextProps instance m in
  let target := fresh (dom called.2) in
  (forall a, a ∈ dom before ->
     ObjectStore.objects result.2 !! a = before !! a) /\
  ((ObjectStore.tag update = ReplaceState /\
    result.1 = called.1 /\ ObjectStore.objects result.2 = called.2) \/
   ((ObjectStore.tag update = CaptureUpdate \/ ObjectStore.tag update = UpdateState) /\
    (called.1 = ObjectStore.JNull \/ called.1 = ObjectStore.JUndefined) /\
    result.1 = prevState /\ ObjectStore.objects result.2 = called.2) \/
   ((ObjectStore.tag update = CaptureUpdate \/ ObjectStore.tag update = UpdateState) /\
    called.1 <> ObjectStore.JNull /\ called.1 <> ObjectStore.JUndefined /\
    (target ∉ dom called.2) /\
    result.1 = ObjectStore.JRef target /\
    ObjectStore.objects result.2 =
      <[target := ObjectStore.ownProps called.2 called.1 ∪
                  ObjectStore.ownProps called.2 prevState]> called.2) \/
   (ObjectStore.readsPayload update = false /\
    result.1 = prevState /\ ObjectStore.objects result.2 = ObjectStore.objects m)).
Proof.
  intros called before result target.
  assert (Hf : target ∉ dom called.2) by apply is_fresh.
  cut ((ObjectStore.tag update = ReplaceState /\
    result.1 = called.1 /\ ObjectStore.objects result.2 = called.2 /\ before = called.2) \/
   ((ObjectStore.tag update = CaptureUpdate \/ ObjectStore.tag update = UpdateState) /\
    (called.1 = ObjectStore.JNull \/ called.1 = ObjectStore.JUndefined) /\
    result.1 = prevState /\ ObjectStore.objects result.2 = called.2 /\ before = called.2) \/
   ((ObjectStore.tag update = CaptureUpdate \/ ObjectStore.tag update = UpdateState) /\
    called.1 <> ObjectStore.JNull /\ called.1 <> ObjectStore.JUndefined /\
    result.1 = ObjectStore.JRef target /\
    ObjectStore.objects result.2 =
      <[target := ObjectStore.ownProps called.2 called.1 ∪
                  ObjectStore.ownProps called.2 prevState]> called.2 /\
    before = called.2) \/
   (ObjectStore.readsPayload update = false /\
    result.1 = prevState /\ ObjectStore.objects result.2 = ObjectStore.objects m /\
    before = ObjectStore.objects m)).
  { intros [(T & R & O & B)|[(T & N & R & O & B)|[(T & N1 & N2 & R & O & B)|(T & R & O & B)]]].
    - split; [intros a _; by rewrite O, B|]. by left.
    - split; [intros a _; by rewrite O, B|]. right. by left.
    - split.
      + intros a Ha. rewrite O, B. apply lookup_insert_ne. intros <-. by rewrite B in Ha.
      + right. right. by left.
    - split; [intros a _; by rewrite O, B|]. right. right. by right. }
  unfold result, before, ObjectStore.getStateFromUpdate, ObjectStore.readsPayload.
  destruct (Z.eqb_spec (ObjectStore.tag update) ReplaceState) as [E1|E1].
  { left. split; [done|]. fold called. by destruct called. }
  rewrite orb_false_l.
  assert (Hcases :
    (ObjectStore.tag update =? CaptureUpdate) || (ObjectStore.tag update =? UpdateState) = true ->
    ObjectStore.tag update = CaptureUpdate \/ ObjectStore.tag update = UpdateState).
  { intros [?%Z.eqb_eq|?%Z.eqb_eq]%orb_true_iff; auto. }
  destruct ((ObjectStore.tag update =? CaptureUpdate) || (ObjectStore.tag update =? UpdateState))
    eqn:E2.
  - specialize (Hcases eq_refl). right.
    assert (Hobj : forall (b : bool) v,
      ObjectStore.objects (if b then ObjectStore.set_effectTag v m else m) =
      ObjectStore.objects m) by (by intros []).
    cbv zeta. rewrite Hobj. fold called.
    pose proof (Object_assign_fresh called.2 prevState called.1) as Ha.
    cbv zeta in Ha. fold target in Ha. unfold ObjectStore.newObject in *. fold target.
    destruct called as [partialState σ]. cbn [fst snd] in *.
    destruct partialState.
    1, 2: left; split; [done|]; split; [auto|]; done.
    all: right; left; split; [done|]; split; [done|]; split; [done|].
    all: subst target; cbn [fst snd] in *; rewrite Ha; cbn [fst snd ObjectStore.set_objects ObjectStore.objects]; done.
  - right. right. right. split; [done|].
    by destruct (ObjectStore.tag update =? ForceUpdate).
Qed.

Lemma getStateFromUpdate_keeps_prevState_witness :
  let result :=
    ObjectStore.getStateFromUpdate (H := reactImports)
      (ObjectStore.mkUpdate UpdateState ObjectStore.addB)
      (ObjectStore.JRef 0) ObjectStore.JNull ObjectStore.JNull ObjectStore.committed in
  result.1 = ObjectStore.JRef 2 /\
  ObjectStore.objects result.2 !! 0%nat = Some {["a"%string := ObjectStore.JNum 1]} /\
  ObjectStore.objects result.2 !! 2%nat =
    Some {["a"%string := ObjectStore.JNum 1; "b"%string := ObjectStore.JNum 2]}.
Proof.
  intros result.
  destruct (getStateFromUpdate_keeps_prevState (H := reactImports)
              (ObjectStore.mkUpdate UpdateState ObjectStore.addB)
              (ObjectStore.JRef 0) ObjectStore.JNull ObjectStore.JNull ObjectStore.committed)
    as [Hk _].
  split; [vm_compute; reflexivity|]. split; [|vm_compute; reflexivity].
  etrans; [apply Hk|vm_compute; reflexivity].
  apply elem_of_dom. eexists. vm_compute. reflexivity.
Defined.

(** * Further properties of the queue *)

Section LoopHeaps.
Context `{Imports}.
Context (w q : nat) (props instance : Value) (render : Z).

Lemma getStateFromUpdate_heap u s h :
  (getStateFromUpdate w q u s props instance h).2 = tagEffect w u h.
Proof.
  unfold getStateFromUpdate, tagEffect. cbv zeta.
  destruct (tag (upd h u) =? ReplaceState); [done|].
  destruct ((tag (upd h u) =? CaptureUpdate) || (tag (upd h u) =? UpdateState)).
  - by destruct (callPayload _ _ _ _).
  - by destruct (tag (upd h u) =? ForceUpdate).
Qed.

Lemma tagEffect_frame u h : loopFrame w q h (tagEffect w u h).
Proof.
  rewrite <- (getStateFromUpdate_heap u VNull h). apply getStateFromUpdate_frame.
Qed.

Lemma iterNormal_frame u h : loopFrame w q h (iterNormal w q render h u).
Proof.
  unfold iterNormal. destruct (_ <? _); [apply loopFrame_refl|]. cbv zeta.
  destruct (callback _); [|apply tagEffect_frame].
  eapply loopFrame_trans; [apply tagEffect_frame|].
  eapply loopFrame_trans; [apply loopFrame_set_effectTag|apply loopFrame_pushEffect].
Qed.

Lemma iterCaptured_frame u h : loopFrame w q h (iterCaptured w q render h u).
Proof.
  unfold iterCaptured. destruct (_ <? _); [apply loopFrame_refl|]. cbv zeta.
  destruct (callback _); [|apply tagEffect_frame].
  eapply loopFrame_trans; [apply tagEffect_frame|].
  eapply loopFrame_trans; [apply loopFrame_set_effectTag|apply loopFrame_pushCapturedEffect].
Qed.

Lemma foldNormal_frame us : forall h, loopFrame w q h (foldl (iterNormal w q render) h us).
Proof.
  induction us as [|u us IH]; intros h; simpl; [apply loopFrame_refl|].
  eapply loopFrame_trans; [apply iterNormal_frame|apply IH].
Qed.

Lemma foldCaptured_frame us : forall h, loopFrame w q h (foldl (iterCaptured w q render) h us).
Proof.
  induction us as [|u us IH]; intros h; simpl; [apply loopFrame_refl|].
  eapply loopFrame_trans; [apply iterCaptured_frame|apply IH].
Qed.

Lemma processUpdates_iter fuel u l h :
  processUpdates (S fuel) w q props instance render (Some u) l h =
  processUpdates fuel w q props instance render (next (upd h u))
    (stepNormal render props instance (upd h u) u l) (iterNormal w q render h u).
Proof.
  pose proof (iterNormal_frame u h) as F.
  rewrite <- (loopFrame_next w q h _ u F).
  simpl. unfold stepNormal, iterNormal.
  destruct (expirationTime (upd h u) <? render); [done|].
  pose proof (getStateFromUpdate_state w q props instance u (resultState l) h) as Hs.
  pose proof (getStateFromUpdate_heap u (resultState l) h) as Hh.
  destruct (getStateFromUpdate w q u (resultState l) props instance h) as [s h1].
  simpl in Hs, Hh. subst s h1. cbv zeta.
  by destruct (callback (upd (tagEffect w u h) u)).
Qed.

Lemma processCapturedUpdates_iter fuel u l h :
  processCapturedUpdates (S fuel) w q props instance render (Some u) l h =
  processCapturedUpdates fuel w q props instance render (next (upd h u))
    (stepCaptured render props instance (upd h u) u l) (iterCaptured w q render h u).
Proof.
  pose proof (iterCaptured_frame u h) as F.
  rewrite <- (loopFrame_next w q h _ u F).
  simpl. unfold stepCaptured, iterCaptured.
  destruct (expirationTime (upd h u) <? render); [done|].
  pose proof (getStateFromUpdate_state w q props instance u (resultState l) h) as Hs.
  pose proof (getStateFromUpdate_heap u (resultState l) h) as Hh.
  destruct (getStateFromUpdate w q u (resultState l) props instance h) as [s h1].
  simpl in Hs, Hh. subst s h1. cbv zeta.
  by destruct (callback (upd (tagEffect w u h) u)).
Qed.

(** The first loop over a well-formed list ends with the heap that the
    iterations build one after the other. *)
Lemma processUpdates_heap us : forall fuel start l h,
  chain (nextOf h) start us -> (length us <= fuel)%nat ->
  processUpdates fuel w q props instance render start l h =
    Some (foldl (fun l u => stepNormal render props instance (upd h u) u l) l us,
          foldl (iterNormal w q render) h us).
Proof.
  induction us as [|u us IH]; intros fuel start l h Hc Hf; simpl in Hc.
  - subst start. by destruct fuel.
  - destruct Hc as [-> Hc]. destruct fuel as [|fuel]; [simpl in Hf; lia|].
    rewrite processUpdates_iter.
    pose proof (iterNormal_frame u h) as F.
    rewrite (IH fuel); [|by eapply loopFrame_chain|simpl in Hf; lia].
    simpl. f_equal. f_equal.
    apply foldl_pointwise. intros; by apply (loopFrame_stepNormal w q).
Qed.

Lemma processCapturedUpdates_heap us : forall fuel start l h,
  chain (nextOf h) start us -> (length us <= fuel)%nat ->
  processCapturedUpdates fuel w q props instance render start l h =
    Some (foldl (fun l u => stepCaptured render props instance (upd h u) u l) l us,
          foldl (iterCaptured w q render) h us).
Proof.
  induction us as [|u us IH]; intros fuel start l h Hc Hf; simpl in Hc.
  - subst start. by destruct fuel.
  - destruct Hc as [-> Hc]. destruct fuel as [|fuel]; [simpl in Hf; lia|].
    rewrite processCapturedUpdates_iter.
    pose proof (iterCaptured_frame u h) as F.
    rewrite (IH fuel); [|by eapply loopFrame_chain|simpl in Hf; lia].
    simpl. f_equal. f_equal.
    apply foldl_pointwise. intros; by apply (loopFrame_stepCaptured w q).
Qed.

End LoopHeaps.

Section PassHeap.
Context `{Imports}.
Context (w q : nat) (props instance : Value) (render : Z).

(** A pass ends with the heap of its two loops, followed by the final
    writes. *)
Lemma processUpdateQueue_heap h fuel us cs :
  chain (nextOf h) (firstUpdate (que h q)) us ->
  chain (nextOf h)
    (if sharedWithCurrent h w q then None else firstCapturedUpdate (que h q)) cs ->
  (length us <= fuel)%nat -> (length cs <= fuel)%nat ->
  exists l,
    processUpdateQueue fuel w q props instance render h =
      Some (finishPass w (processedQueue h w q) l (loopsHeap w q render us cs h)) /\
    newFirstUpdate l = head (remaining h render us) /\
    newFirstCapturedUpdate l = head (remaining h render cs).
Proof.
  intros Hus Hcs Lus Lcs.
  unfold processUpdateQueue, loopsHeap.
  destruct (ensureWorkInProgressQueueIsAClone w q (set_hasForceUpdate false h))
    as [q' h1] eqn:E.
  apply ensure_facts in E.
  change (sharedWithCurrent (set_hasForceUpdate false h) w q)
    with (sharedWithCurrent h w q) in E.
  change (processedQueue (set_hasForceUpdate false h) w q)
    with (processedQueue h w q) in E.
  change (que (set_hasForceUpdate false h) q) with (que h q) in E.
  change (updates (set_hasForceUpdate false h)) with (updates h) in E.
  destruct E as (Eq & Eu & E1 & E2 & E3 & E4 & E5 & E6 & F0).
  assert (sameStatic h h1) as S1.
  { intros u. unfold upd. by rewrite Eu. }
  rewrite <- Eq. clear Eq. cbn [snd].
  rewrite (processUpdates_heap w q' props instance render us);
    [|rewrite E2; by apply (sameStatic_chain h)|done].
  set (h2 := foldl (iterNormal w q' render) h1 us).
  pose proof (foldNormal_frame w q' props instance render us h1) as F1. fold h2 in F1.
  assert (sameStatic h1 h2) as S2 by (intros u; apply F1).
  rewrite (processCapturedUpdates_heap w q' props instance render cs).
  - eexists. split; [reflexivity|].
    rewrite foldNormal_fresh by done.
    rewrite foldCaptured_fresh by done. cbn [newFirstUpdate newFirstCapturedUpdate].
    assert (sameStatic h h2) as S02 by (eapply sameStatic_trans; eauto).
    by rewrite (sameStatic_remaining h h2 S02), (sameStatic_remaining h h1 S1).
  - apply (sameStatic_chain h1); [done|]. apply (sameStatic_chain h); [done|].
    pose proof (lf_queue _ _ _ _ F1) as Eq. apply (f_equal firstCapturedUpdate) in Eq.
    simpl in Eq. by rewrite Eq, E4.
  - done.
Qed.

Lemma hasForceUpdate_tagEffect u h :
  hasForceUpdate (tagEffect w u h) = hasForceUpdate h || (tag (upd h u) =? ForceUpdate).
Proof.
  unfold tagEffect. cbv zeta.
  destruct (Z.eqb_spec (tag (upd h u)) ReplaceState) as [->|?];
    [change (ReplaceState =? ForceUpdate) with false; by rewrite orb_false_r|].
  destruct (Z.eqb_spec (tag (upd h u)) CaptureUpdate) as [->|?];
    [change (CaptureUpdate =? ForceUpdate) with false; simpl; by rewrite orb_false_r|].
  destruct (Z.eqb_spec (tag (upd h u)) UpdateState) as [->|?];
    [change (UpdateState =? ForceUpdate) with false; simpl; by rewrite orb_false_r|].
  simpl. destruct (tag (upd h u) =? ForceUpdate); simpl;
    [by rewrite orb_true_r|by rewrite orb_false_r].
Qed.

Lemma hasForceUpdate_pushEffect u h : hasForceUpdate (pushEffect q u h) = hasForceUpdate h.
Proof. unfold pushEffect. by destruct (lastEffect _). Qed.

Lemma hasForceUpdate_pushCapturedEffect u h :
  hasForceUpdate (pushCapturedEffect q u h) = hasForceUpdate h.
Proof. unfold pushCapturedEffect. by destruct (lastCapturedEffect _). Qed.

Lemma hasForceUpdate_iterNormal u h :
  hasForceUpdate (iterNormal w q render h u) =
  hasForceUpdate h || (sufficient h render u && (tag (upd h u) =? ForceUpdate)).
Proof.
  unfold iterNormal, sufficient.
  destruct (_ <? _); simpl; [by rewrite orb_false_r|].
  destruct (callback _); [rewrite hasForceUpdate_pushEffect|];
    apply hasForceUpdate_tagEffect.
Qed.

Lemma hasForceUpdate_iterCaptured u h :
  hasForceUpdate (iterCaptured w q render h u) =
  hasForceUpdate h || (sufficient h render u && (tag (upd h u) =? ForceUpdate)).
Proof.
  unfold iterCaptured, sufficient.
  destruct (_ <? _); simpl; [by rewrite orb_false_r|].
  destruct (callback _); [rewrite hasForceUpdate_pushCapturedEffect|];
    apply hasForceUpdate_tagEffect.
Qed.

Lemma sameStatic_forced h h' us : sameStatic h h' -> forced h' render us = forced h render us.
Proof.
  intros S. unfold forced. rewrite (sameStatic_processed h h' S).
  induction (processed h render us) as [|u l IH]; simpl; [done|].
  rewrite IH. f_equal. pose proof (S u) as E. apply (f_equal tag) in E. simpl in E.
  by rewrite E.
Qed.

Lemma forced_cons h u us :
  forced h render (u :: us) =
  (sufficient h render u && (tag (upd h u) =? ForceUpdate)) || forced h render us.
Proof. unfold forced. simpl. by destruct (sufficient h render u). Qed.

Lemma forced_app h us cs :
  forced h render (us ++ cs) = forced h render us || forced h render cs.
Proof. unfold forced. by rewrite processed_app, existsb_app. Qed.

Lemma hasForceUpdate_foldNormal us : forall h,
  hasForceUpdate (foldl (iterNormal w q render) h us) =
  hasForceUpdate h || forced h render us.
Proof.
  induction us as [|u us IH]; intros h; simpl; [by rewrite orb_false_r|].
  rewrite IH, hasForceUpdate_iterNormal, forced_cons, <- orb_assoc. f_equal. f_equal.
  apply sameStatic_forced. intros v. apply (iterNormal_frame w q props instance render u h).
Qed.

Lemma hasForceUpdate_foldCaptured us : forall h,
  hasForceUpdate (foldl (iterCaptured w q render) h us) =
  hasForceUpdate h || forced h render us.
Proof.
  induction us as [|u us IH]; intros h; simpl; [by rewrite orb_false_r|].
  rewrite IH, hasForceUpdate_iterCaptured, forced_cons, <- orb_assoc. f_equal. f_equal.
  apply sameStatic_forced. intros v. apply (iterCaptured_frame w q props instance render u h).
Qed.

Lemma hasForceUpdate_finishPass l h : hasForceUpdate (finishPass w q l h) = hasForceUpdate h.
Proof.
  unfold finishPass. by destruct (newFirstUpdate l), (newFirstCapturedUpdate l).
Qed.

Lemma hasForceUpdate_ensure h :
  hasForceUpdate (ensureWorkInProgressQueueIsAClone w q h).2 = hasForceUpdate h.
Proof. rewrite ensure_spec. by destruct (sharedWithCurrent h w q). Qed.

Lemma ensure_sameStatic h : sameStatic h (ensureWorkInProgressQueueIsAClone w q h).2.
Proof. rewrite ensure_spec. by destruct (sharedWithCurrent h w q). Qed.

End PassHeap.

Section ForceUpdate.
Context `{Imports}.
Context (w q : nat) (props instance : Value) (render : Z).

(** X1. After a pass, [checkHasForceUpdateAfterProcessing] tells whether the
    pass applied an update with the tag [ForceUpdate]: the flag is reset
    when the pass starts, a skipped [ForceUpdate] does not set it, and an
    applied one of either list does. *)
Theorem pass_force_update h fuel us cs :
  chain (nextOf h) (firstUpdate (que h q)) us ->
  chain (nextOf h)
    (if sharedWithCurrent h w q then None else firstCapturedUpdate (que h q)) cs ->
  (length us <= fuel)%nat -> (length cs <= fuel)%nat ->
  exists h',
    processUpdateQueue fuel w q props instance render h = Some h' /\
    checkHasForceUpdateAfterProcessing h' = forced h render (us ++ cs).
Proof.
  intros Hus Hcs Lus Lcs.
  destruct (processUpdateQueue_heap w q props instance render h fuel us cs)
    as (l & -> & _); [done..|].
  eexists. split; [reflexivity|].
  unfold checkHasForceUpdateAfterProcessing, loopsHeap.
  rewrite hasForceUpdate_finishPass, (hasForceUpdate_foldCaptured w _ props instance),
    (hasForceUpdate_foldNormal w _ props instance), hasForceUpdate_ensure, forced_app.
  cbn [hasForceUpdate set_hasForceUpdate]. rewrite orb_false_l.
  set (h1 := (ensureWorkInProgressQueueIsAClone w q (set_hasForceUpdate false h)).2).
  assert (S1 : sameStatic h h1) by apply (ensure_sameStatic w q (set_hasForceUpdate false h)).
  rewrite (sameStatic_forced render h h1 us S1). f_equal.
  rewrite <- (sameStatic_forced render h h1 cs S1).
  apply sameStatic_forced. intros v. apply (foldNormal_frame w _ props instance render us h1).
Qed.

End ForceUpdate.

Lemma pass_force_update_witness :
  exists h',
    processUpdateQueue (H := reactImports) 4 0%nat 0%nat VNull VNull 2 mixedQueue = Some h' /\
    checkHasForceUpdateAfterProcessing h' = true.
Proof.
  destruct (pass_force_update (H := reactImports) 0%nat 0%nat VNull VNull 2 mixedQueue 4
              [0; 1; 2; 3]%nat [])
    as (h' & E & F).
  - vm_compute. repeat split; reflexivity.
  - vm_compute. reflexivity.
  - simpl; lia.
  - simpl; lia.
  - exists h'. split; [exact E|]. rewrite F. vm_compute. reflexivity.
Defined.

Lemma effectsOf_elem_of h render us u : u ∈ effectsOf h render us -> u ∈ us.
Proof.
  induction us as [|v us IH]; simpl; [done|].
  destruct (sufficient h render v); [destruct (callback (upd h v))|].
  - intros [->|Hu]%elem_of_cons; [apply list_elem_of_here|].
    apply list_elem_of_further. by apply IH.
  - intros Hu. apply list_elem_of_further. by apply IH.
  - intros Hu. apply list_elem_of_further. by apply IH.
Qed.

Lemma effectsOf_callback h render us u :
  u ∈ effectsOf h render us -> callback (upd h u) <> None /\ sufficient h render u = true.
Proof.
  induction us as [|v us IH]; simpl; [by intros ?%elem_of_nil|].
  destruct (sufficient h render v) eqn:Es; [destruct (callback (upd h v)) eqn:Ec|]; try done.
  intros [->|Hu]%elem_of_cons; [|by apply IH]. by rewrite Ec.
Qed.

Lemma sameStatic_effectsOf h h' render us :
  sameStatic h h' -> effectsOf h' render us = effectsOf h render us.
Proof.
  intros S. induction us as [|u us IH]; simpl; [done|].
  by rewrite (sameStatic_sufficient h h' S), (sameStatic_callback h h' S), IH.
Qed.

Section EffectLists.
Context `{Imports}.
Context (w q : nat) (props instance : Value) (render : Z).

Lemma upd_tagEffect u h v : upd (tagEffect w u h) v = upd h v.
Proof.
  unfold tagEffect. cbv zeta.
  destruct (_ =? ReplaceState); [done|].
  destruct (_ || _); [by destruct (_ =? CaptureUpdate)|by destruct (_ =? ForceUpdate)].
Qed.

Lemma que_tagEffect u h q' : que (tagEffect w u h) q' = que h q'.
Proof.
  unfold tagEffect. cbv zeta.
  destruct (_ =? ReplaceState); [done|].
  destruct (_ || _); [by destruct (_ =? CaptureUpdate)|by destruct (_ =? ForceUpdate)].
Qed.

(** Appending to the first effect list. *)
Lemma pushEffect_chain u h es :
  chain (nextEffectOf h) (firstEffect (que h q)) es ->
  lastEffect (que h q) = last es ->
  u ∉ es ->
  chain (nextEffectOf (pushEffect q u h)) (firstEffect (que (pushEffect q u h) q)) (es ++ [u]) /\
  lastEffect (que (pushEffect q u h) q) = Some u.
Proof.
  intros Hc Hl Hu. unfold pushEffect. cbv zeta.
  change (que (set_nextEffect u None h) q) with (que h q).
  set (h1 := set_nextEffect u None h).
  assert (Hc1 : chain (nextEffectOf h1) (firstEffect (que h q)) es).
  { apply (chain_unchanged (nextEffectOf h)); [done|].
    intros v Hv. unfold nextEffectOf, h1. assert (u <> v) by (intros E; apply Hu; by rewrite E). by stores. }
  destruct (lastEffect (que h q)) as [t|] eqn:Et.
  - split; [|by stores].
    assert (Hne : es <> []) by (intros ->; done).
    pose proof (chain_append_new (nextEffectOf h1) (nextEffectOf (set_nextEffect t (Some u) h1))
                  es u (firstEffect (que h q)) Hc1 Hu) as Ha.
    destruct es as [|a es']; [done|].
    assert (t <> u).
    { intros ->. apply Hu. apply last_Some_elem_of. by rewrite <- Hl. }
    stores. apply Ha.
    + unfold nextEffectOf, h1. by stores.
    + intros v. unfold nextEffectOf. rewrite <- Hl.
      case_decide as Ed; [injection Ed as <-; by stores|].
      assert (t <> v) by congruence. by stores.
  - destruct es as [|a es']; [|symmetry in Hl; by apply last_None in Hl].
    simpl in *. split; [|by stores]. stores. split; [done|].
    unfold nextEffectOf, h1. by stores.
Qed.

Lemma pushEffect_other u h :
  firstCapturedEffect (que (pushEffect q u h) q) = firstCapturedEffect (que h q) /\
  lastCapturedEffect (que (pushEffect q u h) q) = lastCapturedEffect (que h q) /\
  lastEffect (que (pushEffect q u h) q) = Some u /\
  forall v, v <> u -> lastEffect (que h q) <> Some v ->
    nextEffect (upd (pushEffect q u h) v) = nextEffect (upd h v).
Proof.
  unfold pushEffect. cbv zeta.
  change (que (set_nextEffect u None h) q) with (que h q).
  destruct (lastEffect (que h q)) as [t|] eqn:Et.
  - split; [by stores|]. split; [by stores|]. split; [by stores|].
    intros v Hv Ht. assert (t <> v) by congruence. assert (u <> v) by congruence. by stores.
  - split; [by stores|]. split; [by stores|]. split; [by stores|].
    intros v Hv _. assert (u <> v) by congruence. by stores.
Qed.

(** Appending to the second effect list. *)
Lemma pushCapturedEffect_chain u h es :
  chain (nextEffectOf h) (firstCapturedEffect (que h q)) es ->
  lastCapturedEffect (que h q) = last es ->
  u ∉ es ->
  chain (nextEffectOf (pushCapturedEffect q u h))
    (firstCapturedEffect (que (pushCapturedEffect q u h) q)) (es ++ [u]) /\
  lastCapturedEffect (que (pushCapturedEffect q u h) q) = Some u.
Proof.
  intros Hc Hl Hu. unfold pushCapturedEffect. cbv zeta.
  change (que (set_nextEffect u None h) q) with (que h q).
  set (h1 := set_nextEffect u None h).
  assert (Hc1 : chain (nextEffectOf h1) (firstCapturedEffect (que h q)) es).
  { apply (chain_unchanged (nextEffectOf h)); [done|].
    intros v Hv. unfold nextEffectOf, h1. assert (u <> v) by (intros E; apply Hu; by rewrite E). by stores. }
  destruct (lastCapturedEffect (que h q)) as [t|] eqn:Et.
  - split; [|by stores].
    pose proof (chain_append_new (nextEffectOf h1) (nextEffectOf (set_nextEffect t (Some u) h1))
                  es u (firstCapturedEffect (que h q)) Hc1 Hu) as Ha.
    destruct es as [|a es']; [done|].
    assert (t <> u).
    { intros ->. apply Hu. apply last_Some_elem_of. by rewrite <- Hl. }
    stores. apply Ha.
    + unfold nextEffectOf, h1. by stores.
    + intros v. unfold nextEffectOf. rewrite <- Hl.
      case_decide as Ed; [injection Ed as <-; by stores|].
      assert (t <> v) by congruence. by stores.
  - destruct es as [|a es']; [|symmetry in Hl; by apply last_None in Hl].
    simpl in *. split; [|by stores]. stores. split; [done|].
    unfold nextEffectOf, h1. by stores.
Qed.

Lemma pushCapturedEffect_other u h :
  firstEffect (que (pushCapturedEffect q u h) q) = firstEffect (que h q) /\
  lastEffect (que (pushCapturedEffect q u h) q) = lastEffect (que h q) /\
  lastCapturedEffect (que (pushCapturedEffect q u h) q) = Some u /\
  forall v, v <> u -> lastCapturedEffect (que h q) <> Some v ->
    nextEffect (upd (pushCapturedEffect q u h) v) = nextEffect (upd h v).
Proof.
  unfold pushCapturedEffect. cbv zeta.
  change (que (set_nextEffect u None h) q) with (que h q).
  destruct (lastCapturedEffect (que h q)) as [t|] eqn:Et.
  - split; [by stores|]. split; [by stores|]. split; [by stores|].
    intros v Hv Ht. assert (t <> v) by congruence. assert (u <> v) by congruence. by stores.
  - split; [by stores|]. split; [by stores|]. split; [by stores|].
    intros v Hv _. assert (u <> v) by congruence. by stores.
Qed.

End EffectLists.

Lemma effectsOf_cons h render u us :
  effectsOf h render (u :: us) = effectsOf h render [u] ++ effectsOf h render us.
Proof. simpl. destruct (sufficient h render u); [|done]. by destruct (callback (upd h u)). Qed.

Lemma effectsOf_app h render us cs :
  effectsOf h render (us ++ cs) = effectsOf h render us ++ effectsOf h render cs.
Proof.
  induction us as [|u us IH]; [done|].
  rewrite <- app_comm_cons, effectsOf_cons, (effectsOf_cons h render u us), IH.
  by rewrite app_assoc.
Qed.

Section EffectLoops.
Context `{Imports}.
Context (w q : nat) (props instance : Value) (render : Z).

Lemma iterNormal_effects u h es :
  chain (nextEffectOf h) (firstEffect (que h q)) es ->
  lastEffect (que h q) = last es ->
  u ∉ es ->
  chain (nextEffectOf (iterNormal w q render h u))
    (firstEffect (que (iterNormal w q render h u) q)) (es ++ effectsOf h render [u]) /\
  lastEffect (que (iterNormal w q render h u) q) = last (es ++ effectsOf h render [u]).
Proof.
  intros Hc Hl Hu. unfold iterNormal, effectsOf, sufficient.
  destruct (expirationTime (upd h u) <? render); simpl; [by rewrite app_nil_r|].
  rewrite upd_tagEffect.
  destruct (callback (upd h u)) as [cb|].
  - rewrite last_snoc.
    apply pushEffect_chain; [|by rewrite <- Hl, <- (que_tagEffect w u h q)|done].
    eapply chain_ext; [|rewrite <- (que_tagEffect w u h q) in Hc; exact Hc].
    intros v. unfold nextEffectOf. stores. by rewrite upd_tagEffect.
  - rewrite app_nil_r, que_tagEffect. split; [|done].
    eapply chain_ext; [|exact Hc]. intros v. unfold nextEffectOf. by rewrite upd_tagEffect.
Qed.

Lemma iterCaptured_effects u h es :
  chain (nextEffectOf h) (firstCapturedEffect (que h q)) es ->
  lastCapturedEffect (que h q) = last es ->
  u ∉ es ->
  chain (nextEffectOf (iterCaptured w q render h u))
    (firstCapturedEffect (que (iterCaptured w q render h u) q))
    (es ++ effectsOf h render [u]) /\
  lastCapturedEffect (que (iterCaptured w q render h u) q) =
    last (es ++ effectsOf h render [u]).
Proof.
  intros Hc Hl Hu. unfold iterCaptured, effectsOf, sufficient.
  destruct (expirationTime (upd h u) <? render); simpl; [by rewrite app_nil_r|].
  rewrite upd_tagEffect.
  destruct (callback (upd h u)) as [cb|].
  - rewrite last_snoc.
    apply pushCapturedEffect_chain; [|by rewrite <- Hl, <- (que_tagEffect w u h q)|done].
    eapply chain_ext; [|rewrite <- (que_tagEffect w u h q) in Hc; exact Hc].
    intros v. unfold nextEffectOf. stores. by rewrite upd_tagEffect.
  - rewrite app_nil_r, que_tagEffect. split; [|done].
    eapply chain_ext; [|exact Hc]. intros v. unfold nextEffectOf. by rewrite upd_tagEffect.
Qed.

Lemma iterNormal_other u h :
  firstCapturedEffect (que (iterNormal w q render h u) q) = firstCapturedEffect (que h q) /\
  lastCapturedEffect (que (iterNormal w q render h u) q) = lastCapturedEffect (que h q) /\
  (lastEffect (que (iterNormal w q render h u) q) = lastEffect (que h q) \/
   lastEffect (que (iterNormal w q render h u) q) = Some u) /\
  forall v, v <> u -> lastEffect (que h q) <> Some v ->
    nextEffect (upd (iterNormal w q render h u) v) = nextEffect (upd h v).
Proof.
  unfold iterNormal. destruct (_ <? _); [auto|]. cbv zeta.
  destruct (callback _).
  - set (h2 := set_effectTag w _ (tagEffect w u h)).
    assert (Eq : que h2 q = que h q) by (unfold h2; stores; apply que_tagEffect).
    assert (Eu : forall v, upd h2 v = upd h v) by (intros v; unfold h2; stores; apply upd_tagEffect).
    destruct (pushEffect_other q u h2) as (A1 & A2 & A4 & A3).
    rewrite A1, A2, Eq. split; [done|]. split; [done|]. split; [by right|].
    intros v Hv Hl. rewrite A3, Eu; [done..|by rewrite Eq].
  - rewrite que_tagEffect. split; [done|]. split; [done|]. split; [by left|].
    intros v _ _. by rewrite upd_tagEffect.
Qed.

Lemma iterCaptured_other u h :
  firstEffect (que (iterCaptured w q render h u) q) = firstEffect (que h q) /\
  lastEffect (que (iterCaptured w q render h u) q) = lastEffect (que h q) /\
  (lastCapturedEffect (que (iterCaptured w q render h u) q) = lastCapturedEffect (que h q) \/
   lastCapturedEffect (que (iterCaptured w q render h u) q) = Some u) /\
  forall v, v <> u -> lastCapturedEffect (que h q) <> Some v ->
    nextEffect (upd (iterCaptured w q render h u) v) = nextEffect (upd h v).
Proof.
  unfold iterCaptured. destruct (_ <? _); [auto|]. cbv zeta.
  destruct (callback _).
  - set (h2 := set_effectTag w _ (tagEffect w u h)).
    assert (Eq : que h2 q = que h q) by (unfold h2; stores; apply que_tagEffect).
    assert (Eu : forall v, upd h2 v = upd h v) by (intros v; unfold h2; stores; apply upd_tagEffect).
    destruct (pushCapturedEffect_other q u h2) as (A1 & A2 & A4 & A3).
    rewrite A1, A2, Eq. split; [done|]. split; [done|]. split; [by right|].
    intros v Hv Hl. rewrite A3, Eu; [done..|by rewrite Eq].
  - rewrite que_tagEffect. split; [done|]. split; [done|]. split; [by left|].
    intros v _ _. by rewrite upd_tagEffect.
Qed.

(** The first loop appends to the first effect list the applied updates
    that carry a callback, and leaves the second list alone. *)
Lemma foldNormal_effects us : forall h es,
  NoDup us -> (forall u, u ∈ us -> u ∉ es) ->
  chain (nextEffectOf h) (firstEffect (que h q)) es ->
  lastEffect (que h q) = last es ->
  let h' := foldl (iterNormal w q render) h us in
  chain (nextEffectOf h') (firstEffect (que h' q)) (es ++ effectsOf h render us) /\
  lastEffect (que h' q) = last (es ++ effectsOf h render us) /\
  firstCapturedEffect (que h' q) = firstCapturedEffect (que h q) /\
  lastCapturedEffect (que h' q) = lastCapturedEffect (que h q).
Proof.
  induction us as [|u us IH]; intros h es Hnd Hdis Hc Hl; simpl.
  - by rewrite app_nil_r.
  - apply NoDup_cons in Hnd as [Hu Hnd].
    destruct (iterNormal_effects u h es) as [Hc1 Hl1];
      [done|done|apply Hdis, list_elem_of_here|].
    destruct (iterNormal_other u h) as (O1 & O2 & _).
    assert (S1 : sameStatic h (iterNormal w q render h u)).
    { intros v. apply (iterNormal_frame w q props instance render u h). }
    destruct (IH (iterNormal w q render h u) (es ++ effectsOf h render [u]) Hnd)
      as (A1 & A2 & A3 & A4); [|done|done|].
    { intros v Hv [Hin|Hin]%elem_of_app; [by apply (Hdis v); [apply list_elem_of_further|]|].
      apply effectsOf_elem_of, list_elem_of_singleton in Hin as ->. done. }
    rewrite (sameStatic_effectsOf h _ render us S1), <- app_assoc in A1, A2.
    rewrite <- effectsOf_cons in A1, A2. rewrite A3, A4. done.
Qed.

Lemma foldCaptured_effects cs : forall h es,
  NoDup cs -> (forall u, u ∈ cs -> u ∉ es) ->
  chain (nextEffectOf h) (firstCapturedEffect (que h q)) es ->
  lastCapturedEffect (que h q) = last es ->
  let h' := foldl (iterCaptured w q render) h cs in
  chain (nextEffectOf h') (firstCapturedEffect (que h' q)) (es ++ effectsOf h render cs) /\
  lastCapturedEffect (que h' q) = last (es ++ effectsOf h render cs) /\
  firstEffect (que h' q) = firstEffect (que h q) /\
  lastEffect (que h' q) = lastEffect (que h q).
Proof.
  induction cs as [|u us IH]; intros h es Hnd Hdis Hc Hl; simpl.
  - by rewrite app_nil_r.
  - apply NoDup_cons in Hnd as [Hu Hnd].
    destruct (iterCaptured_effects u h es) as [Hc1 Hl1];
      [done|done|apply Hdis, list_elem_of_here|].
    destruct (iterCaptured_other u h) as (O1 & O2 & _).
    assert (S1 : sameStatic h (iterCaptured w q render h u)).
    { intros v. apply (iterCaptured_frame w q props instance render u h). }
    destruct (IH (iterCaptured w q render h u) (es ++ effectsOf h render [u]) Hnd)
      as (A1 & A2 & A3 & A4); [|done|done|].
    { intros v Hv [Hin|Hin]%elem_of_app; [by apply (Hdis v); [apply list_elem_of_further|]|].
      apply effectsOf_elem_of, list_elem_of_singleton in Hin as ->. done. }
    rewrite (sameStatic_effectsOf h _ render us S1), <- app_assoc in A1, A2.
    rewrite <- effectsOf_cons in A1, A2. rewrite A3, A4. done.
Qed.

(** The second loop writes the [nextEffect] link of records of its own
    list only, given that the list it appends to ends in that list. *)
Lemma foldCaptured_nextEffect cs : forall h v,
  v ∉ cs -> lastCapturedEffect (que h q) <> Some v ->
  nextEffect (upd (foldl (iterCaptured w q render) h cs) v) = nextEffect (upd h v).
Proof.
  induction cs as [|u us IH]; intros h v Hv Hl; simpl; [done|].
  apply not_elem_of_cons in Hv as [Hne Hv].
  destruct (iterCaptured_other u h) as (_ & _ & O3 & O4).
  rewrite IH; [by apply O4|done|].
  destruct O3 as [-> | ->]; [done|congruence].
Qed.

End EffectLoops.

Section PassEffectsFacts.
Context `{Imports}.
Context (w q : nat).

Lemma finishPass_effects l h :
  (forall v, upd (finishPass w q l h) v = upd h v) /\
  firstEffect (que (finishPass w q l h) q) = firstEffect (que h q) /\
  lastEffect (que (finishPass w q l h) q) = lastEffect (que h q) /\
  firstCapturedEffect (que (finishPass w q l h) q) = firstCapturedEffect (que h q) /\
  lastCapturedEffect (que (finishPass w q l h) q) = lastCapturedEffect (que h q).
Proof.
  unfold finishPass. destruct (newFirstUpdate l), (newFirstCapturedUpdate l);
    repeat split; intros; by stores.
Qed.

Lemma ensure_effects h :
  let h1 := (ensureWorkInProgressQueueIsAClone w q h).2 in
  (forall v, upd h1 v = upd h v) /\
  (sharedWithCurrent h w q = true -> noEffects (que h1 (processedQueue h w q))) /\
  (sharedWithCurrent h w q = false -> h1 = h /\ processedQueue h w q = q).
Proof.
  rewrite ensure_spec. unfold processedQueue.
  destruct (sharedWithCurrent h w q); simpl.
  - split; [done|]. split; [|done]. intros _. unfold noEffects, cloneUpdateQueue. simpl.
    repeat split; stores_cases.
  - done.
Qed.

End PassEffectsFacts.

Section PassEffects.
Context `{Imports}.
Context (w q : nat) (props instance : Value) (render : Z).

(** The effect lists a pass builds on a queue whose effect lists are empty
    when the loops start. *)
Lemma processUpdateQueue_effects h fuel us cs :
  chain (nextOf h) (firstUpdate (que h q)) us ->
  chain (nextOf h)
    (if sharedWithCurrent h w q then None else firstCapturedUpdate (que h q)) cs ->
  (length us <= fuel)%nat -> (length cs <= fuel)%nat ->
  (forall u, u ∈ us -> u ∉ cs) ->
  (sharedWithCurrent h w q = false -> noEffects (que h q)) ->
  exists h',
    processUpdateQueue fuel w q props instance render h = Some h' /\
    passSpec h h' w q (processedQueue h w q) props instance render us cs /\
    chain (nextEffectOf h') (firstEffect (que h' (processedQueue h w q)))
      (effectsOf h render us) /\
    lastEffect (que h' (processedQueue h w q)) = last (effectsOf h render us) /\
    chain (nextEffectOf h') (firstCapturedEffect (que h' (processedQueue h w q)))
      (effectsOf h render cs) /\
    lastCapturedEffect (que h' (processedQueue h w q)) = last (effectsOf h render cs).
Proof.
  intros Hus Hcs Lus Lcs Hdis Hno.
  destruct (processUpdateQueue_spec w q props instance render h fuel us cs)
    as (h' & E & S); [done..|].
  destruct (processUpdateQueue_heap w q props instance render h fuel us cs)
    as (l & E' & _); [done..|].
  exists h'. split; [done|]. split; [done|].
  rewrite E in E'. injection E' as ->. clear E S.
  set (q' := processedQueue h w q).
  destruct (finishPass_effects
              w q' l (loopsHeap w q render us cs h)) as (Fu & F1 & F2 & F3 & F4).
  rewrite F1, F2, F3, F4.
  assert (Hx : forall (start : option nat) es,
    chain (nextEffectOf (loopsHeap w q render us cs h)) start es ->
    chain (nextEffectOf (finishPass w q' l (loopsHeap w q render us cs h))) start es).
  { intros start es. apply chain_ext. intros v. unfold nextEffectOf. by rewrite Fu. }
  cut (chain (nextEffectOf (loopsHeap w q render us cs h))
         (firstEffect (que (loopsHeap w q render us cs h) q')) (effectsOf h render us) /\
       lastEffect (que (loopsHeap w q render us cs h) q') = last (effectsOf h render us) /\
       chain (nextEffectOf (loopsHeap w q render us cs h))
         (firstCapturedEffect (que (loopsHeap w q render us cs h) q')) (effectsOf h render cs) /\
       lastCapturedEffect (que (loopsHeap w q render us cs h) q') =
         last (effectsOf h render cs)).
  { intros (A1 & A2 & A3 & A4). auto. }
  clear Hx Fu F1 F2 F3 F4. unfold loopsHeap. fold q'.
  set (h1 := (ensureWorkInProgressQueueIsAClone w q (set_hasForceUpdate false h)).2).
  destruct (ensure_effects w q (set_hasForceUpdate false h)) as (Eu & Es & En). fold h1 in Eu, Es, En.
  change (sharedWithCurrent (set_hasForceUpdate false h) w q)
    with (sharedWithCurrent h w q) in Es, En.
  change (processedQueue (set_hasForceUpdate false h) w q) with q' in Es, En.
  assert (S1 : sameStatic h h1) by (intros v; by rewrite Eu).
  assert (N1 : noEffects (que h1 q')).
  { destruct (sharedWithCurrent h w q) eqn:Esh; [by apply Es|].
    destruct (En eq_refl) as [-> ->]. by apply Hno. }
  destruct N1 as (N1 & N2 & N3 & N4).
  pose proof (chain_NoDup _ _ _ Hus) as Ndu. pose proof (chain_NoDup _ _ _ Hcs) as Ndc.
  destruct (foldNormal_effects w q' props instance render us h1 [] Ndu)
    as (A1 & A2 & A3 & A4); [by intros ? ? ?%elem_of_nil|done|done|].
  set (h2 := foldl (iterNormal w q' render) h1 us) in *.
  assert (S2 : sameStatic h1 h2).
  { intros v. apply (foldNormal_frame w q' props instance render us h1). }
  destruct (foldCaptured_effects w q' props instance render cs h2 [] Ndc)
    as (B1 & B2 & B3 & B4);
    [by intros ? ? ?%elem_of_nil|by rewrite A3|by rewrite A4|].
  simpl in A1, A2, B1, B2.
  rewrite (sameStatic_effectsOf h h1 render us S1) in A1, A2.
  assert (S02 : sameStatic h h2) by (eapply sameStatic_trans; eauto).
  rewrite (sameStatic_effectsOf h h2 render cs S02) in B1, B2.
  rewrite B3, B4. split; [|done].
  apply (chain_unchanged (nextEffectOf h2)); [done|].
  intros v Hv. unfold nextEffectOf.
  apply (foldCaptured_nextEffect w q' render cs h2 v).
  - apply Hdis. by apply (effectsOf_elem_of h render).
  - by rewrite A4, N4.
Qed.

End PassEffects.

Section PassEffectsClaim.
Context `{Imports}.
Context (w q : nat) (props instance : Value) (render : Z).

(** X2. The effect lists of a pass.  When the queue that a pass works on
    enters the loops with its four effect pointers [null] (a clone always
    does) and no record is in both lists, then after the pass the first
    effect list holds, in insertion order, exactly the applied updates of
    the normal list that carry a callback, and the second effect list those
    of the captured list; [lastEffect] and [lastCapturedEffect] are their
    last records.  A skipped update is on neither list. *)
Theorem pass_effect_lists h fuel us cs :
  chain (nextOf h) (firstUpdate (que h q)) us ->
  chain (nextOf h)
    (if sharedWithCurrent h w q then None else firstCapturedUpdate (que h q)) cs ->
  (length us <= fuel)%nat -> (length cs <= fuel)%nat ->
  (forall u, u ∈ us -> u ∉ cs) ->
  (sharedWithCurrent h w q = false -> noEffects (que h q)) ->
  exists h',
    processUpdateQueue fuel w q props instance render h = Some h' /\
    let queue := processedQueue h w q in
    chain (nextEffectOf h') (firstEffect (que h' queue)) (effectsOf h render us) /\
    lastEffect (que h' queue) = last (effectsOf h render us) /\
    chain (nextEffectOf h') (firstCapturedEffect (que h' queue)) (effectsOf h render cs) /\
    lastCapturedEffect (que h' queue) = last (effectsOf h render cs) /\
    forall u, u ∈ effectsOf h render (us ++ cs) <->
      u ∈ us ++ cs /\ sufficient h render u = true /\ callback (upd h u) <> None.
Proof.
  intros Hus Hcs Lus Lcs Hdis Hno.
  destruct (processUpdateQueue_effects w q props instance render h fuel us cs)
    as (h' & E & _ & A1 & A2 & A3 & A4); [done..|].
  exists h'. split; [done|]. cbv zeta. do 4 (split; [done|]).
  intros u. split.
  - intros Hu. split; [by apply (effectsOf_elem_of h render)|].
    destruct (effectsOf_callback h render _ u Hu). done.
  - intros (Hu & Hs & Hc). induction (us ++ cs) as [|v l IH]; [by apply elem_of_nil in Hu|].
    rewrite effectsOf_cons. apply elem_of_app.
    apply elem_of_cons in Hu as [->|Hu]; [left|right; by apply IH].
    simpl. rewrite Hs. destruct (callback (upd h v)); [apply list_elem_of_here|done].
Qed.

End PassEffectsClaim.

Lemma joinCaptured_facts q h :
  (forall u, nextEffect (upd (joinCaptured q h) u) = nextEffect (upd h u)) /\
  (forall u, callback (upd (joinCaptured q h) u) = callback (upd h u)) /\
  (forall u, eraseNext (upd (joinCaptured q h) u) = eraseNext (upd h u)) /\
  firstEffect (que (joinCaptured q h) q) = firstEffect (que h q) /\
  lastEffect (que (joinCaptured q h) q) = lastEffect (que h q) /\
  firstCapturedEffect (que (joinCaptured q h) q) = firstCapturedEffect (que h q) /\
  lastCapturedEffect (que (joinCaptured q h) q) = lastCapturedEffect (que h q) /\
  firstCapturedUpdate (que (joinCaptured q h) q) = None /\
  fibers (joinCaptured q h) = fibers h /\ calls (joinCaptured q h) = calls h.
Proof.
  unfold joinCaptured. destruct (firstCapturedUpdate (que h q)) as [fc|] eqn:Efc.
  - destruct (lastUpdate (que h q)) as [t|] eqn:Et.
    + repeat split; try (intros u; destruct (decide (t = u)) as [->|]); unfold eraseNext; stores.
    + repeat split; stores.
  - repeat split; done.
Qed.

(** A walk of [commitUpdateEffects] over a list that starts with the
    records [pre], whose callbacks all return: they are invoked in order,
    and the walk goes on from the record after them. *)
Lemma commitUpdateEffects_prefix instance pre : forall fuel start h rest,
  chain (nextEffectOf h) start (pre ++ rest) ->
  (forall e, e ∈ pre -> returns h e) ->
  exists h1 evs,
    commitUpdateEffects (length pre + fuel) start instance h =
      commitUpdateEffects fuel (head rest) instance h1 /\
    calls h1 = calls h ++ evs /\
    Forall2 (invoked h instance) pre evs /\
    (forall e, e ∈ pre -> callback (upd h1 e) = None) /\
    (forall u, u ∉ pre -> upd h1 u = upd h u) /\
    (forall u, withCallback None (upd h1 u) = withCallback None (upd h u)) /\
    queues h1 = queues h /\ fibers h1 = fibers h.
Proof.
  induction pre as [|e pre IH]; intros fuel start h rest Hc Hr.
  - exists h, []. simpl in *.
    assert (start = head rest) as -> by (destruct rest; simpl in *; [done|by destruct Hc]).
    split; [done|]. split; [by rewrite app_nil_r|]. split; [by apply Forall2_nil|].
    split; [by intros e ?%elem_of_nil|]. done.
  - pose proof (chain_NoDup _ _ _ Hc) as Hnd. simpl in Hnd.
    apply NoDup_cons in Hnd as [He Hnd].
    simpl in Hc. destruct Hc as [-> Hc].
    destruct (Hr e) as [name Ecb]; [apply list_elem_of_here|].
    simpl. rewrite Ecb. simpl.
    set (ev := mkCallEvent name instance (updates (set_callback e None h))).
    set (h0 := logCall ev (set_callback e None h)).
    assert (U0 : forall u, e <> u -> upd h0 u = upd h u) by (intros u Hu; unfold h0; by stores).
    assert (Ue : upd h0 e = withCallback None (upd h e)) by (unfold h0; by stores).
    assert (Une : nextEffect (upd h0 e) = nextEffect (upd h e)) by (by rewrite Ue).
    destruct (IH fuel (nextEffect (upd h0 e)) h0 rest)
      as (h1 & evs & E & C1 & C2 & C3 & C4 & C5 & C6 & C7).
    { rewrite Une. eapply chain_unchanged; [exact Hc|].
      intros v Hv. unfold nextEffectOf. rewrite U0; [done|].
      intros ->. apply He. done. }
    { intros v Hv. destruct (Hr v) as [n En]; [by apply list_elem_of_further|].
      exists n. rewrite U0; [done|]. intros ->. apply He. apply elem_of_app. by left. }
    exists h1, (ev :: evs). split; [exact E|].
    split; [rewrite C1; unfold h0; simpl; by rewrite <- app_assoc|].
    split.
    { apply Forall2_cons. split.
      - split; [done|]. split; [by exists false|].
        change (callback (upd (set_callback e None h) e) = None). by stores.
      - eapply Forall2_impl; [exact C2|]. intros v ev'. apply invoked_earlier.
        intros u. destruct (decide (e = u)) as [<-|Hne]; [right; by rewrite Ue|left; by rewrite U0]. }
    split.
    { intros v [->|Hv]%elem_of_cons; [|by apply C3].
      pose proof (C5 e) as Ec. apply (f_equal callback) in Ec. simpl in Ec.
      destruct (decide (e ∈ pre)) as [Hin|Hin]; [by apply C3|].
      by rewrite (C4 e Hin), Ue. }
    split.
    { intros u Hu. apply not_elem_of_cons in Hu as [Hne Hu]. rewrite C4 by done.
      apply U0. congruence. }
    split.
    { intros u. rewrite C5. destruct (decide (e = u)) as [<-|Hne]; [by rewrite Ue|by rewrite U0]. }
    split; [by rewrite C6|by rewrite C7].
Qed.

(** A walk over a list whose callbacks all return. *)
Lemma commitUpdateEffects_all instance es fuel start h :
  chain (nextEffectOf h) start es -> (length es <= fuel)%nat ->
  (forall e, e ∈ es -> returns h e) ->
  exists h1 evs,
    commitUpdateEffects fuel start instance h = Some (Normal, h1) /\
    calls h1 = calls h ++ evs /\
    Forall2 (invoked h instance) es evs /\
    (forall e, e ∈ es -> callback (upd h1 e) = None) /\
    (forall u, u ∉ es -> upd h1 u = upd h u) /\
    (forall u, withCallback None (upd h1 u) = withCallback None (upd h u)) /\
    queues h1 = queues h /\ fibers h1 = fibers h.
Proof.
  intros Hc Hf Hr.
  destruct (commitUpdateEffects_prefix instance es (fuel - length es) start h [])
    as (h1 & evs & E & C); [by rewrite app_nil_r|done|].
  exists h1, evs. split; [|done].
  replace (length es + (fuel - length es))%nat with fuel in E by lia.
  rewrite E. simpl. by destruct (fuel - length es)%nat.
Qed.

Lemma commitUpdateQueue_unfold fuel w q instance render h :
  commitUpdateQueue fuel w q instance render h =
  match commitUpdateEffects fuel (firstEffect (que (joinCaptured q h) q)) instance
          (joinCaptured q h) with
  | None => None
  | Some (Thrown, h) => Some (Thrown, h)
  | Some (Normal, h) =>
      let h := set_lastEffect q None h in
      let h := set_firstEffect q None h in
      match commitUpdateEffects fuel (firstCapturedEffect (que h q)) instance h with
      | None => None
      | Some (Thrown, h) => Some (Thrown, h)
      | Some (Normal, h) =>
          let h := set_lastCapturedEffect q None h in
          let h := set_firstCapturedEffect q None h in
          Some (Normal, h)
      end
  end.
Proof. reflexivity. Qed.

Lemma returns_ext h h' e :
  callback (upd h' e) = callback (upd h e) -> returns h e -> returns h' e.
Proof. intros E [n Hn]. exists n. by rewrite E. Qed.

(** A commit whose callbacks all return. *)
Lemma commitUpdateQueue_all fuel w q instance render h es1 es2 :
  chain (nextEffectOf h) (firstEffect (que h q)) es1 ->
  chain (nextEffectOf h) (firstCapturedEffect (que h q)) es2 ->
  (length es1 <= fuel)%nat -> (length es2 <= fuel)%nat ->
  (forall e, e ∈ es1 -> e ∉ es2) ->
  (forall e, e ∈ es1 ++ es2 -> returns h e) ->
  exists h' evs,
    commitUpdateQueue fuel w q instance render h = Some (Normal, h') /\
    calls h' = calls h ++ evs /\
    Forall2 (invoked h instance) (es1 ++ es2) evs /\
    (forall e, e ∈ es1 ++ es2 -> callback (upd h' e) = None) /\
    noEffects (que h' q) /\
    fibers h' = fibers h /\
    (forall u, u ∉ es1 ++ es2 -> callback (upd h' u) = callback (upd h u)).
Proof.
  intros H1 H2 L1 L2 Hdis Hr. rewrite commitUpdateQueue_unfold.
  destruct (joinCaptured_facts q h) as (Sne & Scb & _ & Sfe & _ & Sfce & _ & _ & Sfib & Scalls).
  set (hs := joinCaptured q h) in *.
  destruct (commitUpdateEffects_all instance es1 fuel (firstEffect (que hs q)) hs)
    as (h1 & evs1 & -> & A1 & A2 & A3 & A4 & A5 & A6 & A7).
  { rewrite Sfe. eapply chain_ext; [|exact H1]. intros u. apply Sne. }
  { done. }
  { intros e He. apply (returns_ext h); [apply Scb|]. apply Hr, elem_of_app. by left. }
  cbv zeta.
  set (h1' := set_firstEffect q None (set_lastEffect q None h1)).
  assert (U1 : forall u, upd h1' u = upd h1 u) by done.
  assert (Q1 : forall q', que h1 q' = que hs q') by (intros q'; unfold que; by rewrite A6).
  destruct (commitUpdateEffects_all instance es2 fuel (firstCapturedEffect (que h1' q)) h1')
    as (h2 & evs2 & -> & B1 & B2 & B3 & B4 & B5 & B6 & B7).
  { assert (firstCapturedEffect (que h1' q) = firstCapturedEffect (que h q)) as ->.
    { unfold h1'. stores. by rewrite Q1. }
    eapply chain_ext; [|exact H2]. intros u. unfold nextEffectOf. rewrite U1.
    pose proof (A5 u) as E. apply (f_equal nextEffect) in E. simpl in E. by rewrite E. }
  { done. }
  { intros e He. apply (returns_ext h); [|apply Hr, elem_of_app; by right].
    rewrite U1, A4, Scb; [done|]. intros Hin. by apply (Hdis e). }
  assert (Q2 : forall q', que h2 q' = que h1' q') by (intros q'; unfold que; by rewrite B6).
  eexists _, (evs1 ++ evs2). split; [reflexivity|].
  split; [simpl; rewrite B1; unfold h1'; simpl; by rewrite A1, Scalls, app_assoc|].
  split.
  { apply Forall2_app.
    - eapply Forall2_impl; [exact A2|]. intros e ev. apply invoked_earlier.
      intros u. left. apply Scb.
    - eapply Forall2_impl; [exact B2|]. intros e ev. apply invoked_earlier.
      intros u. rewrite U1. pose proof (A5 u) as E.
      destruct (decide (u ∈ es1)) as [Hin|Hin]; [right; by apply A3|left].
      by rewrite A4, Scb. }
  split.
  { intros e [He|He]%elem_of_app.
    - stores. pose proof (B5 e) as E. apply (f_equal callback) in E.
      destruct (decide (e ∈ es2)) as [Hin|Hin]; [by apply B3|].
      rewrite (B4 e Hin), U1. by apply A3.
    - stores. by apply B3. }
  split.
  { unfold noEffects. stores. rewrite !Q2. unfold h1'. by stores. }
  split; [simpl; rewrite B7; unfold h1'; simpl; by rewrite A7|].
  intros u Hu. apply not_elem_of_app in Hu as [Hu1 Hu2].
  stores. by rewrite B4, U1, A4, Scb.
Qed.

Section PassCommit.
Context `{Imports}.
Context (w q : nat) (props instance : Value) (render : Z).

(** X3. A pass followed by the commit of its queue.  Under the conditions of
    the effect lists (effect pointers [null] when the loops start, no
    record in both lists), and when the callbacks of the applied updates
    are functions that return, the commit returns normally and has invoked
    exactly those callbacks, once each, with [context] as receiver: those of
    the normal list in insertion order, then those of the captured list.
    Afterwards their [callback] fields are [null], every other callback is
    in place (that of a skipped update waits for its own render), the four
    effect pointers are [null] and [memoizedState] is what the pass left. *)
Theorem pass_then_commit h fuel fuelc us cs context render' :
  chain (nextOf h) (firstUpdate (que h q)) us ->
  chain (nextOf h)
    (if sharedWithCurrent h w q then None else firstCapturedUpdate (que h q)) cs ->
  (length us <= fuel)%nat -> (length cs <= fuel)%nat ->
  (forall u, u ∈ us -> u ∉ cs) ->
  (sharedWithCurrent h w q = false -> noEffects (que h q)) ->
  (forall e, e ∈ effectsOf h render (us ++ cs) -> returns h e) ->
  (length (effectsOf h render us) <= fuelc)%nat ->
  (length (effectsOf h render cs) <= fuelc)%nat ->
  exists h1 h2 evs,
    processUpdateQueue fuel w q props instance render h = Some h1 /\
    commitUpdateQueue fuelc w (processedQueue h w q) context render' h1 = Some (Normal, h2) /\
    calls h2 = calls h ++ evs /\
    Forall2 (invoked h context) (effectsOf h render us ++ effectsOf h render cs) evs /\
    (forall e, e ∈ effectsOf h render (us ++ cs) -> callback (upd h2 e) = None) /\
    (forall u, u ∉ effectsOf h render (us ++ cs) -> callback (upd h2 u) = callback (upd h u)) /\
    noEffects (que h2 (processedQueue h w q)) /\
    memoizedState (fib h2 w) = memoizedState (fib h1 w).
Proof.
  intros Hus Hcs Lus Lcs Hdis Hno Hr L1 L2.
  destruct (processUpdateQueue_effects w q props instance render h fuel us cs)
    as (h1 & E & S & A1 & A2 & A3 & A4); [done..|].
  pose proof (ps_frame _ _ _ _ _ _ _ _ _ _ S) as F.
  assert (St : sameStatic h h1) by (intros u; apply F).
  rewrite effectsOf_app in Hr.
  destruct (commitUpdateQueue_all fuelc w (processedQueue h w q) context render' h1
              (effectsOf h render us) (effectsOf h render cs))
    as (h2 & evs & Ec & C1 & C2 & C3 & C4 & C5 & C6); [done..| | |].
  { intros e He1 He2. apply (Hdis e); by eapply effectsOf_elem_of. }
  { intros e He. apply (returns_ext h); [by apply sameStatic_callback|by apply Hr]. }
  exists h1, h2, evs. split; [done|]. split; [done|].
  split; [by rewrite C1, (pf_calls _ _ _ _ F)|].
  split.
  { eapply Forall2_impl; [exact C2|]. intros e ev. apply invoked_earlier.
    intros u. left. by apply sameStatic_callback. }
  rewrite effectsOf_app.
  split; [done|].
  split; [intros u Hu; by rewrite C6, (sameStatic_callback h h1 St)|].
  split; [done|]. unfold fib. by rewrite C5.
Qed.

End PassCommit.

Section CommitThrows.


End CommitThrows.

Ltac mixedQueue_values :=
  assert (chain (nextOf mixedQueue) (firstUpdate (que mixedQueue 0%nat)) [0; 1; 2; 3]%nat /\
          sharedWithCurrent mixedQueue 0%nat 0%nat = false /\
          firstCapturedUpdate (que mixedQueue 0%nat) = None /\
          noEffects (que mixedQueue 0%nat) /\
          processedQueue mixedQueue 0%nat 0%nat = 0%nat /\
          effectsOf mixedQueue 2 [0; 1; 2; 3]%nat = [0; 3]%nat)
    as (F1 & F2 & F3 & F4 & F5 & F6)
    by (vm_compute; repeat split; reflexivity).

Lemma pass_effect_lists_witness :
  exists h',
    processUpdateQueue (H := reactImports) 4 0%nat 0%nat VNull VNull 2 mixedQueue = Some h' /\
    chain (nextEffectOf h') (firstEffect (que h' 0%nat)) [0; 3]%nat /\
    lastEffect (que h' 0%nat) = Some 3%nat /\
    firstCapturedEffect (que h' 0%nat) = None.
Proof.
  mixedQueue_values.
  destruct (pass_effect_lists (H := reactImports) 0%nat 0%nat VNull VNull 2 mixedQueue 4
              [0; 1; 2; 3]%nat [])
    as (h' & E & A1 & A2 & A3 & _).
  - exact F1.
  - rewrite F2, F3. reflexivity.
  - simpl; lia.
  - simpl; lia.
  - intros u _ Hu. by apply elem_of_nil in Hu.
  - intros _. exact F4.
  - rewrite F5, F6 in A1, A2. exists h'. split; [exact E|]. split; [exact A1|].
    split; [exact A2|]. rewrite F5 in A3. exact A3.
Defined.

Lemma pass_then_commit_witness :
  exists h1 h2 evs,
    processUpdateQueue (H := reactImports) 4 0%nat 0%nat VNull VNull 2 mixedQueue = Some h1 /\
    commitUpdateQueue 2 0%nat 0%nat (VStr "inst") 2 h1 = Some (Normal, h2) /\
    calls h2 = evs /\
    Forall2 (invoked mixedQueue (VStr "inst")) [0; 3]%nat evs /\
    callback (upd h2 1%nat) = Some (CbFunction 8 false).
Proof.
  mixedQueue_values.
  destruct (pass_then_commit (H := reactImports) 0%nat 0%nat VNull VNull 2 mixedQueue 4 2
              [0; 1; 2; 3]%nat [] (VStr "inst") 2)
    as (h1 & h2 & evs & E1 & E2 & A1 & A2 & A3 & A4 & _).
  - exact F1.
  - rewrite F2, F3. reflexivity.
  - simpl; lia.
  - simpl; lia.
  - intros u _ Hu. by apply elem_of_nil in Hu.
  - intros _. exact F4.
  - rewrite app_nil_r, F6. intros e He.
    apply elem_of_cons in He as [->|He]; [by exists 7%nat|].
    apply list_elem_of_singleton in He as ->. by exists 9%nat.
  - rewrite F6. simpl; lia.
  - simpl; lia.
  - rewrite F5 in E2. rewrite F6 in A2. simpl in A2.
    exists h1, h2, evs. split; [exact E1|]. split; [exact E2|].
    split; [exact A1|]. split; [exact A2|].
    rewrite A4; [reflexivity|]. rewrite app_nil_r, F6.
    intros [?|?%list_elem_of_singleton]%elem_of_cons; lia.
Defined.


(** A walk of [commitUpdateEffects] only clears callbacks and only adds to
    the call log. *)
Lemma commitUpdateEffects_keeps instance fuel : forall effect h c h',
  commitUpdateEffects fuel effect instance h = Some (c, h') ->
  (forall u, callback (upd h' u) = callback (upd h u) \/ callback (upd h' u) = None) /\
  exists evs, calls h' = calls h ++ evs.
Proof.
  induction fuel as [|fuel IH]; intros [e|] h c h' E; simpl in E; try congruence.
  - injection E as <- <-. split; [auto|]. exists []. by rewrite app_nil_r.
  - assert (Hs : forall u,
      callback (upd (set_callback e None h) u) = callback (upd h u) \/
      callback (upd (set_callback e None h) u) = None).
    { intros u. destruct (decide (e = u)) as [->|]; [right|left]; by stores. }
    destruct (callback (upd h e)) as [[name throws|v]|] eqn:Ecb.
    + simpl in E. destruct throws.
      * injection E as <- <-. split; [exact Hs|]. by eexists.
      * apply IH in E as [E1 [evs E2]]. split.
        -- intros u. destruct (E1 u) as [->| ->]; [|by right].
           change (upd (logCall ?ev ?h0) u) with (upd h0 u). apply Hs.
        -- rewrite E2. simpl. rewrite <- app_assoc. by eexists.
    + simpl in E. injection E as <- <-. split; [exact Hs|]. exists []. by rewrite app_nil_r.
    + by apply IH in E.
  - injection E as <- <-. split; [auto|]. exists []. by rewrite app_nil_r.
Qed.

Section CommitFrame.

(** The writes of [commitUpdateQueue] in this model, in which the body of a
    callback writes nothing of its own: the join of the captured list, the
    [callback] fields it clears, the effect pointers and the call log. *)
Lemma commitUpdateQueue_writes fuel w q instance render h c h' :
  commitUpdateQueue fuel w q instance render h = Some (c, h') ->
  fibers h' = fibers h /\
  (forall u, expirationTime (upd h' u) = expirationTime (upd h u) /\
             tag (upd h' u) = tag (upd h u) /\
             payload (upd h' u) = payload (upd h u) /\
             nextEffect (upd h' u) = nextEffect (upd h u)) /\
  (forall u, callback (upd h' u) = callback (upd h u) \/ callback (upd h' u) = None) /\
  (forall u, lastUpdate (que h q) <> Some u -> next (upd h' u) = next (upd h u)) /\
  (forall q', q' <> q -> que h' q' = que h q') /\
  baseState (que h' q) = baseState (que h q) /\
  firstUpdate (que h' q) = firstUpdate (que h q) /\
  exists evs, calls h' = calls h ++ evs.
Proof.
  rewrite commitUpdateQueue_unfold. intros E.
  assert (J : fibers (joinCaptured q h) = fibers h /\
              (forall u, eraseNext (upd (joinCaptured q h) u) = eraseNext (upd h u)) /\
              (forall u, lastUpdate (que h q) <> Some u ->
                 next (upd (joinCaptured q h) u) = next (upd h u)) /\
              (forall q', q' <> q -> que (joinCaptured q h) q' = que h q') /\
              baseState (que (joinCaptured q h) q) = baseState (que h q) /\
              firstUpdate (que (joinCaptured q h) q) = firstUpdate (que h q) /\
              calls (joinCaptured q h) = calls h).
  { unfold joinCaptured. destruct (firstCapturedUpdate (que h q)) as [fc|]; [|done].
    destruct (lastUpdate (que h q)) as [t|] eqn:Et.
    - repeat split; try (intros u; destruct (decide (t = u)) as [->|]); unfold eraseNext;
        intros; stores.
    - repeat split; intros; stores. }
  destruct J as (J1 & J2 & J3 & J4 & J5 & J6 & J7).
  set (hs := joinCaptured q h) in *.
  cut (fibers h' = fibers hs /\
       (forall u, withCallback None (upd h' u) = withCallback None (upd hs u)) /\
       (forall u, callback (upd h' u) = callback (upd hs u) \/ callback (upd h' u) = None) /\
       (forall q', q' <> q -> que h' q' = que hs q') /\
       baseState (que h' q) = baseState (que hs q) /\
       firstUpdate (que h' q) = firstUpdate (que hs q) /\
       exists evs, calls h' = calls hs ++ evs).
  { intros (A1 & A2 & A3 & A4 & A5 & A6 & A7).
    split; [congruence|]. split.
    { intros u. pose proof (A2 u) as Ea. pose proof (J2 u) as Eb.
      split; [apply (f_equal expirationTime) in Ea, Eb; simpl in *; congruence|].
      split; [apply (f_equal tag) in Ea, Eb; simpl in *; congruence|].
      split; [apply (f_equal payload) in Ea, Eb; simpl in *; congruence|].
      apply (f_equal nextEffect) in Ea, Eb; simpl in *; congruence. }
    split.
    { intros u. pose proof (J2 u) as Eb. apply (f_equal callback) in Eb. simpl in Eb.
      rewrite <- Eb. apply A3. }
    split.
    { intros u Hu. pose proof (A2 u) as Ea. apply (f_equal next) in Ea. simpl in Ea.
      rewrite Ea. by apply J3. }
    split; [intros q' Hq; rewrite A4, J4; done|].
    split; [congruence|]. split; [congruence|]. by rewrite <- J7. }
  clearbody hs. clear J1 J2 J3 J4 J5 J6 J7.
  destruct (commitUpdateEffects fuel (firstEffect (que hs q)) instance hs)
    as [[[] h1]|] eqn:E1; [| |done].
  - destruct (commitUpdateEffects_frame _ _ _ _ _ _ E1) as (A1 & A2 & A3).
    destruct (commitUpdateEffects_keeps _ _ _ _ _ _ E1) as (A4 & evs1 & A5).
    cbv zeta in E.
    set (h2 := set_firstEffect q None (set_lastEffect q None h1)) in E.
    assert (Q1 : forall q', que h1 q' = que hs q') by (intros q'; unfold que; by rewrite A1).
    destruct (commitUpdateEffects fuel (firstCapturedEffect (que h2 q)) instance h2)
      as [[[] h3]|] eqn:E3; [| |done].
    + destruct (commitUpdateEffects_frame _ _ _ _ _ _ E3) as (B1 & B2 & B3).
      destruct (commitUpdateEffects_keeps _ _ _ _ _ _ E3) as (B4 & evs2 & B5).
      assert (Q3 : forall q', que h3 q' = que h2 q') by (intros q'; unfold que; by rewrite B1).
      injection E as <- <-.
      split; [simpl; rewrite B2; unfold h2; simpl; done|].
      split; [intros u; stores; by rewrite B3, <- A3|].
      split.
      { intros u. stores. destruct (B4 u) as [->| ->]; [apply A4|by right]. }
      split; [intros q' Hq; stores; rewrite Q3; unfold h2; stores; apply Q1|].
      split; [stores; rewrite Q3; unfold h2; stores; by rewrite Q1|].
      split; [stores; rewrite Q3; unfold h2; stores; by rewrite Q1|].
      exists (evs1 ++ evs2). simpl. rewrite B5. unfold h2. simpl. by rewrite A5, app_assoc.
    + destruct (commitUpdateEffects_frame _ _ _ _ _ _ E3) as (B1 & B2 & B3).
      destruct (commitUpdateEffects_keeps _ _ _ _ _ _ E3) as (B4 & evs2 & B5).
      assert (Q3 : forall q', que h3 q' = que h2 q') by (intros q'; unfold que; by rewrite B1).
      injection E as <- <-.
      split; [rewrite B2; unfold h2; simpl; done|].
      split; [intros u; by rewrite B3, <- A3|].
      split.
      { intros u. destruct (B4 u) as [->| ->]; [apply A4|by right]. }
      split; [intros q' Hq; rewrite Q3; unfold h2; stores; apply Q1|].
      split; [rewrite Q3; unfold h2; stores; by rewrite Q1|].
      split; [rewrite Q3; unfold h2; stores; by rewrite Q1|].
      exists (evs1 ++ evs2). rewrite B5. unfold h2. simpl. by rewrite A5, app_assoc.
  - destruct (commitUpdateEffects_frame _ _ _ _ _ _ E1) as (A1 & A2 & A3).
    destruct (commitUpdateEffects_keeps _ _ _ _ _ _ E1) as (A4 & evs1 & A5).
    assert (Q1 : forall q', que h1 q' = que hs q') by (intros q'; unfold que; by rewrite A1).
    injection E as <- <-.
    split; [done|]. split; [done|]. split; [done|]. split; [intros; apply Q1|].
    split; [by rewrite Q1|]. split; [by rewrite Q1|]. by exists evs1.
Qed.

(** X5. What [commitUpdateQueue] leaves alone.  Whenever it returns,
    normally or by throwing: no fiber has another [memoizedState] (the state
    is the one the render left); every update record keeps its
    [expirationTime], [tag], [payload] and [nextEffect]; a [callback] field
    is kept or has become [null], never set; no queue has another
    [baseState]; the call log has only grown. *)
Theorem commit_writes fuel w q instance render h c h' :
  commitUpdateQueue fuel w q instance render h = Some (c, h') ->
  (forall f, memoizedState (fib h' f) = memoizedState (fib h f)) /\
  (forall u, expirationTime (upd h' u) = expirationTime (upd h u) /\
             tag (upd h' u) = tag (upd h u) /\
             payload (upd h' u) = payload (upd h u) /\
             nextEffect (upd h' u) = nextEffect (upd h u)) /\
  (forall u, callback (upd h' u) = callback (upd h u) \/ callback (upd h' u) = None) /\
  (forall q', baseState (que h' q') = baseState (que h q')) /\
  exists evs, calls h' = calls h ++ evs.
Proof.
  intros E.
  destruct (commitUpdateQueue_writes _ _ _ _ _ _ _ _ E)
    as (F & U & Cb & _ & Qo & B & _ & L).
  split; [intros f; unfold fib; by rewrite F|].
  split; [exact U|]. split; [exact Cb|]. split; [|exact L].
  intros q'. destruct (decide (q' = q)) as [->|Hq]; [exact B|].
  by rewrite (Qo q' Hq).
Qed.

End CommitFrame.

(** A commit that returns normally leaves the queue without effects and
    without captured updates. *)
Lemma commitUpdateQueue_normal fuel w q instance render h h' :
  commitUpdateQueue fuel w q instance render h = Some (Normal, h') ->
  noEffects (que h' q) /\ firstCapturedUpdate (que h' q) = None.
Proof.
  rewrite commitUpdateQueue_unfold. intros E.
  destruct (joinCaptured_facts q h) as (_ & _ & _ & _ & _ & _ & _ & Sfcu & _).
  set (hs := joinCaptured q h) in *.
  destruct (commitUpdateEffects fuel (firstEffect (que hs q)) instance hs)
    as [[[] h1]|] eqn:E1; [|done|done].
  destruct (commitUpdateEffects_frame _ _ _ _ _ _ E1) as (A1 & _).
  cbv zeta in E.
  set (h2 := set_firstEffect q None (set_lastEffect q None h1)) in E.
  destruct (commitUpdateEffects fuel (firstCapturedEffect (que h2 q)) instance h2)
    as [[[] h3]|] eqn:E3; [|done|done].
  destruct (commitUpdateEffects_frame _ _ _ _ _ _ E3) as (B1 & _).
  assert (Q1 : que h1 q = que hs q) by (unfold que; by rewrite A1).
  assert (Q3 : que h3 q = que h2 q) by (unfold que; by rewrite B1).
  injection E as <-. unfold noEffects. stores. rewrite !Q3. unfold h2. stores.
  by rewrite Q1.
Qed.

Section CommitTwice.

(** X6. Committing again.  After a commit that returned normally, a second
    commit of the same queue returns normally whatever its fuel, invokes no
    callback and leaves every update record, queue header and fiber as it
    is. *)
Theorem commit_twice fuel w q instance render h h' fuel2 instance2 render2 :
  commitUpdateQueue fuel w q instance render h = Some (Normal, h') ->
  exists h'',
    commitUpdateQueue fuel2 w q instance2 render2 h' = Some (Normal, h'') /\
    calls h'' = calls h' /\
    (forall u, upd h'' u = upd h' u) /\
    (forall q', que h'' q' = que h' q') /\
    fibers h'' = fibers h'.
Proof.
  intros E. destruct (commitUpdateQueue_normal _ _ _ _ _ _ _ E) as ((N1 & N2 & N3 & N4) & N5).
  rewrite commitUpdateQueue_unfold. unfold joinCaptured. rewrite N5, N1.
  assert (Hn : forall f i x, commitUpdateEffects f None i x = Some (Normal, x))
    by (by intros []).
  rewrite Hn. cbv zeta.
  assert (firstCapturedEffect
            (que (set_firstEffect q None (set_lastEffect q None h')) q) = None) as ->
    by (by stores).
  rewrite Hn. eexists. split; [reflexivity|].
  split; [done|]. split; [done|]. split; [|done].
  intros q'. destruct (decide (q = q')) as [<-|Hne]; [|by stores].
  stores. revert N1 N2 N3 N4. unfold que. generalize (queues h' !!! q).
  intros [] ? ? ? ?. simpl in *. subst. reflexivity.
Qed.

End CommitTwice.

Lemma commit_writes_witness :
  exists c h',
    commitUpdateQueue 3 0%nat 0%nat VNull 1 invalidCallbackProcessed = Some (c, h') /\
    memoizedState (fib h' 0%nat) = memoizedState (fib invalidCallbackProcessed 0%nat) /\
    payload (upd h' 1%nat) = PVal (VObj {["b"%string := VNum 2]}).
Proof.
  destruct (commitUpdateQueue 3 0%nat 0%nat VNull 1 invalidCallbackProcessed)
    as [[c h']|] eqn:E; [|by vm_compute in E].
  destruct (commit_writes 3 0%nat 0%nat VNull 1 invalidCallbackProcessed c h' E)
    as (A1 & A2 & _).
  exists c, h'. split; [reflexivity|]. split; [exact (A1 0%nat)|].
  destruct (A2 1%nat) as (_ & _ & -> & _). reflexivity.
Defined.

Lemma commit_twice_witness :
  exists h' h'',
    commitUpdateQueue 1 0%nat 0%nat VNull 1 callbackProcessed = Some (Normal, h') /\
    commitUpdateQueue 0 0%nat 0%nat VNull 1 h' = Some (Normal, h'') /\
    calls h'' = calls h'.
Proof.
  destruct (commitUpdateQueue 1 0%nat 0%nat VNull 1 callbackProcessed)
    as [[[] h']|] eqn:E; [|by vm_compute in E|by vm_compute in E].
  destruct (commit_twice 1 0%nat 0%nat VNull 1 callbackProcessed h' 0 VNull 1 E)
    as (h'' & E2 & A1 & _).
  exists h', h''. split; [reflexivity|]. split; [exact E2|exact A1].
Defined.

(** ** Bits of 32-bit integers *)

Lemma testbit_toInt32 z i : 0 <= i < 32 -> Z.testbit (toInt32 z) i = Z.testbit z i.
Proof.
  intros Hi. unfold toInt32.
  rewrite <- (Z.mod_pow2_bits_low _ 32 i) by lia.
  rewrite <- (Z.mod_pow2_bits_low z 32 i) by lia.
  f_equal.
  rewrite Zminus_mod_idemp_l. f_equal. lia.
Qed.

Lemma testbit_bitOr a b i :
  0 <= i < 32 -> Z.testbit (bitOr a b) i = Z.testbit a i || Z.testbit b i.
Proof.
  intros Hi. unfold bitOr. by rewrite testbit_toInt32, Z.lor_spec, !testbit_toInt32.
Qed.

Lemma testbit_bitAnd a b i :
  0 <= i < 32 -> Z.testbit (bitAnd a b) i = Z.testbit a i && Z.testbit b i.
Proof.
  intros Hi. unfold bitAnd. by rewrite testbit_toInt32, Z.land_spec, !testbit_toInt32.
Qed.

Lemma testbit_bitNot a i : 0 <= i < 32 -> Z.testbit (bitNot a) i = negb (Z.testbit a i).
Proof.
  intros Hi. unfold bitNot. rewrite testbit_toInt32, Z.lnot_spec, testbit_toInt32; [done|lia..].
Qed.

Section EffectTag.
Context `{Imports}.
Context (w q : nat) (props instance : Value) (render : Z).

Lemma effectTag_tagEffect u h :
  effectTag (fib (tagEffect w u h) w) =
  if tag (upd h u) =? CaptureUpdate then
    bitOr (bitAnd (effectTag (fib h w)) (bitNot ShouldCapture)) DidCapture
  else effectTag (fib h w).
Proof.
  unfold tagEffect. cbv zeta.
  destruct (Z.eqb_spec (tag (upd h u)) ReplaceState) as [E|?];
    [rewrite E; by change (ReplaceState =? CaptureUpdate) with false|].
  destruct (Z.eqb_spec (tag (upd h u)) CaptureUpdate) as [E|?]; simpl; [by stores|].
  destruct (tag (upd h u) =? UpdateState); [done|].
  by destruct (tag (upd h u) =? ForceUpdate).
Qed.

Lemma fib_pushEffect u h x : fib (pushEffect q u h) x = fib h x.
Proof. unfold pushEffect. by destruct (lastEffect _). Qed.

Lemma fib_pushCapturedEffect u h x : fib (pushCapturedEffect q u h) x = fib h x.
Proof. unfold pushCapturedEffect. by destruct (lastCapturedEffect _). Qed.

Lemma effectTag_iterNormal u h :
  effectTag (fib (iterNormal w q render h u) w) = tagStep h render (effectTag (fib h w)) u.
Proof.
  unfold iterNormal, tagStep, sufficient.
  destruct (expirationTime (upd h u) <? render); simpl; [done|].
  rewrite upd_tagEffect. destruct (callback (upd h u)).
  - rewrite fib_pushEffect. stores. by rewrite effectTag_tagEffect.
  - apply effectTag_tagEffect.
Qed.

Lemma effectTag_iterCaptured u h :
  effectTag (fib (iterCaptured w q render h u) w) = tagStep h render (effectTag (fib h w)) u.
Proof.
  unfold iterCaptured, tagStep, sufficient.
  destruct (expirationTime (upd h u) <? render); simpl; [done|].
  rewrite upd_tagEffect. destruct (callback (upd h u)).
  - rewrite fib_pushCapturedEffect. stores. by rewrite effectTag_tagEffect.
  - apply effectTag_tagEffect.
Qed.

Lemma sameStatic_tagStep h h' t u :
  sameStatic h h' -> tagStep h' render t u = tagStep h render t u.
Proof.
  intros S. unfold tagStep.
  rewrite (sameStatic_sufficient h h' S), (sameStatic_callback h h' S).
  pose proof (S u) as E. apply (f_equal tag) in E. simpl in E. by rewrite E.
Qed.

Lemma effectTag_foldNormal us : forall h,
  effectTag (fib (foldl (iterNormal w q render) h us) w) =
  foldl (tagStep h render) (effectTag (fib h w)) us.
Proof.
  induction us as [|u us IH]; intros h; simpl; [done|].
  rewrite IH, effectTag_iterNormal. apply foldl_pointwise. intros t v.
  apply sameStatic_tagStep. intros x. apply (iterNormal_frame w q props instance render u h).
Qed.

Lemma effectTag_foldCaptured us : forall h,
  effectTag (fib (foldl (iterCaptured w q render) h us) w) =
  foldl (tagStep h render) (effectTag (fib h w)) us.
Proof.
  induction us as [|u us IH]; intros h; simpl; [done|].
  rewrite IH, effectTag_iterCaptured. apply foldl_pointwise. intros t v.
  apply sameStatic_tagStep. intros x. apply (iterCaptured_frame w q props instance render u h).
Qed.

Lemma effectTag_finishPass l h :
  effectTag (fib (finishPass w q l h) w) =
  match newFirstCapturedUpdate l with
  | Some _ => bitOr (effectTag (fib h w)) Callback
  | None => effectTag (fib h w)
  end.
Proof.
  unfold finishPass. destruct (newFirstUpdate l), (newFirstCapturedUpdate l); by stores.
Qed.

Lemma effectTag_ensure h :
  effectTag (fib (ensureWorkInProgressQueueIsAClone w q h).2 w) = effectTag (fib h w).
Proof.
  rewrite ensure_spec. destruct (sharedWithCurrent h w q); [|done]. simpl.
  unfold cloneUpdateQueue. simpl. stores_cases.
Qed.

Lemma capturing_cons h u us :
  capturing h render (u :: us) =
  (sufficient h render u && (tag (upd h u) =? CaptureUpdate)) || capturing h render us.
Proof. unfold capturing. simpl. by destruct (sufficient h render u). Qed.

(** The bit [i] of the tag after the iterations over a list, when
    [Callback] and [ShouldCapture] have no bit in common there. *)
Lemma testbit_foldl_tagStep h i us : forall t,
  0 <= i < 32 ->
  (Z.testbit Callback i = true -> Z.testbit ShouldCapture i = false) ->
  Z.testbit (foldl (tagStep h render) t us) i =
  (Z.testbit Callback i && nonEmpty (effectsOf h render us)) ||
  (if capturing h render us then
     Z.testbit DidCapture i || (Z.testbit t i && negb (Z.testbit ShouldCapture i))
   else Z.testbit t i).
Proof.
  intros t Hi Hd. revert t.
  induction us as [|u us IH]; intros t; simpl.
  - unfold capturing. simpl. by rewrite andb_false_r.
  - rewrite IH, capturing_cons. unfold tagStep.
    destruct (sufficient h render u); simpl; [|done].
    destruct (tag (upd h u) =? CaptureUpdate); simpl.
    + destruct (callback (upd h u)); simpl;
        rewrite ?testbit_bitOr, ?testbit_bitAnd, ?testbit_bitNot by done;
        destruct (Z.testbit Callback i) eqn:Ec; [rewrite Hd by done| | rewrite Hd by done|];
        destruct (Z.testbit DidCapture i), (Z.testbit t i), (capturing h render us),
          (nonEmpty (effectsOf h render us)); try destruct (Z.testbit ShouldCapture i); done.
    + destruct (callback (upd h u)); simpl;
        rewrite ?testbit_bitOr by done;
        destruct (Z.testbit Callback i) eqn:Ec; [rewrite Hd by done| | rewrite Hd by done|];
        destruct (Z.testbit DidCapture i), (Z.testbit t i), (capturing h render us),
          (nonEmpty (effectsOf h render us)); try destruct (Z.testbit ShouldCapture i); done.
Qed.

End EffectTag.

Lemma capturing_app h render us cs :
  capturing h render (us ++ cs) = capturing h render us || capturing h render cs.
Proof. unfold capturing. by rewrite processed_app, existsb_app. Qed.

Section EffectTagClaim.
Context `{Imports}.
Context (w q : nat) (props instance : Value) (render : Z).

(** X7. The flags a pass leaves in [workInProgress.effectTag], bit by bit
    (32-bit integers), when [Callback] and [ShouldCapture] have no bit in
    common at position [i].  A bit of [Callback] is set as soon as an
    applied update carries a callback or a captured update stays in the
    queue.  Besides that, when an update with the tag [CaptureUpdate] was
    applied the bits of [DidCapture] are set and those of [ShouldCapture]
    are cleared; no other bit changes. *)
Theorem pass_effect_tag h fuel us cs i :
  chain (nextOf h) (firstUpdate (que h q)) us ->
  chain (nextOf h)
    (if sharedWithCurrent h w q then None else firstCapturedUpdate (que h q)) cs ->
  (length us <= fuel)%nat -> (length cs <= fuel)%nat ->
  0 <= i < 32 ->
  (Z.testbit Callback i = true -> Z.testbit ShouldCapture i = false) ->
  exists h',
    processUpdateQueue fuel w q props instance render h = Some h' /\
    Z.testbit (effectTag (fib h' w)) i =
      (Z.testbit Callback i &&
         (nonEmpty (effectsOf h render (us ++ cs)) || nonEmpty (remaining h render cs))) ||
      (if capturing h render (us ++ cs) then
         Z.testbit DidCapture i ||
         (Z.testbit (effectTag (fib h w)) i && negb (Z.testbit ShouldCapture i))
       else Z.testbit (effectTag (fib h w)) i).
Proof.
  intros Hus Hcs Lus Lcs Hi Hd.
  destruct (processUpdateQueue_heap w q props instance render h fuel us cs)
    as (l & -> & _ & El); [done..|].
  eexists. split; [reflexivity|].
  rewrite effectTag_finishPass, El. unfold loopsHeap.
  set (q' := processedQueue h w q).
  set (h1 := (ensureWorkInProgressQueueIsAClone w q (set_hasForceUpdate false h)).2).
  assert (S1 : sameStatic h h1) by apply (ensure_sameStatic w q (set_hasForceUpdate false h)).
  set (h2 := foldl (iterNormal w q' render) h1 us).
  assert (S2 : sameStatic h1 h2).
  { intros v. apply (foldNormal_frame w q' props instance render us h1). }
  assert (S02 : sameStatic h h2) by (eapply sameStatic_trans; eauto).
  assert (Et : effectTag (fib (foldl (iterCaptured w q' render) h2 cs) w) =
               foldl (tagStep h render) (effectTag (fib h w)) (us ++ cs)).
  { rewrite (effectTag_foldCaptured w q' props instance render cs h2). unfold h2.
    rewrite (effectTag_foldNormal w q' props instance render us h1), foldl_app.
    unfold h1. rewrite (effectTag_ensure w q). fold h1. fold h2.
    change (fib (set_hasForceUpdate false h) w) with (fib h w).
    rewrite (foldl_pointwise (tagStep h2 render) (tagStep h render))
      by (intros; by apply sameStatic_tagStep).
    f_equal. apply foldl_pointwise. intros. by apply sameStatic_tagStep. }
  assert (Eb : Z.testbit (foldl (tagStep h render) (effectTag (fib h w)) (us ++ cs)) i = _)
    by (by apply testbit_foldl_tagStep).
  destruct (remaining h render cs) as [|r rs]; simpl.
  - rewrite Et, Eb. by rewrite orb_false_r.
  - rewrite testbit_bitOr, Et, Eb by done. rewrite orb_true_r, andb_true_r.
    destruct (Z.testbit Callback i); simpl; [|by rewrite orb_false_r].
    by rewrite orb_true_r.
Qed.

End EffectTagClaim.

Lemma residual_bounds h render us : forall e,
  e <= residual h render us e /\
  (forall u, u ∈ us -> sufficient h render u = false ->
     expirationTime (upd h u) <= residual h render us e) /\
  (residual h render us e = e \/
   exists u, u ∈ us /\ sufficient h render u = false /\
     residual h render us e = expirationTime (upd h u)).
Proof.
  induction us as [|u us IH]; intros e.
  - unfold residual; simpl. split; [lia|]. split; [by intros ? ?%elem_of_nil|by left].
  - rewrite residual_cons.
    destruct (sufficient h render u) eqn:Es.
    + destruct (IH e) as (A1 & A2 & A3). split; [done|]. split.
      * intros v [->|Hv]%elem_of_cons Hs; [congruence|by apply A2].
      * destruct A3 as [A3|(v & Hv & Hs & A3)]; [by left|right].
        exists v. split; [by apply list_elem_of_further|done].
    + destruct (IH (Z.max e (expirationTime (upd h u)))) as (A1 & A2 & A3).
      split; [lia|]. split.
      * intros v [->|Hv]%elem_of_cons Hs; [lia|by apply A2].
      * destruct A3 as [A3|(v & Hv & Hs & A3)].
        -- destruct (Z.max_spec e (expirationTime (upd h u))) as [[_ Em]|[_ Em]];
             [right|left; by rewrite A3].
           exists u. split; [apply list_elem_of_here|]. split; [done|by rewrite A3].
        -- right. exists v. split; [by apply list_elem_of_further|done].
Qed.

Section ExpirationTime.
Context `{Imports}.
Context (w q : nat) (props instance : Value) (render : Z).

(** X8. The expiration time a pass leaves on the fiber is the largest of
    [NoWork] and the expiration times of the updates it skipped, in either
    list: it is at least [NoWork] and at least the time of every skipped
    update, and it is [NoWork] or the time of a skipped update; so it is
    [NoWork] when nothing was skipped, and also when every skipped update
    has a time below [NoWork].  With [NoWork] below the render's level,
    what is left is always below that level: the work that remains has a
    lower priority than the render that left it. *)
Theorem pass_expiration_time h fuel us cs :
  chain (nextOf h) (firstUpdate (que h q)) us ->
  chain (nextOf h)
    (if sharedWithCurrent h w q then None else firstCapturedUpdate (que h q)) cs ->
  (length us <= fuel)%nat -> (length cs <= fuel)%nat ->
  exists h',
    processUpdateQueue fuel w q props instance render h = Some h' /\
    let left := fiberExpirationTime (fib h' w) in
    NoWork <= left /\
    (forall u, u ∈ us ++ cs -> sufficient h render u = false ->
       expirationTime (upd h u) <= left) /\
    (left = NoWork \/
     exists u, u ∈ us ++ cs /\ sufficient h render u = false /\
       left = expirationTime (upd h u)) /\
    ((forall u, u ∈ us ++ cs -> sufficient h render u = true) -> left = NoWork) /\
    (NoWork < render -> left < render).
Proof.
  intros Hus Hcs Lus Lcs.
  destruct (processUpdateQueue_spec w q props instance render h fuel us cs)
    as (h' & E & S); [done..|].
  exists h'. split; [done|]. cbv zeta.
  rewrite (ps_expirationTime _ _ _ _ _ _ _ _ _ _ S).
  destruct (residual_bounds h render (us ++ cs) NoWork) as (A1 & A2 & A3).
  split; [done|]. split; [done|]. split; [done|]. split.
  - intros Hall. destruct A3 as [A3|(u & Hu & Hs & _)]; [done|].
    rewrite Hall in Hs; done.
  - intros Hn. destruct A3 as [->|(u & Hu & Hs & ->)]; [done|].
    unfold sufficient in Hs. apply negb_false_iff, Z.ltb_lt in Hs. done.
Qed.

End ExpirationTime.

Lemma pass_effect_tag_witness :
  exists h',
    processUpdateQueue (H := reactImports) 4 0%nat 0%nat VNull VNull 2 mixedQueue = Some h' /\
    Z.testbit (effectTag (fib h' 0%nat)) 5 = true.
Proof.
  destruct (pass_effect_tag (H := reactImports) 0%nat 0%nat VNull VNull 2 mixedQueue 4
              [0; 1; 2; 3]%nat [] 5)
    as (h' & E & A).
  - vm_compute. repeat split; reflexivity.
  - vm_compute. reflexivity.
  - simpl; lia.
  - simpl; lia.
  - lia.
  - intros _. vm_compute. reflexivity.
  - exists h'. split; [exact E|]. rewrite A. vm_compute. reflexivity.
Defined.

Lemma pass_expiration_time_witness :
  exists h',
    processUpdateQueue (H := reactImports) 4 0%nat 0%nat VNull VNull 2 mixedQueue = Some h' /\
    fiberExpirationTime (fib h' 0%nat) < 2.
Proof.
  destruct (pass_expiration_time (H := reactImports) 0%nat 0%nat VNull VNull 2 mixedQueue 4
              [0; 1; 2; 3]%nat [])
    as (h' & E & _ & _ & _ & _ & A).
  - vm_compute. repeat split; reflexivity.
  - vm_compute. reflexivity.
  - simpl; lia.
  - simpl; lia.
  - exists h'. split; [exact E|]. apply A. vm_compute. reflexivity.
Defined.

Lemma processed_split h render us :
  processed h render us = processedPrefix h render us ++ processed h render (remaining h render us).
Proof.
  induction us as [|u us IH]; simpl; [done|].
  destruct (sufficient h render u) eqn:E; simpl; [by rewrite IH|by rewrite E].
Qed.

Lemma processedPrefix_remaining h render us :
  processedPrefix h render (remaining h render us) = [].
Proof.
  induction us as [|u us IH]; simpl; [done|].
  destruct (sufficient h render u) eqn:E; simpl; [done|by rewrite E].
Qed.

Lemma remaining_idem h render us :
  remaining h render (remaining h render us) = remaining h render us.
Proof.
  induction us as [|u us IH]; simpl; [done|].
  destruct (sufficient h render u) eqn:E; simpl; [done|by rewrite E].
Qed.

Lemma residual_remaining h render us e :
  residual h render (remaining h render us) e = residual h render us e.
Proof.
  revert e. induction us as [|u us IH]; intros e; [done|].
  rewrite residual_cons. simpl. destruct (sufficient h render u) eqn:E; [apply IH|].
  by rewrite residual_cons, E.
Qed.

Section PassRepeat.
Context `{Imports}.
Context (w q : nat) (props instance : Value) (render : Z).

(** X9. A pass repeated.  With no captured update pending, a second pass at
    the same level, with the same props and instance, on the queue that the
    first pass wrote gives the same [memoizedState] and leaves [baseState],
    [firstUpdate], [lastUpdate] and the fiber's expiration time as the
    first pass left them: the updates skipped are still all there and
    nothing is applied twice to the base state. *)
Theorem pass_repeat h fuel us :
  chain (nextOf h) (firstUpdate (que h q)) us ->
  (if sharedWithCurrent h w q then None else firstCapturedUpdate (que h q)) = None ->
  (length us <= fuel)%nat ->
  exists h1 h2,
    processUpdateQueue fuel w q props instance render h = Some h1 /\
    let q1 := processedQueue h w q in
    processUpdateQueue fuel w q1 props instance render h1 = Some h2 /\
    let q2 := processedQueue h1 w q1 in
    memoizedState (fib h2 w) = memoizedState (fib h1 w) /\
    baseState (que h2 q2) = baseState (que h1 q1) /\
    firstUpdate (que h2 q2) = firstUpdate (que h1 q1) /\
    lastUpdate (que h2 q2) = lastUpdate (que h1 q1) /\
    fiberExpirationTime (fib h2 w) = fiberExpirationTime (fib h1 w).
Proof.
  intros Hus Hcap Lus.
  destruct (processUpdateQueue_spec w q props instance render h fuel us [])
    as (h1 & E1 & P1); [done|by rewrite Hcap|done|simpl; lia|].
  set (q1 := processedQueue h w q) in *.
  destruct P1 as [B1 Fu1 Lu1 Fc1 Lc1 M1 X1 Q1 F1]. rewrite app_nil_r in B1, M1, X1.
  assert (S1 : sameStatic h h1) by (intros u; apply F1).
  set (rs := remaining h render us) in *.
  assert (Hrs : chain (nextOf h1) (firstUpdate (que h1 q1)) rs).
  { rewrite Fu1. apply (sameStatic_chain h); [done|].
    destruct (remaining_suffix h render us) as (ps & Eu & _). fold rs in Eu.
    rewrite Eu in Hus. by apply chain_suffix in Hus. }
  assert (Lrs : (length rs <= fuel)%nat).
  { destruct (remaining_suffix h render us) as (ps & Eu & _). fold rs in Eu.
    rewrite Eu, length_app in Lus. lia. }
  destruct (processUpdateQueue_spec w q1 props instance render h1 fuel rs [])
    as (h2 & E2 & P2); [done| |done|simpl; lia|].
  { simpl in Fc1. rewrite Fc1. by destruct (sharedWithCurrent h1 w q1). }
  exists h1, h2. split; [done|]. split; [done|]. cbv zeta.
  destruct P2 as [B2 Fu2 Lu2 Fc2 Lc2 M2 X2 Q2 F2]. rewrite app_nil_r in B2, M2, X2.
  rewrite (sameStatic_applyAll h h1 S1), (sameStatic_processedPrefix h h1 S1) in B2.
  rewrite (sameStatic_applyAll h h1 S1), (sameStatic_processed h h1 S1) in M2.
  rewrite (sameStatic_remaining h h1 S1) in Fu2, Lu2.
  rewrite (sameStatic_residual h h1 S1) in X2.
  unfold rs in B2, M2, Fu2, Lu2, X2.
  rewrite processedPrefix_remaining in B2. rewrite remaining_idem in Fu2, Lu2.
  rewrite residual_remaining in X2.
  split.
  { rewrite M2, M1, B1, (processed_split h render us), applyAll_app. done. }
  split; [done|]. split; [by rewrite Fu2, Fu1|]. split; [|by rewrite X2, X1].
  rewrite Lu2. fold rs. rewrite Lu1. by destruct rs.
Qed.

End PassRepeat.

Lemma pass_repeat_witness :
  exists h1 h2,
    processUpdateQueue (H := reactImports) 4 0%nat 0%nat VNull VNull 2 mixedQueue = Some h1 /\
    processUpdateQueue (H := reactImports) 4 0%nat 0%nat VNull VNull 2 h1 = Some h2 /\
    memoizedState (fib h2 0%nat) = memoizedState (fib h1 0%nat).
Proof.
  destruct (pass_repeat (H := reactImports) 0%nat 0%nat VNull VNull 2 mixedQueue 4
              [0; 1; 2; 3]%nat)
    as (h1 & h2 & E1 & E2 & A & _).
  - vm_compute. repeat split; reflexivity.
  - vm_compute. reflexivity.
  - simpl; lia.
  - exists h1, h2. split; [exact E1|]. split; [exact E2|exact A].
Defined.

Section EnsureClone.

(** X10. [ensureWorkInProgressQueueIsAClone] called again with the queue it
    returned does nothing: the queue it returns is never the one the other
    fiber of the pair holds.  The queue handed in must be one that exists,
    and the fiber must not be its own alternate. *)
Theorem ensure_clone_idempotent w q h :
  q ∈ dom (queues h) ->
  alternate (fib h w) <> Some w ->
  let '(q1, h1) := ensureWorkInProgressQueueIsAClone w q h in
  ensureWorkInProgressQueueIsAClone w q1 h1 = (q1, h1) /\
  sharedWithCurrent h1 w q1 = false /\
  updateQueue (fib h1 w) =
    (if sharedWithCurrent h w q then Some q1 else updateQueue (fib h w)).
Proof.
  intros Hq Hw. rewrite ensure_spec.
  destruct (sharedWithCurrent h w q) eqn:Es.
  - set (q1 := fresh (dom (queues h))).
    set (h1 := set_updateQueue w (Some q1) (cloneUpdateQueue q h).2).
    assert (Hne : q1 <> q) by (intros E; apply (is_fresh (dom (queues h))); fold q1; by rewrite E).
    assert (Es1 : sharedWithCurrent h1 w q1 = false).
    { unfold sharedWithCurrent in *. unfold h1, cloneUpdateQueue. simpl.
      destruct (alternate (fib h w)) as [c|] eqn:Ea; [|done].
      assert (w <> c) by congruence.
      assert (alternate (fib (set_updateQueue w (Some q1)
                (putQueue (fresh (dom (queues h)))
                   (mkUpdateQueue (baseState (que h q)) (firstUpdate (que h q))
                      (lastUpdate (que h q)) None None None None None None) h)) w) = Some c) as ->.
      { stores_cases. }
      apply bool_decide_eq_true_1 in Es.
      apply bool_decide_eq_false_2. stores_cases. rewrite <- Es. congruence. }
    split; [|split; [done|unfold h1; by stores]].
    rewrite ensure_spec, Es1. done.
  - split; [|done]. by rewrite ensure_spec, Es.
Qed.

End EnsureClone.

Lemma ensure_clone_idempotent_witness :
  let r := ensureWorkInProgressQueueIsAClone 1%nat 0%nat sharedQueue in
  r.1 = 2%nat /\ ensureWorkInProgressQueueIsAClone 1%nat r.1 r.2 = r.
Proof.
  intros r.
  assert (H1 : 0%nat ∈ dom (queues sharedQueue)).
  { apply elem_of_dom. eexists. vm_compute. reflexivity. }
  assert (H2 : alternate (fib sharedQueue 1%nat) <> Some 1%nat) by (vm_compute; congruence).
  pose proof (ensure_clone_idempotent 1%nat 0%nat sharedQueue H1 H2) as A.
  fold r in A. destruct r as [q1 h1] eqn:Er. destruct A as (A & _).
  split; [|exact A].
  change q1 with (q1, h1).1. rewrite <- Er. vm_compute. reflexivity.
Defined.

Lemma appendCaptured_links q update h u :
  next (upd (appendCaptured q update h) u) =
  if decide (lastCapturedUpdate (que h q) = Some u) then Some update else next (upd h u).
Proof.
  unfold appendCaptured. destruct (lastCapturedUpdate (que h q)) as [t|].
  - destruct (decide (t = u)) as [->|]; case_decide; try congruence; stores.
  - case_decide; [done|]. stores.
Qed.

Lemma appendCaptured_facts q update h :
  let h' := appendCaptured q update h in
  lastCapturedUpdate (que h' q) = Some update /\
  firstCapturedUpdate (que h' q) =
    match lastCapturedUpdate (que h q) with
    | Some _ => firstCapturedUpdate (que h q)
    | None => Some update
    end /\
  baseState (que h' q) = baseState (que h q) /\
  firstUpdate (que h' q) = firstUpdate (que h q) /\
  lastUpdate (que h' q) = lastUpdate (que h q) /\
  (forall q', q' <> q -> que h' q' = que h q') /\
  (forall x, fib h' x = fib h x) /\
  (forall u, eraseNext (upd h' u) = eraseNext (upd h u)) /\
  (forall u, lastCapturedUpdate (que h q) <> Some u -> upd h' u = upd h u) /\
  calls h' = calls h.
Proof.
  unfold appendCaptured. destruct (lastCapturedUpdate (que h q)) as [t|] eqn:Et; cbv zeta.
  - repeat split; try by stores.
    + intros q' Hq. assert (q <> q') by congruence. by stores.
    + intros u. unfold eraseNext. destruct (decide (t = u)) as [->|]; by stores.
    + intros u Hu. assert (t <> u) by congruence. by stores.
  - repeat split; try by stores.
    intros q' Hq. assert (q <> q') by congruence. by stores.
Qed.

Lemma appendCaptured_chain q update h cs :
  chain (nextOf h) (firstCapturedUpdate (que h q)) cs ->
  lastCapturedUpdate (que h q) = last cs ->
  update ∉ cs ->
  next (upd h update) = None ->
  chain (nextOf (appendCaptured q update h))
    (firstCapturedUpdate (que (appendCaptured q update h) q)) (cs ++ [update]).
Proof.
  intros Hc Hl Hu Hn.
  destruct (appendCaptured_facts q update h) as (_ & -> & _).
  pose proof (chain_append_new (nextOf h) (nextOf (appendCaptured q update h))
                cs update _ Hc Hu) as Hj.
  assert (match lastCapturedUpdate (que h q) with
          | Some _ => firstCapturedUpdate (que h q)
          | None => Some update
          end = match cs with [] => Some update | _ :: _ => firstCapturedUpdate (que h q) end)
    as ->.
  { rewrite Hl. destruct cs as [|a cs]; [done|].
    destruct (last (a :: cs)) eqn:E; [done|]. by apply last_None in E. }
  apply Hj.
  - unfold nextOf. rewrite appendCaptured_links, Hl.
    case_decide as Ed; [|done]. exfalso. apply Hu. by apply last_Some_elem_of.
  - intros v. unfold nextOf. rewrite appendCaptured_links, Hl. done.
Qed.

Section CapturedEnqueue.
Context `{Imports}.

Lemma enqueueCapturedUpdate_unfold w update h :
  enqueueCapturedUpdate w update h =
  match updateQueue (fib h w) with
  | None =>
      appendCaptured (fresh (dom (queues h))) update
        (set_updateQueue w (Some (fresh (dom (queues h))))
           (createUpdateQueue (memoizedState (fib h w)) h).2)
  | Some q =>
      appendCaptured (ensureWorkInProgressQueueIsAClone w q h).1 update
        (ensureWorkInProgressQueueIsAClone w q h).2
  end.
Proof.
  unfold enqueueCapturedUpdate. destruct (updateQueue (fib h w)) as [q|]; [|done].
  by destruct (ensureWorkInProgressQueueIsAClone w q h).
Qed.

(** X11. [enqueueCapturedUpdate] on a fiber that has a queue.  The update is
    appended to the captured list of the work-in-progress queue, a clone
    being made first when the fiber still holds the queue of its
    alternate; a clone starts with an empty captured list.  The normal
    list, [baseState] and every other queue header, that of the alternate
    included, are untouched, as are all fibers but the work-in-progress
    one; the only record written is the old tail of the captured list,
    whose [next] link now points to the update. *)
Theorem enqueueCapturedUpdate_appends w q update h cs :
  updateQueue (fib h w) = Some q ->
  q ∈ dom (queues h) ->
  chain (nextOf h)
    (if sharedWithCurrent h w q then None else firstCapturedUpdate (que h q)) cs ->
  (if sharedWithCurrent h w q then None else lastCapturedUpdate (que h q)) = last cs ->
  update ∉ cs ->
  next (upd h update) = None ->
  let h' := enqueueCapturedUpdate w update h in
  let q' := processedQueue h w q in
  updateQueue (fib h' w) = Some q' /\
  chain (nextOf h') (firstCapturedUpdate (que h' q')) (cs ++ [update]) /\
  lastCapturedUpdate (que h' q') = Some update /\
  baseState (que h' q') = baseState (que h q) /\
  firstUpdate (que h' q') = firstUpdate (que h q) /\
  lastUpdate (que h' q') = lastUpdate (que h q) /\
  (forall q'', q'' <> q' -> que h' q'' = que h q'') /\
  (sharedWithCurrent h w q = true -> q' <> q) /\
  (forall f, f <> w -> fib h' f = fib h f) /\
  (forall u, last cs <> Some u -> upd h' u = upd h u) /\
  (forall u, eraseNext (upd h' u) = eraseNext (upd h u)).
Proof.
  intros Hq Hdom Hc Hl Hu Hn h' q'. unfold h'.
  rewrite enqueueCapturedUpdate_unfold, Hq.
  destruct (ensureWorkInProgressQueueIsAClone w q h) as [q1 h1] eqn:E.
  apply ensure_facts in E. fold q' in E.
  destruct E as (-> & Eu & E1 & E2 & E3 & E4 & E5 & E6 & F0). cbn [fst snd].
  assert (Hupd : forall u, upd h1 u = upd h u) by (intros u; unfold upd; by rewrite Eu).
  destruct (appendCaptured_facts q' update h1) as (A1 & A2 & A3 & A4 & A5 & A6 & A7 & A8 & A9 & _).
  cbv zeta in *.
  split.
  { rewrite A7, E6. unfold q', processedQueue. by destruct (sharedWithCurrent h w q). }
  split.
  { apply appendCaptured_chain.
    - rewrite E4. eapply chain_ext; [|exact Hc]. intros v. unfold nextOf. by rewrite Hupd.
    - by rewrite E5.
    - done.
    - by rewrite Hupd. }
  split; [done|]. split; [by rewrite A3|]. split; [by rewrite A4|]. split; [by rewrite A5|].
  split.
  { intros q'' Hne. rewrite A6 by done. by apply (pf_queues _ _ _ _ F0). }
  split.
  { intros Es Eq. unfold q', processedQueue in Eq. rewrite Es in Eq.
    apply (is_fresh (dom (queues h))). by rewrite Eq. }
  split.
  { intros f Hf. rewrite A7. by apply (pf_fibers _ _ _ _ F0). }
  split.
  { intros u Hne. rewrite A9, Hupd; [done|]. by rewrite E5, Hl. }
  intros u. by rewrite A8, Hupd.
Qed.

End CapturedEnqueue.

Lemma enqueueCapturedUpdate_appends_witness :
  let h := (createUpdate 1 capturedPending).2 in
  let h' := enqueueCapturedUpdate 0%nat 2%nat h in
  chain (nextOf h') (firstCapturedUpdate (que h' 0%nat)) [1; 2]%nat /\
  firstUpdate (que h' 0%nat) = Some 0%nat.
Proof.
  intros h h'.
  destruct (enqueueCapturedUpdate_appends 0%nat 0%nat 2%nat h [1%nat])
    as (_ & A1 & _ & _ & A2 & _).
  - vm_compute. reflexivity.
  - apply elem_of_dom. eexists. vm_compute. reflexivity.
  - vm_compute. repeat split; reflexivity.
  - vm_compute. reflexivity.
  - intros ?%list_elem_of_singleton. lia.
  - vm_compute. reflexivity.
  - assert (Eq : processedQueue h 0%nat 0%nat = 0%nat) by (vm_compute; reflexivity).
    rewrite Eq in A1, A2. split; [exact A1|]. unfold h'. rewrite A2. vm_compute. reflexivity.
Defined.

(** Heaps whose records agree on every field but [next]. *)
Section SameButNext.
Context (h h' : Heap) (S : forall u, eraseNext (upd h' u) = eraseNext (upd h u)).

Lemma eraseNext_sufficient render u : sufficient h' render u = sufficient h render u.
Proof.
  unfold sufficient. pose proof (S u) as E. apply (f_equal expirationTime) in E.
  simpl in E. by rewrite E.
Qed.

Lemma eraseNext_applyUpdate u s props instance :
  applyUpdate (upd h' u) s props instance = applyUpdate (upd h u) s props instance.
Proof.
  pose proof (S u) as E. unfold applyUpdate.
  pose proof (f_equal tag E) as Et. pose proof (f_equal payload E) as Ep. simpl in Et, Ep.
  by rewrite Et, Ep.
Qed.

Lemma eraseNext_processed render us : processed h' render us = processed h render us.
Proof.
  induction us as [|u us IH]; simpl; [done|]. by rewrite eraseNext_sufficient, IH.
Qed.

Lemma eraseNext_applyAll props instance us s :
  applyAll h' props instance us s = applyAll h props instance us s.
Proof. apply foldl_pointwise. intros. apply eraseNext_applyUpdate. Qed.

End SameButNext.

Section EnqueueThenPass.
Context `{Imports}.
Context (w q : nat) (props instance : Value) (render : Z).

(** X12. An update enqueued on a fiber without alternate is applied last.
    With no captured update pending, the pass that follows the
    [enqueueUpdate] ends with the state that the pass without it ends
    with, to which the new update is applied when its priority suffices;
    a new update of insufficient priority leaves the result as it is.  The
    update must be a record that is not in the list and whose [next] is
    [null]. *)
Theorem enqueue_then_pass h fuel us update :
  alternate (fib h w) = None ->
  updateQueue (fib h w) = Some q ->
  chain (nextOf h) (firstUpdate (que h q)) us ->
  lastUpdate (que h q) = last us ->
  firstCapturedUpdate (que h q) = None ->
  update ∉ us ->
  next (upd h update) = None ->
  (length us < fuel)%nat ->
  exists h1 h2,
    processUpdateQueue fuel w q props instance render h = Some h1 /\
    processUpdateQueue fuel w q props instance render (enqueueUpdate w update h) = Some h2 /\
    chain (nextOf (enqueueUpdate w update h))
      (firstUpdate (que (enqueueUpdate w update h) q)) (us ++ [update]) /\
    memoizedState (fib h2 w) =
      (if sufficient h render update
       then applyUpdate (upd h update) (memoizedState (fib h1 w)) props instance
       else memoizedState (fib h1 w)).
Proof.
  intros Ha Hq Hus Hl Hcap Hu Hn Hf.
  assert (Hsh : sharedWithCurrent h w q = false) by (unfold sharedWithCurrent; by rewrite Ha).
  destruct (processUpdateQueue_spec w q props instance render h fuel us [])
    as (h1 & E1 & P1); [done|by rewrite Hsh, Hcap|lia|simpl; lia|].
  assert (Ee : enqueueUpdate w update h = appendUpdateToQueue q update h).
  { unfold enqueueUpdate. by rewrite Ha, Hq. }
  rewrite Ee.
  set (h0 := appendUpdateToQueue q update h).
  assert (S0 : forall u, eraseNext (upd h0 u) = eraseNext (upd h u))
    by apply appendUpdateToQueue_eraseNext.
  assert (Hc0 : chain (nextOf h0) (firstUpdate (que h0 q)) (us ++ [update]))
    by (by apply appendUpdateToQueue_chain).
  assert (Hsh0 : sharedWithCurrent h0 w q = false).
  { unfold sharedWithCurrent, h0. by rewrite appendUpdateToQueue_fib, Ha. }
  pose proof (appendUpdateToQueue_eraseList q update h q) as El. fold h0 in El.
  pose proof (f_equal firstCapturedUpdate El) as Ec0.
  pose proof (f_equal baseState El) as Eb0. simpl in Ec0, Eb0.
  destruct (processUpdateQueue_spec w q props instance render h0 fuel (us ++ [update]) [])
    as (h2 & E2 & P2); [done| |rewrite length_app; simpl; lia|simpl; lia|].
  { by rewrite Hsh0, Ec0, Hcap. }
  exists h1, h2. split; [done|]. split; [done|]. split; [done|].
  rewrite (ps_memoizedState _ _ _ _ _ _ _ _ _ _ P2), (ps_memoizedState _ _ _ _ _ _ _ _ _ _ P1).
  rewrite !app_nil_r, (eraseNext_applyAll h h0 S0), (eraseNext_processed h h0 S0).
  rewrite Eb0.
  rewrite processed_app, applyAll_app. simpl.
  destruct (sufficient h render update); done.
Qed.

End EnqueueThenPass.

Lemma enqueue_then_pass_witness :
  let h := (createUpdate 2 mixedQueue).2 in
  let h := set_payload 4%nat (PVal (VObj {["d"%string := VNum 4]})) h in
  exists h1 h2,
    processUpdateQueue (H := reactImports) 5 0%nat 0%nat VNull VNull 2 h = Some h1 /\
    processUpdateQueue (H := reactImports) 5 0%nat 0%nat VNull VNull 2
      (enqueueUpdate 0%nat 4%nat h) = Some h2 /\
    memoizedState (fib h2 0%nat) =
      Object_assign [memoizedState (fib h1 0%nat); VObj {["d"%string := VNum 4]}].
Proof.
  intros h0 h.
  destruct (enqueue_then_pass (H := reactImports) 0%nat 0%nat VNull VNull 2 h 5
              [0; 1; 2; 3]%nat 4%nat)
    as (h1 & h2 & E1 & E2 & _ & A).
  - vm_compute. reflexivity.
  - vm_compute. reflexivity.
  - vm_compute. repeat split; reflexivity.
  - vm_compute. reflexivity.
  - vm_compute. reflexivity.
  - intros Hin. repeat (apply elem_of_cons in Hin as [Hin|Hin]; [lia|]).
    by apply elem_of_nil in Hin.
  - vm_compute. reflexivity.
  - simpl; lia.
  - exists h1, h2. split; [exact E1|]. split; [exact E2|]. rewrite A.
    replace (sufficient h 2 4%nat) with true by (vm_compute; reflexivity).
    reflexivity.
Defined.

Section EnqueueClones.
Context `{Imports}.

Lemma bothQueues_clone_spec fiber alt h qa (first : bool) :
  fiber <> alt ->
  qa ∈ dom (queues h) ->
  (if first then updateQueue (fib h fiber) = Some qa /\ updateQueue (fib h alt) = None
   else updateQueue (fib h fiber) = None /\ updateQueue (fib h alt) = Some qa) ->
  exists q1 q2 h1,
    bothQueues fiber alt h = (q1, q2, h1) /\
    q1 <> q2 /\
    (if first then q1 = qa else q2 = qa) /\
    updateQueue (fib h1 fiber) = Some q1 /\ updateQueue (fib h1 alt) = Some q2 /\
    (forall u, upd h1 u = upd h u) /\
    (forall q, q = q1 \/ q = q2 ->
       baseState (que h1 q) = baseState (que h qa) /\
       firstUpdate (que h1 q) = firstUpdate (que h qa) /\
       lastUpdate (que h1 q) = lastUpdate (que h qa)) /\
    (forall q, q <> q1 -> q <> q2 -> que h1 q = que h q) /\
    (forall x, x <> fiber -> x <> alt -> fib h1 x = fib h x).
Proof.
  intros Hne Hdom Hq.
  assert (Hf : fresh (dom (queues h)) <> qa).
  { intros E. apply (is_fresh (dom (queues h))). by rewrite E. }
  set (qn := fresh (dom (queues h))) in *.
  set (r := mkUpdateQueue (baseState (que h qa)) (firstUpdate (que h qa))
              (lastUpdate (que h qa)) None None None None None None).
  unfold bothQueues, cloneUpdateQueue. fold qn.
  destruct first; destruct Hq as [Hq1 Hq2]; rewrite Hq1, Hq2; fold r.
  - exists qa, qn, (set_updateQueue alt (Some qn) (putQueue qn r h)).
    split; [reflexivity|]. split; [congruence|]. split; [done|].
    split; [stores_cases|]. split; [stores_cases|]. split; [done|].
    split; [intros q [->| ->]; unfold r; stores_cases|].
    split; intros; stores_cases.
  - exists qn, qa, (set_updateQueue fiber (Some qn) (putQueue qn r h)).
    split; [reflexivity|]. split; [congruence|]. split; [done|].
    split; [stores_cases|]. split; [stores_cases|]. split; [done|].
    split; [intros q [->| ->]; unfold r; stores_cases|].
    split; intros; stores_cases.
Qed.

(** X13. [enqueueUpdate] on a pair of fibers of which only one has a queue.
    The other fiber gets a clone, and the update is appended to both: both
    queues then hold the list of the existing queue followed by the
    update, with the same [baseState], whichever of the two fibers the
    update was enqueued on. *)
Theorem enqueue_clones_missing_queue fiber alt update h qa us (first : bool) :
  alternate (fib h fiber) = Some alt ->
  fiber <> alt ->
  qa ∈ dom (queues h) ->
  (if first then updateQueue (fib h fiber) = Some qa /\ updateQueue (fib h alt) = None
   else updateQueue (fib h fiber) = None /\ updateQueue (fib h alt) = Some qa) ->
  chain (nextOf h) (firstUpdate (que h qa)) us ->
  lastUpdate (que h qa) = last us ->
  update ∉ us ->
  next (upd h update) = None ->
  let h' := enqueueUpdate fiber update h in
  exists q1 q2,
    q1 <> q2 /\
    (if first then q1 = qa else q2 = qa) /\
    updateQueue (fib h' fiber) = Some q1 /\
    updateQueue (fib h' alt) = Some q2 /\
    chain (nextOf h') (firstUpdate (que h' q1)) (us ++ [update]) /\
    chain (nextOf h') (firstUpdate (que h' q2)) (us ++ [update]) /\
    lastUpdate (que h' q1) = Some update /\
    lastUpdate (que h' q2) = Some update /\
    baseState (que h' q1) = baseState (que h qa) /\
    baseState (que h' q2) = baseState (que h qa).
Proof.
  intros Ha Hne Hdom Hq Hc Hl Hu Hn h'. unfold h'.
  rewrite (enqueueUpdate_halves fiber alt update h Ha).
  destruct (bothQueues_clone_spec fiber alt h qa first Hne Hdom Hq)
    as (q1 & q2 & h1 & -> & Hq12 & Hqa & U1 & U2 & Hupd & Hque & _).
  destruct (Hque q1 (or_introl eq_refl)) as (B1 & F1 & L1).
  destruct (Hque q2 (or_intror eq_refl)) as (B2 & F2 & L2).
  assert (Hc1 : chain (nextOf h1) (firstUpdate (que h qa)) us).
  { eapply chain_ext; [|exact Hc]. intros v. unfold nextOf. by rewrite Hupd. }
  destruct (appendToBoth_chains q1 q2 update h1 us us Hq12) as [C1 C2];
    [by rewrite F1|by rewrite L1|by rewrite F2|by rewrite L2|auto|done|done|by rewrite Hupd|].
  destruct (appendToBoth_spec q1 q2 update h1) as (A1 & A2 & A3 & _).
  exists q1, q2. split; [done|]. split; [done|].
  split; [by rewrite A3|]. split; [by rewrite A3|].
  split; [done|]. split; [done|]. split; [done|]. split; [done|].
  pose proof (appendToBoth_eraseList q1 q2 update h1 q1) as E1.
  pose proof (appendToBoth_eraseList q1 q2 update h1 q2) as E2.
  apply (f_equal baseState) in E1, E2. simpl in E1, E2. by rewrite E1, E2, B1, B2.
Qed.

End EnqueueClones.

Lemma enqueue_clones_missing_queue_witness :
  let h := (createUpdate 2 oneQueue).2 in
  let h' := enqueueUpdate 1%nat 4%nat h in
  updateQueue (fib h' 1%nat) = Some 1%nat /\
  chain (nextOf h') (firstUpdate (que h' 1%nat)) [0; 1; 2; 3; 4]%nat /\
  chain (nextOf h') (firstUpdate (que h' 0%nat)) [0; 1; 2; 3; 4]%nat.
Proof.
  intros h h'.
  destruct (enqueue_clones_missing_queue 1%nat 0%nat 4%nat h 0%nat [0; 1; 2; 3]%nat false)
    as (q1 & q2 & _ & -> & A1 & _ & A2 & A3 & _).
  - vm_compute. reflexivity.
  - lia.
  - apply elem_of_dom. eexists. vm_compute. reflexivity.
  - vm_compute. split; reflexivity.
  - vm_compute. repeat split; reflexivity.
  - vm_compute. reflexivity.
  - intros Hin. repeat (apply elem_of_cons in Hin as [Hin|Hin]; [lia|]).
    by apply elem_of_nil in Hin.
  - vm_compute. reflexivity.
  - assert (Eq : q1 = 1%nat).
    { assert (E : updateQueue (fib h' 1%nat) = Some 1%nat) by (vm_compute; reflexivity).
      unfold h' in E. rewrite A1 in E. by injection E. }
    subst q1. split; [exact A1|]. split; [exact A2|exact A3].
Defined.

Lemma applyUpdate_merge r s props instance v :
  (tag r = UpdateState \/ tag r = CaptureUpdate) -> payload r = PVal v ->
  applyUpdate r (VObj s) props instance = VObj (ownProps v ∪ s).
Proof.
  intros Ht Hp. unfold applyUpdate. rewrite Hp. simpl.
  assert ((tag r =? ReplaceState) = false) as ->.
  { destruct Ht as [-> | ->]; reflexivity. }
  assert ((tag r =? CaptureUpdate) || (tag r =? UpdateState) = true) as ->.
  { destruct Ht as [-> | ->]; reflexivity. }
  assert (Hm : Object_assign [VObj s; v] = VObj (ownProps v ∪ s)).
  { unfold Object_assign. simpl. by rewrite (right_id_L ∅ (∪)). }
  destruct v; try exact Hm; simpl; by rewrite (left_id_L ∅ (∪)).
Qed.

Lemma applyAll_lastWritten h props instance k l :
  forall (s : gmap string Value) (acc : option Value) (m : gmap string Value),
  Forall (mergesValue h) l ->
  m !! k = match acc with Some x => Some x | None => s !! k end ->
  exists m',
    applyAll h props instance l (VObj m) = VObj m' /\
    m' !! k =
      match foldl (fun acc u =>
                     match payload (upd h u) with
                     | PVal v =>
                         match ownProps v !! k with
                         | Some x => Some x
                         | None => acc
                         end
                     | PFun _ => acc
                     end) acc l with
      | Some x => Some x
      | None => s !! k
      end.
Proof.
  induction l as [|u l IH]; intros s acc m Hl Hm.
  - exists m. done.
  - apply Forall_cons in Hl as [[Ht [v Hp]] Hl].
    unfold applyAll. simpl. rewrite (applyUpdate_merge _ _ _ _ v Ht Hp), Hp.
    apply (IH s); [exact Hl|].
    rewrite lookup_union. destruct (ownProps v !! k) as [x|] eqn:Ek; simpl.
    + by destruct (m !! k).
    + rewrite Hm. by destruct acc, (s !! k).
Qed.

Section Merge.
Context `{Imports}.
Context (w q : nat) (props instance : Value) (render : Z).

(** X14. Shallow merge, last writer wins.  When the base state is an
    object and every applied update merges a value ([UpdateState] or
    [CaptureUpdate] with a payload that is not a function), the
    [memoizedState] a pass leaves is an object in which each property has
    the value given by the last applied update that defines it, the normal
    list before the captured one, and otherwise the value it has in the
    base state; [null], [undefined] and other values without properties
    change nothing. *)
Theorem pass_last_writer_wins h fuel us cs s :
  chain (nextOf h) (firstUpdate (que h q)) us ->
  chain (nextOf h)
    (if sharedWithCurrent h w q then None else firstCapturedUpdate (que h q)) cs ->
  (length us <= fuel)%nat -> (length cs <= fuel)%nat ->
  baseState (que h q) = VObj s ->
  Forall (mergesValue h) (processed h render (us ++ cs)) ->
  exists h' m,
    processUpdateQueue fuel w q props instance render h = Some h' /\
    memoizedState (fib h' w) = VObj m /\
    forall k,
      m !! k =
      match lastWritten h k (processed h render (us ++ cs)) with
      | Some x => Some x
      | None => s !! k
      end.
Proof.
  intros Hus Hcs Lus Lcs Hb Hm.
  destruct (processUpdateQueue_spec w q props instance render h fuel us cs)
    as (h' & E & S); [done..|].
  pose proof (ps_memoizedState _ _ _ _ _ _ _ _ _ _ S) as M. rewrite Hb in M.
  assert (Hk : forall k, exists m',
    applyAll h props instance (processed h render (us ++ cs)) (VObj s) = VObj m' /\
    m' !! k = match lastWritten h k (processed h render (us ++ cs)) with
              | Some x => Some x
              | None => s !! k
              end).
  { intros k. by apply (applyAll_lastWritten h props instance k _ s None s). }
  destruct (Hk ""%string) as (m & Em & _).
  exists h', m. split; [done|]. split; [by rewrite M|].
  intros k. destruct (Hk k) as (m' & Em' & Hl). rewrite Em in Em'. by injection Em' as <-.
Qed.

End Merge.

Lemma pass_last_writer_wins_witness :
  exists h' m,
    processUpdateQueue (H := reactImports) 4 0%nat 0%nat VNull VNull 2 mergeQueue = Some h' /\
    memoizedState (fib h' 0%nat) = VObj m /\
    m !! "a"%string = Some (VNum 3) /\ m !! "b"%string = Some (VNum 2) /\
    m !! "z"%string = Some (VNum 0).
Proof.
  destruct (pass_last_writer_wins (H := reactImports) 0%nat 0%nat VNull VNull 2 mergeQueue 4
              [0; 1; 2; 3]%nat [] {["z"%string := VNum 0; "a"%string := VNum 1]})
    as (h' & m & E & M & A).
  - vm_compute. repeat split; reflexivity.
  - vm_compute. reflexivity.
  - simpl; lia.
  - simpl; lia.
  - vm_compute. reflexivity.
  - assert (processed mergeQueue 2 ([0; 1; 2; 3]%nat ++ []) = [0; 1; 3]%nat) as ->
      by (vm_compute; reflexivity).
    repeat apply Forall_cons_2; [..|apply Forall_nil_2];
      (split; [left; vm_compute; reflexivity|eexists; vm_compute; reflexivity]).
  - exists h', m. split; [exact E|]. split; [exact M|].
    rewrite !A. vm_compute. repeat split; reflexivity.
Defined.

(** Heaps whose records agree on expiration time, tag and payload. *)
Section SameWork.
Context (h h' : Heap)
  (S : forall u, expirationTime (upd h' u) = expirationTime (upd h u) /\
                 tag (upd h' u) = tag (upd h u) /\
                 payload (upd h' u) = payload (upd h u)).

Lemma sameWork_sufficient render u : sufficient h' render u = sufficient h render u.
Proof. unfold sufficient. destruct (S u) as (-> & _). done. Qed.

Lemma sameWork_processed render us : processed h' render us = processed h render us.
Proof.
  induction us as [|u us IH]; simpl; [done|]. by rewrite sameWork_sufficient, IH.
Qed.

Lemma sameWork_applyAll props instance us s :
  applyAll h' props instance us s = applyAll h props instance us s.
Proof.
  apply foldl_pointwise. intros a u. unfold applyUpdate.
  destruct (S u) as (_ & -> & ->). done.
Qed.

Lemma sameWork_residual render us e : residual h' render us e = residual h render us e.
Proof.
  apply foldl_pointwise. intros a u. rewrite sameWork_sufficient.
  destruct (S u) as (-> & _). done.
Qed.

End SameWork.

(** A commit writes no expiration time, tag or payload. *)
Lemma commitUpdateQueue_work fuel w q instance render h c h' :
  commitUpdateQueue fuel w q instance render h = Some (c, h') ->
  forall u, expirationTime (upd h' u) = expirationTime (upd h u) /\
            tag (upd h' u) = tag (upd h u) /\
            payload (upd h' u) = payload (upd h u).
Proof.
  rewrite commitUpdateQueue_unfold. intros E.
  destruct (joinCaptured_facts q h) as (_ & _ & Sj & _).
  set (hs := joinCaptured q h) in *.
  assert (F : forall a b : Heap,
    (forall u, withCallback None (upd a u) = withCallback None (upd b u)) ->
    forall u, expirationTime (upd a u) = expirationTime (upd b u) /\
              tag (upd a u) = tag (upd b u) /\ payload (upd a u) = payload (upd b u)).
  { intros a b Hab u. pose proof (Hab u) as Eu.
    pose proof (f_equal expirationTime Eu). pose proof (f_equal tag Eu).
    pose proof (f_equal payload Eu). done. }
  assert (J : forall u, expirationTime (upd hs u) = expirationTime (upd h u) /\
              tag (upd hs u) = tag (upd h u) /\ payload (upd hs u) = payload (upd h u)).
  { intros u. pose proof (Sj u) as Eu.
    pose proof (f_equal expirationTime Eu). pose proof (f_equal tag Eu).
    pose proof (f_equal payload Eu). done. }
  destruct (commitUpdateEffects fuel (firstEffect (que hs q)) instance hs)
    as [[[] h1]|] eqn:E1; [| |done].
  - destruct (commitUpdateEffects_frame _ _ _ _ _ _ E1) as (_ & _ & A).
    cbv zeta in E.
    set (h2 := set_firstEffect q None (set_lastEffect q None h1)) in E.
    assert (B : forall u, upd h2 u = upd h1 u) by (intros u; unfold h2; by stores).
    destruct (commitUpdateEffects fuel (firstCapturedEffect (que h2 q)) instance h2)
      as [[[] h3]|] eqn:E3; [| |done].
    + destruct (commitUpdateEffects_frame _ _ _ _ _ _ E3) as (_ & _ & C).
      injection E as <- <-. intros u.
      assert (D : upd (set_firstCapturedEffect q None (set_lastCapturedEffect q None h3)) u
                  = upd h3 u) by by stores.
      rewrite D.
      destruct (F _ _ C u) as (-> & -> & ->). rewrite B.
      destruct (F _ _ A u) as (-> & -> & ->). apply J.
    + destruct (commitUpdateEffects_frame _ _ _ _ _ _ E3) as (_ & _ & C).
      injection E as <- <-. intros u.
      destruct (F _ _ C u) as (-> & -> & ->). rewrite B.
      destruct (F _ _ A u) as (-> & -> & ->). apply J.
  - destruct (commitUpdateEffects_frame _ _ _ _ _ _ E1) as (_ & _ & A).
    injection E as <- <-. intros u.
    destruct (F _ _ A u) as (-> & -> & ->). apply J.
Qed.

Section CommitThenPass.
Context `{Imports}.
Context (w q : nat) (props instance : Value) (render : Z).

(** X15. A commit followed by a pass.  The pass that follows a commit,
    whether or not a callback threw in it, treats the captured updates the
    queue still held as normal updates after the ones of the normal list:
    it applies those of sufficient priority in that order to the base
    state and leaves the highest skipped expiration time on the fiber.
    When the normal list was empty ([lastUpdate] is [null]) the captured
    updates are dropped instead: the pass applies nothing. *)
Theorem commit_then_pass h fuel fuel' committed committedAt us cs es1 es2 :
  chain (nextOf h) (firstUpdate (que h q)) us ->
  last us = lastUpdate (que h q) ->
  chain (nextOf h) (firstCapturedUpdate (que h q)) cs ->
  (forall u, u ∈ us -> u ∉ cs) ->
  chain (nextEffectOf h) (firstEffect (que h q)) es1 ->
  chain (nextEffectOf h) (firstCapturedEffect (que h q)) es2 ->
  (length es1 <= fuel)%nat -> (length es2 <= fuel)%nat ->
  (length us + length cs <= fuel')%nat ->
  exists c h1 h2,
    commitUpdateQueue fuel w q committed committedAt h = Some (c, h1) /\
    processUpdateQueue fuel' w q props instance render h1 = Some h2 /\
    memoizedState (fib h2 w) =
      applyAll h props instance (processed h render (joined us cs)) (baseState (que h q)) /\
    fiberExpirationTime (fib h2 w) = residual h render (joined us cs) NoWork.
Proof.
  intros Hus Hl Hcs Hd He1 He2 L1 L2 L.
  destruct (commitUpdateQueue_run fuel w q committed committedAt h es1 es2 He1 He2 L1 L2)
    as (c & h1 & rs & evs & E & R).
  pose proof (commitUpdateQueue_work _ _ _ _ _ _ _ _ E) as W.
  pose proof (cr_splice _ _ _ _ _ _ _ _ _ R) as Hs.
  pose proof (cr_captured _ _ _ _ _ _ _ _ _ R) as Hc.
  pose proof (cr_firstUpdate _ _ _ _ _ _ _ _ _ R) as Hf.
  pose proof (cr_baseState _ _ _ _ _ _ _ _ _ R) as Hb.
  assert (Hfc : firstCapturedUpdate (que h1 q) = None).
  { destruct (firstCapturedUpdate (que h q)); by destruct Hc. }
  assert (Hj : chain (nextOf h1) (firstUpdate (que h1 q)) (joined us cs)).
  { rewrite Hf. destruct (last us) as [t|] eqn:Et.
    - assert (joined us cs = us ++ cs) as ->.
      { destruct us; [done|reflexivity]. }
      rewrite <- Hl in Hs.
      destruct (firstCapturedUpdate (que h q)) as [fc|] eqn:Efc.
      + destruct Hs as (S1 & S2 & _).
        apply (chain_join (nextOf h) (nextOf h1) us cs t); try done.
        * unfold nextOf at 2. by rewrite S1.
        * apply Hd. by apply last_Some_elem_of.
      + destruct Hs as (S1 & _). destruct cs; [|by destruct Hcs].
        rewrite app_nil_r. by apply (chain_ext (nextOf h)).
    - apply last_None in Et. subst us. simpl in *.
      rewrite <- Hl in Hs. exact Hus. }
  destruct (processUpdateQueue_spec w q props instance render h1 fuel' (joined us cs) [])
    as (h2 & E2 & P).
  - exact Hj.
  - rewrite Hfc. by destruct (sharedWithCurrent h1 w q).
  - destruct us; simpl; [lia|]. rewrite length_app. simpl in L. lia.
  - simpl; lia.
  - exists c, h1, h2. split; [exact E|]. split; [exact E2|].
    rewrite (ps_memoizedState _ _ _ _ _ _ _ _ _ _ P), (ps_expirationTime _ _ _ _ _ _ _ _ _ _ P).
    rewrite app_nil_r, Hb.
    rewrite (sameWork_processed h h1 W), (sameWork_applyAll h h1 W), (sameWork_residual h h1 W).
    done.
Qed.

End CommitThenPass.

Lemma commit_then_pass_witness :
  let h := capturedSkipped [(1, UpdateState, PVal (VObj {["a"%string := VNum 1]}), None)] in
  exists c h1 h2,
    commitUpdateQueue 1 0%nat 0%nat VNull 2 h = Some (c, h1) /\
    processUpdateQueue (H := reactImports) 2 0%nat 0%nat VNull VNull 1 h1 = Some h2 /\
    memoizedState (fib h2 0%nat) =
      VObj {["a"%string := VNum 1; "err"%string := VBool true]} /\
    fiberExpirationTime (fib h2 0%nat) = 0.
Proof.
  intros h.
  destruct (commit_then_pass (H := reactImports) 0%nat 0%nat VNull VNull 1 h 1 2 VNull 2
              [0%nat] [1%nat] [] [])
    as (c & h1 & h2 & E1 & E2 & M & X).
  - vm_compute. split; reflexivity.
  - vm_compute. reflexivity.
  - vm_compute. split; reflexivity.
  - intros u ->%list_elem_of_singleton ?%list_elem_of_singleton. discriminate.
  - vm_compute. reflexivity.
  - vm_compute. reflexivity.
  - simpl; lia.
  - simpl; lia.
  - simpl; lia.
  - exists c, h1, h2. split; [exact E1|]. split; [exact E2|].
    split; [rewrite M|rewrite X]; vm_compute; reflexivity.
Defined.

(** * No update is lost *)

(** ** Allocated queue headers *)

Lemma queues_alterQueue q f h : dom (queues h) ⊆ dom (queues (alterQueue q f h)).
Proof. unfold alterQueue. rewrite dom_queues_putQueue. set_solver. Qed.

Lemma queues_alterUpdate u f h : queues (alterUpdate u f h) = queues h.
Proof. done. Qed.

Lemma queues_alterFiber x f h : queues (alterFiber x f h) = queues h.
Proof. done. Qed.

Section PassQueues.
Context `{Imports}.
Context (w q : nat) (render : Z).

Lemma queues_tagEffect u h : queues (tagEffect w u h) = queues h.
Proof.
  unfold tagEffect.
  destruct (tag (upd h u) =? ReplaceState); [done|].
  destruct ((tag (upd h u) =? CaptureUpdate) || (tag (upd h u) =? UpdateState)).
  - by destruct (tag (upd h u) =? CaptureUpdate).
  - by destruct (tag (upd h u) =? ForceUpdate).
Qed.

Lemma queues_pushEffect u h : dom (queues h) ⊆ dom (queues (pushEffect q u h)).
Proof.
  unfold pushEffect.
  destruct (lastEffect (que (set_nextEffect u None h) q)); unfold_writers;
    repeat (etrans; [|apply queues_alterQueue]); done.
Qed.

Lemma queues_pushCapturedEffect u h :
  dom (queues h) ⊆ dom (queues (pushCapturedEffect q u h)).
Proof.
  unfold pushCapturedEffect.
  destruct (lastCapturedEffect (que (set_nextEffect u None h) q)); unfold_writers;
    repeat (etrans; [|apply queues_alterQueue]); done.
Qed.

Lemma queues_iterNormal h u : dom (queues h) ⊆ dom (queues (iterNormal w q render h u)).
Proof.
  unfold iterNormal. destruct (expirationTime (upd h u) <? render); [done|].
  destruct (callback (upd (tagEffect w u h) u)).
  - etrans; [|apply queues_pushEffect]. unfold_writers.
    rewrite queues_alterFiber, queues_tagEffect. done.
  - by rewrite queues_tagEffect.
Qed.

Lemma queues_iterCaptured h u : dom (queues h) ⊆ dom (queues (iterCaptured w q render h u)).
Proof.
  unfold iterCaptured. destruct (expirationTime (upd h u) <? render); [done|].
  destruct (callback (upd (tagEffect w u h) u)).
  - etrans; [|apply queues_pushCapturedEffect]. unfold_writers.
    rewrite queues_alterFiber, queues_tagEffect. done.
  - by rewrite queues_tagEffect.
Qed.

Lemma queues_foldNormal us : forall h,
  dom (queues h) ⊆ dom (queues (foldl (iterNormal w q render) h us)).
Proof.
  induction us as [|u us IH]; intros h; simpl; [done|].
  etrans; [apply (queues_iterNormal h u)|apply IH].
Qed.

Lemma queues_foldCaptured us : forall h,
  dom (queues h) ⊆ dom (queues (foldl (iterCaptured w q render) h us)).
Proof.
  induction us as [|u us IH]; intros h; simpl; [done|].
  etrans; [apply (queues_iterCaptured h u)|apply IH].
Qed.

Lemma queues_finishPass l h : dom (queues h) ⊆ dom (queues (finishPass w q l h)).
Proof.
  unfold finishPass.
  destruct (newFirstUpdate l), (newFirstCapturedUpdate l); unfold_writers;
    repeat first [rewrite queues_alterFiber | etrans; [|apply queues_alterQueue]]; done.
Qed.

End PassQueues.

Section PassAllocates.
Context `{Imports}.
Context (w q : nat) (props instance : Value) (render : Z).

(** A pass frees no header, and the header it writes is allocated. *)
Lemma processUpdateQueue_queues h h' fuel us cs :
  chain (nextOf h) (firstUpdate (que h q)) us ->
  chain (nextOf h)
    (if sharedWithCurrent h w q then None else firstCapturedUpdate (que h q)) cs ->
  (length us <= fuel)%nat -> (length cs <= fuel)%nat ->
  processUpdateQueue fuel w q props instance render h = Some h' ->
  dom (queues h) ⊆ dom (queues h') /\
  (q ∈ dom (queues h) -> processedQueue h w q ∈ dom (queues h')).
Proof.
  intros Hus Hcs Lus Lcs E.
  destruct (processUpdateQueue_heap w q props instance render h fuel us cs Hus Hcs Lus Lcs)
    as (l & E' & _). rewrite E' in E. injection E as <-.
  set (h1 := (ensureWorkInProgressQueueIsAClone w q (set_hasForceUpdate false h)).2).
  assert (A : dom (queues h) ⊆ dom (queues h1) /\
              (q ∈ dom (queues h) -> processedQueue h w q ∈ dom (queues h1))).
  { unfold h1. rewrite ensure_spec. unfold processedQueue.
    change (sharedWithCurrent (set_hasForceUpdate false h) w q) with (sharedWithCurrent h w q).
    destruct (sharedWithCurrent h w q); simpl; [|done].
    rewrite dom_insert_L. split; set_solver. }
  destruct A as [A1 A2].
  assert (B : dom (queues h1) ⊆
              dom (queues (finishPass w (processedQueue h w q) l (loopsHeap w q render us cs h)))).
  { etrans; [|apply queues_finishPass]. unfold loopsHeap. fold h1.
    etrans; [|apply queues_foldCaptured]. apply queues_foldNormal. }
  split; [by etrans|]. intros Hq. apply B. by apply A2.
Qed.

End PassAllocates.

Lemma last_suffix {A} (ps rs : list A) : rs <> [] -> last (ps ++ rs) = last rs.
Proof.
  intros Hr. rewrite last_app. destruct (last rs) eqn:El; [done|].
  by apply last_None in El.
Qed.

Section NonLoss.
Context `{Imports}.
Context (c w : nat) (s0 m0 : Value).

Lemma nodeInv_process fuel props instance render D h E q :
  nodeInv c w s0 m0 D h E -> updateQueue (fib h w) = Some q -> (length E <= fuel)%nat ->
  exists h',
    processUpdateQueue fuel w q props instance render h = Some h' /\
    nodeInv c w s0 m0 D h' E /\
    sameStatic h h' /\ dom (updates h) ⊆ dom (updates h') /\
    updateQueue (fib h' w) <> None.
Proof.
  intros (Hp & HD & Hdom & Hnd & Hq) Eq Hfuel. rewrite Eq in Hq.
  destruct Hq as (P & C & Lb & Lm & Q).
  destruct Q as [Q1 (Qd & Qc & Ql) Q3 Q4 Q5 Q6 Q7 Q8 Q9].
  assert (length C <= length E)%nat as HlC by (rewrite Q1, length_app; lia).
  destruct (processUpdateQueue_spec w q props instance render h fuel C [])
    as (h' & E' & S); [done|by destruct (sharedWithCurrent h w q)|lia|simpl; lia|].
  destruct (processUpdateQueue_queues w q props instance render h h' fuel C [])
    as (Dq & Dq'); [done|by destruct (sharedWithCurrent h w q)|lia|simpl; lia|done|].
  specialize (Dq' Qd).
  exists h'. split; [done|].
  set (q' := processedQueue h w q) in *.
  destruct S as [B Fu Lu Fc Lc M X Qu F]. rewrite app_nil_r in B, M.
  assert (sameStatic h h') as St by (intros u; apply F).
  assert (Hw' : updateQueue (fib h' w) = Some q').
  { rewrite Qu. unfold q', processedQueue. by destruct (sharedWithCurrent h w q). }
  split; [|split; [done|split; [apply F|by rewrite Hw']]].
  assert (Hfc : c <> w -> fib h' c = fib h c) by (intros; by apply (pf_fibers _ _ _ _ F)).
  split.
  { destruct Hp as [[-> Ha]|(Hcw & Ha & Hb)]; [left|right].
    - split; [done|]. by rewrite (pf_alternate _ _ _ _ F).
    - split; [done|]. rewrite Hfc by done. split; [done|].
      by rewrite (pf_alternate _ _ _ _ F). }
  split; [etrans; [exact HD|apply (pf_dom _ _ _ _ F)]|].
  split; [done|]. split; [done|].
  rewrite Hw'.
  destruct (remaining_suffix h render C) as (ps & EC & Eps).
  exists (P ++ processedPrefix h render C), (remaining h render C),
    (Lb ++ map (fun u => (u, props, instance)) (processedPrefix h render C)),
    (Lb ++ map (fun u => (u, props, instance)) (processed h render C)).
  assert (Hdata : forall L s, applyEach h' L s = applyEach h L s).
  { intros L s. apply applyEach_ext. intros u _.
    pose proof (pf_updates _ _ _ _ F u) as Eu.
    split; [by apply (f_equal tag) in Eu|by apply (f_equal payload) in Eu]. }
  assert (Hlast : remaining h render C <> [] -> last (remaining h render C) = last C).
  { intros Hr. rewrite EC at 2. by rewrite last_suffix. }
  constructor.
  - rewrite <- app_assoc, <- Eps, <- EC. done.
  - split; [done|]. split.
    + rewrite Fu. apply (sameStatic_chain h); [done|].
      rewrite EC in Qc. by apply chain_suffix in Qc.
    + rewrite Lu. destruct (remaining h render C) as [|r rs] eqn:Er; [done|].
      rewrite Ql. symmetry. by apply Hlast.
  - by rewrite Fc.
  - rewrite B, Hdata, applyEach_app, applyEach_render, Q4. done.
  - rewrite fmap_app, fmap_app, render_fst_fst, Q5. done.
  - left. rewrite M, Hdata, applyEach_app, applyEach_render, Q4. done.
  - rewrite fmap_app, fmap_app, render_fst_fst, Q5, Q1.
    apply sublist_app; [done|apply processed_sublist].
  - intros u Hu. rewrite fmap_app, fmap_app, render_fst_fst, Q5.
    rewrite Q1 in Hu. apply elem_of_app in Hu as [Hu|Hu].
    + left. apply elem_of_app. by left.
    + destruct (processed_or_remaining h render C u Hu); [left|by right].
      apply elem_of_app. by right.
  - destruct (decide (c = w)) as [->|Hcw]; [rewrite Hw'; by left|].
    rewrite Hfc by done.
    destruct (updateQueue (fib h c)) as [qc|] eqn:Ec; [|done].
    assert (Hsh : sharedWithCurrent h w q = bool_decide (qc = q)).
    { unfold sharedWithCurrent. destruct Hp as [[? _]|(_ & _ & ->)]; [done|].
      rewrite Ec. apply bool_decide_ext. split; congruence. }
    assert (Hkeep : forall qx Px, qx <> q' -> holds h qx Px -> holds h' qx Px).
    { intros qx Px Hne (Hd & Hc & Hl). split; [by apply Dq|].
      rewrite (pf_queues _ _ _ _ F) by done. split; [|done].
      by apply (sameStatic_chain h). }
    assert (HC : forall u, u ∈ C -> u ∈ D).
    { intros u Hu. apply Hdom. rewrite Q1. apply elem_of_app. by right. }
    right. unfold q', processedQueue in *. rewrite Hsh in *.
    case_bool_decide as Hqc.
    + subst qc. exists C. split.
      * apply Hkeep; [|done]. intros Ef. apply (is_fresh (dom (queues h))). by rewrite <- Ef.
      * split; [|done].
        destruct (remaining h render C) as [|r rs] eqn:Er; [right; by left|].
        right; right. symmetry. by apply Hlast.
    + destruct Q9 as [->|(Pc & Hh & Ht & Ha)]; [done|].
      exists Pc. split; [by apply Hkeep|]. split.
      * destruct Ht as [->|[->|Ht]]; [by left|right; left; reflexivity|].
        destruct (remaining h render C) as [|r rs] eqn:Er; [right; by left|].
        right; right. rewrite Ht. symmetry. by apply Hlast.
      * done.
Qed.

End NonLoss.

Lemma queues_appendUpdateToQueue q u k :
  dom (queues k) ⊆ dom (queues (appendUpdateToQueue q u k)).
Proof.
  unfold appendUpdateToQueue. destruct (lastUpdate (que k q)); unfold_writers;
    repeat first [rewrite queues_alterUpdate | etrans; [|apply queues_alterQueue]]; done.
Qed.

Lemma queues_appendToBoth q1 q2 u k :
  dom (queues k) ⊆ dom (queues (appendToBoth q1 q2 u k)).
Proof.
  unfold appendToBoth. case_decide; [apply queues_appendUpdateToQueue|].
  destruct (lastUpdate (que k q1)), (lastUpdate (que k q2)); unfold_writers;
    repeat first [etrans; [|apply queues_alterQueue] | etrans; [|apply queues_appendUpdateToQueue]];
    done.
Qed.

(** Appending to the two headers of a pair, or to the one they share. *)
Lemma appendToBoth_holds q1 q2 u k A B :
  holds k q1 A -> holds k q2 B ->
  (q1 = q2 \/ A = [] \/ B = [] \/ last A = last B) ->
  u ∉ A -> u ∉ B -> next (upd k u) = None ->
  let k' := appendToBoth q1 q2 u k in
  holds k' q1 (A ++ [u]) /\ holds k' q2 (B ++ [u]).
Proof.
  intros (D1 & C1 & L1) (D2 & C2 & L2) Hs U1 U2 Hn k'.
  pose proof (queues_appendToBoth q1 q2 u k) as Hd.
  destruct (decide (q1 = q2)) as [->|Hne].
  - assert (A = B) as -> by (by eapply chain_functional).
    assert (holds k' q2 (B ++ [u])) as Hh; [|done].
    unfold k', appendToBoth. rewrite decide_True by done.
    split; [by apply queues_appendUpdateToQueue|]. split.
    + by apply appendUpdateToQueue_chain.
    + by rewrite appendUpdateToQueue_lastUpdate, last_snoc.
  - destruct Hs as [?|Hs]; [done|].
    destruct (appendToBoth_chains q1 q2 u k A B) as [X1 X2]; try done.
    destruct (appendToBoth_spec q1 q2 u k) as (S1 & S2 & _).
    split; (split; [by apply Hd|split; [done|by rewrite last_snoc]]).
Qed.

(** The first half of [enqueueUpdate] on a pair: the headers it returns. *)
Lemma bothQueues_ready f o k :
  f <> o ->
  (forall q, updateQueue (fib k f) = Some q -> q ∈ dom (queues k)) ->
  (forall q, updateQueue (fib k o) = Some q -> q ∈ dom (queues k)) ->
  exists q1 q2 k1,
    bothQueues f o k = (q1, q2, k1) /\
    updateQueue (fib k1 f) = Some q1 /\ updateQueue (fib k1 o) = Some q2 /\
    updates k1 = updates k /\
    dom (queues k) ⊆ dom (queues k1) /\
    q1 ∈ dom (queues k1) /\ q2 ∈ dom (queues k1) /\
    (forall x, alternate (fib k1 x) = alternate (fib k x) /\
               memoizedState (fib k1 x) = memoizedState (fib k x)) /\
    (forall q, q ∈ dom (queues k) -> que k1 q = que k q) /\
    match updateQueue (fib k f), updateQueue (fib k o) with
    | Some qf, Some qo => q1 = qf /\ q2 = qo
    | Some qf, None => q1 = qf /\ q2 <> qf /\ que k1 q2 = cloneOf (que k qf)
    | None, Some qo => q2 = qo /\ q1 <> qo /\ que k1 q1 = cloneOf (que k qo)
    | None, None =>
        q1 <> q2 /\ que k1 q1 = emptyQueue (memoizedState (fib k f)) /\
        que k1 q2 = emptyQueue (memoizedState (fib k o))
    end.
Proof.
  intros Hne Df Do. unfold bothQueues, cloneUpdateQueue, createUpdateQueue.
  set (qn := fresh (dom (queues k))).
  assert (Hqn : forall q, q ∈ dom (queues k) -> q <> qn).
  { intros q Hq ->. by apply (is_fresh (dom (queues k))). }
  destruct (updateQueue (fib k f)) as [qf|] eqn:Ef, (updateQueue (fib k o)) as [qo|] eqn:Eo.
  - exists qf, qo, k. repeat split; auto.
  - pose proof (Hqn qf (Df qf eq_refl)) as N.
    eexists qf, qn, _. split; [reflexivity|].
    split; [by stores_cases|]. split; [by stores_cases|]. split; [done|].
    split; [simpl; rewrite dom_insert_L; set_solver|].
    split; [simpl; rewrite dom_insert_L; set_solver|].
    split; [simpl; rewrite dom_insert_L; set_solver|].
    split; [intros x; split; stores_cases|].
    split; [intros q Hq; pose proof (Hqn q Hq); by stores_cases|].
    split; [done|]. split; [done|]. by stores_cases.
  - pose proof (Hqn qo (Do qo eq_refl)) as N.
    eexists qn, qo, _. split; [reflexivity|].
    split; [by stores_cases|]. split; [by stores_cases|]. split; [done|].
    split; [simpl; rewrite dom_insert_L; set_solver|].
    split; [simpl; rewrite dom_insert_L; set_solver|].
    split; [simpl; rewrite dom_insert_L; set_solver|].
    split; [intros x; split; stores_cases|].
    split; [intros q Hq; pose proof (Hqn q Hq); by stores_cases|].
    split; [done|]. split; [done|]. by stores_cases.
  - set (r1 := mkUpdateQueue (memoizedState (fib k f)) None None None None None None None None).
    set (k1 := set_updateQueue f (Some qn) (putQueue qn r1 k)).
    assert (Hm : memoizedState (fib k1 o) = memoizedState (fib k o)) by (unfold k1; by stores_cases).
    set (qm := fresh (dom (queues k1))).
    assert (Hqm : qm <> qn).
    { unfold qm, k1. apply fresh_queue_ne. }
    eexists qn, qm, _. split; [reflexivity|].
    split; [unfold k1; by stores_cases|]. split; [by stores_cases|]. split; [done|].
    split; [simpl; rewrite !dom_insert_L; set_solver|].
    split; [simpl; rewrite !dom_insert_L; set_solver|].
    split; [simpl; rewrite !dom_insert_L; set_solver|].
    split; [intros x; split; unfold k1; stores_cases|].
    split.
    { intros q Hq. pose proof (Hqn q Hq).
      assert (q <> qm).
      { intros ->. apply (is_fresh (dom (queues k1))). fold qm. unfold k1. simpl.
        rewrite dom_insert_L. set_solver. }
      unfold k1. by stores_cases. }
    split; [done|]. split; [unfold k1; by stores_cases|].
    rewrite Hm. by stores_cases.
Qed.

(** What the appending half of [enqueueUpdate] leaves alone. *)
Lemma appendToBoth_frame q1 q2 u k :
  let k' := appendToBoth q1 q2 u k in
  (forall x, fib k' x = fib k x) /\
  (forall v, eraseNext (upd k' v) = eraseNext (upd k v)) /\
  (forall q, eraseList (que k' q) = eraseList (que k q)) /\
  dom (updates k) ⊆ dom (updates k') /\
  dom (queues k) ⊆ dom (queues k').
Proof.
  intros k'. destruct (appendToBoth_spec q1 q2 u k) as (_ & _ & S3 & _).
  split; [done|]. split; [intros v; apply appendToBoth_eraseNext|].
  split; [intros q; apply appendToBoth_eraseList|].
  split; [apply appendToBoth_dom|apply queues_appendToBoth].
Qed.

(** [enqueueUpdate] on a fiber without alternate. *)
Lemma enqueueUpdate_lone f u k :
  alternate (fib k f) = None ->
  enqueueUpdate f u k =
  match updateQueue (fib k f) with
  | Some q => appendUpdateToQueue q u k
  | None =>
      let q := fresh (dom (queues k)) in
      appendUpdateToQueue q u
        (set_updateQueue f (Some q) (putQueue q (emptyQueue (memoizedState (fib k f))) k))
  end.
Proof.
  intros Ha. unfold enqueueUpdate. rewrite Ha.
  by destruct (updateQueue (fib k f)).
Qed.

Lemma holds_frame h k q l :
  holds h q l -> queues k = queues h ->
  (forall v, v ∈ l -> upd k v = upd h v) ->
  holds k q l.
Proof.
  intros (D & C & L) Hq Hu. unfold holds, que in *. rewrite Hq.
  split; [done|]. split; [|done].
  eapply chain_unchanged; [exact C|]. intros v Hv. unfold nextOf. by rewrite Hu.
Qed.

Section NodeSteps.
Context (c w : nat) (s0 m0 : Value).

(** The invariant reads the queue headers, the fibers and the records of
    [D] only. *)
Lemma nodeInv_frame D h k E :
  nodeInv c w s0 m0 D h E ->
  queues k = queues h -> fibers k = fibers h ->
  (forall v, v ∈ D -> upd k v = upd h v) ->
  D ⊆ dom (updates k) ->
  nodeInv c w s0 m0 D k E.
Proof.
  intros (Hp & HD & Hdom & Hnd & Hq) Eq Ef Eu HD'.
  assert (Hfib : forall x, fib k x = fib h x) by (intros x; unfold fib; by rewrite Ef).
  assert (Hque : forall q, que k q = que h q) by (intros q; unfold que; by rewrite Eq).
  assert (Hh : forall q l, (forall v, v ∈ l -> v ∈ D) -> holds h q l -> holds k q l).
  { intros q l Hl Hh. apply (holds_frame h); auto. }
  assert (Ha : forall L s, (forall v, v ∈ L.*1.*1 -> v ∈ D) ->
             applyEach k L s = applyEach h L s).
  { intros L s HL. apply applyEach_ext. intros v Hv. by rewrite Eu by auto. }
  split; [unfold paired; by rewrite !Hfib|]. split; [done|]. split; [done|]. split; [done|].
  rewrite !Hfib. destruct (updateQueue (fib h w)) as [qw|].
  - destruct Hq as (P & C & Lb & Lm & Q). exists P, C, Lb, Lm.
    destruct Q as [Q1 Q2 Q3 Q4 Q5 Q6 Q7 Q8 Q9].
    assert (HC : forall v, v ∈ C -> v ∈ D).
    { intros v Hv. apply Hdom. rewrite Q1. apply elem_of_app. by right. }
    assert (HP : forall v, v ∈ P -> v ∈ D).
    { intros v Hv. apply Hdom. rewrite Q1. apply elem_of_app. by left. }
    constructor; try done.
    + by apply Hh.
    + by rewrite Hque.
    + rewrite Hque, Q4. symmetry. apply Ha. by rewrite Q5.
    + rewrite Hfib. destruct Q6 as [Q6|Q6]; [left|by right].
      rewrite Q6. symmetry. apply Ha. intros v Hv. apply Hdom. eapply elem_of_sublist; eauto.
    + rewrite Hfib. destruct (updateQueue (fib h c)) as [qc|]; [|done].
      destruct Q9 as [->|(Pc & H1 & H2 & H3)]; [by left|right].
      exists Pc. split; [by apply Hh|done].
  - destruct Hq as [Hm Hq]. split; [done|].
    destruct (updateQueue (fib h c)) as [qc|]; [|done].
    destruct Hq as [H1 H2]. split; [by apply Hh|by rewrite Hque].
Qed.

Lemma nodeInv_weaken D D' h E :
  nodeInv c w s0 m0 D h E -> D ⊆ D' -> D' ⊆ dom (updates h) ->
  nodeInv c w s0 m0 D' h E.
Proof.
  intros (Hp & HD & Hdom & Hnd & Hq) H1 H2.
  split; [done|]. split; [done|]. split; [intros u Hu; apply H1; by apply Hdom|].
  split; [done|].
  destruct (updateQueue (fib h w)) as [qw|]; [|done].
  destruct Hq as (P & C & Lb & Lm & Q). exists P, C, Lb, Lm.
  destruct Q as [Q1 Q2 Q3 Q4 Q5 Q6 Q7 Q8 Q9]. constructor; try done.
  destruct (updateQueue (fib h c)) as [qc|]; [|done].
  destruct Q9 as [->|(Pc & A1 & A2 & A3)]; [by left|right].
  exists Pc. split; [done|]. split; [done|]. intros u Hu. apply H1. by apply A3.
Qed.

(** The queue pointers of the node lead to allocated headers. *)
Lemma nodeInv_allocated D h E x q :
  nodeInv c w s0 m0 D h E -> x = c \/ x = w ->
  updateQueue (fib h x) = Some q -> q ∈ dom (queues h).
Proof.
  intros (Hp & HD & Hdom & Hnd & Hq) Hx Ex.
  destruct (updateQueue (fib h w)) as [qw|] eqn:Ew.
  - destruct Hq as (P & C & Lb & Lm & Q). destruct Q as [Q1 Q2 Q3 Q4 Q5 Q6 Q7 Q8 Q9].
    destruct Hx as [->| ->].
    + rewrite Ex in Q9. destruct Q9 as [->|(Pc & A1 & _)]; [apply Q2|apply A1].
    + assert (q = qw) as -> by congruence. apply Q2.
  - destruct Hq as [_ Hq]. destruct Hx as [->| ->]; [|congruence].
    rewrite Ex in Hq. apply Hq.
Qed.

(** Appending to the queues of a node that both fibers have. *)
Lemma nodeInv_appendToBoth D k E qw qc q1 q2 u :
  nodeInv c w s0 m0 D k E ->
  updateQueue (fib k w) = Some qw -> updateQueue (fib k c) = Some qc ->
  (q1 = qw /\ q2 = qc \/ q1 = qc /\ q2 = qw) ->
  u ∉ D -> u ∈ dom (updates k) -> next (upd k u) = None ->
  nodeInv c w s0 m0 ({[u]} ∪ D) (appendToBoth q1 q2 u k) (E ++ [u]) /\
  updateQueue (fib (appendToBoth q1 q2 u k) w) <> None.
Proof.
  intros (Hp & HD & Hdom & Hnd & Hq) Ew Ec Hqs Hu Hud Hn.
  rewrite Ew in Hq. destruct Hq as (P & C & Lb & Lm & Q).
  destruct Q as [Q1 Q2 Q3 Q4 Q5 Q6 Q7 Q8 Q9]. rewrite Ec in Q9.
  set (k' := appendToBoth q1 q2 u k).
  destruct (appendToBoth_frame q1 q2 u k) as (Ff & Fu & Fq & Fd & Fdq). fold k' in Ff, Fu, Fq, Fd, Fdq.
  assert (HuE : u ∉ E) by (intros Hin; by apply Hu, Hdom).
  assert (HuC : u ∉ C).
  { intros Hin. apply HuE. rewrite Q1. apply elem_of_app. by right. }
  assert (Hcur : exists Pc, holds k qc Pc /\ (qc = qw \/ Pc = [] \/ C = [] \/ last Pc = last C) /\
                   (forall v, v ∈ Pc -> v ∈ D) /\ (qc = qw -> Pc = C)).
  { destruct Q9 as [->|(Pc & A1 & A2 & A3)].
    - exists C. split; [done|]. split; [by left|]. split; [|done].
      intros v Hv. apply Hdom. rewrite Q1. apply elem_of_app. by right.
    - exists Pc. split; [done|]. split; [by right|]. split; [done|].
      intros ->. destruct A1 as (_ & A1 & _), Q2 as (_ & Q2 & _). by eapply chain_functional. }
  destruct Hcur as (Pc & Hc1 & Hc2 & Hc3 & Hc4).
  assert (HuP : u ∉ Pc) by (intros Hin; by apply Hu, Hc3).
  assert (Hboth : holds k' qw (C ++ [u]) /\ holds k' qc (Pc ++ [u])).
  { unfold k'. destruct Hqs as [[-> ->]|[-> ->]].
    - apply appendToBoth_holds; try done.
      destruct Hc2 as [->|[->|[->|Ht]]]; [by left|right; right; by left|right; by left|].
      by right; right; right.
    - apply and_comm. by apply appendToBoth_holds. }
  destruct Hboth as [Hw Hc].
  assert (Hdata : forall L s, applyEach k' L s = applyEach k L s).
  { intros L s. apply applyEach_ext. intros v _. pose proof (Fu v) as Ev.
    split; [by apply (f_equal tag) in Ev|by apply (f_equal payload) in Ev]. }
  split; [|by rewrite Ff, Ew].
  split; [unfold paired; by rewrite !Ff|].
  split; [apply union_subseteq; split; [by apply singleton_subseteq_l, Fd|by etrans]|].
  split.
  { intros v [Hv|Hv]%elem_of_app; [apply elem_of_union; right; by apply Hdom|].
    apply list_elem_of_singleton in Hv as ->. set_solver. }
  split.
  { apply NoDup_app. split; [done|]. split; [|apply NoDup_singleton].
    intros v Hv ->%list_elem_of_singleton. done. }
  rewrite Ff, Ew. exists P, (C ++ [u]), Lb, Lm. constructor.
  - by rewrite Q1, app_assoc.
  - done.
  - pose proof (Fq qw) as El. apply (f_equal firstCapturedUpdate) in El. simpl in El.
    by rewrite El.
  - pose proof (Fq qw) as El. apply (f_equal baseState) in El. simpl in El.
    by rewrite El, Hdata.
  - done.
  - rewrite Ff, Hdata. done.
  - by apply sublist_inserts_r.
  - intros v [Hv|Hv]%elem_of_app.
    + destruct (Q8 v Hv); [by left|right]. apply elem_of_app. by left.
    + right. apply elem_of_app. by right.
  - rewrite Ff, Ec. destruct (decide (qc = qw)) as [->|Hne]; [by left|right].
    exists (Pc ++ [u]). split; [done|]. split; [right; right; by rewrite !last_snoc|].
    intros v [Hv|Hv]%elem_of_app; [apply elem_of_union; right; by apply Hc3|].
    apply list_elem_of_singleton in Hv as ->. set_solver.
Qed.

End NodeSteps.

(** The headers of [bothQueues], told by fiber rather than by argument. *)
Lemma bothQueues_sides f o k x y :
  f <> o ->
  (forall q, updateQueue (fib k f) = Some q -> q ∈ dom (queues k)) ->
  (forall q, updateQueue (fib k o) = Some q -> q ∈ dom (queues k)) ->
  (x = f /\ y = o \/ x = o /\ y = f) ->
  exists q1 q2 k1 qx qy,
    bothQueues f o k = (q1, q2, k1) /\
    updateQueue (fib k1 x) = Some qx /\ updateQueue (fib k1 y) = Some qy /\
    (q1 = qx /\ q2 = qy \/ q1 = qy /\ q2 = qx) /\
    updates k1 = updates k /\
    dom (queues k) ⊆ dom (queues k1) /\
    qx ∈ dom (queues k1) /\ qy ∈ dom (queues k1) /\
    (forall z, alternate (fib k1 z) = alternate (fib k z) /\
               memoizedState (fib k1 z) = memoizedState (fib k z)) /\
    (forall q, q ∈ dom (queues k) -> que k1 q = que k q) /\
    match updateQueue (fib k x), updateQueue (fib k y) with
    | Some a, Some b => qx = a /\ qy = b
    | Some a, None => qx = a /\ qy <> a /\ que k1 qy = cloneOf (que k a)
    | None, Some b => qy = b /\ qx <> b /\ que k1 qx = cloneOf (que k b)
    | None, None =>
        qx <> qy /\ que k1 qx = emptyQueue (memoizedState (fib k x)) /\
        que k1 qy = emptyQueue (memoizedState (fib k y))
    end.
Proof.
  intros Hne Df Do Hxy.
  destruct (bothQueues_ready f o k Hne Df Do)
    as (q1 & q2 & k1 & Eb & U1 & U2 & Hu & Dq & D1 & D2 & Hz & Hold & Hm).
  destruct Hxy as [[-> ->]|[-> ->]].
  - exists q1, q2, k1, q1, q2. repeat (split; [done|]). split; [by left|].
    repeat (split; [done|]). done.
  - exists q1, q2, k1, q2, q1. repeat (split; [done|]). split; [by right|].
    repeat (split; [done|]).
    destruct (updateQueue (fib k f)), (updateQueue (fib k o)).
    + by destruct Hm.
    + by destruct Hm as (? & ? & ?).
    + by destruct Hm as (? & ? & ?).
    + destruct Hm as (? & ? & ?). by repeat split.
Qed.

Section NodeEnqueue.
Context (c w : nat) (s0 m0 : Value).

(** The first half of [enqueueUpdate] on a pair keeps the invariant, and
    both fibers have a queue after it. *)
Lemma nodeInv_bothQueues D k E f o :
  nodeInv c w s0 m0 D k E -> c <> w -> (w = f /\ c = o \/ w = o /\ c = f) ->
  exists q1 q2 k1 qw qc,
    bothQueues f o k = (q1, q2, k1) /\
    updateQueue (fib k1 w) = Some qw /\ updateQueue (fib k1 c) = Some qc /\
    (q1 = qw /\ q2 = qc \/ q1 = qc /\ q2 = qw) /\
    updates k1 = updates k /\
    nodeInv c w s0 m0 D k1 E.
Proof.
  intros Hi Hcw Hfo.
  assert (Hne : f <> o) by (destruct Hfo as [[<- <-]|[<- <-]]; congruence).
  destruct (bothQueues_sides f o k w c Hne)
    as (q1 & q2 & k1 & qw & qc & Eb & Uw & Uc & Hq & Hu & Dq & Dw & Dc & Hz & Hold & Hm);
    [| |done|].
  { intros q. apply (nodeInv_allocated c w s0 m0 D k E); [done|].
    destruct Hfo as [[<- <-]|[<- <-]]; auto. }
  { intros q. apply (nodeInv_allocated c w s0 m0 D k E); [done|].
    destruct Hfo as [[<- <-]|[<- <-]]; auto. }
  exists q1, q2, k1, qw, qc. repeat (split; [done|]).
  destruct Hi as (Hp & HD & Hdom & Hnd & Hi).
  assert (Hupd : forall v, upd k1 v = upd k v) by (intros v; unfold upd; by rewrite Hu).
  assert (Hch : forall start l, chain (nextOf k) start l -> chain (nextOf k1) start l).
  { intros start l. apply chain_ext. intros v. unfold nextOf. by rewrite Hupd. }
  assert (Hh : forall q l, holds k q l -> holds k1 q l).
  { intros q l (A1 & A2 & A3). split; [by apply Dq|]. rewrite Hold by done.
    split; [by apply Hch|done]. }
  assert (Hcl : forall q q' l, holds k q l -> q' ∈ dom (queues k1) ->
                  que k1 q' = cloneOf (que k q) -> holds k1 q' l).
  { intros q q' l (A1 & A2 & A3) Hd Hr. split; [done|]. rewrite Hr. simpl.
    split; [by apply Hch|done]. }
  assert (Ha : forall L s, applyEach k1 L s = applyEach k L s).
  { intros L s. apply applyEach_ext. intros v _. by rewrite Hupd. }
  assert (Hp1 : paired c w k1).
  { unfold paired. by rewrite !(proj1 (Hz _)). }
  split; [done|]. split; [by rewrite Hu|]. split; [done|]. split; [done|].
  rewrite Uw.
  destruct (updateQueue (fib k w)) as [qw0|] eqn:Ew.
  - destruct Hi as (P & C & Lb & Lm & Q). exists P, C, Lb, Lm.
    destruct Q as [Q1 Q2 Q3 Q4 Q5 Q6 Q7 Q8 Q9].
    assert (HC : forall v, v ∈ C -> v ∈ D).
    { intros v Hv. apply Hdom. rewrite Q1. apply elem_of_app. by right. }
    assert (Hqw : qw = qw0 /\ que k1 qw = que k qw0).
    { destruct (updateQueue (fib k c)).
      - destruct Hm as [-> _]. split; [done|]. apply Hold, Q2.
      - destruct Hm as (-> & _). split; [done|]. apply Hold, Q2. }
    destruct Hqw as [-> Hr].
    constructor; try done.
    + by apply Hh.
    + by rewrite Hr.
    + by rewrite Hr, Ha.
    + by rewrite (proj2 (Hz _)), Ha.
    + rewrite Uc. destruct (updateQueue (fib k c)) as [qc0|].
      * destruct Hm as [_ ->].
        destruct Q9 as [->|(Pc & A1 & A2 & A3)]; [by left|right].
        exists Pc. split; [by apply Hh|done].
      * destruct Hm as (_ & Hn & Hr'). right. exists C.
        split; [by apply (Hcl qw0)|]. split; [by right; right|done].
  - destruct Hi as [Hmemo Hi].
    destruct (updateQueue (fib k c)) as [qc0|] eqn:Ec.
    + destruct Hi as [Hhold Hbase]. destruct Hm as (-> & Hn & Hr).
      exists [], E, [], []. constructor; try done.
      * by apply (Hcl qc0).
      * by rewrite Hr.
      * by rewrite Hr.
      * right. split; [done|]. by rewrite (proj2 (Hz _)).
      * apply sublist_nil_l.
      * intros v Hv. by right.
      * rewrite Uc. right. exists E. split; [by apply Hh|]. split; [by right; right|done].
    + destruct Hi as [-> Hs]. destruct Hm as (Hn & Rw & Rc).
      exists [], [], [], []. constructor.
      * done.
      * split; [done|]. by rewrite Rw.
      * by rewrite Rw.
      * rewrite Rw. simpl. by rewrite Hmemo, Hs.
      * done.
      * right. split; [done|]. by rewrite (proj2 (Hz _)).
      * done.
      * by intros ? ?%elem_of_nil.
      * rewrite Uc. right. exists []. split; [|split; [by left|by intros ? ?%elem_of_nil]].
        split; [done|]. by rewrite Rc.
Qed.

(** The queue that [enqueueUpdate] creates for a fiber without alternate. *)
Lemma nodeInv_create D k E :
  nodeInv c w s0 m0 D k E -> c = w -> updateQueue (fib k w) = None ->
  let q := fresh (dom (queues k)) in
  let k1 := set_updateQueue w (Some q)
              (putQueue q (emptyQueue (memoizedState (fib k w))) k) in
  updateQueue (fib k1 w) = Some q /\ updates k1 = updates k /\
  nodeInv c w s0 m0 D k1 E.
Proof.
  intros (Hp & HD & Hdom & Hnd & Hi) -> Ew q k1. rewrite Ew in Hi.
  destruct Hi as [Hm Hi]. destruct Hi as [-> Hs].
  assert (Uw : updateQueue (fib k1 w) = Some q) by (unfold k1; by stores_cases).
  split; [done|]. split; [done|].
  split.
  { destruct Hp as [[_ Ha]|(Hn & _)]; [left|done]. split; [done|].
    unfold k1. by stores_cases. }
  split; [done|]. split; [done|]. split; [done|].
  rewrite Uw. exists [], [], [], [].
  assert (Rq : que k1 q = emptyQueue (memoizedState (fib k w))) by (unfold k1; by stores_cases).
  constructor.
  - done.
  - split; [unfold k1; simpl; rewrite dom_insert_L; set_solver|]. by rewrite Rq.
  - by rewrite Rq.
  - rewrite Rq. simpl. by rewrite Hm, Hs.
  - done.
  - right. split; [done|]. unfold k1. by stores_cases.
  - done.
  - by intros ? ?%elem_of_nil.
  - rewrite Uw. by left.
Qed.

(** [enqueueUpdate] of a record that is in no list yet. *)
Lemma nodeInv_enqueueUpdate D k E f u :
  nodeInv c w s0 m0 D k E -> f = c \/ f = w ->
  u ∉ D -> u ∈ dom (updates k) -> next (upd k u) = None ->
  (nodeInv c w s0 m0 ({[u]} ∪ D) (enqueueUpdate f u k) (E ++ [u]) /\
   updateQueue (fib (enqueueUpdate f u k) w) <> None) /\
  (forall v, eraseNext (upd (enqueueUpdate f u k) v) = eraseNext (upd k v)) /\
  dom (updates k) ⊆ dom (updates (enqueueUpdate f u k)).
Proof.
  intros Hi Hf Hu Hud Hn.
  pose proof Hi as (Hp & _).
  destruct Hp as [[Ecw Ha]|(Hcw & Hac & Haw)].
  - (* a fiber without alternate *)
    assert (f = w) as -> by (destruct Hf; congruence).
    rewrite (enqueueUpdate_lone w u k Ha).
    destruct (updateQueue (fib k w)) as [q|] eqn:Ew.
    + assert (appendUpdateToQueue q u k = appendToBoth q q u k) as ->.
      { unfold appendToBoth. by rewrite decide_True. }
      destruct (appendToBoth_frame q q u k) as (_ & Fu & _ & Fd & _).
      split; [|done].
      apply (nodeInv_appendToBoth c w s0 m0 D k E q q); auto; by rewrite Ecw.
    + destruct (nodeInv_create D k E Hi Ecw Ew) as (Uw & Hu1 & Hi1).
      cbv zeta in *.
      set (q := fresh (dom (queues k))) in *.
      set (k1 := set_updateQueue w (Some q) (putQueue q _ k)) in *.
      assert (appendUpdateToQueue q u k1 = appendToBoth q q u k1) as ->.
      { unfold appendToBoth. by rewrite decide_True. }
      destruct (appendToBoth_frame q q u k1) as (_ & Fu & _ & Fd & _).
      assert (Hupd : forall v, upd k1 v = upd k v) by (intros v; unfold upd; by rewrite Hu1).
      split; [|split; [intros v; by rewrite Fu, Hupd|by rewrite Hu1 in Fd]].
      apply (nodeInv_appendToBoth c w s0 m0 D k1 E q q); auto;
        first [by rewrite Ecw|by rewrite Hu1|by rewrite Hupd].
  - (* a pair of fibers *)
    set (o := if decide (f = c) then w else c).
    assert (Hfo : w = f /\ c = o \/ w = o /\ c = f).
    { unfold o. destruct Hf as [->| ->].
      - rewrite decide_True by done. by right.
      - rewrite decide_False by done. by left. }
    assert (Hao : alternate (fib k f) = Some o).
    { destruct Hfo as [[<- <-]|[<- <-]]; done. }
    rewrite (enqueueUpdate_halves f o) by done.
    destruct (nodeInv_bothQueues D k E f o Hi Hcw Hfo)
      as (q1 & q2 & k1 & qw & qc & -> & Uw & Uc & Hq & Hu1 & Hi1).
    destruct (appendToBoth_frame q1 q2 u k1) as (_ & Fu & _ & Fd & _).
    assert (Hupd : forall v, upd k1 v = upd k v) by (intros v; unfold upd; by rewrite Hu1).
    split; [|split; [intros v; by rewrite Fu, Hupd|by rewrite Hu1 in Fd]].
    apply (nodeInv_appendToBoth c w s0 m0 D k1 E qw qc); auto;
      first [by rewrite Hu1|by rewrite Hupd].
Qed.

(** [enqueueUpdate] of a new record. *)
Lemma nodeInv_enqueue onWip e t p cb h E :
  nodeInv c w s0 m0 (dom (updates h)) h E ->
  exists u h',
    enqueueNewUpdate (if onWip : bool then w else c) e t p cb h = (u, h') /\
    (u ∉ dom (updates h)) /\
    nodeInv c w s0 m0 (dom (updates h')) h' (E ++ [u]) /\
    eraseNext (upd h' u) = mkUpdate e t p cb None None /\
    (forall v, v <> u -> eraseNext (upd h' v) = eraseNext (upd h v)) /\
    dom (updates h) ⊆ dom (updates h') /\
    updateQueue (fib h' w) <> None.
Proof.
  intros Hi.
  rewrite enqueueNewUpdate_eq.
  destruct (newUpdate_spec e t p cb h) as (Hfresh & Hu & Hother & Hqs & Hfs & Hd).
  set (u := fresh (dom (updates h))) in *.
  set (h4 := set_callback u cb (set_payload u p (set_tag u t (createUpdate e h).2))) in *.
  set (f := if onWip then w else c).
  assert (Hi4 : nodeInv c w s0 m0 (dom (updates h)) h4 E).
  { apply (nodeInv_frame c w s0 m0 _ h); try done.
    - intros v Hv. apply Hother. intros ->. done.
    - rewrite Hd. set_solver. }
  destruct (nodeInv_enqueueUpdate (dom (updates h)) h4 E f u Hi4) as ((Hi' & Hw') & He & Hdm).
  { unfold f. destruct onWip; auto. }
  { done. }
  { rewrite Hd. set_solver. }
  { by rewrite Hu. }
  exists u, (enqueueUpdate f u h4). split; [done|]. split; [done|].
  split.
  { apply (nodeInv_weaken c w s0 m0 ({[u]} ∪ dom (updates h))); [done| |done].
    rewrite <- Hd. done. }
  split; [by rewrite He, Hu|].
  split; [intros v Hv; by rewrite He, Hother|].
  split; [|done]. rewrite Hd in Hdm. set_solver.
Qed.

End NodeEnqueue.

Section NodeRun.
Context `{Imports}.
Context (c w : nat) (s0 m0 : Value).

(** A sequence of calls on the node runs to its end and keeps the
    invariant. *)
Lemma runNode_inv fuel calls : forall h E0,
  nodeInv c w s0 m0 (dom (updates h)) h E0 -> (length E0 + length calls <= fuel)%nat ->
  exists E h',
    runNode fuel c w calls h = Some (E, h') /\
    nodeInv c w s0 m0 (dom (updates h')) h' (E0 ++ E) /\
    (forall v, v ∈ dom (updates h) ->
       eraseNext (eraseNextEffect (upd h' v)) = eraseNext (eraseNextEffect (upd h v))) /\
    Forall2 (scheduledAs h') E (scheduledBy calls) /\
    (forall u, u ∈ E -> u ∉ dom (updates h)) /\
    (updateQueue (fib h' w) = None -> E = [] /\ updateQueue (fib h w) = None).
Proof.
  induction calls as [|[onWip e t p cb|props instance render] calls IH];
    intros h E0 Hi Hfuel.
  - exists [], h. split; [done|]. rewrite app_nil_r. split; [done|]. split; [done|].
    split; [by apply Forall2_nil|]. split; [by intros ? ?%elem_of_nil|done].
  - destruct (nodeInv_enqueue c w s0 m0 onWip e t p cb h E0 Hi)
      as (u & h1 & E1 & Hu & Hi1 & D1 & D2 & Hd1 & Hw1).
    destruct (IH h1 (E0 ++ [u]) Hi1) as (E & h' & E2 & Hi2 & D3 & D4 & D5 & D6).
    { rewrite length_app. simpl in *. lia. }
    cbn [runNode]. rewrite E1, E2. exists (u :: E), h'. split; [done|].
    split; [by rewrite <- app_assoc in Hi2|].
    assert (Hu1 : u ∈ dom (updates h1)).
    { destruct Hi1 as (_ & _ & Hd & _). apply Hd. apply elem_of_app. right.
      apply list_elem_of_here. }
    split.
    { intros v Hv. assert (v <> u) as Hne by (intros ->; done).
      rewrite D3 by (by apply Hd1). specialize (D2 v Hne).
      apply (f_equal eraseNextEffect) in D2. exact D2. }
    split.
    { apply Forall2_cons. split; [|done]. unfold scheduledAs. simpl.
      rewrite D3 by done. apply (f_equal eraseNextEffect) in D1. exact D1. }
    split.
    { intros v [->|Hv]%elem_of_cons; [done|]. intros Hin. by apply (D5 v Hv), Hd1. }
    intros Hn. destruct (D6 Hn) as [_ Hn1]. done.
  - cbn [runNode]. destruct (updateQueue (fib h w)) as [q|] eqn:Eq.
    + destruct (nodeInv_process c w s0 m0 fuel props instance render _ h E0 q Hi Eq)
        as (h1 & E1 & Hi1 & S1 & Hd1 & Hw1); [lia|].
      rewrite E1.
      assert (Hi1' : nodeInv c w s0 m0 (dom (updates h1)) h1 E0).
      { apply (nodeInv_weaken c w s0 m0 (dom (updates h))); done. }
      destruct (IH h1 E0 Hi1') as (E & h' & E2 & Hi2 & D3 & D4 & D5 & D6); [simpl in *; lia|].
      exists E, h'. split; [done|]. split; [done|]. split.
      { intros v Hv. rewrite D3 by (by apply Hd1). by rewrite (S1 v). }
      split; [done|]. split.
      { intros v Hv Hin. by apply (D5 v Hv), Hd1. }
      intros Hn. destruct (D6 Hn) as [_ Hn1]. done.
    + destruct (IH h E0 Hi) as (E & h' & E2 & Hi2 & D3 & D4 & D5 & D6); [simpl in *; lia|].
      exists E, h'. repeat (split; [done|]). intros Hn. by destruct (D6 Hn).
Qed.

Lemma nodeInv_noneLost D h E q :
  nodeInv c w s0 m0 D h E -> updateQueue (fib h w) = Some q ->
  noneLost s0 m0 w q E h /\ firstCapturedUpdate (que h q) = None /\ NoDup E.
Proof.
  intros (_ & _ & _ & Hnd & Hq) Eq. rewrite Eq in Hq.
  destruct Hq as (P & C & Lb & Lm & Q).
  destruct Q as [Q1 (_ & Q2 & _) Q3 Q4 Q5 Q6 Q7 Q8 Q9].
  split; [by exists C, Lm|done].
Qed.

End NodeRun.

(** A node at rest satisfies the invariant, its pending updates being the
    updates so far. *)
Lemma nodeInv_initial c w h pc pw :
  nodeAtRest c w h pc pw ->
  nodeInv c w (startState c w h) (memoizedState (fib h w)) (dom (updates h)) h
    (startList w h pc pw).
Proof.
  intros [Hp Hc Hw Ht Ha]. unfold startState, startList.
  split; [done|]. split; [done|].
  destruct (updateQueue (fib h w)) as [qw|] eqn:Ew.
  - destruct Hw as [Hh Hcap].
    split; [intros u Hu; apply Ha, elem_of_app; by right|].
    split; [destruct Hh as (_ & Hh & _); by eapply chain_NoDup|].
    exists [], pw, [], []. constructor.
    + done.
    + done.
    + done.
    + done.
    + done.
    + by right.
    + apply sublist_nil_l.
    + intros u Hu. by right.
    + destruct (updateQueue (fib h c)) as [qc|]; [|done].
      right. exists pc. split; [done|]. split; [done|].
      intros u Hu. apply Ha, elem_of_app. by left.
  - subst pw.
    split; [intros u Hu; apply Ha, elem_of_app; by left|].
    destruct (updateQueue (fib h c)) as [qc|] eqn:Ec.
    + split; [destruct Hc as (_ & Hc & _); by eapply chain_NoDup|]. done.
    + subst pc. split; [apply NoDup_nil_2|]. done.
Qed.

Lemma noneLost_frame s0 m0 w q E h h' :
  noneLost s0 m0 w q E h ->
  fibers h' = fibers h ->
  firstUpdate (que h' q) = firstUpdate (que h q) ->
  (forall u, withCallback None (upd h' u) = withCallback None (upd h u)) ->
  noneLost s0 m0 w q E h'.
Proof.
  intros (pending & applied & Hc & Hm & Hs & Ha) Hf Hq Hu.
  exists pending, applied. split.
  - rewrite Hq. eapply chain_ext; [|exact Hc].
    intros u. unfold nextOf. pose proof (Hu u) as E1. by apply (f_equal next) in E1.
  - split; [|done]. unfold fib. rewrite Hf. fold (fib h w).
    destruct Hm as [Hm|Hm]; [left|by right]. rewrite Hm.
    symmetry. apply applyEach_ext. intros u _.
    pose proof (Hu u) as E1. split.
    + by apply (f_equal tag) in E1.
    + by apply (f_equal payload) in E1.
Qed.

Section NonLossClaim.
Context `{Imports}.

(** C1. No update is lost.  Take a node at rest: a fiber [w] that is
    rendered and its alternate [c], or a fiber without alternate
    ([c = w]); each fiber without queue or with an allocated one, its own
    or the one the other fiber holds, whose list may hold updates scheduled
    earlier.  Any sequence of calls that enqueue a new update on either
    fiber or process the queue of [w] runs to its end; the updates it
    enqueued are new, distinct records carrying the fields of the calls;
    and when [w] has a queue at the end, every update, those scheduled
    earlier and those enqueued, is reflected in [memoizedState] or is still
    in the list of [queue.firstUpdate], both before [commitUpdateQueue]
    and in every state that [commitUpdateQueue] returns.  The commit does
    return when the two effect lists it walks are well formed and the fuel
    covers them.  When [w] has no queue at the end, nothing was
    enqueued. *)
Theorem no_update_lost c w calls instance render fuel fuelc h pc pw :
  nodeAtRest c w h pc pw ->
  (length (startList w h pc pw) + length calls <= fuel)%nat ->
  exists enqueued h1,
    runNode fuel c w calls h = Some (enqueued, h1) /\
    Forall2 (scheduledAs h1) enqueued (scheduledBy calls) /\
    NoDup enqueued /\
    (forall u, u ∈ enqueued -> u ∉ dom (updates h)) /\
    (updateQueue (fib h1 w) = None -> enqueued = []) /\
    forall queue, updateQueue (fib h1 w) = Some queue ->
      let base := startState c w h in
      let untouched := memoizedState (fib h w) in
      let every := startList w h pc pw ++ enqueued in
      noneLost base untouched w queue every h1 /\
      (forall completion h2,
         commitUpdateQueue fuelc w queue instance render h1 = Some (completion, h2) ->
         noneLost base untouched w queue every h2) /\
      (forall es1 es2,
         chain (nextEffectOf h1) (firstEffect (que h1 queue)) es1 ->
         chain (nextEffectOf h1) (firstCapturedEffect (que h1 queue)) es2 ->
         (length es1 <= fuelc)%nat -> (length es2 <= fuelc)%nat ->
         exists completion h2,
           commitUpdateQueue fuelc w queue instance render h1 = Some (completion, h2)).
Proof.
  intros Hr Hfuel.
  pose proof (nodeInv_initial c w h pc pw Hr) as Hi.
  destruct (runNode_inv c w _ _ fuel calls h _ Hi Hfuel)
    as (E & h1 & Er & Hi1 & _ & Hs & Hnew & Hnone).
  exists E, h1. split; [done|]. split; [done|].
  assert (Hnd : NoDup E).
  { destruct Hi1 as (_ & _ & _ & Hnd & _). by apply NoDup_app in Hnd as (_ & _ & ?). }
  split; [done|]. split; [done|].
  split; [intros Hn; by destruct (Hnone Hn)|].
  intros q Eq base untouched every.
  destruct (nodeInv_noneLost c w _ _ _ _ _ q Hi1 Eq) as (Hn & Hc & _).
  split; [done|]. split.
  - intros completion h2 Ec.
    destruct (commitUpdateQueue_frame _ _ _ _ _ _ _ _ Ec Hc) as (F1 & F2 & F3).
    by apply (noneLost_frame _ _ w q _ h1).
  - intros es1 es2 H1 H2 L1 L2.
    destruct (commitUpdateQueue_run fuelc w q instance render h1 es1 es2 H1 H2 L1 L2)
      as (completion & h2 & rs & evs & Ec & _).
    by exists completion, h2.
Qed.

End NonLossClaim.

Lemma no_update_lost_witness :
  let h := sharedQueue in
  exists enqueued h1 completion h2,
    runNode (H := reactImports) 7 0%nat 1%nat interleaved h = Some (enqueued, h1) /\
    updateQueue (fib h1 1%nat) = Some 2%nat /\
    commitUpdateQueue 1 1%nat 2%nat VNull 2 h1 = Some (completion, h2) /\
    noneLost (startState 0%nat 1%nat h) (memoizedState (fib h 1%nat)) 1%nat 2%nat
      ([0; 1]%nat ++ enqueued) h2.
Proof.
  intros h.
  assert (Hq : updateQueue (fib h 0%nat) = Some 0%nat /\ updateQueue (fib h 1%nat) = Some 0%nat)
    by (vm_compute; split; reflexivity).
  destruct Hq as [Hq0 Hq1].
  assert (Hh : holds h 0%nat [0; 1]%nat).
  { split; [apply elem_of_dom; eexists; vm_compute; reflexivity|].
    vm_compute. repeat split; reflexivity. }
  assert (Hr : nodeAtRest 0%nat 1%nat h [0; 1]%nat [0; 1]%nat).
  { constructor.
    - right. split; [lia|]. vm_compute. split; reflexivity.
    - rewrite Hq0. exact Hh.
    - rewrite Hq1. split; [exact Hh|]. vm_compute. reflexivity.
    - right; right. reflexivity.
    - intros u Hu. apply elem_of_dom.
      repeat (apply elem_of_cons in Hu as [->|Hu]; [eexists; vm_compute; reflexivity|]).
      by apply elem_of_nil in Hu. }
  assert (Hs : startList 1%nat h [0; 1]%nat [0; 1]%nat = [0; 1]%nat).
  { unfold startList. by rewrite Hq1. }
  assert (Hf : (length (startList 1%nat h [0; 1]%nat [0; 1]%nat) + length interleaved <= 7)%nat).
  { rewrite Hs. simpl. lia. }
  destruct (no_update_lost (H := reactImports) 0%nat 1%nat interleaved VNull 2 7 1 h
              [0; 1]%nat [0; 1]%nat Hr Hf) as (enqueued & h1 & Er & _ & _ & _ & _ & Hq).
  pose (r := match runNode (H := reactImports) 7 0%nat 1%nat interleaved h with
             | Some (_, x) => x
             | None => h
             end).
  assert (Eh : h1 = r) by (unfold r; by rewrite Er).
  assert (Eq : updateQueue (fib h1 1%nat) = Some 2%nat)
    by (rewrite Eh; vm_compute; reflexivity).
  destruct (Hq 2%nat Eq) as (_ & Hc & Ht).
  destruct (Ht [4%nat] []) as (completion & h2 & Ec).
  { rewrite Eh. vm_compute. repeat split; reflexivity. }
  { rewrite Eh. vm_compute. reflexivity. }
  { simpl; lia. }
  { simpl; lia. }
  exists enqueued, h1, completion, h2.
  split; [exact Er|]. split; [exact Eq|]. split; [exact Ec|].
  rewrite <- Hs. exact (Hc completion h2 Ec).
Defined.
